(** * Deadlock-Go: the dynamic deadlock detector, embedded in Rocq

    A shallow embedding of the Go package [deadlock]: the drop-in mutex
    and rw-mutex wrappers, the per-routine lock trees, the dependency
    stack, the chain and cycle predicates and the two depth-first
    searches.  Every Go function is a Rocq function of the same name;
    Go structs are records (one module per struct, so that field names
    can be kept), pointers to wrappers are addresses into a store, and
    run-time panics, [os.Exit] and a goroutine parking in a [sync]
    primitive are explicit results. *)

From stdpp Require Import base numbers option list list_numbers gmap strings pretty.

Local Open Scope Z_scope.

(** ** Go values *)

(** Heap addresses.  A [mutexInt] interface value is a pointer to a
    [Mutex] or [RWMutex] wrapper, or nil: [option loc]. One address holds
    one wrapper, so interface equality ([==]) is equality of addresses. *)
Definition loc := positive.
Abbreviation mutexInt := (option loc).

(** Go's [int] is 64 bits wide; [int_wrap] is its two's-complement
    wrap-around. *)
Definition int_wrap (z : Z) : Z := (z + 2 ^ 63) `mod` 2 ^ 64 - 2 ^ 63.
Definition int_add (a b : Z) : Z := int_wrap (a + b).
Definition int_sub (a b : Z) : Z := int_wrap (a - b).
Definition int_range (z : Z) : Prop := - 2 ^ 63 ≤ z < 2 ^ 63.

(** callerInfo.go *)
Module callerInfo.
Record t := mk {
  file : string;
  line : Z;
  create : bool;
  callStacks : string
}.
End callerInfo.
Abbreviation callerInfo := callerInfo.t.

Definition newInfo (file : string) (line : Z) (create : bool) (callStack : string)
  : callerInfo :=
  callerInfo.mk file line create callStack.

(** dependency.go.  A [*dependency] is an allocated object whose fields
    are written only while [updateLock] builds it; it is modelled as its
    address [ptr] together with the fields, and pointer equality is
    equality of [ptr]. The nil pointer is [None]. *)
Module dependency.
Record t := mk {
  ptr : loc;
  mu : mutexInt;
  holdingSet : list mutexInt;
  holdingCount : Z
}.
End dependency.
Abbreviation dependency := dependency.t.

(** stack.go.  The [prev]/[next] links of the doubly linked list are the
    order of the list [depStack.chain] below. *)
Module stackElement.
Record t := mk {
  depEntry : option dependency;
  index : Z
}.
End stackElement.
Abbreviation stackElement := stackElement.t.

(** What report.go writes to standard error; the formatting is left out. *)
Inductive report : Type :=
| reportDeadlockDoubleLocking (m : mutexInt)
| reportDeadlock (stack : list stackElement)
| reportDeadlockPeriodical.

(** ** Results of running Go code

    [Ok]: the call returned; [Panic]: a run-time panic; [Exit]: [os.Exit],
    with what had been written to standard error; [Blocked]: the goroutine
    is parked in a [sync] primitive; [OutOfFuel]: the recursion budget of a
    search of this model ran out. The budget that [detect] gives the
    comprehensive search is enough, as is shown with the searches below;
    the periodical search takes its budget as an argument.

    A run ends at its first panic: [Panic] carries no state, and what a
    program that recovers from a panic of the library would find in the
    package's variables afterwards is not described. *)

Inductive result (A : Type) : Type :=
| Ok (a : A)
| Panic (msg : string)
| Exit (code : Z) (stderr : list report)
| Blocked
| OutOfFuel.
Arguments Ok {A} a.
Arguments Panic {A} msg.
Arguments Exit {A} code stderr.
Arguments Blocked {A}.
Arguments OutOfFuel {A}.

(** Sequencing: the first result that is not [Ok] ends the computation. *)
Definition bind {A B} (r : result A) (f : A → result B) : result B :=
  match r with
  | Ok a => f a
  | Panic msg => Panic msg
  | Exit c e => Exit c e
  | Blocked => Blocked
  | OutOfFuel => OutOfFuel
  end.

Notation "'let*' x := y 'in' z" := (bind y (λ x, z))
  (at level 10, x pattern, y at level 100, z at level 200,
   format "'[v' 'let*'  x  :=  y  'in'  '/' z ']'").

Definition is_Ok {A} (r : result A) : Prop := ∃ a, r = Ok a.

(** [s[i]] and [s[i] = x] on a slice, with Go's bounds check. *)
Definition slice_get {A} (s : list A) (i : Z) : result A :=
  if decide (0 ≤ i) then
    match s !! Z.to_nat i with
    | Some x => Ok x
    | None => Panic "index out of range"
    end
  else Panic "index out of range".

Definition slice_set {A} (s : list A) (i : Z) (x : A) : result (list A) :=
  if decide (0 ≤ i < Z.of_nat (length s)) then Ok (<[Z.to_nat i := x]> s)
  else Panic "index out of range".

(** [make([]T, n)] and [copy(dst, src)]. *)
Definition make {A} (n : Z) (zero : A) : result (list A) :=
  if decide (0 ≤ n) then Ok (replicate (Z.to_nat n) zero)
  else Panic "makeslice: len out of range".

Definition copy {A} (dst src : list A) : list A :=
  let n := Nat.min (length dst) (length src) in
  take n src ++ drop n dst.

(** Loops.  The body answers [Some r] to leave the loop with [r]
    ([break] or [return]) and [None] to go on. *)
Fixpoint forEach {I R} (body : I → result (option R)) (xs : list I)
  : result (option R) :=
  match xs with
  | [] => Ok None
  | i :: xs' =>
      match body i with
      | Ok None => forEach body xs'
      | r => r
      end
  end.

(** A loop without [break] that updates its variables [s]. *)
Fixpoint foldM {I S} (body : S → I → result S) (s : S) (xs : list I) : result S :=
  match xs with
  | [] => Ok s
  | i :: xs' => let* s' := body s i in foldM body s' xs'
  end.

(** A loop that updates its variables [s] and may be left by [return r]:
    the body answers [inl s'] to go on and [inr r] to return. *)
Fixpoint loopM {I S R} (body : S → I → result (S + R)) (s : S) (xs : list I)
  : result (S + R) :=
  match xs with
  | [] => Ok (inl s)
  | i :: xs' =>
      let* r := body s i in
      match r with
      | inl s' => loopM body s' xs'
      | inr r => Ok (inr r)
      end
  end.

(** [for i := lo; i < hi; i++] *)
Definition forRange {R} (lo hi : Z) (body : Z → result (option R))
  : result (option R) :=
  forEach body (seqZ lo (hi - lo)).

(** [for i := hi - 1; i >= 0; i--] *)
Definition forDown {R} (hi : Z) (body : Z → result (option R))
  : result (option R) :=
  forEach body (reverse (seqZ 0 hi)).

(** ** options.go *)
Module options.
Record t := mk {
  activated : bool;
  periodicDetection : bool;
  comprehensiveDetection : bool;
  collectCallStack : bool;
  collectSingleLevelLockStack : bool;
  checkDoubleLocking : bool;
  maxDependencies : Z;
  maxNumberOfDependentLocks : Z;
  maxRoutines : Z;
  maxCallStackSize : Z
}.
End options.
Abbreviation options := options.t.

(** The initial value of [opts] ([periodicDetectionTime], two seconds,
    only sets the ticker and is left out). *)
Definition default_opts : options :=
  options.mk true true true false true true 4096 128 1024 2048.

(** ** mutex.go *)
Module Mutex.
Record t := mk {
  mu : loc;                             (* *sync.Mutex *)
  context : list callerInfo;
  in_ : bool;
  numberLocked : Z;
  isLockedRoutineIndex : gmap Z Z;
  memoryPosition : Z
}.
Definition getLock (m : t) : bool * option loc * option loc := (true, Some (mu m), None).
Definition getRLock (m : t) (routineIndex : Z) : bool := false.
Definition setRLock (m : t) (routineIndex : Z) (value : bool) : t := m.
End Mutex.

(** ** rwMutex.go *)
Module RWMutex.
Record t := mk {
  mu : loc;                             (* *sync.RWMutex *)
  context : list callerInfo;
  in_ : bool;
  numberLocked : Z;
  isLockedRoutineIndex : gmap Z Z;
  memoryPosition : Z;
  isRLock : gmap Z bool
}.
Definition getLock (m : t) : bool * option loc * option loc := (false, None, Some (mu m)).
(** [ok, res := m.isRLock[routineIndex]]: the first result of a map read
    is the stored value (false when absent), the second says whether the
    key is present; the source binds them to [ok] and [res] in that
    order. *)
Definition getRLock (m : t) (routineIndex : Z) : bool :=
  let ok := default false (isRLock m !! routineIndex) in
  let res := bool_decide (is_Some (isRLock m !! routineIndex)) in
  if negb ok then false else res.
Definition setRLock (m : t) (routineIndex : Z) (value : bool) : t :=
  mk (mu m) (context m) (in_ m) (numberLocked m) (isLockedRoutineIndex m)
     (memoryPosition m) (<[routineIndex := value]> (isRLock m)).
End RWMutex.

(** ** mutexInt.go: the interface, dispatched on the wrapper's type *)
Inductive lockObj : Type :=
| MutexObj (m : Mutex.t)
| RWMutexObj (m : RWMutex.t).

Module obj.
Definition getNumberLocked (o : lockObj) : Z :=
  match o with
  | MutexObj m => Mutex.numberLocked m
  | RWMutexObj m => RWMutex.numberLocked m
  end.
Definition setNumberLocked (o : lockObj) (n : Z) : lockObj :=
  match o with
  | MutexObj m =>
      MutexObj (Mutex.mk (Mutex.mu m) (Mutex.context m) (Mutex.in_ m) n
                  (Mutex.isLockedRoutineIndex m) (Mutex.memoryPosition m))
  | RWMutexObj m =>
      RWMutexObj (RWMutex.mk (RWMutex.mu m) (RWMutex.context m) (RWMutex.in_ m) n
                    (RWMutex.isLockedRoutineIndex m) (RWMutex.memoryPosition m)
                    (RWMutex.isRLock m))
  end.
Definition getIsLockedRoutineIndex (o : lockObj) : gmap Z Z :=
  match o with
  | MutexObj m => Mutex.isLockedRoutineIndex m
  | RWMutexObj m => RWMutex.isLockedRoutineIndex m
  end.
Definition setIsLockedRoutineIndex (o : lockObj) (c : gmap Z Z) : lockObj :=
  match o with
  | MutexObj m =>
      MutexObj (Mutex.mk (Mutex.mu m) (Mutex.context m) (Mutex.in_ m)
                  (Mutex.numberLocked m) c (Mutex.memoryPosition m))
  | RWMutexObj m =>
      RWMutexObj (RWMutex.mk (RWMutex.mu m) (RWMutex.context m) (RWMutex.in_ m)
                    (RWMutex.numberLocked m) c (RWMutex.memoryPosition m)
                    (RWMutex.isRLock m))
  end.
Definition getContext (o : lockObj) : list callerInfo :=
  match o with
  | MutexObj m => Mutex.context m
  | RWMutexObj m => RWMutex.context m
  end.
Definition setContext (o : lockObj) (c : list callerInfo) : lockObj :=
  match o with
  | MutexObj m =>
      MutexObj (Mutex.mk (Mutex.mu m) c (Mutex.in_ m) (Mutex.numberLocked m)
                  (Mutex.isLockedRoutineIndex m) (Mutex.memoryPosition m))
  | RWMutexObj m =>
      RWMutexObj (RWMutex.mk (RWMutex.mu m) c (RWMutex.in_ m)
                    (RWMutex.numberLocked m) (RWMutex.isLockedRoutineIndex m)
                    (RWMutex.memoryPosition m) (RWMutex.isRLock m))
  end.
Definition getMemoryPosition (o : lockObj) : Z :=
  match o with
  | MutexObj m => Mutex.memoryPosition m
  | RWMutexObj m => RWMutex.memoryPosition m
  end.
Definition getIn (o : lockObj) : bool :=
  match o with
  | MutexObj m => Mutex.in_ m
  | RWMutexObj m => RWMutex.in_ m
  end.
Definition getLock (o : lockObj) : bool * option loc * option loc :=
  match o with
  | MutexObj m => Mutex.getLock m
  | RWMutexObj m => RWMutex.getLock m
  end.
Definition getRLock (o : lockObj) (routineIndex : Z) : bool :=
  match o with
  | MutexObj m => Mutex.getRLock m routineIndex
  | RWMutexObj m => RWMutex.getRLock m routineIndex
  end.
Definition setRLock (o : lockObj) (routineIndex : Z) (value : bool) : lockObj :=
  match o with
  | MutexObj m => MutexObj (Mutex.setRLock m routineIndex value)
  | RWMutexObj m => RWMutexObj (RWMutex.setRLock m routineIndex value)
  end.
End obj.

(** The store of wrappers.  Calling a method through a nil interface, or
    through an address that holds no wrapper, panics. *)
Definition deref (σ : gmap loc lockObj) (m : mutexInt) : result lockObj :=
  match m with
  | None => Panic "nil pointer dereference"
  | Some l =>
      match σ !! l with
      | Some o => Ok o
      | None => Panic "nil pointer dereference"
      end
  end.

Definition getLock (σ : gmap loc lockObj) (m : mutexInt)
  : result (bool * option loc * option loc) :=
  let* o := deref σ m in Ok (obj.getLock o).
Definition getRLock (σ : gmap loc lockObj) (m : mutexInt) (routineIndex : Z)
  : result bool :=
  let* o := deref σ m in Ok (obj.getRLock o routineIndex).
Definition getMemoryPosition (σ : gmap loc lockObj) (m : mutexInt) : result Z :=
  let* o := deref σ m in Ok (obj.getMemoryPosition o).
Definition setRLock (σ : gmap loc lockObj) (m : mutexInt) (routineIndex : Z)
  (value : bool) : result (gmap loc lockObj) :=
  match m with
  | None => Panic "nil pointer dereference"
  | Some l =>
      let* o := deref σ m in Ok (<[l := obj.setRLock o routineIndex value]> σ)
  end.

(** ** stack.go *)
Module depStack.
Record t := mk {
  stack : stackElement;          (* the empty bottom element *)
  chain : list stackElement      (* the elements linked after it, bottom first *)
}.
(** [s.top] *)
Definition top (s : t) : stackElement := List.last (chain s) (stack s).
(** [s.stack.next] *)
Definition next (s : t) : option stackElement := head (chain s).
End depStack.
Abbreviation depStack := depStack.t.

Definition newStackElement (dep : option dependency) (i : Z) : stackElement :=
  stackElement.mk dep i.

Definition newDepStack : depStack :=
  depStack.mk (newStackElement None (-1)) [].

Definition push (s : depStack) (dep : option dependency) (index : Z) : depStack :=
  depStack.mk (depStack.stack s) (depStack.chain s ++ [newStackElement dep index]).

Definition pop (s : depStack) : depStack :=
  match depStack.chain s with
  | [] => s
  | _ => depStack.mk (depStack.stack s) (removelast (depStack.chain s))
  end.

(** A nil [*dependency] cannot be read through. *)
Definition deref_dep (d : option dependency) : result dependency :=
  match d with
  | Some d => Ok d
  | None => Panic "nil pointer dereference"
  end.

(** [c.depEntry == dep] on pointers. *)
Definition dep_ptr_eqb (a b : option dependency) : bool :=
  bool_decide (dependency.ptr <$> a = dependency.ptr <$> b).

(** ** stack.go, with the elements on a heap

    The stack as the source has it: elements that point to their
    neighbours, and a stack that points to its bottom and its top
    element. An element is allocated when [push] takes the address of its
    variable [cl]. *)
Module element.
Record t := mk {
  depEntry : option dependency;
  index : Z;
  prev : option loc;
  next : option loc
}.
Definition set_next (e : t) (n : option loc) : t := mk (depEntry e) (index e) (prev e) n.
Definition set_prev (e : t) (p : option loc) : t := mk (depEntry e) (index e) p (next e).
End element.

Module stackHeap.
Record t := mk {
  cells : gmap loc element.t;
  free : loc
}.
End stackHeap.

Module depStackRef.
Record t := mk {
  stack : option loc;
  top : option loc
}.
End depStackRef.

Definition newStackElement_ref (dep : option dependency) (i : Z) : element.t :=
  element.mk dep i None None.

(** Reading and writing through a [*stackElement]. *)
Definition deref_element (h : stackHeap.t) (p : option loc) : result element.t :=
  match p with
  | None => Panic "nil pointer dereference"
  | Some a =>
      match stackHeap.cells h !! a with
      | Some e => Ok e
      | None => Panic "nil pointer dereference"
      end
  end.

Definition update_element (h : stackHeap.t) (p : option loc) (f : element.t → element.t)
  : result stackHeap.t :=
  match p with
  | None => Panic "nil pointer dereference"
  | Some a =>
      let* e := deref_element h p in
      Ok (stackHeap.mk (<[a := f e]> (stackHeap.cells h)) (stackHeap.free h))
  end.

(** [&cl] for a new variable [cl] with the value [e]. *)
Definition alloc_element (h : stackHeap.t) (e : element.t) : stackHeap.t * option loc :=
  (stackHeap.mk (<[stackHeap.free h := e]> (stackHeap.cells h)) (Pos.succ (stackHeap.free h)),
   Some (stackHeap.free h)).

Definition newDepStack_ref (h : stackHeap.t) : stackHeap.t * depStackRef.t :=
  let '(h, cl) := alloc_element h (newStackElement_ref None (-1)) in
  let c := depStackRef.mk cl None in
  (h, depStackRef.mk (depStackRef.stack c) (depStackRef.stack c)).

Definition push_ref (h : stackHeap.t) (s : depStackRef.t) (dep : option dependency)
  (index : Z) : result (stackHeap.t * depStackRef.t) :=
  let '(h, cl) := alloc_element h (newStackElement_ref dep index) in
  let* h := update_element h (depStackRef.top s) (λ e, element.set_next e cl) in
  let* h := update_element h cl (λ e, element.set_prev e (depStackRef.top s)) in
  Ok (h, depStackRef.mk (depStackRef.stack s) cl).

Definition pop_ref (h : stackHeap.t) (s : depStackRef.t)
  : result (stackHeap.t * depStackRef.t) :=
  if bool_decide (depStackRef.top s = depStackRef.stack s) then Ok (h, s)
  else
    let* top := deref_element h (depStackRef.top s) in
    let* h := update_element h (element.prev top) (λ e, element.set_next e (element.next top)) in
    let* top := deref_element h (depStackRef.top s) in
    Ok (h, depStackRef.mk (depStackRef.stack s) (element.prev top)).

(** [for cl := stack.stack.next; cl != nil; cl = cl.next]: the elements
    that the loop visits, at most [fuel] of them. *)
Fixpoint walk (fuel : nat) (h : stackHeap.t) (cl : option loc) : result (list stackElement) :=
  match cl with
  | None => Ok []
  | Some _ =>
      match fuel with
      | O => OutOfFuel
      | S fuel =>
          let* e := deref_element h cl in
          let* rest := walk fuel h (element.next e) in
          Ok (stackElement.mk (element.depEntry e) (element.index e) :: rest)
      end
  end.

Definition elements_of (fuel : nat) (h : stackHeap.t) (s : depStackRef.t)
  : result (list stackElement) :=
  let* bottom := deref_element h (depStackRef.stack s) in
  walk fuel h (element.next bottom).

(** ** detector.go: checks for chains and cycles *)

Definition mutexHaveEqualLock (σ : gmap loc lockObj) (m1 m2 : mutexInt)
  : result bool :=
  let* (isMutex1, mutex1, rwmutex1) := getLock σ m1 in
  let* (isMutex2, mutex2, rwmutex2) := getLock σ m2 in
  if negb (eqb isMutex1 isMutex2) then Ok false
  else if isMutex1 && bool_decide (mutex1 = mutex2) then Ok true
  else if negb isMutex1 && bool_decide (rwmutex1 = rwmutex2) then Ok true
  else Ok false.

(** [a && b] of Go evaluates [b] only when [a] is true. *)
Definition andThen (a : result bool) (b : result bool) : result bool :=
  let* x := a in if x then b else Ok false.

Definition isChain (σ : gmap loc lockObj) (stack : depStack) (dep : dependency)
  (routineIndex : Z) : result bool :=
  let* found := forRange 0 (dependency.holdingCount dep) (λ i,
    let* mutexInHs := slice_get (dependency.holdingSet dep) i in
    let* topDep := deref_dep (stackElement.depEntry (depStack.top stack)) in
    let* eq := mutexHaveEqualLock σ mutexInHs (dependency.mu topDep) in
    if eq then
      let* bothRead := andThen (getRLock σ mutexInHs routineIndex)
                         (getRLock σ (dependency.mu topDep)
                                   (stackElement.index (depStack.top stack))) in
      if negb bothRead then Ok (Some true) else Ok None
    else Ok None) in
  if negb (default false found) then Ok false
  else
    let* bad := forEach (λ c : stackElement,
      if dep_ptr_eqb (stackElement.depEntry c) (Some dep) then Ok (Some false)
      else
        forRange 0 (dependency.holdingCount dep) (λ i,
          let* cDep := deref_dep (stackElement.depEntry c) in
          forRange 0 (dependency.holdingCount cDep) (λ j,
            let* lockInDepHs := slice_get (dependency.holdingSet dep) i in
            let* lockInCHoldingSet := slice_get (dependency.holdingSet cDep) j in
            let* eq := mutexHaveEqualLock σ lockInDepHs lockInCHoldingSet in
            if eq then
              let* bothRead := andThen (getRLock σ lockInCHoldingSet (stackElement.index c))
                                 (getRLock σ lockInDepHs routineIndex) in
              if negb bothRead then Ok (Some false) else Ok None
            else Ok None)))
      (depStack.chain stack) in
    Ok (default true bad).

Definition isCycleChain (σ : gmap loc lockObj) (dStack : depStack) (dep : dependency)
  (routineIndex : Z) : result bool :=
  let* bottom := match depStack.next dStack with
           | Some c => deref_dep (stackElement.depEntry c)
           | None => Panic "nil pointer dereference"
           end in
  let* found := forRange 0 (dependency.holdingCount bottom) (λ i,
    let* mutexInHs := slice_get (dependency.holdingSet bottom) i in
    let* eq := mutexHaveEqualLock σ mutexInHs (dependency.mu dep) in
    if eq then
      let* bothRead := andThen (getRLock σ mutexInHs (stackElement.index (depStack.stack dStack)))
                         (getRLock σ (dependency.mu dep) routineIndex) in
      if negb bothRead then Ok (Some true) else Ok None
    else Ok None) in
  Ok (default false found).

(** ** dependency.go *)

(** [ptr] is the address of the variable that receives the value. The
    holding set is made with length [maxNumberOfDependentLocks] and the
    current locks are appended behind those nil entries. *)
Definition newDependency (opts : options) (ptr : loc) (lock : mutexInt)
  (currentLocks : list mutexInt) (numberOfLocks : Z) : result dependency :=
  let* hs0 := make (options.maxNumberOfDependentLocks opts) (None : mutexInt) in
  let* hs := foldM (λ hs i,
                let* x := slice_get currentLocks i in Ok (hs ++ [x]))
              hs0 (seqZ 0 numberOfLocks) in
  Ok (dependency.mk ptr lock hs numberOfLocks).

Definition update (d : dependency) (lock : mutexInt) (hs : list mutexInt)
  (numberOfLocks : Z) : dependency :=
  dependency.mk (dependency.ptr d) lock (copy (dependency.holdingSet d) hs) numberOfLocks.

(** ** dependency.go, with slices as references

    For the question whether a dependency shares its holding set with the
    routine: a slice value is a reference to a backing array with a length
    and a capacity (the slices here all start at the beginning of their
    array), [make] allocates an array, and [append] writes behind the
    length while the capacity allows and moves to a newly allocated array
    when it does not. *)
Module slice.
Record t := mk {
  array : loc;
  len : Z;
  cap : Z
}.
End slice.
Abbreviation slice := slice.t.

(** The backing arrays, and the next free address. *)
Module heap.
Record t := mk {
  arrays : gmap loc (list mutexInt);
  next : loc
}.
End heap.
Abbreviation heap := heap.t.

(** The elements of a slice. *)
Definition elements (h : heap) (s : slice) : list mutexInt :=
  take (Z.to_nat (slice.len s)) (default [] (heap.arrays h !! slice.array s)).

(** [make([]mutexInt, n)] *)
Definition make_slice (h : heap) (n : Z) : result (heap * slice) :=
  if decide (0 ≤ n) then
    Ok (heap.mk (<[heap.next h := replicate (Z.to_nat n) None]> (heap.arrays h))
          (Pos.succ (heap.next h)),
        slice.mk (heap.next h) n n)
  else Panic "makeslice: len out of range".

(** [s[i]] and [s[i] = x] *)
Definition index_slice (h : heap) (s : slice) (i : Z) : result mutexInt :=
  if decide (0 ≤ i < slice.len s) then
    match heap.arrays h !! slice.array s ≫= (λ a, a !! Z.to_nat i) with
    | Some x => Ok x
    | None => Panic "index out of range"
    end
  else Panic "index out of range".

Definition assign_slice (h : heap) (s : slice) (i : Z) (x : mutexInt) : result heap :=
  if decide (0 ≤ i < slice.len s) then
    match heap.arrays h !! slice.array s with
    | Some a => Ok (heap.mk (<[slice.array s := <[Z.to_nat i := x]> a]> (heap.arrays h))
                      (heap.next h))
    | None => Panic "index out of range"
    end
  else Panic "index out of range".

(** [append(s, x)]; [grow] is the capacity of the array that is allocated
    when [s] is full. *)
Definition append_slice (grow : Z → Z) (h : heap) (s : slice) (x : mutexInt)
  : result (heap * slice) :=
  if decide (slice.len s < slice.cap s) then
    match heap.arrays h !! slice.array s with
    | Some a =>
        Ok (heap.mk (<[slice.array s := <[Z.to_nat (slice.len s) := x]> a]> (heap.arrays h))
              (heap.next h),
            slice.mk (slice.array s) (slice.len s + 1) (slice.cap s))
    | None => Panic "index out of range"
    end
  else
    let c := grow (slice.cap s) in
    let a := elements h s ++ [x] ++ replicate (Z.to_nat (c - slice.len s - 1)) None in
    Ok (heap.mk (<[heap.next h := a]> (heap.arrays h)) (Pos.succ (heap.next h)),
        slice.mk (heap.next h) (slice.len s + 1) c).

(** A dependency whose holding set is a slice. *)
Module dependencyRef.
Record t := mk {
  mu : mutexInt;
  holdingSet : slice;
  holdingCount : Z
}.
End dependencyRef.
Abbreviation dependencyRef := dependencyRef.t.

Definition newDependency_slices (grow : Z → Z) (opts : options) (h : heap)
  (lock : mutexInt) (currentLocks : slice) (numberOfLocks : Z)
  : result (heap * dependencyRef) :=
  let* (h, hs) := make_slice h (options.maxNumberOfDependentLocks opts) in
  let* (h, hs) := foldM (λ '(h, hs) i,
                    let* x := index_slice h currentLocks i in
                    append_slice grow h hs x)
                  (h, hs) (seqZ 0 numberOfLocks) in
  Ok (h, dependencyRef.mk lock hs numberOfLocks).

(** ** routine.go *)

(** A Go map is nil ([None]) until it is made; reading a nil map finds
    nothing, writing to it panics. *)
Definition map_get {K V} `{Countable K} (m : option (gmap K V)) (k : K) : option V :=
  m ≫= (λ g, g !! k).
Definition map_set {K V} `{Countable K} (m : option (gmap K V)) (k : K) (v : V)
  : result (option (gmap K V)) :=
  match m with
  | Some g => Ok (Some (<[k := v]> g))
  | None => Panic "assignment to entry in nil map"
  end.

Module routine.
Record t := mk {
  index : Z;
  holdingCount : Z;
  holdingSet : list mutexInt;
  dependencyMap : option (gmap Z (list dependency));
  dependencies : list (option dependency);
  curDep : option dependency;
  depCount : Z;
  collectedSingleLevelLocks : option (gmap string (list Z))
}.
(** The zero value of the struct: what [make([]routine, n)] is filled with. *)
Definition zero : t := mk 0 0 [] None [] None 0 None.
End routine.
Abbreviation routine := routine.t.

(** What the Go runtime tells a call: the id of the calling goroutine
    ([goid.Get]), the place of the user's call ([runtime.Caller]) and the
    lines of the stack dump ([runtime.Stack] split at newlines: a first
    line and the rest). *)
Module caller.
Record t := mk {
  goid : Z;
  file : string;
  line : Z;
  stackFirst : string;
  stackRest : list string
}.
End caller.
Abbreviation caller := caller.t.

(** [for d.holdingSet[i] == r.holdingSet[i] && i < hc { i++ }]: the value
    of [i] when the loop is left. Both slices are read before [i < hc] is
    tested, so the loop is left at [i = hc] at the latest: the last case
    below is never reached ([avoids_commonPrefix]). *)
Definition commonPrefix (dhs rhs : list mutexInt) (hc : Z) : result Z :=
  let* r := forEach (λ i,
      let* a := slice_get dhs i in
      let* b := slice_get rhs i in
      if bool_decide (a = b) && bool_decide (i < hc) then Ok None else Ok (Some i))
    (seqZ 0 (Z.max hc 0 + 1)) in
  match r with
  | Some i => Ok i
  | None => OutOfFuel
  end.

Definition dependencyAlreadyExists (r : routine) (m : mutexInt)
  (depList : list dependency) : result bool :=
  let* found := forEach (λ d : dependency,
      let hc := routine.holdingCount r in
      if bool_decide (dependency.mu d = m) && bool_decide (dependency.holdingCount d = hc) then
        let* i := commonPrefix (dependency.holdingSet d) (routine.holdingSet r) hc in
        if bool_decide (i = hc) then Ok (Some true) else Ok None
      else Ok None)
    depList in
  Ok (default false found).

(** The part of [updateLock] that records a nested lock in the lock tree;
    the result says whether a dependency was added ([isNew]). [ptr] is the
    address of the dependency that is allocated when one is added. *)
Definition updateLock_nested (opts : options) (ptr : loc) (σ : gmap loc lockObj)
  (r : routine) (m : mutexInt) (hc : Z) : result (routine * bool) :=
  let* posM := getMemoryPosition σ m in
  let* last := slice_get (routine.holdingSet r) (hc - 1) in
  let* posLast := getMemoryPosition σ last in
  let key := Z.lxor posM posLast in
  let depMap := routine.dependencyMap r in
  let d := map_get depMap key in
  let* known := match d with
                | Some depList => dependencyAlreadyExists r m depList
                | None => Ok false
                end in
  if known then Ok (r, false)
  else
    if bool_decide (options.maxDependencies opts ≤ routine.depCount r) then
      Panic "Number of dependencies is greater than max number of dependencies. Increase Opts.MaxDependencies."
    else
      let* dep := newDependency opts ptr m (routine.holdingSet r) hc in
      (* the slot holds the pointer [&dep]: it shows the object as [update]
         leaves it *)
      let dep := update dep m (routine.holdingSet r) hc in
      let* deps := slice_set (routine.dependencies r) (routine.depCount r) (Some dep) in
      let depCount := int_add (routine.depCount r) 1 in
      let bucket := match d with
                    | Some depList => depList ++ [dep]
                    | None => [dep]
                    end in
      let* depMap := map_set depMap key bucket in
      Ok (routine.mk (routine.index r) (routine.holdingCount r) (routine.holdingSet r)
            depMap deps (Some dep) depCount (routine.collectedSingleLevelLocks r),
          true).

(** The part of [updateLock] for a single-level lock. *)
Definition updateLock_single (opts : options) (c : caller) (r : routine)
  : result (routine * bool) :=
  if options.collectSingleLevelLockStack opts then
    match map_get (routine.collectedSingleLevelLocks r) (caller.file c) with
    | Some lines =>
        let isNew := negb (bool_decide (caller.line c ∈ lines)) in
        if isNew then
          let* cs := map_set (routine.collectedSingleLevelLocks r) (caller.file c)
                       (lines ++ [caller.line c]) in
          Ok (routine.mk (routine.index r) (routine.holdingCount r) (routine.holdingSet r)
                (routine.dependencyMap r) (routine.dependencies r) (routine.curDep r)
                (routine.depCount r) cs, true)
        else Ok (r, false)
    | None =>
        let* cs := map_set (routine.collectedSingleLevelLocks r) (caller.file c)
                     [caller.line c] in
        Ok (routine.mk (routine.index r) (routine.holdingCount r) (routine.holdingSet r)
              (routine.dependencyMap r) (routine.dependencies r) (routine.curDep r)
              (routine.depCount r) cs, true)
    end
  else Ok (r, false).

Definition newline : string := String (Ascii.ascii_of_nat 10) EmptyString.

(** The caller information appended to [m]'s context for a new situation:
    the first line of the stack dump and its lines from the eighth on, or
    the empty string when call stacks are not collected. *)
Definition recordContext (opts : options) (c : caller) (σ : gmap loc lockObj)
  (m : mutexInt) : result (gmap loc lockObj) :=
  let* bufStringCleaned :=
    if options.collectCallStack opts then
      let* _ := make (options.maxCallStackSize opts) tt in
      Ok (String.concat ""
            ((λ l, l +:+ newline) <$> (caller.stackFirst c :: drop 6 (caller.stackRest c))))
    else Ok ""%string in
  match m with
  | None => Panic "nil pointer dereference"
  | Some l =>
      let* o := deref σ m in
      Ok (<[l := obj.setContext o
                   (obj.getContext o ++
                    [newInfo (caller.file c) (caller.line c) false bufStringCleaned])]> σ)
  end.

Definition updateLock (opts : options) (c : caller) (ptr : loc)
  (σ : gmap loc lockObj) (r : routine) (m : mutexInt) (rLock : bool)
  : result (routine * gmap loc lockObj) :=
  let hc := routine.holdingCount r in
  let* σ := setRLock σ m (routine.index r) rLock in
  let* (r, isNew) :=
    if bool_decide (0 < hc) then updateLock_nested opts ptr σ r m hc
    else updateLock_single opts c r in
  let* σ :=
    if isNew && (bool_decide (0 < hc) || options.collectSingleLevelLockStack opts)
    then recordContext opts c σ m else Ok σ in
  if bool_decide (options.maxNumberOfDependentLocks opts ≤ hc) then
    Panic "Holding Count is grater than maximum number of dependent locks. Increase Opts.maxNumberOfDependentLocks."
  else
    let* hs := slice_set (routine.holdingSet r) hc m in
    Ok (routine.mk (routine.index r) (int_add (routine.holdingCount r) 1) hs
          (routine.dependencyMap r) (routine.dependencies r) (routine.curDep r)
          (routine.depCount r) (routine.collectedSingleLevelLocks r), σ).

Definition updateTryLock (opts : options) (σ : gmap loc lockObj) (r : routine)
  (m : mutexInt) (rLock : bool) : result (routine * gmap loc lockObj) :=
  let hc := routine.holdingCount r in
  if bool_decide (options.maxNumberOfDependentLocks opts ≤ hc) then
    Panic "Holding Count is grater than maximum holding depth. Increase Opts.MaxHoldingDepth."
  else
    let* σ := setRLock σ m (routine.index r) rLock in
    let* hs := slice_set (routine.holdingSet r) hc m in
    Ok (routine.mk (routine.index r) (int_add (routine.holdingCount r) 1) hs
          (routine.dependencyMap r) (routine.dependencies r) (routine.curDep r)
          (routine.depCount r) (routine.collectedSingleLevelLocks r), σ).

(** [append(r.holdingSet[:i], r.holdingSet[i+1:]...)] followed by
    [append(r.holdingSet, nil)]: the slice keeps its length. *)
Definition splice (hs : list mutexInt) (i : Z) : list mutexInt :=
  take (Z.to_nat i) hs ++ drop (Z.to_nat (i + 1)) hs ++ [None].

Definition updateUnlock (r : routine) (m : mutexInt) : result routine :=
  let* found := forDown (routine.holdingCount r) (λ i,
      let* x := slice_get (routine.holdingSet r) i in
      if bool_decide (x = m) then Ok (Some i) else Ok None) in
  match found with
  | Some i =>
      Ok (routine.mk (routine.index r) (int_sub (routine.holdingCount r) 1)
            (splice (routine.holdingSet r) i)
            (routine.dependencyMap r) (routine.dependencies r) (routine.curDep r)
            (routine.depCount r) (routine.collectedSingleLevelLocks r))
  | None => Ok r
  end.

(** ** The platform's locks

    [sync.Mutex] and [sync.RWMutex] are not part of the package; they are
    modelled on the documentation of Go's [sync]: a writer flag and a count
    of readers. A call that would have to wait is [Blocked]; unlocking a
    lock that is not locked is a fatal error of the runtime. *)
Module sync.
Record t := mk {
  writer : bool;
  readers : Z
}.
Definition zero : t := mk false 0.
Definition free (p : t) : bool := negb (writer p) && bool_decide (readers p = 0).
Definition Lock (p : t) : result t :=
  if free p then Ok (mk true (readers p)) else Blocked.
Definition RLock (p : t) : result t :=
  if writer p then Blocked else Ok (mk false (readers p + 1)).
Definition TryLock (p : t) : t * bool :=
  if free p then (mk true (readers p), true) else (p, false).
Definition TryRLock (p : t) : t * bool :=
  if writer p then (p, false) else (mk false (readers p + 1), true).
Definition Unlock (p : t) : result t :=
  if writer p then Ok (mk false (readers p))
  else Panic "fatal error: sync: unlock of unlocked mutex".
Definition RUnlock (p : t) : result t :=
  if bool_decide (0 < readers p) then Ok (mk (writer p) (readers p - 1))
  else Panic "fatal error: sync: RUnlock of unlocked RWMutex".
End sync.

(** ** The package's variables *)
Module state.
Record t := mk {
  opts : options;
  initialized : bool;
  routines : list routine;
  numberRoutines : Z;
  mapIndex : gmap Z Z;
  (* the heap: wrappers, the platform locks they point to, the next free address *)
  locks : gmap loc lockObj;
  prims : gmap loc sync.t;
  nextPtr : loc;
  (* the environment: [runtime.NumGoroutine()] and standard error *)
  numGoroutine : Z;
  stderr : list report
}.
Definition set_routines (g : t) (rs : list routine) : t :=
  mk (opts g) (initialized g) rs (numberRoutines g) (mapIndex g) (locks g) (prims g)
     (nextPtr g) (numGoroutine g) (stderr g).
Definition set_locks (g : t) (σ : gmap loc lockObj) : t :=
  mk (opts g) (initialized g) (routines g) (numberRoutines g) (mapIndex g) σ (prims g)
     (nextPtr g) (numGoroutine g) (stderr g).
Definition set_prims (g : t) (ps : gmap loc sync.t) : t :=
  mk (opts g) (initialized g) (routines g) (numberRoutines g) (mapIndex g) (locks g) ps
     (nextPtr g) (numGoroutine g) (stderr g).
Definition set_nextPtr (g : t) (p : loc) : t :=
  mk (opts g) (initialized g) (routines g) (numberRoutines g) (mapIndex g) (locks g)
     (prims g) p (numGoroutine g) (stderr g).
Definition set_stderr (g : t) (e : list report) : t :=
  mk (opts g) (initialized g) (routines g) (numberRoutines g) (mapIndex g) (locks g)
     (prims g) (nextPtr g) (numGoroutine g) e.
End state.
Abbreviation state := state.t.

(** The variables as the package declares them, in a program of one
    goroutine. *)
Definition initial_state : state :=
  state.mk default_opts false (replicate 1024 routine.zero) 0 ∅ ∅ ∅ 1%positive 1 [].

(** ** options.go: the setters

    A setter assigns to fields of [opts] and answers true; once the
    detector is initialized it assigns nothing and answers false.
    ([SetPeriodicDetectionTime] assigns to [periodicDetectionTime], which
    is left out of [options].) *)
Definition set_opts (g : state) (o : options) : state :=
  state.mk o (state.initialized g) (state.routines g) (state.numberRoutines g)
    (state.mapIndex g) (state.locks g) (state.prims g) (state.nextPtr g)
    (state.numGoroutine g) (state.stderr g).

Definition with_activated (o : options) (b : bool) : options :=
  options.mk b (options.periodicDetection o) (options.comprehensiveDetection o)
    (options.collectCallStack o) (options.collectSingleLevelLockStack o)
    (options.checkDoubleLocking o) (options.maxDependencies o)
    (options.maxNumberOfDependentLocks o) (options.maxRoutines o)
    (options.maxCallStackSize o).
Definition with_periodicDetection (o : options) (b : bool) : options :=
  options.mk (options.activated o) b (options.comprehensiveDetection o)
    (options.collectCallStack o) (options.collectSingleLevelLockStack o)
    (options.checkDoubleLocking o) (options.maxDependencies o)
    (options.maxNumberOfDependentLocks o) (options.maxRoutines o)
    (options.maxCallStackSize o).
Definition with_comprehensiveDetection (o : options) (b : bool) : options :=
  options.mk (options.activated o) (options.periodicDetection o) b
    (options.collectCallStack o) (options.collectSingleLevelLockStack o)
    (options.checkDoubleLocking o) (options.maxDependencies o)
    (options.maxNumberOfDependentLocks o) (options.maxRoutines o)
    (options.maxCallStackSize o).
Definition with_collectCallStack (o : options) (b : bool) : options :=
  options.mk (options.activated o) (options.periodicDetection o)
    (options.comprehensiveDetection o) b (options.collectSingleLevelLockStack o)
    (options.checkDoubleLocking o) (options.maxDependencies o)
    (options.maxNumberOfDependentLocks o) (options.maxRoutines o)
    (options.maxCallStackSize o).
Definition with_collectSingleLevelLockStack (o : options) (b : bool) : options :=
  options.mk (options.activated o) (options.periodicDetection o)
    (options.comprehensiveDetection o) (options.collectCallStack o) b
    (options.checkDoubleLocking o) (options.maxDependencies o)
    (options.maxNumberOfDependentLocks o) (options.maxRoutines o)
    (options.maxCallStackSize o).
Definition with_checkDoubleLocking (o : options) (b : bool) : options :=
  options.mk (options.activated o) (options.periodicDetection o)
    (options.comprehensiveDetection o) (options.collectCallStack o)
    (options.collectSingleLevelLockStack o) b (options.maxDependencies o)
    (options.maxNumberOfDependentLocks o) (options.maxRoutines o)
    (options.maxCallStackSize o).
Definition with_maxDependencies (o : options) (n : Z) : options :=
  options.mk (options.activated o) (options.periodicDetection o)
    (options.comprehensiveDetection o) (options.collectCallStack o)
    (options.collectSingleLevelLockStack o) (options.checkDoubleLocking o) n
    (options.maxNumberOfDependentLocks o) (options.maxRoutines o)
    (options.maxCallStackSize o).
Definition with_maxNumberOfDependentLocks (o : options) (n : Z) : options :=
  options.mk (options.activated o) (options.periodicDetection o)
    (options.comprehensiveDetection o) (options.collectCallStack o)
    (options.collectSingleLevelLockStack o) (options.checkDoubleLocking o)
    (options.maxDependencies o) n (options.maxRoutines o) (options.maxCallStackSize o).
Definition with_maxRoutines (o : options) (n : Z) : options :=
  options.mk (options.activated o) (options.periodicDetection o)
    (options.comprehensiveDetection o) (options.collectCallStack o)
    (options.collectSingleLevelLockStack o) (options.checkDoubleLocking o)
    (options.maxDependencies o) (options.maxNumberOfDependentLocks o) n
    (options.maxCallStackSize o).
Definition with_maxCallStackSize (o : options) (n : Z) : options :=
  options.mk (options.activated o) (options.periodicDetection o)
    (options.comprehensiveDetection o) (options.collectCallStack o)
    (options.collectSingleLevelLockStack o) (options.checkDoubleLocking o)
    (options.maxDependencies o) (options.maxNumberOfDependentLocks o)
    (options.maxRoutines o) n.

Definition setActivatedAuto (o : options) : options :=
  if negb (options.periodicDetection o || options.checkDoubleLocking o
           || options.comprehensiveDetection o)
  then with_activated o false
  else with_activated o true.

Definition SetActivated (enable : bool) (g : state) : state * bool :=
  if state.initialized g then (g, false)
  else
    let o := with_activated (state.opts g) enable in
    let o := with_checkDoubleLocking o true in
    let o := with_periodicDetection o true in
    let o := with_comprehensiveDetection o true in
    (set_opts g o, true).

Definition SetPeriodicDetection (enable : bool) (g : state) : state * bool :=
  if state.initialized g then (g, false)
  else (set_opts g (setActivatedAuto (with_periodicDetection (state.opts g) enable)), true).

Definition SetComprehensiveDetection (enable : bool) (g : state) : state * bool :=
  if state.initialized g then (g, false)
  else (set_opts g (setActivatedAuto (with_comprehensiveDetection (state.opts g) enable)),
        true).

Definition SetCollectCallStack (enable : bool) (g : state) : state * bool :=
  if state.initialized g then (g, false)
  else (set_opts g (with_collectCallStack (state.opts g) enable), true).

Definition SetCollectSingleLevelLockInformation (enable : bool) (g : state)
  : state * bool :=
  if state.initialized g then (g, false)
  else (set_opts g (with_collectSingleLevelLockStack (state.opts g) enable), true).

Definition SetDoubleLockingDetection (enable : bool) (g : state) : state * bool :=
  if state.initialized g then (g, false)
  else (set_opts g (setActivatedAuto (with_checkDoubleLocking (state.opts g) enable)), true).

Definition SetMaxDependencies (number : Z) (g : state) : state * bool :=
  if state.initialized g then (g, false)
  else (set_opts g (with_maxDependencies (state.opts g) number), true).

Definition SetMaxNumberOfDependentLocks (number : Z) (g : state) : state * bool :=
  if state.initialized g then (g, false)
  else (set_opts g (with_maxNumberOfDependentLocks (state.opts g) number), true).

Definition SetMaxRoutines (number : Z) (g : state) : state * bool :=
  if state.initialized g then (g, false)
  else (set_opts g (with_maxRoutines (state.opts g) number), true).

Definition SetMaxCallStackSize (number : Z) (g : state) : state * bool :=
  if state.initialized g then (g, false)
  else (set_opts g (with_maxCallStackSize (state.opts g) number), true).

(** ** routine.go: the registry of routines

    [getRoutineIndex] reads [mapIndex] between [createRoutineLock.Lock()]
    and [createRoutineLock.Unlock()], and [newRoutine] takes the same lock
    for its body. Every path that returns has released it; the paths
    that keep it locked are the panics of [newRoutine] (a full registry, a
    negative limit; there is no [defer]), where the run ends. The lock is
    therefore free at every call of a run and is not part of the state; a
    goroutine that went on after such a panic would park in
    [getRoutineIndex], which is outside what is described here. *)

Definition getRoutineIndex (g : state) (c : caller) : Z :=
  match state.mapIndex g !! caller.goid c with
  | Some index => index
  | None => -1
  end.

Definition newRoutine (g : state) (c : caller) : result state :=
  let opts := state.opts g in
  if negb (options.periodicDetection opts) && negb (options.comprehensiveDetection opts)
  then Ok g
  else
    let* hs := make (options.maxNumberOfDependentLocks opts) (None : mutexInt) in
    let* deps := make (options.maxDependencies opts) (None : option dependency) in
    let r := routine.mk (state.numberRoutines g) 0 hs (Some ∅) deps None 0 (Some ∅) in
    if bool_decide (options.maxRoutines opts ≤ state.numberRoutines g) then
      Panic "Number of routines is greater than max number of routines. Increase Opts.MaxRoutines."
    else
      let* rs := slice_set (state.routines g) (state.numberRoutines g) r in
      Ok (state.mk opts (state.initialized g) rs (int_add (state.numberRoutines g) 1)
            (<[caller.goid c := state.numberRoutines g]> (state.mapIndex g))
            (state.locks g) (state.prims g) (state.nextPtr g) (state.numGoroutine g)
            (state.stderr g)).

(** ** detector.go: the comprehensive detection *)

(** The variables of a search: the path, the traversed markers and what
    has been reported. [explored] is not a variable of the program: it
    lists, newest first, the path and the markers at each call of the
    recursive search, for the statements about the searches. *)
Module search.
Record t := mk {
  stack : depStack;
  isTraversed : list bool;
  out : list report;
  explored : list (list stackElement * list bool)
}.
Definition enter (s : t) : t :=
  mk (stack s) (isTraversed s) (out s)
     ((depStack.chain (stack s), isTraversed s) :: explored s).
End search.
Abbreviation search := search.t.

(** The body of the loop of [dfs] over the dependencies [j] of the routine
    [i]; [rec] is the recursive call. *)
Definition dfs_dependency (rec : search → result search) (g : state) (i : Z)
  (routine : routine) (s : search) (j : Z) : result search :=
  let* dep := slice_get (routine.dependencies routine) j in
  (* [isChain] starts by reading [dep.holdingCount] *)
  let* d := deref_dep dep in
  let* chain := isChain (state.locks g) (search.stack s) d i in
  if chain : bool then
    let* cycle := isCycleChain (state.locks g) (search.stack s) d i in
    if cycle : bool then
      let stack := push (search.stack s) dep j in
      let out := search.out s ++ [reportDeadlock (depStack.chain stack)] in
      let stack := pop stack in
      Ok (search.mk stack (search.isTraversed s) out (search.explored s))
    else
      let stack := push (search.stack s) dep i in
      let* isTraversed := slice_set (search.isTraversed s) i true in
      let* s := rec (search.mk stack isTraversed (search.out s) (search.explored s)) in
      let stack := pop (search.stack s) in
      let* isTraversed := slice_set (search.isTraversed s) i false in
      Ok (search.mk stack isTraversed (search.out s) (search.explored s))
  else Ok s.

(** The body of the loop of [dfs] over the routines [i]. *)
Definition dfs_routine (rec : search → result search) (g : state) (s : search) (i : Z)
  : result search :=
  let* routine := slice_get (state.routines g) i in
  let* traversed := slice_get (search.isTraversed s) i in
  if traversed : bool then Ok s
  else foldM (dfs_dependency rec g i routine) s (seqZ 0 (routine.depCount routine)).

Fixpoint dfs (fuel : nat) (g : state) (visiting : Z) (s : search) : result search :=
  match fuel with
  | O => OutOfFuel
  | S fuel =>
      foldM (dfs_routine (dfs fuel g visiting) g) (search.enter s)
        (seqZ (visiting + 1) (state.numberRoutines g - (visiting + 1)))
  end.

Definition detect (g : state) : result search :=
  let stack := newDepStack in
  let* isTraversed := make (state.numberRoutines g) false in
  foldM (λ s i,
    let* routine := slice_get (state.routines g) i in
    let visiting := i in
    foldM (λ s j,
      let* dep := slice_get (routine.dependencies routine) j in
      let* isTraversed := slice_set (search.isTraversed s) i true in
      let stack := push (search.stack s) dep i in
      let* s := dfs (S (Z.to_nat (state.numberRoutines g))) g visiting
                  (search.mk stack isTraversed (search.out s) (search.explored s)) in
      Ok (search.mk (pop (search.stack s)) (search.isTraversed s) (search.out s)
            (search.explored s)))
    s (seqZ 0 (routine.depCount routine)))
  (search.mk stack isTraversed [] [])
  (seqZ 0 (state.numberRoutines g)).

(** [fmt.Sprint] of a [uintptr] is its decimal numeral. *)
Definition getDependencyString (σ : gmap loc lockObj) (dep : option dependency)
  : result string :=
  let* d := deref_dep dep in
  let* pos := getMemoryPosition σ (dependency.mu d) in
  foldM (λ str i,
      let* m := slice_get (dependency.holdingSet d) i in
      let* pos := getMemoryPosition σ m in
      Ok (str +:+ pretty pos))
    (pretty pos) (seqZ 0 (dependency.holdingCount d)).

Definition isNumberDependenciesGreaterEqualTwo (g : state) : result bool :=
  let* r := loopM (λ acc i,
      let* current := slice_get (state.routines g) i in
      loopM (λ '(depCount, dependencyMap) j,
          let* dep := slice_get (routine.dependencies current) j in
          let* dependencyString := getDependencyString (state.locks g) dep in
          let '(depCount, dependencyMap) :=
            if bool_decide (dependencyString ∈ (dependencyMap : gset string))
            then (depCount, dependencyMap)
            else (int_add depCount 1, {[dependencyString]} ∪ dependencyMap) in
          if bool_decide (depCount = 2) then Ok (inr true)
          else Ok (inl (depCount, dependencyMap)))
        acc (seqZ 0 (routine.depCount current)))
    (0, ∅) (seqZ 0 (state.numberRoutines g)) in
  match r with
  | inr b => Ok b
  | inl _ => Ok false
  end.

Definition FindPotentialDeadlocks (g : state) : result state :=
  if negb (options.comprehensiveDetection (state.opts g)) then Ok g
  else if bool_decide (1 < state.numberRoutines g) then
    let* enough := isNumberDependenciesGreaterEqualTwo g in
    if negb enough then Ok g
    else
      let* s := detect g in
      Ok (state.set_stderr g (state.stderr g ++ search.out s))
  else Ok g.

(** ** detector.go: the periodical detection *)

(** [(holds >= 0 && lastHolding[index] != r.holdingSet[holds]) ||
    (holds < 0 && lastHolding[index] != nil)] *)
Definition holdingChanged (lastHolding : list mutexInt) (index : Z) (r : routine)
  : result bool :=
  let holds := int_sub (routine.holdingCount r) 1 in
  let* a := if bool_decide (0 ≤ holds) then
              let* last := slice_get lastHolding index in
              let* top := slice_get (routine.holdingSet r) holds in
              Ok (negb (bool_decide (last = top)))
            else Ok false in
  if a then Ok true
  else if bool_decide (holds < 0) then
    let* last := slice_get lastHolding index in
    Ok (negb (bool_decide (last = None)))
  else Ok false.

(** The body of the loop of [dfsPeriodical] over the routines [i]; [rec]
    is the recursive call. *)
Definition dfsPeriodical_routine (rec : search → result search) (g : state)
  (lastHolding : list mutexInt) (s : search) (i : Z) : result search :=
  let* r := slice_get (state.routines g) i in
  let* skip := match routine.curDep r with
               | None => Ok true
               | Some _ => slice_get (search.isTraversed s) i
               end in
  if skip : bool then Ok s
  else
    let dep := routine.curDep r in
    let* d := deref_dep dep in
    let* chain := isChain (state.locks g) (search.stack s) d i in
    if negb chain then Ok s
    else
      let* cycle := isCycleChain (state.locks g) (search.stack s) d i in
      if cycle : bool then
        let stack := push (search.stack s) dep i in
        let* sthNew := forEach (λ cl : stackElement,
            let* routineInChain := slice_get (state.routines g) (stackElement.index cl) in
            let* changed := holdingChanged lastHolding (stackElement.index cl)
                              routineInChain in
            if changed : bool then Ok (Some true) else Ok None)
          (depStack.chain stack) in
        if negb (default false sthNew) then
          let g := state.set_stderr g
                     (state.stderr g ++ search.out s ++ [reportDeadlockPeriodical]) in
          let* g := FindPotentialDeadlocks g in
          Exit 2 (state.stderr g)
        else
          Ok (search.mk (pop stack) (search.isTraversed s) (search.out s)
                (search.explored s))
      else
        let* isTraversed := slice_set (search.isTraversed s) (state.numberRoutines g) true in
        let stack := push (search.stack s) dep (state.numberRoutines g) in
        let* s := rec (search.mk stack isTraversed (search.out s) (search.explored s)) in
        let stack := pop (search.stack s) in
        let* isTraversed := slice_set (search.isTraversed s) (state.numberRoutines g) false in
        Ok (search.mk stack isTraversed (search.out s) (search.explored s)).

Fixpoint dfsPeriodical (fuel : nat) (g : state) (visiting : Z)
  (lastHolding : list mutexInt) (s : search) : result search :=
  match fuel with
  | O => OutOfFuel
  | S fuel =>
      foldM (dfsPeriodical_routine (dfsPeriodical fuel g visiting lastHolding) g lastHolding)
        (search.enter s)
        (seqZ (visiting + 1) (state.numberRoutines g - (visiting + 1)))
  end.

(** [r] in [for index, r := range routines] is a copy of the routine, so
    [r.curDep = nil] at the end of the loop body changes no routine. *)
Definition detectionPeriodical (fuel : nat) (g : state) (lastHolding : list mutexInt)
  : result search :=
  let stack := newDepStack in
  let* isTraversed := make (options.maxRoutines (state.opts g)) false in
  let* r := loopM (λ s '(index, r),
      if bool_decide (state.numberRoutines g ≤ index) then Ok (inr s)
      else
        match routine.curDep (r : routine) with
        | None => Ok (inl s)
        | Some _ =>
            let* isTraversed := slice_set (search.isTraversed s) index true in
            let stack := push (search.stack s) (routine.curDep r) index in
            let* s := dfsPeriodical fuel g index lastHolding
                        (search.mk stack isTraversed (search.out s) (search.explored s)) in
            Ok (inl (search.mk (pop (search.stack s)) (search.isTraversed s) (search.out s)
                       (search.explored s)))
        end)
    (search.mk stack isTraversed [] [])
    (zip (seqZ 0 (Z.of_nat (length (state.routines g)))) (state.routines g)) in
  match r with
  | inl s => Ok s
  | inr s => Ok s
  end.

(** The body of the loop of [periodicalDetection] over all routines, on
    the variables [lastHolding], [sthNew] and [nrThreadsHoldingLocks]. *)
Definition periodicalDetection_body (vars : list mutexInt * bool * Z) (ir : Z * routine)
  : result (list mutexInt * bool * Z) :=
  let '(lastHolding, sthNew, nrThreadsHoldingLocks) := vars in
  let '(index, r) := ir in
  let holds := int_sub (routine.holdingCount r) 1 in
  let* c1 := if bool_decide (0 ≤ holds) then
               let* last := slice_get lastHolding index in
               let* top := slice_get (routine.holdingSet r) holds in
               Ok (negb (bool_decide (last = top)))
             else Ok false in
  if c1 : bool then
    let* top := slice_get (routine.holdingSet r) holds in
    let* lastHolding := slice_set lastHolding index top in
    Ok (lastHolding, true,
        if bool_decide (0 < holds) then int_add nrThreadsHoldingLocks 1
        else nrThreadsHoldingLocks)
  else
    let* c2 := if bool_decide (holds < 0) then
                 let* last := slice_get lastHolding index in
                 Ok (negb (bool_decide (last = None)))
               else Ok false in
    if c2 : bool then
      let* lastHolding := slice_set lastHolding index None in
      Ok (lastHolding, true, nrThreadsHoldingLocks)
    else Ok (lastHolding, sthNew, nrThreadsHoldingLocks).

(** The loop: the updated [lastHolding], [sthNew] and
    [nrThreadsHoldingLocks]. *)
Definition periodicalDetection_scan (routines : list routine) (lastHolding : list mutexInt)
  : result (list mutexInt * bool * Z) :=
  foldM periodicalDetection_body (lastHolding, false, 0)
    (zip (seqZ 0 (Z.of_nat (length routines))) routines).

(** [periodicalDetection] up to its last statement: the updated
    [lastHolding] and whether [detectionPeriodical] is called. *)
Definition periodicalDetection_guard (g : state) (lastHolding : list mutexInt)
  : result (list mutexInt * bool) :=
  if bool_decide (state.numGoroutine g < 2) then Ok (lastHolding, false)
  else
    let* (lastHolding, sthNew, nrThreadsHoldingLocks) :=
      periodicalDetection_scan (state.routines g) lastHolding in
    if negb sthNew || bool_decide (nrThreadsHoldingLocks ≤ 1) then Ok (lastHolding, false)
    else Ok (lastHolding, true).

Definition periodicalDetection (fuel : nat) (g : state) (lastHolding : list mutexInt)
  : result (list mutexInt) :=
  let* (lastHolding, run) := periodicalDetection_guard g lastHolding in
  if run : bool then
    let* _ := detectionPeriodical fuel g lastHolding in Ok lastHolding
  else Ok lastHolding.

(** ** routine.go: double locking *)

Definition checkDoubleLocking (g : state) (m : mutexInt) (routineIndex : Z)
  (rLock : bool) : result state :=
  let* o := deref (state.locks g) m in
  if bool_decide (default 0 (obj.getIsLockedRoutineIndex o !! routineIndex) = 0) then Ok g
  else
    let* bothRead := andThen (Ok rLock) (getRLock (state.locks g) m routineIndex) in
    if bothRead : bool then Ok g
    else
      let g := state.set_stderr g (state.stderr g ++ [reportDeadlockDoubleLocking m]) in
      let* g := FindPotentialDeadlocks g in
      Exit 2 (state.stderr g).

(** ** mutexInt.go: lock, try-lock and unlock *)

(** A call on the platform lock that [p] points to. *)
Definition onPrim (g : state) (p : option loc) (f : sync.t → result sync.t)
  : result state :=
  match p with
  | None => Panic "nil pointer dereference"
  | Some a =>
      match state.prims g !! a with
      | None => Panic "nil pointer dereference"
      | Some x => let* x' := f x in Ok (state.set_prims g (<[a := x']> (state.prims g)))
      end
  end.

Definition tryPrim (g : state) (p : option loc) (f : sync.t → sync.t * bool)
  : result (state * bool) :=
  match p with
  | None => Panic "nil pointer dereference"
  | Some a =>
      match state.prims g !! a with
      | None => Panic "nil pointer dereference"
      | Some x => Ok (state.set_prims g (<[a := (f x).1]> (state.prims g)), (f x).2)
      end
  end.

(** [l.Lock()] for a mutex, [t.RLock()] or [t.Lock()] for a rw-mutex. *)
Definition primitiveLock (g : state) (m : mutexInt) (rLock : bool) : result state :=
  let* (d, l, t) := getLock (state.locks g) m in
  if d : bool then onPrim g l sync.Lock
  else if rLock then onPrim g t sync.RLock
  else onPrim g t sync.Lock.

Definition primitiveTryLock (g : state) (m : mutexInt) (rLock : bool)
  : result (state * bool) :=
  let* (d, l, t) := getLock (state.locks g) m in
  if d : bool then tryPrim g l sync.TryLock
  else if rLock then tryPrim g t sync.TryRLock
  else tryPrim g t sync.TryLock.

(** Updates of a wrapper through the pointers its getters return. *)
Definition updObj (g : state) (m : mutexInt) (f : lockObj → lockObj) : result state :=
  match m with
  | None => Panic "nil pointer dereference"
  | Some l =>
      let* o := deref (state.locks g) m in
      Ok (state.set_locks g (<[l := f o]> (state.locks g)))
  end.

(** [*m.getNumberLocked() += k] *)
Definition addNumberLocked (g : state) (m : mutexInt) (k : Z) : result state :=
  updObj g m (λ o, obj.setNumberLocked o (int_add (obj.getNumberLocked o) k)).

(** [isLockedRoutineIndex[index] += k], through [m.getIsLockedRoutineIndex()] *)
Definition addIsLockedRoutineIndex (g : state) (m : mutexInt) (index k : Z)
  : result state :=
  updObj g m (λ o,
    let c := obj.getIsLockedRoutineIndex o in
    obj.setIsLockedRoutineIndex o (<[index := int_add (default 0 (c !! index)) k]> c)).

(** The message of the panic for a lock that was not created, without the
    address that [fmt.Sprint] prints for [&m]; [lockInt] ends it with a
    full stop. *)
Definition notCreated : string := "Lock was not created. Use x := NewLock()".

(** [defer]: the deferred function runs when the body returns and when it
    panics, not when the process exits. The bodies below leave the platform
    locks alone, so a deferred lock call parks after a panic exactly when it
    would park in the state before the body. *)
Definition defer (deferred : state → result state) (body : state → result state)
  (g : state) : result state :=
  match body g with
  | Ok g' => deferred g'
  | Panic msg =>
      match deferred g with
      | Blocked => Blocked
      | _ => Panic msg
      end
  | r => r
  end.

(** [index := getRoutineIndex(); if index == -1 { newRoutine() };
    index = getRoutineIndex()]: the routine of the caller, made if needed. *)
Definition ensureRoutine (g : state) (c : caller) : result (state * Z) :=
  let index := getRoutineIndex g c in
  let* g := if bool_decide (index = -1) then newRoutine g c else Ok g in
  let index := getRoutineIndex g c in
  Ok (g, index).

Definition lockInt (c : caller) (m : mutexInt) (rLock : bool) (g : state)
  : result state :=
  let opts := state.opts g in
  if negb (options.activated opts) then primitiveLock g m rLock
  else
    let* o := deref (state.locks g) m in
    if negb (obj.getIn o) then Panic (notCreated +:+ ".")
    else
      defer
        (λ g, let* g := primitiveLock g m rLock in addNumberLocked g m 1)
        (λ g,
          if negb (options.periodicDetection opts) && negb (options.comprehensiveDetection opts)
          then Ok g
          else
            let* (g, index) := ensureRoutine g c in
            let* _ := slice_get (state.routines g) index in
            let* o := deref (state.locks g) m in
            let* g := if options.checkDoubleLocking opts
                         && negb (bool_decide (obj.getNumberLocked o = 0))
                      then checkDoubleLocking g m index rLock else Ok g in
            let* g := addIsLockedRoutineIndex g m index 1 in
            let numRoutine := state.numGoroutine g in
            if bool_decide (1 < numRoutine) then
              let* r := slice_get (state.routines g) index in
              let* (r, σ) := updateLock opts c (state.nextPtr g) (state.locks g) r m rLock in
              let* rs := slice_set (state.routines g) index r in
              Ok (state.set_nextPtr (state.set_locks (state.set_routines g rs) σ)
                    (Pos.succ (state.nextPtr g)))
            else Ok g)
        g.

(** The [index] that [updateTryLock] is called with is the variable
    declared before [if res]; the block of [if res] declares an [index] of
    its own ([index := getRoutineIndex()]), so the outer one keeps its
    zero value. *)
Definition tryLockInt (c : caller) (m : mutexInt) (rLock : bool) (g : state)
  : result (state * bool) :=
  let opts := state.opts g in
  if negb (options.activated opts) then primitiveTryLock g m rLock
  else
    let* o := deref (state.locks g) m in
    if negb (obj.getIn o) then Panic notCreated
    else
      let* (g, res) := primitiveTryLock g m rLock in
      let index := 0 in
      let* g :=
        if res : bool then
          let* (g, index) := ensureRoutine g c in
          let* g := addNumberLocked g m 1 in
          addIsLockedRoutineIndex g m index 1
        else Ok g in
      if negb (options.periodicDetection opts) && negb (options.comprehensiveDetection opts)
      then Ok (g, res)
      else if bool_decide (1 < state.numGoroutine g) && res then
        let* r := slice_get (state.routines g) index in
        let* (r, σ) := updateTryLock opts (state.locks g) r m rLock in
        let* rs := slice_set (state.routines g) index r in
        Ok (state.set_locks (state.set_routines g rs) σ, res)
      else Ok (g, res).

Definition unlockInt (c : caller) (m : mutexInt) (g : state) : result state :=
  let opts := state.opts g in
  let* o := deref (state.locks g) m in
  if negb (obj.getIn o) then Panic notCreated
  else if bool_decide (obj.getNumberLocked o = 0) then
    Panic "Tried to unLock lock which was not locked."
  else
    defer
      (λ g, let* g := addNumberLocked g m (-1) in
            addIsLockedRoutineIndex g m (getRoutineIndex g c) (-1))
      (λ g,
        if negb (options.periodicDetection opts) && negb (options.comprehensiveDetection opts)
        then Ok g
        else
          let index := getRoutineIndex g c in
          let* r := slice_get (state.routines g) index in
          let* r := updateUnlock r m in
          let* rs := slice_set (state.routines g) index r in
          Ok (state.set_routines g rs))
      g.

(** ** mutex.go and rwMutex.go: the methods of the wrappers

    [m] points to a wrapper of the method's receiver type. *)
Module MutexAPI.
Definition Lock (c : caller) (m : mutexInt) (g : state) : result state :=
  lockInt c m false g.
Definition TryLock (c : caller) (m : mutexInt) (g : state) : result (state * bool) :=
  tryLockInt c m false g.
Definition Unlock (c : caller) (m : mutexInt) (g : state) : result state :=
  let* g := if options.activated (state.opts g) then unlockInt c m g else Ok g in
  let* (_, l, _) := getLock (state.locks g) m in
  onPrim g l sync.Unlock.
End MutexAPI.

Module RWMutexAPI.
Definition Lock (c : caller) (m : mutexInt) (g : state) : result state :=
  lockInt c m false g.
Definition RLock (c : caller) (m : mutexInt) (g : state) : result state :=
  lockInt c m true g.
Definition TryLock (c : caller) (m : mutexInt) (g : state) : result (state * bool) :=
  let* res := tryLockInt c m false g in Ok res.
Definition RTryLock (c : caller) (m : mutexInt) (g : state) : result (state * bool) :=
  let* res := tryLockInt c m false g in Ok res.
Definition Unlock (c : caller) (m : mutexInt) (g : state) : result state :=
  let* g := if options.activated (state.opts g) then unlockInt c m g else Ok g in
  let* (_, _, t) := getLock (state.locks g) m in
  onPrim g t sync.Unlock.
Definition RUnlock (c : caller) (m : mutexInt) (g : state) : result state :=
  let* g := if options.activated (state.opts g) then unlockInt c m g else Ok g in
  let* (_, _, t) := getLock (state.locks g) m in
  onPrim g t sync.RUnlock.
End RWMutexAPI.

(** ** initialize.go and the constructors of the wrappers *)

(** The goroutine that [initialize] starts for the periodical detection
    runs for the rest of the program: one goroutine more. The source
    assigns [initialized = true] first and makes the slice of routines
    after it; when [make] panics the run ends, so that the assignment
    made before the panic is not seen. *)
Definition initialize (g : state) : result state :=
  let* rs := make (options.maxRoutines (state.opts g)) routine.zero in
  Ok (state.mk (state.opts g) true rs (state.numberRoutines g) (state.mapIndex g)
        (state.locks g) (state.prims g) (state.nextPtr g)
        (if options.periodicDetection (state.opts g) then state.numGoroutine g + 1
         else state.numGoroutine g)
        (state.stderr g)).

(** The platform lock is allocated at the next free address, the wrapper
    at the one after it; [memoryPosition] is the wrapper's address. *)
Definition NewLock (c : caller) (g : state) : result (state * mutexInt) :=
  let* g := if negb (state.initialized g) then initialize g else Ok g in
  let p := state.nextPtr g in
  let w := Pos.succ p in
  let m := Mutex.mk p [newInfo (caller.file c) (caller.line c) true ""] true 0 ∅ (Z.pos w) in
  Ok (state.mk (state.opts g) (state.initialized g) (state.routines g)
        (state.numberRoutines g) (state.mapIndex g)
        (<[w := MutexObj m]> (state.locks g)) (<[p := sync.zero]> (state.prims g))
        (Pos.succ w) (state.numGoroutine g) (state.stderr g),
      Some w).

Definition NewRWLock (c : caller) (g : state) : result (state * mutexInt) :=
  let* g := if negb (state.initialized g) then initialize g else Ok g in
  let p := state.nextPtr g in
  let w := Pos.succ p in
  let m := RWMutex.mk p [newInfo (caller.file c) (caller.line c) true ""] true 0 ∅
             (Z.pos w) ∅ in
  Ok (state.mk (state.opts g) (state.initialized g) (state.routines g)
        (state.numberRoutines g) (state.mapIndex g)
        (<[w := RWMutexObj m]> (state.locks g)) (<[p := sync.zero]> (state.prims g))
        (Pos.succ w) (state.numGoroutine g) (state.stderr g),
      Some w).

(** * Specification

    The properties the searches and the lock trees are specified by, and
    the well-formedness of the values they are stated for. *)

(** ** Well-formed values *)

(** [m] points to a wrapper. *)
Definition allocated (σ : gmap loc lockObj) (m : mutexInt) : bool :=
  match m with
  | Some l => bool_decide (is_Some (σ !! l))
  | None => false
  end.

(** The acquired lock and the first [holdingCount] entries of the holding
    set point to wrappers. *)
Definition wf_dep (σ : gmap loc lockObj) (d : dependency) : bool :=
  allocated σ (dependency.mu d)
  && bool_decide (0 ≤ dependency.holdingCount d
                  ≤ Z.of_nat (length (dependency.holdingSet d)))
  && forallb (allocated σ)
       (take (Z.to_nat (dependency.holdingCount d)) (dependency.holdingSet d)).

(** A path of the search: at least one element, every element a
    well-formed dependency. *)
Definition wf_stack (σ : gmap loc lockObj) (s : depStack) : bool :=
  match depStack.chain s with
  | [] => false
  | chain =>
      forallb (λ c, match stackElement.depEntry c with
                    | Some d => wf_dep σ d
                    | None => false
                    end) chain
  end.

(** ** The chain conditions *)

(** Lock identity, and a hold recorded as a reader's. *)
Definition sameLock (σ : gmap loc lockObj) (a b : mutexInt) : Prop :=
  mutexHaveEqualLock σ a b = Ok true.
Definition readLocked (σ : gmap loc lockObj) (m : mutexInt) (routineIndex : Z) : Prop :=
  getRLock σ m routineIndex = Ok true.

(** [m] is entry [i] of the holding set of [d]. *)
Definition holdsAt (d : dependency) (i : Z) (m : mutexInt) : Prop :=
  0 ≤ i < dependency.holdingCount d ∧ dependency.holdingSet d !! Z.to_nat i = Some m.

(** [acquired] occurs in the holding set of [d] with a witness that is not
    reader-reader; the flag of the occurrence is read for [routineHs], the
    flag of [acquired] for [routineAcq]. *)
Definition linked (σ : gmap loc lockObj) (d : dependency) (routineHs : Z)
  (acquired : mutexInt) (routineAcq : Z) : Prop :=
  ∃ i m, holdsAt d i m ∧ sameLock σ m acquired
         ∧ ¬ (readLocked σ m routineHs ∧ readLocked σ acquired routineAcq).

Definition linkCondition (σ : gmap loc lockObj) (stack : depStack) (cand : dependency)
  (candRoutine : Z) : Prop :=
  ∃ topDep, stackElement.depEntry (depStack.top stack) = Some topDep
    ∧ linked σ cand candRoutine (dependency.mu topDep)
        (stackElement.index (depStack.top stack)).

Definition uniqueness (stack : depStack) (cand : dependency) : Prop :=
  ∀ c d, c ∈ depStack.chain stack → stackElement.depEntry c = Some d →
         dependency.ptr d ≠ dependency.ptr cand.

Definition gateLockFree (σ : gmap loc lockObj) (stack : depStack) (cand : dependency)
  (candRoutine : Z) : Prop :=
  ∀ c d i a j b,
    c ∈ depStack.chain stack → stackElement.depEntry c = Some d →
    holdsAt cand i a → holdsAt d j b → sameLock σ a b →
    readLocked σ b (stackElement.index c) ∧ readLocked σ a candRoutine.

(** [getLock] compared on two wrappers. *)
Definition obj_sameLock (o1 o2 : lockObj) : bool :=
  match o1, o2 with
  | MutexObj m1, MutexObj m2 => bool_decide (Mutex.mu m1 = Mutex.mu m2)
  | RWMutexObj m1, RWMutexObj m2 => bool_decide (RWMutex.mu m1 = RWMutex.mu m2)
  | _, _ => false
  end.

(** The cycle condition as specified: the acquired lock of the candidate
    occurs in the holding set of the bottom dependency with a witness that
    is not reader-reader, the flag of the occurrence read for the routine
    of the bottom element. *)
Definition cycleCondition (σ : gmap loc lockObj) (stack : depStack) (cand : dependency)
  (candRoutine : Z) : Prop :=
  ∃ c bottom, depStack.next stack = Some c ∧ stackElement.depEntry c = Some bottom
    ∧ linked σ bottom (stackElement.index c) (dependency.mu cand) candRoutine.

(** The condition [isCycleChain] computes: the flag of the occurrence is
    read for the index of the empty bottom element of the stack. *)
Definition cycleCondition_code (σ : gmap loc lockObj) (stack : depStack)
  (cand : dependency) (candRoutine : Z) : Prop :=
  ∃ c bottom, depStack.next stack = Some c ∧ stackElement.depEntry c = Some bottom
    ∧ linked σ bottom (stackElement.index (depStack.stack stack))
        (dependency.mu cand) candRoutine.

(** ** Example values

    Two locks: the rw-mutex [exA] (wrapper at address 2), read-locked by
    routines 0 and 1, and the mutex [exB] (wrapper at address 4). Routine 0
    acquired [exB] holding [exA] ([exDep0]); routine 1 acquired [exA] as a
    reader holding [exB] ([exDep1]). *)
Definition exA : mutexInt := Some 2%positive.
Definition exB : mutexInt := Some 4%positive.
Definition exLocks : gmap loc lockObj :=
  <[2%positive := RWMutexObj (RWMutex.mk 1%positive [] true 0 ∅ 2
                                (<[0 := true]> (<[1 := true]> ∅)))]>
  (<[4%positive := MutexObj (Mutex.mk 3%positive [] true 0 ∅ 4)]> ∅).
Definition exDep0 : dependency := dependency.mk 6%positive exB [exA] 1.
Definition exDep1 : dependency := dependency.mk 8%positive exA [exB] 1.
Definition exStack : depStack := push newDepStack (Some exDep0) 0.

(** A routine that holds [exA] below [exB] and [exA] again on top (as a
    reader may), in a holding set of four slots. *)
Definition exRoutine : routine :=
  routine.mk 0 3 [exA; exB; exA; None] (Some ∅) [None; None] None 0 (Some ∅).

(** ** Lock trees *)

(** The dependencies of a routine are the same in [r] and [r']. *)
Definition same_tree (r r' : routine) : Prop :=
  routine.dependencies r' = routine.dependencies r
  ∧ routine.depCount r' = routine.depCount r
  ∧ routine.dependencyMap r' = routine.dependencyMap r
  ∧ routine.curDep r' = routine.curDep r.

(** A routine without dependencies, as [newRoutine] makes it. *)
Definition empty_tree (r : routine) : Prop :=
  routine.depCount r = 0 ∧ routine.curDep r = None
  ∧ (∀ d, Some d ∉ routine.dependencies r)
  ∧ ∀ k, map_get (routine.dependencyMap r) k = None
         ∨ map_get (routine.dependencyMap r) k = Some [].

(** No routine of [g'] has a dependency that it did not have in [g]: each
    slot of the routine list has the lock tree it had, or is a newly made
    routine. *)
Definition keeps_trees (g g' : state) : Prop :=
  ∀ i, same_tree (default routine.zero (state.routines g !! i))
                 (default routine.zero (state.routines g' !! i))
       ∨ empty_tree (default routine.zero (state.routines g' !! i)).

(** Try-lock and unlock calls of the wrappers. *)
Inductive tryOp : Type :=
| MutexTryLock (c : caller) (m : mutexInt)
| MutexUnlock (c : caller) (m : mutexInt)
| RWTryLock (c : caller) (m : mutexInt)
| RWRTryLock (c : caller) (m : mutexInt)
| RWUnlock (c : caller) (m : mutexInt)
| RWRUnlock (c : caller) (m : mutexInt).

Definition runTryOp (g : state) (op : tryOp) : result state :=
  match op with
  | MutexTryLock c m => let* (g, _) := MutexAPI.TryLock c m g in Ok g
  | MutexUnlock c m => MutexAPI.Unlock c m g
  | RWTryLock c m => let* (g, _) := RWMutexAPI.TryLock c m g in Ok g
  | RWRTryLock c m => let* (g, _) := RWMutexAPI.RTryLock c m g in Ok g
  | RWUnlock c m => RWMutexAPI.Unlock c m g
  | RWRUnlock c m => RWMutexAPI.RUnlock c m g
  end.

(** A small configuration for the examples, and a call site. *)
Definition exOpts : options := options.mk true true true false true true 8 4 4 16.
Definition exInit : state := state.mk exOpts false [] 0 ∅ ∅ ∅ 1%positive 1 [].
Definition exCaller (goid line : Z) : caller := caller.mk goid "main.go" line "goroutine" [].

(** ** Deduplication of dependencies *)

(** The locks a routine holds: the first [holdingCount] entries of its
    holding set. *)
Definition held (r : routine) : list mutexInt :=
  take (Z.to_nat (routine.holdingCount r)) (routine.holdingSet r).

(** [d] stands for "acquired [m] while holding what [r] holds now": the
    same acquired lock, the same holding count and the same holding set up
    to the count. *)
Definition matches (r : routine) (m : mutexInt) (d : dependency) : Prop :=
  dependency.mu d = m
  ∧ dependency.holdingCount d = routine.holdingCount r
  ∧ take (Z.to_nat (routine.holdingCount r)) (dependency.holdingSet d) = held r.

(** The key of the dependency map for acquiring [m]: the memory positions
    of [m] and of the lock on top of the holding set, combined by xor. *)
Definition depKey (σ : gmap loc lockObj) (r : routine) (m : mutexInt) : result Z :=
  let* posM := getMemoryPosition σ m in
  let* last := slice_get (routine.holdingSet r) (routine.holdingCount r - 1) in
  let* posLast := getMemoryPosition σ last in
  Ok (Z.lxor posM posLast).

(** The bucket of the dependency map under [key] (empty when there is none). *)
Definition bucket (r : routine) (key : Z) : list dependency :=
  default [] (map_get (routine.dependencyMap r) key).

(** Every dependency in the map has a holding set longer than its count,
    as [newDependency] builds them. *)
Definition wf_buckets (r : routine) : Prop :=
  ∀ key d, d ∈ bucket r key →
    0 ≤ dependency.holdingCount d
    ∧ (Z.to_nat (dependency.holdingCount d) < length (dependency.holdingSet d))%nat.

(** A pattern of acquisitions and releases by one routine. *)
Inductive lockOp : Type :=
| Acquire (c : caller) (m : mutexInt) (rLock : bool)
| TryAcquire (m : mutexInt) (rLock : bool)
| Release (m : mutexInt).

(** The routine, the wrappers and the next free address. *)
Definition stepOp (opts : options) (s : routine * gmap loc lockObj * loc) (op : lockOp)
  : result (routine * gmap loc lockObj * loc) :=
  let '(r, σ, p) := s in
  match op with
  | Acquire c m rLock =>
      let* (r, σ) := updateLock opts c p σ r m rLock in Ok (r, σ, Pos.succ p)
  | TryAcquire m rLock =>
      let* (r, σ) := updateTryLock opts σ r m rLock in Ok (r, σ, p)
  | Release m =>
      let* r := updateUnlock r m in Ok (r, σ, p)
  end.

Definition runPattern (opts : options) (ops : list lockOp)
  (s : routine * gmap loc lockObj * loc) : result (routine * gmap loc lockObj * loc) :=
  foldM (stepOp opts) s ops.

Fixpoint repeatPattern (opts : options) (ops : list lockOp) (n : nat)
  (s : routine * gmap loc lockObj * loc) : result (routine * gmap loc lockObj * loc) :=
  match n with
  | O => Ok s
  | S n => let* s := runPattern opts ops s in repeatPattern opts ops n s
  end.

(** The wrappers of two stores are at the same places and have the same
    memory positions. *)
Definition same_objects (σ σ' : gmap loc lockObj) : Prop :=
  ∀ l, obj.getMemoryPosition <$> σ' !! l = obj.getMemoryPosition <$> σ !! l.


(** Two routines hold the same locks in holding sets of the same length
    (and the second has its map of call sites when the first has). *)
Definition same_holding (s t : routine) : Prop :=
  routine.holdingCount t = routine.holdingCount s
  ∧ held t = held s
  ∧ length (routine.holdingSet t) = length (routine.holdingSet s)
  ∧ routine.index t = routine.index s
  ∧ (is_Some (routine.collectedSingleLevelLocks s) →
     is_Some (routine.collectedSingleLevelLocks t)).

(** Every dependency in a bucket of [r] is in the same bucket of [r']. *)
Definition buckets_sub (r r' : routine) : Prop :=
  ∀ key d, d ∈ bucket r key → d ∈ bucket r' key.

(** Call stacks are collected only into a buffer of non-negative size. *)
Definition sane_opts (opts : options) : Prop :=
  options.collectCallStack opts = true → 0 ≤ options.maxCallStackSize opts.

(** A routine that holds no lock and has no dependency, two mutexes, and a
    nested pattern on them. *)
Definition exFresh : routine := routine.mk 0 0 [None; None; None; None] (Some ∅)
                                  [None; None; None; None] None 0 (Some ∅).
Definition exMutexes : gmap loc lockObj :=
  <[2%positive := MutexObj (Mutex.mk 1%positive [] true 0 ∅ 2)]>
  (<[4%positive := MutexObj (Mutex.mk 3%positive [] true 0 ∅ 4)]> ∅).
Definition exPattern : list lockOp :=
  [Acquire (exCaller 7 10) exA false; Acquire (exCaller 7 11) exB false;
   Release exB; Release exA].

(** ** Double locking *)

(** Two ways in which a computation does not return: the process ends by
    [os.Exit], or the recursion budget of the model runs out. *)
Inductive outcome : Type := oExit | oFuel.

Definition avoids (o : outcome) {A} (r : result A) : Prop :=
  match r with
  | Exit _ _ => o ≠ oExit
  | OutOfFuel => o ≠ oFuel
  | _ => True
  end.

(** A computation that does not end the process by [os.Exit]. *)
Abbreviation no_exit := (avoids oExit).

(** How often the routine [index] holds the lock, as the wrapper has it
    recorded in [isLockedRoutineIndex]. *)
Definition heldBy (o : lockObj) (index : Z) : Z :=
  default 0 (obj.getIsLockedRoutineIndex o !! index).

(** The counters of a wrapper are consistent for a routine: its count is
    not negative, and the lock counts as locked while the routine holds
    it. *)
Definition counters_consistent (o : lockObj) (index : Z) : Prop :=
  0 ≤ heldBy o index ∧ (0 < heldBy o index → obj.getNumberLocked o ≠ 0).

(** The routine holds the lock already, and not both the hold on record
    and the new acquisition are a reader's. *)
Definition doubleLocking (o : lockObj) (index : Z) (rLock : bool) : Prop :=
  0 < heldBy o index ∧ ¬ (rLock = true ∧ obj.getRLock o index = true).

(** The process exits with status 2 after reporting double locking of [m]. *)
Definition exitsDoubleLocking (m : mutexInt) (r : result state) : Prop :=
  ∃ stderr, r = Exit 2 stderr ∧ reportDeadlockDoubleLocking m ∈ stderr.

(** The state after the report of double locking is written. *)
Definition reported (g : state) (m : mutexInt) : state :=
  state.set_stderr g (state.stderr g ++ [reportDeadlockDoubleLocking m]).

(** Two goroutines. *)
Definition exX : caller := exCaller 7 10.
Definition exY : caller := exCaller 8 20.

(** A program: a lock is made and then acquired by the callers of [ops],
    in turn, as readers where the flag says so. *)
Definition lockProgram (opts : options) (rw : bool) (ops : list (caller * bool))
  : result state :=
  let* (g, m) := (if rw then NewRWLock else NewLock) exX
                   (state.mk opts false [] 0 ∅ ∅ ∅ 1%positive 1 []) in
  foldM (λ g '(c, rLock), lockInt c m rLock g) g ops.

(** Double-lock checking without any analysis. *)
Definition exNoAnalysis : options := options.mk true false false false true true 8 4 4 16.

(** ** The periodical detection *)

(** The lock a routine acquired last among those it holds, nil when it
    holds none. *)
Definition topOfHolding (r : routine) : mutexInt :=
  if bool_decide (1 ≤ routine.holdingCount r)
  then default None (routine.holdingSet r !! Z.to_nat (routine.holdingCount r - 1))
  else None.

(** The snapshot [lastHolding] differs from what some routine holds on top
    now. *)
Definition snapshotChanged (routines : list routine) (lastHolding : list mutexInt) : Prop :=
  ∃ (i : nat) (r : routine),
    routines !! i = Some r ∧ default None (lastHolding !! i) ≠ topOfHolding r.

(** The routines that hold more than one lock. *)
Definition holdSeveral (routines : list routine) : list routine :=
  filter (λ r, 1 < routine.holdingCount r) routines.

(** The holding count of a routine counts entries of its holding set. *)
Definition holding_ok (r : routine) : Prop :=
  0 ≤ routine.holdingCount r ≤ Z.of_nat (length (routine.holdingSet r))
  ∧ routine.holdingCount r < 2 ^ 63.

(** Goroutine X holds two locks and goroutine Y two others. *)
Definition exTick : result state :=
  let* (g, a) := NewLock exX exInit in
  let* (g, b) := NewLock exX g in
  let* (g, c) := NewLock exX g in
  let* (g, d) := NewLock exX g in
  let* g := MutexAPI.Lock exX a g in
  let* g := MutexAPI.Lock exX b g in
  let* g := MutexAPI.Lock exY c g in
  MutexAPI.Lock exY d g.

(** ** The searches for cycles *)

(** The dependency of a path element is one of the routine the element
    names. *)
Definition taken_from (g : state) (c : stackElement) : Prop :=
  0 ≤ stackElement.index c
  ∧ ∃ r j, state.routines g !! Z.to_nat (stackElement.index c) = Some r
           ∧ 0 ≤ j < routine.depCount r
           ∧ routine.dependencies r !! Z.to_nat j = Some (stackElement.depEntry c).

(** An explored path with the markers at the time: no two elements of the
    path come from the same routine, and the marker of the routine of each
    element is set. *)
Definition one_per_routine (g : state) (e : list stackElement * list bool) : Prop :=
  NoDup (stackElement.index <$> e.1)
  ∧ Forall (λ c, taken_from g c ∧ e.2 !! Z.to_nat (stackElement.index c) = Some true) e.1.

(** The number of markers that are not set. *)
Definition untraversed (t : list bool) : nat := length (filter (λ b, b = false) t).

(** What a search started on [s] keeps: the path and the markers are
    those of [s] when it returns, and what it explored is as good as what
    had been explored before. *)
Definition keeps_search (g : state) (s s' : search) : Prop :=
  search.stack s' = search.stack s
  ∧ search.isTraversed s' = search.isTraversed s
  ∧ Forall (one_per_routine g) (search.explored s').

(** A search may be started on [s]. *)
Definition search_ok (g : state) (s : search) : Prop :=
  one_per_routine g (depStack.chain (search.stack s), search.isTraversed s)
  ∧ Forall (one_per_routine g) (search.explored s).

(** What the loops of [detect] keep: the path is empty between two
    searches. *)
Definition detect_inv (g : state) (s : search) : Prop :=
  depStack.chain (search.stack s) = []
  ∧ length (search.isTraversed s) = Z.to_nat (state.numberRoutines g)
  ∧ Forall (one_per_routine g) (search.explored s).

(** The markers [t'] are those of [t], the one at [numberRoutines] apart. *)
Definition off_marker (g : state) (t t' : list bool) : Prop :=
  ∀ j : nat, j ≠ Z.to_nat (state.numberRoutines g) → t' !! j = t !! j.

(** An element that the periodical search added to a path, with the
    markers [t] at the time: it carries the index [numberRoutines], its
    dependency is the current one of a routine [i] after [visiting], and
    the marker of [i] is not set. *)
Definition added_unmarked (g : state) (visiting : Z) (t : list bool) (c : stackElement)
  : Prop :=
  stackElement.index c = state.numberRoutines g
  ∧ ∃ i r, visiting < i < state.numberRoutines g
           ∧ state.routines g !! Z.to_nat i = Some r
           ∧ routine.curDep r = stackElement.depEntry c
           ∧ is_Some (stackElement.depEntry c)
           ∧ t !! Z.to_nat i = Some false.

(** A path explored by a periodical search that started on [s]. *)
Definition periodical_entry (g : state) (visiting : Z) (s : search)
  (e : list stackElement * list bool) : Prop :=
  off_marker g (search.isTraversed s) e.2
  ∧ ∃ ext, e.1 = depStack.chain (search.stack s) ++ ext
           ∧ Forall (added_unmarked g visiting e.2) ext.

Definition keeps_periodical (g : state) (visiting : Z) (s s' : search) : Prop :=
  search.stack s' = search.stack s
  ∧ off_marker g (search.isTraversed s) (search.isTraversed s')
  ∧ ∃ new, search.explored s' = new ++ search.explored s
           ∧ Forall (periodical_entry g visiting s) new.

(** Three goroutines that each took two of three locks, one inside the
    other, in a cycle. *)
Definition exZ : caller := exCaller 9 30.

Definition nested (c : caller) (a b : mutexInt) (g : state) : result state :=
  let* g := MutexAPI.Lock c a g in
  let* g := MutexAPI.Lock c b g in
  let* g := MutexAPI.Unlock c b g in
  MutexAPI.Unlock c a g.

Definition exThree (opts : options) : result state :=
  let* (g, a) := NewLock exX (state.mk opts false [] 0 ∅ ∅ ∅ 1%positive 1 []) in
  let* (g, b) := NewLock exX g in
  let* (g, c) := NewLock exX g in
  let* g := nested exX a b g in
  let* g := nested exY b c g in
  nested exZ c a g.

(** A snapshot that is out of date for every routine: a cycle that is
    found counts as a false alarm. *)
Definition exStale (n : nat) : list mutexInt := replicate n (Some 2%positive).

(** As many routines as [maxRoutines] allows. *)
Definition exFull : options := options.mk true true true false true true 8 4 3 16.

(** The current dependency of routine [i]. *)
Definition curDepOf (g : state) (i : nat) : option dependency :=
  r ← state.routines g !! i; routine.curDep r.

(** ** Holding sets as slices *)

(** The heap is in order: the arrays are below the next free address. *)
Definition heap_ok (h : heap) : Prop :=
  ∀ a, is_Some (heap.arrays h !! a) → (a < heap.next h)%positive.

(** A slice of the heap: its array is allocated and as long as its
    capacity, at least. *)
Definition slice_ok (h : heap) (s : slice) : Prop :=
  ∃ a, heap.arrays h !! slice.array s = Some a
       ∧ 0 ≤ slice.len s ≤ slice.cap s ∧ slice.cap s ≤ Z.of_nat (length a).

(** The building of the holding set went from [h0] to [h]: the array of
    [cur] is what it was, and [hs], which is not in that array, has the
    elements [l]. *)
Definition built (h0 h : heap) (cur hs : slice) (l : list mutexInt) : Prop :=
  heap_ok h ∧ slice_ok h hs
  ∧ slice.array hs ≠ slice.array cur
  ∧ heap.arrays h !! slice.array cur = heap.arrays h0 !! slice.array cur
  ∧ elements h hs = l.

(** The holding set of a routine that holds [exA], in the array at
    address 1. *)
Definition exHeap : heap :=
  heap.mk {[1%positive := [exA; None; None; None]]} 2%positive.

(** ** The invariant of the detector's state *)

(** No wrapper is lost from [σ] to [σ']. *)
Definition grows (σ σ' : gmap loc lockObj) : Prop :=
  ∀ l, is_Some (σ !! l) → is_Some (σ' !! l).

(** The limits are values of Go's [int]. *)
Definition opts_ok (opts : options) : Prop :=
  options.maxNumberOfDependentLocks opts < 2 ^ 63
  ∧ options.maxDependencies opts < 2 ^ 63
  ∧ options.maxRoutines opts < 2 ^ 63.

(** The dependency in slot [j] of a routine. *)
Definition dependencyAt (r : routine) (j : Z) : option dependency :=
  mjoin (routine.dependencies r !! Z.to_nat j).

(** Routine [i] of the registry: it knows its index, it holds the first
    [holdingCount] entries of its holding set, which point to wrappers, the
    first [depCount] slots of its dependency list hold well-formed
    dependencies, and its maps are made. *)
Definition routine_ok (opts : options) (σ : gmap loc lockObj) (i : Z) (r : routine)
  : Prop :=
  routine.index r = i
  ∧ 0 ≤ routine.holdingCount r ≤ options.maxNumberOfDependentLocks opts
  ∧ routine.holdingCount r ≤ Z.of_nat (length (routine.holdingSet r))
  ∧ Forall (λ m, allocated σ m = true) (held r)
  ∧ 0 ≤ routine.depCount r ≤ options.maxDependencies opts
  ∧ routine.depCount r ≤ Z.of_nat (length (routine.dependencies r))
  ∧ (∀ j, 0 ≤ j < routine.depCount r →
       ∃ d, dependencyAt r j = Some d ∧ wf_dep σ d = true)
  ∧ (∀ d, routine.curDep r = Some d → wf_dep σ d = true)
  ∧ is_Some (routine.dependencyMap r)
  ∧ is_Some (routine.collectedSingleLevelLocks r).

(** The state of the detector: the registered routines are the first
    [numberRoutines] of the list, each in order, the map from goroutine ids
    points to them, one id to one routine, and before the first lock is
    made there is neither a created lock nor a routine. *)
Definition state_ok (g : state) : Prop :=
  opts_ok (state.opts g)
  ∧ 0 ≤ state.numberRoutines g ≤ Z.of_nat (length (state.routines g))
  ∧ (∀ id i, state.mapIndex g !! id = Some i → 0 ≤ i < state.numberRoutines g)
  ∧ (∀ id id' i, state.mapIndex g !! id = Some i → state.mapIndex g !! id' = Some i →
       id = id')
  ∧ (∀ i r, 0 ≤ i < state.numberRoutines g → state.routines g !! Z.to_nat i = Some r →
       routine_ok (state.opts g) (state.locks g) i r)
  ∧ (state.initialized g = false →
     state.numberRoutines g = 0 ∧ state.mapIndex g = ∅
     ∧ ∀ l o, state.locks g !! l = Some o → obj.getIn o = false).

(** The calls of a program on the library. *)
Inductive apiCall : Type :=
| CallNewLock (c : caller)
| CallNewRWLock (c : caller)
| CallMutexLock (c : caller) (m : mutexInt)
| CallRWLock (c : caller) (m : mutexInt)
| CallRWRLock (c : caller) (m : mutexInt)
| CallTry (op : tryOp)
| CallFindPotentialDeadlocks.

Definition runCall (g : state) (a : apiCall) : result state :=
  match a with
  | CallNewLock c => let* (g, _) := NewLock c g in Ok g
  | CallNewRWLock c => let* (g, _) := NewRWLock c g in Ok g
  | CallMutexLock c m => MutexAPI.Lock c m g
  | CallRWLock c m => RWMutexAPI.Lock c m g
  | CallRWRLock c m => RWMutexAPI.RLock c m g
  | CallTry op => runTryOp g op
  | CallFindPotentialDeadlocks => FindPotentialDeadlocks g
  end.

(** The state of a program that has not made a lock yet: the variables as
    the package declares them ([initial_state]), with the options as the
    setters have left them and with the goroutines of the program. *)
Definition start (opts : options) (numGoroutine : Z) : state :=
  state.mk opts false (state.routines initial_state) 0 ∅ ∅ ∅ 1%positive numGoroutine [].

(** Two goroutines make a mutex and a rw-mutex, take them in opposite
    orders and release them; the detection is run at the end. *)
Definition exCalls : list apiCall :=
  [CallNewLock exX; CallNewRWLock exX;
   CallMutexLock exX (Some 2%positive); CallRWRLock exX (Some 4%positive);
   CallTry (RWRUnlock exX (Some 4%positive)); CallTry (MutexUnlock exX (Some 2%positive));
   CallRWLock exY (Some 4%positive); CallTry (MutexTryLock exY (Some 2%positive));
   CallTry (MutexUnlock exY (Some 2%positive)); CallTry (RWUnlock exY (Some 4%positive));
   CallFindPotentialDeadlocks].

(** ** The comprehensive detection returns *)

(** A search may be started on [s] and it will not read a slot that is
    not there: there is a marker for every routine, and the path has an
    element. *)
Definition search_fits (g : state) (s : search) : Prop :=
  search_ok g s
  ∧ length (search.isTraversed s) = Z.to_nat (state.numberRoutines g)
  ∧ depStack.chain (search.stack s) ≠ [].

(** ** The reports of the comprehensive detection *)

(** Every element of the path after the first was accepted by [isChain]
    as an extension of the elements before it, for the routine whose index
    it carries. *)
Definition path_linked (σ : gmap loc lockObj) (st : depStack) : Prop :=
  ∀ (k : nat) c d, (0 < k)%nat → depStack.chain st !! k = Some c →
    stackElement.depEntry c = Some d →
    isChain σ (depStack.mk (depStack.stack st) (take k (depStack.chain st))) d
      (stackElement.index c) = Ok true.

(** A report of the comprehensive detection: a path of dependencies of
    different routines, each linked to the ones before it, and the
    dependency [j] of one more routine [i], which extends the path and
    closes it; the last element of the report carries [j]. *)
Definition closes_cycle (g : state) (rep : report) : Prop :=
  ∃ (st : depStack) (d : dependency) (i j : Z) (r : routine),
    rep = reportDeadlock (depStack.chain st ++ [newStackElement (Some d) j])
    ∧ NoDup (i :: (stackElement.index <$> depStack.chain st))
    ∧ Forall (taken_from g) (depStack.chain st)
    ∧ (0 ≤ i ∧ state.routines g !! Z.to_nat i = Some r
       ∧ 0 ≤ j < routine.depCount r
       ∧ routine.dependencies r !! Z.to_nat j = Some (Some d))
    ∧ path_linked (state.locks g) st
    ∧ isChain (state.locks g) st d i = Ok true
    ∧ isCycleChain (state.locks g) st d i = Ok true.

(** What a search keeps besides [keeps_search]. *)
Definition sound (g : state) (s : search) : Prop :=
  path_linked (state.locks g) (search.stack s)
  ∧ Forall (closes_cycle g) (search.out s).

(** ** The comprehensive detection at the end of a program *)

(** Two goroutines take two mutexes in opposite orders, one after the
    other. *)
Definition exCycleCalls : list apiCall :=
  [CallNewLock exX; CallNewLock exX;
   CallMutexLock exX (Some 2%positive); CallMutexLock exX (Some 4%positive);
   CallTry (MutexUnlock exX (Some 4%positive)); CallTry (MutexUnlock exX (Some 2%positive));
   CallMutexLock exY (Some 4%positive); CallMutexLock exY (Some 2%positive);
   CallTry (MutexUnlock exY (Some 2%positive)); CallTry (MutexUnlock exY (Some 4%positive))].

(** ** Try-lock *)

(** The call returns, or panics: it neither parks the goroutine nor ends
    the program, and it is not cut short by the recursion budget. *)
Definition returns_or_panics {A} (r : result A) : Prop :=
  match r with
  | Ok _ | Panic _ => True
  | _ => False
  end.

(** Two mutexes; the goroutines X and Y have each locked and unlocked the
    first. *)
Definition exRegistered : list apiCall :=
  [CallNewLock exX; CallNewLock exX;
   CallMutexLock exX (Some 2%positive); CallTry (MutexUnlock exX (Some 2%positive));
   CallMutexLock exY (Some 2%positive); CallTry (MutexUnlock exY (Some 2%positive))].

(** ** The errors of an unlock *)

(** The unlock methods of the wrappers. *)
Definition unlockMethods : list (caller → mutexInt → state → result state) :=
  [MutexAPI.Unlock; RWMutexAPI.Unlock; RWMutexAPI.RUnlock].

(** Goroutine X has locked the mutex it made. *)
Definition exLocked : list apiCall :=
  [CallNewLock exX; CallMutexLock exX (Some 2%positive)].

(** ** Lock and unlock as a round trip *)

(** Patterns in which every acquisition is released after the
    acquisitions made in between have been released. *)
Inductive balanced : list lockOp → Prop :=
| balanced_nil : balanced []
| balanced_acquire c m rLock inner rest :
    balanced inner → balanced rest →
    balanced (Acquire c m rLock :: inner ++ Release m :: rest)
| balanced_try m rLock inner rest :
    balanced inner → balanced rest →
    balanced (TryAcquire m rLock :: inner ++ Release m :: rest).

(** A pattern that returns leaves the routine holding what it held
    before, in a holding set of the same length. *)
Definition restores_holding (opts : options) (ops : list lockOp) : Prop :=
  ∀ r σ p r' σ' p',
    0 ≤ routine.holdingCount r ≤ Z.of_nat (length (routine.holdingSet r)) →
    runPattern opts ops (r, σ, p) = Ok (r', σ', p') →
    routine.holdingCount r' = routine.holdingCount r ∧ held r' = held r
    ∧ length (routine.holdingSet r') = length (routine.holdingSet r).

(** ** The gate of the periodical detection *)

(** The routines with their indices, as [for index, r := range routines]
    yields them. *)
Definition indexed (k : Z) (rs : list routine) : list (Z * routine) :=
  zip (seqZ k (Z.of_nat (length rs))) rs.

(** The entry of the snapshot for the routine differs from the lock that
    the routine holds on top. *)
Definition changed (lastHolding : list mutexInt) (ir : Z * routine) : bool :=
  negb (bool_decide (default None (lastHolding !! Z.to_nat ir.1) = topOfHolding ir.2)).

(** The routines that hold more than one lock and whose top is not the
    one of the snapshot. *)
Definition changedSeveral (lastHolding : list mutexInt) (irs : list (Z * routine))
  : list (Z * routine) :=
  List.filter (λ ir, changed lastHolding ir && bool_decide (1 < routine.holdingCount ir.2))
    irs.

(** The snapshot brought up to date. *)
Definition snapshot (rs : list routine) (lastHolding : list mutexInt) : list mutexInt :=
  (topOfHolding <$> rs) ++ drop (length rs) lastHolding.

(** ** The setters of the options *)

(** The calls of the setters of options.go. *)
Inductive setting : Type :=
| Activated (enable : bool)
| PeriodicDetection (enable : bool)
| ComprehensiveDetection (enable : bool)
| CollectCallStack (enable : bool)
| CollectSingleLevelLockInformation (enable : bool)
| DoubleLockingDetection (enable : bool)
| MaxDependencies (number : Z)
| MaxNumberOfDependentLocks (number : Z)
| MaxRoutines (number : Z)
| MaxCallStackSize (number : Z).

Definition applySetting (g : state) (s : setting) : state * bool :=
  match s with
  | Activated enable => SetActivated enable g
  | PeriodicDetection enable => SetPeriodicDetection enable g
  | ComprehensiveDetection enable => SetComprehensiveDetection enable g
  | CollectCallStack enable => SetCollectCallStack enable g
  | CollectSingleLevelLockInformation enable => SetCollectSingleLevelLockInformation enable g
  | DoubleLockingDetection enable => SetDoubleLockingDetection enable g
  | MaxDependencies number => SetMaxDependencies number g
  | MaxNumberOfDependentLocks number => SetMaxNumberOfDependentLocks number g
  | MaxRoutines number => SetMaxRoutines number g
  | MaxCallStackSize number => SetMaxCallStackSize number g
  end.

(** The state after a sequence of setter calls. *)
Definition applySettings (g : state) (ss : list setting) : state :=
  fold_left (λ g s, (applySetting g s).1) ss g.

(** One of the three detections is enabled. *)
Definition detections (o : options) : bool :=
  options.periodicDetection o || options.checkDoubleLocking o
  || options.comprehensiveDetection o.

(** The setters that end with [setActivatedAuto]. *)
Definition detectionSetting (s : setting) : Prop :=
  match s with
  | PeriodicDetection _ | ComprehensiveDetection _ | DoubleLockingDetection _ => True
  | _ => False
  end.

(** [activated] only with a detection, and not activated with a
    detection only when all three are enabled. *)
Definition activated_fits (o : options) : Prop :=
  (options.activated o = true → detections o = true)
  ∧ (options.activated o = false → detections o = true →
     options.periodicDetection o = true ∧ options.checkDoubleLocking o = true
     ∧ options.comprehensiveDetection o = true).

(** What a call of the library leaves alone: the options, and the
    detector stays initialized. *)
Definition keeps_opts (g g' : state) : Prop :=
  state.opts g' = state.opts g
  ∧ (state.initialized g = true → state.initialized g' = true).

(** The calls that make a lock. *)
Definition makesLock (a : apiCall) : Prop :=
  match a with
  | CallNewLock _ | CallNewRWLock _ => True
  | _ => False
  end.

(** ** stack.go on the heap *)

(** The element at address [a] is the [i]-th of the elements at [path]:
    it points back to the one before it and on to the one after it, and
    it carries the dependency and the index of [c]. *)
Definition element_at (h : stackHeap.t) (path : list loc) (i : nat) (a : loc)
  (c : stackElement) : Prop :=
  ∃ e, stackHeap.cells h !! a = Some e
    ∧ element.prev e = match i with O => None | S j => path !! j end
    ∧ element.next e = path !! S i
    ∧ element.depEntry e = stackElement.depEntry c
    ∧ element.index e = stackElement.index c.

(** The stack [s] on the heap [h] stands for the stack [st] of the model:
    its elements, from the bottom element on, are at the addresses [path],
    linked in both directions, the last of them the top. *)
Definition represents (h : stackHeap.t) (s : depStackRef.t) (st : depStack) : Prop :=
  ∃ path : list loc,
    length path = S (length (depStack.chain st))
    ∧ NoDup path
    ∧ depStackRef.stack s = path !! 0%nat
    ∧ depStackRef.top s = path !! length (depStack.chain st)
    ∧ (∀ i a c, path !! i = Some a →
         (depStack.stack st :: depStack.chain st) !! i = Some c → element_at h path i a c)
    ∧ (∀ a, is_Some (stackHeap.cells h !! a) → (a < stackHeap.free h)%positive).

(** No address from [free] on is in use. *)
Definition heap_fresh (h : stackHeap.t) : Prop :=
  ∀ a, is_Some (stackHeap.cells h !! a) → (a < stackHeap.free h)%positive.

(** ** The comprehensive detection is complete *)

(** The search that starts at routine [visiting] and has the path [st]
    will report [rep]: a dependency of a routine after [visiting] that has
    no dependency in the path extends the path and closes it, or it
    extends the path without closing it and the search on the longer path
    will report [rep]. *)
Inductive leads_to (g : state) (visiting : Z) (rep : report) : depStack → Prop :=
| leads_closes st i r j d :
    visiting < i < state.numberRoutines g →
    i ∉ stackElement.index <$> depStack.chain st →
    state.routines g !! Z.to_nat i = Some r →
    0 ≤ j < routine.depCount r →
    routine.dependencies r !! Z.to_nat j = Some (Some d) →
    isChain (state.locks g) st d i = Ok true →
    isCycleChain (state.locks g) st d i = Ok true →
    rep = reportDeadlock (depStack.chain st ++ [newStackElement (Some d) j]) →
    leads_to g visiting rep st
| leads_extends st i r j d :
    visiting < i < state.numberRoutines g →
    i ∉ stackElement.index <$> depStack.chain st →
    state.routines g !! Z.to_nat i = Some r →
    0 ≤ j < routine.depCount r →
    routine.dependencies r !! Z.to_nat j = Some (Some d) →
    isChain (state.locks g) st d i = Ok true →
    isCycleChain (state.locks g) st d i = Ok false →
    leads_to g visiting rep (push st (Some d) i) →
    leads_to g visiting rep st.

(** The markers after [visiting] are set for the routines of the path
    only. *)
Definition markers_tight (g : state) (visiting : Z) (s : search) : Prop :=
  ∀ k, visiting < k < state.numberRoutines g →
    k ∉ stackElement.index <$> depStack.chain (search.stack s) →
    search.isTraversed s !! Z.to_nat k = Some false.

(** What the loops of [detect] keep before the search is started with a
    dependency of routine [i]: the path is empty, on the stack that
    [detect] made, and no marker after [i] is set. *)
Definition detect_before (g : state) (i : Z) (s : search) : Prop :=
  detect_inv g s ∧ search.stack s = newDepStack
  ∧ ∀ k, i < k < state.numberRoutines g →
      search.isTraversed s !! Z.to_nat k = Some false.

(** The state after [exCycleCalls], and the dependencies of its two
    routines. *)
Definition exCycleState : state :=
  Eval vm_compute in
    match foldM runCall (start exOpts 2) exCycleCalls with
    | Ok g => g
    | _ => start exOpts 2
    end.

Definition exCycleDep0 : dependency :=
  dependency.mk 6%positive (Some 4%positive)
    [Some 2%positive; None; None; None; Some 2%positive] 1.

Definition exCycleDep1 : dependency :=
  dependency.mk 8%positive (Some 2%positive)
    [Some 4%positive; None; None; None; Some 4%positive] 1.

(** ** Lock identity in reachable states *)

(** The wrapper [o] at address [l] is as [NewLock] or [NewRWLock] made
    it: it is marked as created, it knows its address, and its platform
    lock is the one that was allocated just before it. *)
Definition made (l : loc) (o : lockObj) : Prop :=
  obj.getIn o = true
  ∧ obj.getMemoryPosition o = Z.pos l
  ∧ ∃ p, l = Pos.succ p
         ∧ (obj.getLock o = (true, Some p, None) ∨ obj.getLock o = (false, None, Some p)).

(** Every wrapper was made by the library, below the next free address. *)
Definition locks_made (g : state) : Prop :=
  ∀ l o, state.locks g !! l = Some o → made l o ∧ (l < state.nextPtr g)%positive.

Definition lockwise (R : loc → lockObj → Prop) (σ : gmap loc lockObj) : Prop :=
  ∀ l o, σ !! l = Some o → R l o.

(** [R] looks at nothing that the lock operations change in a wrapper. *)
Definition stable (R : loc → lockObj → Prop) : Prop :=
  ∀ l o, R l o →
    (∀ i v, R l (obj.setRLock o i v)) ∧ (∀ c, R l (obj.setContext o c))
    ∧ (∀ n, R l (obj.setNumberLocked o n)) ∧ (∀ c, R l (obj.setIsLockedRoutineIndex o c)).

(** ** The periodical detection ends *)

(** The computation ends: it returns a value that satisfies [I], or it
    panics, or it ends the program with status 2 and a standard error that
    satisfies [X]. It does not park and it is not cut short by the
    recursion budget. *)
Definition ends_with {A} (I : A → Prop) (X : list report → Prop) (r : result A) : Prop :=
  match r with
  | Ok a => I a
  | Panic _ => True
  | Exit code e => code = 2 ∧ X e
  | Blocked | OutOfFuel => False
  end.

(** The addresses of the dependencies on the path of [s]. *)
Definition path_ptrs (s : search) : list (option loc) :=
  (λ c, dependency.ptr <$> stackElement.depEntry c) <$> depStack.chain (search.stack s).

(** The addresses of the current dependencies of the routines in use. *)
Definition curDep_ptrs (g : state) : list (option loc) :=
  (λ r, dependency.ptr <$> routine.curDep r)
    <$> take (Z.to_nat (state.numberRoutines g)) (state.routines g).

(** The path of the periodical search holds current dependencies of
    routines in use, none twice, and nothing has been reported. *)
Definition periodical_path (g : state) (s : search) : Prop :=
  search.out s = [] ∧ NoDup (path_ptrs s) ∧ path_ptrs s ⊆ curDep_ptrs g.

(** What the periodical detection has written when it ends the program:
    its own report, then the reports of the comprehensive detection. *)
Definition periodical_stderr (g : state) (e : list report) : Prop :=
  ∃ out, e = state.stderr g ++ reportDeadlockPeriodical :: out.

(** The two goroutines of [exCycleCalls] have released their locks; then
    the first takes its two mutexes again, in the order it took them
    before, and a third goroutine takes two mutexes of its own. *)
Definition exStaleCalls : list apiCall :=
  exCycleCalls
  ++ [CallNewLock exZ; CallNewLock exZ;
      CallMutexLock exX (Some 2%positive); CallMutexLock exX (Some 4%positive);
      CallMutexLock exZ (Some 10%positive); CallMutexLock exZ (Some 12%positive)].

Definition exStaleState : state :=
  Eval vm_compute in
    match foldM runCall (start exOpts 3) exStaleCalls with
    | Ok g => g
    | _ => start exOpts 3
    end.

(** ** Double locking and the holds of a program *)

(** The wrapper is a rw-mutex. *)
Definition isRW (o : lockObj) : bool :=
  match o with
  | MutexObj _ => false
  | RWMutexObj _ => true
  end.

(** What an acquisition by the routine [index] that returns has recorded
    in the wrapper: one more hold of the lock and of the routine, and,
    when [updateLock] ran ([multi]), whether it was a reader's. *)
Definition lock_recorded (index : Z) (rLock multi : bool) (o o' : lockObj) : Prop :=
  obj.getIn o' = obj.getIn o
  ∧ isRW o' = isRW o
  ∧ obj.getNumberLocked o' = int_add (obj.getNumberLocked o) 1
  ∧ obj.getIsLockedRoutineIndex o'
    = <[index := int_add (heldBy o index) 1]> (obj.getIsLockedRoutineIndex o)
  ∧ ∀ i, obj.getRLock o' i
         = if multi && isRW o && bool_decide (i = index) then rLock else obj.getRLock o i.

(** What an unlock by the routine [index] that returns has recorded. *)
Definition unlock_recorded (index : Z) (o o' : lockObj) : Prop :=
  obj.getIn o' = obj.getIn o
  ∧ isRW o' = isRW o
  ∧ obj.getNumberLocked o' = int_add (obj.getNumberLocked o) (-1)
  ∧ obj.getIsLockedRoutineIndex o'
    = <[index := int_add (heldBy o index) (-1)]> (obj.getIsLockedRoutineIndex o)
  ∧ ∀ i, obj.getRLock o' i = obj.getRLock o i.

(** An acquisition that returned and has not been released: the
    goroutine, the wrapper, and whether it was a reader acquisition. *)
Module hold.
Record t := mk {
  holder : Z;
  lock : loc;
  reader : bool
}.
End hold.
Abbreviation hold := hold.t.

Definition same_hold (h h' : hold) : bool :=
  bool_decide (hold.holder h = hold.holder h')
  && bool_decide (hold.lock h = hold.lock h')
  && eqb (hold.reader h) (hold.reader h').

(** The holds without one hold like [h]; [None] when there is none. *)
Fixpoint release (h : hold) (hs : list hold) : option (list hold) :=
  match hs with
  | [] => None
  | h' :: hs' => if same_hold h' h then Some hs' else cons h' <$> release h hs'
  end.

(** The hold that a call of [Lock] or [RLock] asks for, when the method
    is called on a wrapper of its receiver type. *)
Definition acquisition (g : state) (a : apiCall) : option hold :=
  match a with
  | CallMutexLock c (Some l) =>
      match state.locks g !! l with
      | Some (MutexObj _) => Some (hold.mk (caller.goid c) l false)
      | _ => None
      end
  | CallRWLock c (Some l) =>
      match state.locks g !! l with
      | Some (RWMutexObj _) => Some (hold.mk (caller.goid c) l false)
      | _ => None
      end
  | CallRWRLock c (Some l) =>
      match state.locks g !! l with
      | Some (RWMutexObj _) => Some (hold.mk (caller.goid c) l true)
      | _ => None
      end
  | _ => None
  end.

(** The hold that a call of [Unlock] or [RUnlock] gives up. *)
Definition releasing (g : state) (a : apiCall) : option hold :=
  match a with
  | CallTry (MutexUnlock c (Some l)) =>
      match state.locks g !! l with
      | Some (MutexObj _) => Some (hold.mk (caller.goid c) l false)
      | _ => None
      end
  | CallTry (RWUnlock c (Some l)) =>
      match state.locks g !! l with
      | Some (RWMutexObj _) => Some (hold.mk (caller.goid c) l false)
      | _ => None
      end
  | CallTry (RWRUnlock c (Some l)) =>
      match state.locks g !! l with
      | Some (RWMutexObj _) => Some (hold.mk (caller.goid c) l true)
      | _ => None
      end
  | _ => None
  end.

(** The holds after a call that returned. The programs considered
    acquire by [Lock] and [RLock] and release what the calling goroutine
    holds, in the way it holds it; for any other call there is no
    answer. *)
Definition holds_step (g : state) (hs : list hold) (a : apiCall) : option (list hold) :=
  match a with
  | CallNewLock _ | CallNewRWLock _ | CallFindPotentialDeadlocks => Some hs
  | CallMutexLock _ _ | CallRWLock _ _ | CallRWRLock _ _ =>
      match acquisition g a with
      | Some h => Some (h :: hs)
      | None => None
      end
  | CallTry _ =>
      match releasing g a with
      | Some h => release h hs
      | None => None
      end
  end.

(** The state and the holds after the calls of a program, when each of
    them returned. *)
Fixpoint tracked (g : state) (hs : list hold) (calls : list apiCall)
  : option (state * list hold) :=
  match calls with
  | [] => Some (g, hs)
  | a :: calls =>
      match runCall g a, holds_step g hs a with
      | Ok g', Some hs' => tracked g' hs' calls
      | _, _ => None
      end
  end.

(** The goroutine of [h] holds the lock of [h] already. *)
Definition alreadyHolds (hs : list hold) (h : hold) : Prop :=
  ∃ h', h' ∈ hs ∧ hold.holder h' = hold.holder h ∧ hold.lock h' = hold.lock h.

(** The goroutine of [h] holds the lock of [h] already, and not both
    that hold and [h] are reader acquisitions. *)
Definition doubleLocks (hs : list hold) (h : hold) : Prop :=
  ∃ h', h' ∈ hs ∧ hold.holder h' = hold.holder h ∧ hold.lock h' = hold.lock h
        ∧ ¬ (hold.reader h' = true ∧ hold.reader h = true).

(** How many of the holds satisfy [f]. *)
Fixpoint count (f : hold → bool) (hs : list hold) : Z :=
  match hs with
  | [] => 0
  | h :: hs => (if f h then 1 else 0) + count f hs
  end.

Definition on_lock (l : loc) (h : hold) : bool := bool_decide (hold.lock h = l).

Definition by_routine (g : state) (l : loc) (index : Z) (h : hold) : bool :=
  bool_decide (hold.lock h = l ∧ state.mapIndex g !! hold.holder h = Some index).

(** The wrappers record the holds: every hold is on a wrapper and of a
    registered goroutine; a wrapper counts the holds on it, in all and for
    each routine; and while more than one goroutine runs its reader flag
    for a routine that holds it says whether the routine holds it as a
    reader (with one goroutine no flag is set). *)
Definition holds_recorded (g : state) (hs : list hold) : Prop :=
  (state.initialized g = false → state.locks g = ∅)
  ∧ (∀ h, h ∈ hs → is_Some (state.locks g !! hold.lock h)
                  ∧ is_Some (state.mapIndex g !! hold.holder h))
  ∧ (∀ l o, state.locks g !! l = Some o →
       obj.getNumberLocked o = count (on_lock l) hs
       ∧ (∀ index, heldBy o index = count (by_routine g l index) hs)
       ∧ (if bool_decide (1 < state.numGoroutine g)
          then ∀ h index, h ∈ hs → hold.lock h = l →
                 state.mapIndex g !! hold.holder h = Some index →
                 obj.getRLock o index = hold.reader h
          else ∀ index, obj.getRLock o index = false)).

(** Goroutine X makes a rw-mutex and takes it as a reader. *)
Definition exReaderCalls : list apiCall :=
  [CallNewRWLock exX; CallRWRLock exX (Some 2%positive)].

Definition exReaderState : state :=
  Eval vm_compute in
    match tracked (start exOpts 1) [] exReaderCalls with
    | Some (g, _) => g
    | None => start exOpts 1
    end.

Definition exReaderHolds : list hold := [hold.mk 7 2%positive true].

(** Whether the wrapper has the hold [x] on record as a reader's: the
    reader flag is written by [updateLock], which runs while more than one
    goroutine is running. *)
Definition recorded_reader (g : state) (x : hold) : bool :=
  bool_decide (1 < state.numGoroutine g) && hold.reader x.

(** The comprehensive analysis and double-lock checking, without the
    periodical detection: no goroutine is started by [initialize]. *)
Definition exComprehensive : options := options.mk true false true false true true 8 4 4 16.

Definition exSingleState : state :=
  Eval vm_compute in
    match tracked (start exComprehensive 1) [] exReaderCalls with
    | Some (g, _) => g
    | None => start exComprehensive 1
    end.

(** * Theorems *)

(** ** Loops and slices *)

Section loops.
Context {I R : Type}.
Implicit Types (body : I → result (option R)) (xs : list I).

(** A loop whose body never fails returns: with the first answer of the
    body, or with [None] when every round went on. *)
Lemma forEach_Ok body xs :
  (∀ x, x ∈ xs → ∃ o, body x = Ok o) →
  ∃ r, forEach body xs = Ok r ∧
    match r with
    | None => ∀ x, x ∈ xs → body x = Ok None
    | Some v => ∃ x, x ∈ xs ∧ body x = Ok (Some v)
    end.
Proof.
  induction xs as [|x xs IH]; intros Hb; simpl.
  - exists None. split; [done|]. intros x Hx. by apply elem_of_nil in Hx.
  - destruct (Hb x) as [o Ho]; [by left|]. rewrite Ho. destruct o as [v|].
    + exists (Some v). split; [done|]. exists x. split; [by left|done].
    + destruct IH as [r [Hr Hspec]]; [intros y Hy; apply Hb; by right|].
      exists r. split; [done|]. destruct r as [v|].
      * destruct Hspec as [y [Hy Hyb]]. exists y. split; [by right|done].
      * intros y Hy. apply elem_of_cons in Hy as [->|Hy]; [done|by apply Hspec].
Qed.
End loops.

Lemma forRange_Ok {R} lo hi (body : Z → result (option R)) :
  (∀ i, lo ≤ i < hi → ∃ o, body i = Ok o) →
  ∃ r, forRange lo hi body = Ok r ∧
    match r with
    | None => ∀ i, lo ≤ i < hi → body i = Ok None
    | Some v => ∃ i, lo ≤ i < hi ∧ body i = Ok (Some v)
    end.
Proof.
  intros Hb. unfold forRange.
  destruct (forEach_Ok body (seqZ lo (hi - lo))) as [r [Hr Hspec]].
  { intros i Hi. apply elem_of_seqZ in Hi. apply Hb. lia. }
  exists r. split; [done|]. destruct r as [v|].
  - destruct Hspec as [i [Hi Hv]]. apply elem_of_seqZ in Hi. exists i. split; [lia|done].
  - intros i Hi. apply Hspec. apply elem_of_seqZ. lia.
Qed.

Lemma slice_get_Some {A} (s : list A) (i : Z) (x : A) :
  0 ≤ i → s !! Z.to_nat i = Some x → slice_get s i = Ok x.
Proof. intros Hi Hx. unfold slice_get. rewrite decide_True by done. by rewrite Hx. Qed.

Lemma slice_get_inv {A} (s : list A) (i : Z) (x : A) :
  slice_get s i = Ok x → 0 ≤ i ∧ s !! Z.to_nat i = Some x.
Proof.
  unfold slice_get. case_decide; [|done].
  destruct (s !! Z.to_nat i) eqn:E; [|done]. intros [= ->]. done.
Qed.

(** ** Reading wrappers that exist *)

Lemma allocated_Some σ m :
  allocated σ m = true → ∃ l o, m = Some l ∧ σ !! l = Some o.
Proof.
  destruct m as [l|]; simpl; [|done]. intros H%bool_decide_eq_true.
  destruct H as [o Ho]. by exists l, o.
Qed.

Lemma getRLock_alloc σ l o i :
  σ !! l = Some o → getRLock σ (Some l) i = Ok (obj.getRLock o i).
Proof. intros H. unfold getRLock, deref. by rewrite H. Qed.

Lemma mutexHaveEqualLock_alloc σ l1 l2 o1 o2 :
  σ !! l1 = Some o1 → σ !! l2 = Some o2 →
  mutexHaveEqualLock σ (Some l1) (Some l2) = Ok (obj_sameLock o1 o2).
Proof.
  intros H1 H2. unfold mutexHaveEqualLock, getLock, deref. rewrite H1, H2. simpl.
  destruct o1 as [m1|m1], o2 as [m2|m2]; simpl; try done.
  - case_bool_decide as E; simpl.
    + rewrite bool_decide_true; [done|congruence].
    + rewrite bool_decide_false; [done|congruence].
  - case_bool_decide as E; simpl.
    + rewrite bool_decide_true; [done|congruence].
    + rewrite bool_decide_false; [done|congruence].
Qed.

Lemma wf_dep_mu σ d :
  wf_dep σ d = true → ∃ l o, dependency.mu d = Some l ∧ σ !! l = Some o.
Proof.
  unfold wf_dep. rewrite !andb_true_iff. intros [[H _] _]. by apply allocated_Some.
Qed.

Lemma wf_dep_get σ d i :
  wf_dep σ d = true → 0 ≤ i < dependency.holdingCount d →
  ∃ l o, dependency.holdingSet d !! Z.to_nat i = Some (Some l) ∧ σ !! l = Some o.
Proof.
  unfold wf_dep. rewrite !andb_true_iff. intros [[_ Hlen%bool_decide_eq_true] Hall] Hi.
  apply Is_true_true, forallb_True in Hall. rewrite Forall_lookup in Hall.
  destruct (lookup_lt_is_Some_2 (dependency.holdingSet d) (Z.to_nat i)) as [m Hm]; [lia|].
  specialize (Hall (Z.to_nat i) m). rewrite lookup_take_lt in Hall by lia.
  specialize (Hall Hm). apply Is_true_true, allocated_Some in Hall as (l & o & -> & Ho).
  by exists l, o.
Qed.

Lemma wf_stack_elem σ s c :
  wf_stack σ s = true → c ∈ depStack.chain s →
  ∃ d, stackElement.depEntry c = Some d ∧ wf_dep σ d = true.
Proof.
  unfold wf_stack. destruct (depStack.chain s) as [|c0 chain] eqn:E; [done|].
  intros Hall Hc. apply Is_true_true, forallb_True in Hall. rewrite Forall_forall in Hall.
  specialize (Hall c Hc). destruct (stackElement.depEntry c) as [d|]; [|done].
  exists d. split; [done|]. by apply Is_true_true.
Qed.

Lemma wf_stack_top σ s :
  wf_stack σ s = true → depStack.top s ∈ depStack.chain s.
Proof.
  unfold wf_stack, depStack.top. destruct (depStack.chain s) as [|c0 chain] eqn:E; [done|].
  intros _. apply list_elem_of_In.
  destruct (exists_last (l := c0 :: chain)) as (l' & a & Hl); [done|].
  rewrite Hl. rewrite last_last. apply in_or_app. right. by left.
Qed.

Lemma sameLock_alloc σ l1 l2 o1 o2 :
  σ !! l1 = Some o1 → σ !! l2 = Some o2 →
  sameLock σ (Some l1) (Some l2) ↔ obj_sameLock o1 o2 = true.
Proof.
  intros H1 H2. unfold sameLock. rewrite (mutexHaveEqualLock_alloc _ _ _ _ _ H1 H2).
  split; [by intros [= ->]|by intros ->].
Qed.

Lemma readLocked_alloc σ l o i :
  σ !! l = Some o → readLocked σ (Some l) i ↔ obj.getRLock o i = true.
Proof.
  intros H. unfold readLocked. rewrite (getRLock_alloc _ _ _ _ H).
  split; [by intros [= ->]|by intros ->].
Qed.

Lemma andThen_Ok a b : andThen (Ok a) (Ok b) = Ok (a && b).
Proof. by destruct a. Qed.

(** ** isChain *)

(** One round of a loop that looks for [acquired] in a holding set. *)
Lemma link_round σ li oi la oa (ri ra : Z) :
  σ !! li = Some oi → σ !! la = Some oa →
  (obj_sameLock oi oa && negb (obj.getRLock oi ri && obj.getRLock oa ra) = true)
  ↔ (sameLock σ (Some li) (Some la)
     ∧ ¬ (readLocked σ (Some li) ri ∧ readLocked σ (Some la) ra)).
Proof.
  intros Hi Ha.
  rewrite (sameLock_alloc _ _ _ _ _ Hi Ha), (readLocked_alloc _ _ _ _ Hi),
    (readLocked_alloc _ _ _ _ Ha).
  rewrite andb_true_iff, negb_true_iff, andb_false_iff.
  destruct (obj.getRLock oi ri), (obj.getRLock oa ra); naive_solver.
Qed.

(** The first loop of [isChain] finds a witness exactly when the link
    condition holds. *)
Lemma isChain_link σ stack cand ri :
  wf_stack σ stack = true → wf_dep σ cand = true →
  ∃ found,
    forRange 0 (dependency.holdingCount cand) (λ i,
      let* mutexInHs := slice_get (dependency.holdingSet cand) i in
      let* topDep := deref_dep (stackElement.depEntry (depStack.top stack)) in
      let* eq := mutexHaveEqualLock σ mutexInHs (dependency.mu topDep) in
      if eq then
        let* bothRead := andThen (getRLock σ mutexInHs ri)
                           (getRLock σ (dependency.mu topDep)
                                     (stackElement.index (depStack.top stack))) in
        if negb bothRead then Ok (Some true) else Ok None
      else Ok None) = Ok found
    ∧ (default false found = true ↔ linkCondition σ stack cand ri).
Proof.
  intros Hs Hc.
  destruct (wf_stack_elem _ _ _ Hs (wf_stack_top _ _ Hs)) as (topDep & Htop & Hwt).
  destruct (wf_dep_mu _ _ Hwt) as (la & oa & Hmu & Ha).
  set (ti := stackElement.index (depStack.top stack)).
  (* what one round answers *)
  assert (Hround : ∀ i, 0 ≤ i < dependency.holdingCount cand →
    ∃ li oi, dependency.holdingSet cand !! Z.to_nat i = Some (Some li) ∧ σ !! li = Some oi ∧
      (let* mutexInHs := slice_get (dependency.holdingSet cand) i in
       let* topDep := deref_dep (stackElement.depEntry (depStack.top stack)) in
       let* eq := mutexHaveEqualLock σ mutexInHs (dependency.mu topDep) in
       if eq then
         let* bothRead := andThen (getRLock σ mutexInHs ri)
                            (getRLock σ (dependency.mu topDep) ti) in
         if negb bothRead then Ok (Some true) else Ok None
       else Ok None)
      = Ok (if obj_sameLock oi oa && negb (obj.getRLock oi ri && obj.getRLock oa ti)
            then Some true else None)).
  { intros i Hi. destruct (wf_dep_get _ _ _ Hc Hi) as (li & oi & Hli & Hoi).
    exists li, oi. split; [done|]. split; [done|].
    rewrite (slice_get_Some _ _ _ (proj1 Hi) Hli). rewrite Htop. simpl. rewrite Hmu.
    rewrite (mutexHaveEqualLock_alloc _ _ _ _ _ Hoi Ha). simpl.
    rewrite (getRLock_alloc _ _ _ _ Hoi), (getRLock_alloc _ _ _ _ Ha), andThen_Ok.
    destruct (obj_sameLock oi oa); simpl; [|done].
    by destruct (obj.getRLock oi ri && obj.getRLock oa ti). }
  match goal with |- context [forRange 0 ?n ?f] =>
    destruct (forRange_Ok 0 n f) as [found [Hfound Hspec]] end.
  { intros i Hi. destruct (Hround i Hi) as (li & oi & _ & _ & ->). eauto. }
  exists found. split; [done|]. destruct found as [v|]; simpl.
  - destruct Hspec as (i & Hi & Hv). destruct (Hround i Hi) as (li & oi & Hli & Hoi & Hr).
    rewrite Hr in Hv.
    destruct (obj_sameLock oi oa && negb (obj.getRLock oi ri && obj.getRLock oa ti)) eqn:E;
      [|done].
    injection Hv as <-. split; [intros _|done].
    exists topDep. split; [done|]. exists i, (Some li). split; [by split|].
    rewrite Hmu. by apply (link_round σ li oi la oa).
  - split; [done|]. intros (topDep' & Htop' & i & m & [Hi Hm] & Hlink).
    rewrite Htop in Htop'. injection Htop' as <-.
    destruct (Hround i Hi) as (li & oi & Hli & Hoi & Hr).
    rewrite (Hspec i Hi) in Hr. rewrite Hli in Hm. injection Hm as <-.
    rewrite Hmu in Hlink. apply (link_round σ li oi la oa) in Hlink; [|done..].
    fold ti in Hlink. rewrite Hlink in Hr. done.
Qed.

(** A loop that returns [false] at the first round that breaks [P]. *)
Lemma forEach_guard {I} (body : I → result (option bool)) (P : I → Prop) xs :
  (∀ x, x ∈ xs → (body x = Ok None ∧ P x) ∨ (body x = Ok (Some false) ∧ ¬ P x)) →
  (forEach body xs = Ok None ∧ ∀ x, x ∈ xs → P x)
  ∨ (forEach body xs = Ok (Some false) ∧ ¬ ∀ x, x ∈ xs → P x).
Proof.
  intros Hb. destruct (forEach_Ok body xs) as [r [Hr Hspec]].
  { intros x Hx. destruct (Hb x Hx) as [[-> _]|[-> _]]; eauto. }
  rewrite Hr. destruct r as [v|].
  - right. destruct Hspec as (x & Hx & Hv).
    destruct (Hb x Hx) as [[E _]|[E HP]]; rewrite E in Hv; [done|].
    injection Hv as <-. split; [done|]. intros Hall. by apply HP, Hall.
  - left. split; [done|]. intros x Hx.
    destruct (Hb x Hx) as [[_ HP]|[E _]]; [done|]. rewrite (Hspec x Hx) in E. done.
Qed.

Lemma forRange_guard (body : Z → result (option bool)) (P : Z → Prop) lo hi :
  (∀ i, lo ≤ i < hi → (body i = Ok None ∧ P i) ∨ (body i = Ok (Some false) ∧ ¬ P i)) →
  (forRange lo hi body = Ok None ∧ ∀ i, lo ≤ i < hi → P i)
  ∨ (forRange lo hi body = Ok (Some false) ∧ ¬ ∀ i, lo ≤ i < hi → P i).
Proof.
  intros Hb. unfold forRange.
  destruct (forEach_guard body P (seqZ lo (hi - lo))) as [[E H]|[E H]].
  - intros i Hi%elem_of_seqZ. apply Hb. lia.
  - left. split; [done|]. intros i Hi. apply H, elem_of_seqZ. lia.
  - right. split; [done|]. intros Hall. apply H. intros i Hi%elem_of_seqZ. apply Hall. lia.
Qed.

Lemma gate_round σ li oi lj oj (ri rj : Z) :
  σ !! li = Some oi → σ !! lj = Some oj →
  (obj_sameLock oi oj && negb (obj.getRLock oj rj && obj.getRLock oi ri) = false)
  ↔ (sameLock σ (Some li) (Some lj) →
     readLocked σ (Some lj) rj ∧ readLocked σ (Some li) ri).
Proof.
  intros Hi Hj.
  rewrite (sameLock_alloc _ _ _ _ _ Hi Hj), (readLocked_alloc _ _ _ _ Hi),
    (readLocked_alloc _ _ _ _ Hj).
  destruct (obj_sameLock oi oj), (obj.getRLock oi ri), (obj.getRLock oj rj);
    simpl; naive_solver.
Qed.

(** The check of one element [c] of the path in [isChain]. *)
Lemma isChain_element σ cand ri c d :
  wf_dep σ cand = true → stackElement.depEntry c = Some d → wf_dep σ d = true →
  let body :=
    if dep_ptr_eqb (stackElement.depEntry c) (Some cand) then Ok (Some false)
    else
      forRange 0 (dependency.holdingCount cand) (λ i,
        let* cDep := deref_dep (stackElement.depEntry c) in
        forRange 0 (dependency.holdingCount cDep) (λ j,
          let* lockInDepHs := slice_get (dependency.holdingSet cand) i in
          let* lockInCHoldingSet := slice_get (dependency.holdingSet cDep) j in
          let* eq := mutexHaveEqualLock σ lockInDepHs lockInCHoldingSet in
          if eq then
            let* bothRead := andThen (getRLock σ lockInCHoldingSet (stackElement.index c))
                               (getRLock σ lockInDepHs ri) in
            if negb bothRead then Ok (Some false) else Ok None
          else Ok None)) in
  let P := dependency.ptr d ≠ dependency.ptr cand
           ∧ ∀ i a j b, holdsAt cand i a → holdsAt d j b → sameLock σ a b →
               readLocked σ b (stackElement.index c) ∧ readLocked σ a ri in
  (body = Ok None ∧ P) ∨ (body = Ok (Some false) ∧ ¬ P).
Proof.
  intros Hc Hd Hwd body P. subst body P. rewrite Hd. unfold dep_ptr_eqb. simpl.
  case_bool_decide as Hptr.
  { right. split; [done|]. intros [Hne _]. congruence. }
  assert (Hne : dependency.ptr d ≠ dependency.ptr cand) by congruence.
  match goal with |- context [forRange 0 ?n ?f] =>
    destruct (forRange_guard f
      (λ i, ∀ a j b, holdsAt cand i a → holdsAt d j b → sameLock σ a b →
            readLocked σ b (stackElement.index c) ∧ readLocked σ a ri) 0 n)
      as [[E H]|[E H]] end.
  - intros i Hi. simpl. destruct (wf_dep_get _ _ _ Hc Hi) as (li & oi & Hli & Hoi).
    match goal with |- context [forRange 0 ?n ?f] =>
      destruct (forRange_guard f
        (λ j, ∀ b, holdsAt d j b → sameLock σ (Some li) b →
              readLocked σ b (stackElement.index c) ∧ readLocked σ (Some li) ri) 0 n)
        as [[E H]|[E H]] end.
    + intros j Hj. destruct (wf_dep_get _ _ _ Hwd Hj) as (lj & oj & Hlj & Hoj).
      rewrite (slice_get_Some _ _ _ (proj1 Hi) Hli), (slice_get_Some _ _ _ (proj1 Hj) Hlj).
      simpl. rewrite (mutexHaveEqualLock_alloc _ _ _ _ _ Hoi Hoj). simpl.
      pose proof (gate_round σ li oi lj oj ri (stackElement.index c) Hoi Hoj) as Hg.
      destruct (obj_sameLock oi oj) eqn:Esame; simpl.
      * rewrite (getRLock_alloc _ _ _ _ Hoi), (getRLock_alloc _ _ _ _ Hoj), andThen_Ok.
        simpl in Hg.
        destruct (obj.getRLock oj (stackElement.index c) && obj.getRLock oi ri) eqn:Eb;
          simpl in *.
        -- left. split; [done|]. intros b [_ Hb]. rewrite Hlj in Hb. injection Hb as <-.
           by apply Hg.
        -- right. split; [done|]. intros Hall.
           assert (false = true → False) as Hf by done. apply Hf. symmetry. apply Hg.
           apply Hall. by split.
      * left. split; [done|]. intros b [_ Hb]. rewrite Hlj in Hb. injection Hb as <-.
        by apply Hg.
    + left. split; [done|]. intros a j b [_ Ha] Hb. rewrite Hli in Ha. injection Ha as <-.
      destruct Hb as [Hj Hb]. apply (H j Hj). by split.
    + right. split; [done|]. intros Hall. apply H. intros j Hj b Hb.
      apply (Hall (Some li) j b); [by split|done].
  - left. split; [done|]. split; [done|]. intros i a j b [Hi Ha]. apply (H i Hi). by split.
  - right. split; [done|]. intros [_ Hall]. apply H. intros i Hi a j b. by apply Hall.
Qed.



(** ** isCycleChain *)

(** What [isCycleChain] computes, on every path that is not empty: the
    acquired lock of the candidate occurs in the holding set of the bottom
    dependency with a witness that is not reader-reader, where the flag of
    the occurrence is read for the index stored in the empty bottom element
    of the stack ([dStack.stack.index]). *)
Lemma isCycleChain_computes σ stack cand candRoutine :
  wf_stack σ stack = true → wf_dep σ cand = true →
  ∃ b, isCycleChain σ stack cand candRoutine = Ok b
       ∧ (b = true ↔ cycleCondition_code σ stack cand candRoutine).
Proof.
  intros Hs Hc. unfold isCycleChain, cycleCondition_code, depStack.next.
  destruct (depStack.chain stack) as [|c chain] eqn:Echain.
  { unfold wf_stack in Hs. by rewrite Echain in Hs. }
  simpl. destruct (wf_stack_elem σ stack c Hs) as (bottom & Hb & Hwb).
  { rewrite Echain. by left. }
  rewrite Hb. simpl.
  destruct (wf_dep_mu _ _ Hc) as (la & oa & Hmu & Ha).
  set (si := stackElement.index (depStack.stack stack)).
  assert (Hround : ∀ i, 0 ≤ i < dependency.holdingCount bottom →
    ∃ li oi, dependency.holdingSet bottom !! Z.to_nat i = Some (Some li) ∧ σ !! li = Some oi ∧
      (let* mutexInHs := slice_get (dependency.holdingSet bottom) i in
       let* eq := mutexHaveEqualLock σ mutexInHs (dependency.mu cand) in
       if eq then
         let* bothRead := andThen (getRLock σ mutexInHs si)
                            (getRLock σ (dependency.mu cand) candRoutine) in
         if negb bothRead then Ok (Some true) else Ok None
       else Ok None)
      = Ok (if obj_sameLock oi oa && negb (obj.getRLock oi si && obj.getRLock oa candRoutine)
            then Some true else None)).
  { intros i Hi. destruct (wf_dep_get _ _ _ Hwb Hi) as (li & oi & Hli & Hoi).
    exists li, oi. split; [done|]. split; [done|].
    rewrite (slice_get_Some _ _ _ (proj1 Hi) Hli). simpl. rewrite Hmu.
    rewrite (mutexHaveEqualLock_alloc _ _ _ _ _ Hoi Ha). simpl.
    rewrite (getRLock_alloc _ _ _ _ Hoi), (getRLock_alloc _ _ _ _ Ha), andThen_Ok.
    destruct (obj_sameLock oi oa); simpl; [|done].
    by destruct (obj.getRLock oi si && obj.getRLock oa candRoutine). }
  match goal with |- context [forRange 0 ?n ?f] =>
    destruct (forRange_Ok 0 n f) as [found [Hfound Hspec]] end.
  { intros i Hi. destruct (Hround i Hi) as (li & oi & _ & _ & ->). eauto. }
  rewrite Hfound. simpl. exists (default false found). split; [done|].
  destruct found as [v|]; simpl.
  - destruct Hspec as (i & Hi & Hv). destruct (Hround i Hi) as (li & oi & Hli & Hoi & Hr).
    rewrite Hr in Hv.
    destruct (obj_sameLock oi oa && negb (obj.getRLock oi si && obj.getRLock oa candRoutine))
      eqn:E; [|done].
    injection Hv as <-. split; [intros _|done].
    exists c, bottom. split; [done|]. split; [done|]. exists i, (Some li).
    split; [by split|]. rewrite Hmu. by apply (link_round σ li oi la oa).
  - split; [done|]. intros (c' & bottom' & [= <-] & Hb' & i & m & [Hi Hm] & Hlink).
    rewrite Hb in Hb'. injection Hb' as <-.
    destruct (Hround i Hi) as (li & oi & Hli & Hoi & Hr).
    rewrite (Hspec i Hi) in Hr. rewrite Hli in Hm. injection Hm as <-.
    rewrite Hmu in Hlink. apply (link_round σ li oi la oa) in Hlink; [|done..].
    fold si in Hlink. rewrite Hlink in Hr. done.
Qed.

Lemma isCycleChain_computes_witness :
  isCycleChain exLocks exStack exDep1 1 = Ok true
  ∧ cycleCondition_code exLocks exStack exDep1 1.
Proof.
  destruct (isCycleChain_computes exLocks exStack exDep1 1) as (b & Hb & Hiff);
    [reflexivity..|].
  assert (b = true) as -> by (vm_compute in Hb; by injection Hb).
  split; [exact Hb|]. by apply Hiff.
Defined.

(** C2, on the example: routine 0 holds the rw-mutex [exA] as a reader and
    acquires [exB]; routine 1 holds [exB] and acquires [exA] as a reader.
    The candidate is a valid extension of the path, the only occurrence of
    [exA] in the bottom holding set is reader-reader (so the cycle condition
    as specified fails), and [isCycleChain] answers true: it reads the flag
    of the occurrence for index -1, the index of the empty bottom element,
    for which no flag is ever set. *)
Theorem isCycleChain_reads_sentinel_index :
  isChain exLocks exStack exDep1 1 = Ok true
  ∧ readLocked exLocks exA 0 ∧ readLocked exLocks exA 1
  ∧ stackElement.index (depStack.stack exStack) = -1
  ∧ isCycleChain exLocks exStack exDep1 1 = Ok true
  ∧ ¬ cycleCondition exLocks exStack exDep1 1.
Proof.
  repeat split; try (vm_compute; reflexivity).
  intros (c & bottom & Hn & Hb & i & m & [Hi Hm] & Hsame & Hnot).
  injection Hn as <-. injection Hb as <-. simpl in Hi, Hm.
  assert (i = 0) as -> by lia. injection Hm as <-.
  apply Hnot. split; vm_compute; reflexivity.
Qed.

(** ** updateUnlock *)

Lemma forEach_none {I R} (body : I → result (option R)) xs :
  (∀ y, y ∈ xs → body y = Ok None) → forEach body xs = Ok None.
Proof.
  induction xs as [|x xs IH]; intros H; simpl; [done|].
  rewrite (H x) by (by left). apply IH. intros y Hy. apply H. by right.
Qed.

Lemma forEach_first {I R} (body : I → result (option R)) xs1 x xs2 v :
  (∀ y, y ∈ xs1 → body y = Ok None) → body x = Ok (Some v) →
  forEach body (xs1 ++ x :: xs2) = Ok (Some v).
Proof.
  induction xs1 as [|y xs1 IH]; intros H Hx; simpl.
  - by rewrite Hx.
  - rewrite (H y) by (by left). apply IH; [|done]. intros z Hz. apply H. by right.
Qed.

Lemma int_sub_small a b : int_range (a - b) → int_sub a b = a - b.
Proof.
  unfold int_range, int_sub, int_wrap. intros H.
  rewrite Z.mod_small by lia. lia.
Qed.

Lemma int_add_small a b : int_range (a + b) → int_add a b = a + b.
Proof.
  unfold int_range, int_add, int_wrap. intros H.
  rewrite Z.mod_small by lia. lia.
Qed.

(** The loop of [updateUnlock] finds the topmost occurrence. *)
Lemma updateUnlock_scan (hs : list mutexInt) (hc : Z) (m : mutexInt) :
  0 ≤ hc ≤ Z.of_nat (length hs) →
  let scan := forDown hc (λ i,
      let* x := slice_get hs i in
      if bool_decide (x = m) then Ok (Some i) else Ok None) in
  (m ∉ take (Z.to_nat hc) hs → scan = Ok None)
  ∧ (∀ l1 l2, take (Z.to_nat hc) hs = l1 ++ m :: l2 → m ∉ l2 →
       scan = Ok (Some (Z.of_nat (length l1)))).
Proof.
  intros Hhc scan. subst scan. unfold forDown. split.
  - intros Hnot. apply forEach_none. intros i Hi%elem_of_reverse%elem_of_seqZ.
    destruct (lookup_lt_is_Some_2 hs (Z.to_nat i)) as [x Hx]; [lia|].
    rewrite (slice_get_Some _ _ _ (proj1 Hi) Hx). simpl.
    rewrite bool_decide_false; [done|]. intros ->. apply Hnot.
    apply elem_of_take. exists (Z.to_nat i). split; [done|lia].
  - intros l1 l2 Htake Hnot.
    assert (Hlen : (length l1 + S (length l2) = Z.to_nat hc)%nat).
    { rewrite <- (length_take_le hs (Z.to_nat hc)) by lia.
      rewrite Htake, length_app. done. }
    set (k := Z.of_nat (length l1)).
    replace hc with (k + (1 + Z.of_nat (length l2))) by lia.
    rewrite seqZ_app by lia. rewrite (seqZ_app _ 1) by lia.
    rewrite !reverse_app. change (seqZ (0 + k) 1) with [0 + k]. simpl.
    rewrite <- app_assoc. simpl. replace (0 + k) with k by lia.
    apply forEach_first.
    + intros i Hi%elem_of_reverse%elem_of_seqZ.
      assert (Hl2 : l2 !! (Z.to_nat i - S (length l1))%nat = hs !! Z.to_nat i).
      { rewrite <- (lookup_take_lt hs (Z.to_nat hc)) by lia. rewrite Htake.
        rewrite lookup_app_r by lia. rewrite lookup_cons_ne_0 by lia.
        f_equal. lia. }
      destruct (lookup_lt_is_Some_2 l2 (Z.to_nat i - S (length l1))%nat) as [x Hx]; [lia|].
      rewrite (slice_get_Some hs i x); [|lia|by rewrite <- Hl2]. simpl.
      rewrite bool_decide_false; [done|]. intros ->. apply Hnot.
      by eapply list_elem_of_lookup_2.
    + assert (Hm : hs !! Z.to_nat k = Some m).
      { rewrite <- (lookup_take_lt hs (Z.to_nat hc)) by lia. rewrite Htake.
        subst k. rewrite Nat2Z.id. by rewrite list_lookup_middle. }
      rewrite (slice_get_Some hs k m); [|lia|done]. simpl.
      by rewrite bool_decide_true.
Qed.

(** C6. [updateUnlock] removes the topmost occurrence of [m] among the
    first [holdingCount] entries of the holding set: the entries below and
    above it keep their order, the count drops by one, the slice keeps its
    length (a nil entry is appended) and nothing else of the routine
    changes. When [m] does not occur there the routine is unchanged. *)
Theorem updateUnlock_spec (r : routine) (m : mutexInt) :
  0 ≤ routine.holdingCount r ≤ Z.of_nat (length (routine.holdingSet r)) →
  int_range (routine.holdingCount r) →
  let held := take (Z.to_nat (routine.holdingCount r)) (routine.holdingSet r) in
  (m ∉ held → updateUnlock r m = Ok r)
  ∧ (∀ below above, held = below ++ m :: above → m ∉ above →
       updateUnlock r m =
         Ok (routine.mk (routine.index r) (routine.holdingCount r - 1)
               (below ++ above
                  ++ drop (Z.to_nat (routine.holdingCount r)) (routine.holdingSet r)
                  ++ [None])
               (routine.dependencyMap r) (routine.dependencies r) (routine.curDep r)
               (routine.depCount r) (routine.collectedSingleLevelLocks r))).
Proof.
  intros Hhc Hrange held.
  destruct (updateUnlock_scan (routine.holdingSet r) (routine.holdingCount r) m Hhc)
    as [Hnone Hsome].
  split.
  - intros Hnot. unfold updateUnlock. rewrite (Hnone Hnot). simpl. done.
  - intros below above Hheld Hnot. unfold updateUnlock.
    rewrite (Hsome below above Hheld Hnot). simpl.
    assert (Hlen : (length below + S (length above)
                    = Z.to_nat (routine.holdingCount r))%nat).
    { rewrite <- (length_take_le (routine.holdingSet r)
                    (Z.to_nat (routine.holdingCount r))) by lia.
      fold held. rewrite Hheld, length_app. done. }
    rewrite int_sub_small by (unfold int_range in *; lia).
    f_equal. f_equal. unfold splice.
    pose proof (take_drop (Z.to_nat (routine.holdingCount r)) (routine.holdingSet r)) as Hsplit.
    fold held in Hsplit. rewrite Hheld in Hsplit.
    rewrite <- Hsplit at 1 2. rewrite Nat2Z.id.
    rewrite <- app_assoc. rewrite take_app_length.
    replace (Z.to_nat (Z.of_nat (length below) + 1)) with (S (length below)) by lia.
    rewrite drop_app_ge by lia.
    replace (S (length below) - length below)%nat with 1%nat by lia.
    simpl. rewrite drop_0. by rewrite <- !app_assoc.
Qed.

Lemma updateUnlock_spec_witness :
  updateUnlock exRoutine exA =
    Ok (routine.mk 0 2 [exA; exB; None; None] (Some ∅) [None; None] None 0 (Some ∅)).
Proof.
  destruct (updateUnlock_spec exRoutine exA) as [_ H].
  - simpl. lia.
  - unfold int_range. simpl. lia.
  - apply (H [exA; exB] []); [reflexivity|]. apply not_elem_of_nil.
Defined.

(** ** updateTryLock and the try-lock calls *)

Lemma bind_Ok_inv {A B} (r : result A) (f : A → result B) (b : B) :
  bind r f = Ok b → ∃ a, r = Ok a ∧ f a = Ok b.
Proof. destruct r; simpl; try done. eauto. Qed.

Lemma slice_set_inv {A} (s : list A) i x s' :
  slice_set s i x = Ok s' → 0 ≤ i < Z.of_nat (length s) ∧ s' = <[Z.to_nat i := x]> s.
Proof. unfold slice_set. case_decide; [|done]. by intros [= <-]. Qed.

Lemma same_tree_refl r : same_tree r r.
Proof. by repeat split. Qed.

Lemma same_tree_trans r1 r2 r3 : same_tree r1 r2 → same_tree r2 r3 → same_tree r1 r3.
Proof. unfold same_tree. intros (?&?&?&?) (?&?&?&?). repeat split; congruence. Qed.

Lemma empty_tree_same r r' : empty_tree r → same_tree r r' → empty_tree r'.
Proof.
  unfold same_tree, empty_tree. intros (?&?&?&?) (Hd&Hc&Hm&Hcur).
  rewrite Hd, Hc, Hm, Hcur. done.
Qed.

Lemma keeps_trees_refl g : keeps_trees g g.
Proof. intros i. left. apply same_tree_refl. Qed.

Lemma keeps_trees_trans g1 g2 g3 :
  keeps_trees g1 g2 → keeps_trees g2 g3 → keeps_trees g1 g3.
Proof.
  intros H12 H23 i. destruct (H23 i) as [Hs|He]; [|by right].
  destruct (H12 i) as [Hs'|He'].
  - left. by eapply same_tree_trans.
  - right. by eapply empty_tree_same.
Qed.

Lemma keeps_trees_routines g g' :
  state.routines g' = state.routines g → keeps_trees g g'.
Proof. intros H i. left. rewrite H. apply same_tree_refl. Qed.

(** Replacing a routine by one with the same lock tree. *)
Lemma keeps_trees_update g i r r' rs :
  slice_get (state.routines g) i = Ok r → same_tree r r' →
  slice_set (state.routines g) i r' = Ok rs →
  keeps_trees g (state.set_routines g rs).
Proof.
  intros [Hi Hr]%slice_get_inv Hsame [_ ->]%slice_set_inv j. left. simpl.
  destruct (decide (j = Z.to_nat i)) as [->|Hne].
  - rewrite Hr, list_lookup_insert_eq by (by eapply lookup_lt_Some). done.
  - rewrite list_lookup_insert_ne by done. apply same_tree_refl.
Qed.

Lemma updateTryLock_inv opts σ r m rLock r' σ' :
  updateTryLock opts σ r m rLock = Ok (r', σ') →
  routine.holdingCount r < options.maxNumberOfDependentLocks opts
  ∧ setRLock σ m (routine.index r) rLock = Ok σ'
  ∧ 0 ≤ routine.holdingCount r < Z.of_nat (length (routine.holdingSet r))
  ∧ r' = routine.mk (routine.index r) (int_add (routine.holdingCount r) 1)
           (<[Z.to_nat (routine.holdingCount r) := m]> (routine.holdingSet r))
           (routine.dependencyMap r) (routine.dependencies r) (routine.curDep r)
           (routine.depCount r) (routine.collectedSingleLevelLocks r).
Proof.
  unfold updateTryLock. case_bool_decide as Hmax; [done|].
  intros (σ1 & Hσ & H)%bind_Ok_inv. apply bind_Ok_inv in H as (hs & Hhs & H).
  apply slice_set_inv in Hhs as [Hrange ->]. injection H as <- <-.
  split; [lia|]. done.
Qed.

Lemma updateTryLock_same_tree opts σ r m rLock r' σ' :
  updateTryLock opts σ r m rLock = Ok (r', σ') → same_tree r r'.
Proof. intros (_ & _ & _ & ->)%updateTryLock_inv. by repeat split. Qed.

Lemma updateUnlock_same_tree r m r' : updateUnlock r m = Ok r' → same_tree r r'.
Proof.
  unfold updateUnlock. intros (found & _ & H)%bind_Ok_inv.
  destruct found; injection H as <-; by repeat split.
Qed.

Lemma updObj_routines g m f g' :
  updObj g m f = Ok g' → state.routines g' = state.routines g.
Proof.
  unfold updObj. destruct m; [|done]. intros (o & _ & H)%bind_Ok_inv. by injection H as <-.
Qed.

Lemma onPrim_routines g p f g' :
  onPrim g p f = Ok g' → state.routines g' = state.routines g.
Proof.
  unfold onPrim. destruct p; [|done]. destruct (state.prims g !! _); [|done].
  intros (x & _ & H)%bind_Ok_inv. by injection H as <-.
Qed.

Lemma tryPrim_routines g p f g' b :
  tryPrim g p f = Ok (g', b) → state.routines g' = state.routines g.
Proof.
  unfold tryPrim. destruct p; [|done]. destruct (state.prims g !! _); [|done].
  by intros [= <- _].
Qed.

Lemma primitiveTryLock_routines g m rLock g' b :
  primitiveTryLock g m rLock = Ok (g', b) → state.routines g' = state.routines g.
Proof.
  unfold primitiveTryLock. intros ([[d l] t] & _ & H)%bind_Ok_inv.
  destruct d; [|destruct rLock]; by eapply tryPrim_routines.
Qed.

Lemma make_inv {A} n (z : A) l : make n z = Ok l → 0 ≤ n ∧ l = replicate (Z.to_nat n) z.
Proof. unfold make. case_decide; [|done]. by intros [= <-]. Qed.

Lemma newRoutine_keeps g c g' : newRoutine g c = Ok g' → keeps_trees g g'.
Proof.
  unfold newRoutine.
  destruct (negb _ && negb _); [intros [= <-]; apply keeps_trees_refl|].
  intros (hs & Hhs & H)%bind_Ok_inv. apply bind_Ok_inv in H as (deps & Hdeps & H).
  case_bool_decide; [done|]. apply bind_Ok_inv in H as (rs & Hrs & H).
  injection H as <-. apply slice_set_inv in Hrs as [Hrange ->].
  apply make_inv in Hdeps as [_ ->]. intros j. simpl.
  destruct (decide (j = Z.to_nat (state.numberRoutines g))) as [->|Hne].
  - right. rewrite list_lookup_insert_eq by lia. simpl. repeat split; try done.
    + intros d Hd. apply elem_of_replicate in Hd as [Hd _]. done.
    + intros k. left. done.
  - left. rewrite list_lookup_insert_ne by done. apply same_tree_refl.
Qed.

Lemma defer_Ok_inv deferred body g g' :
  defer deferred body g = Ok g' → ∃ g1, body g = Ok g1 ∧ deferred g1 = Ok g'.
Proof.
  unfold defer. destruct (body g) as [g1| | | |]; try done; [eauto|].
  by destruct (deferred g).
Qed.

Lemma ensureRoutine_keeps g c g' index :
  ensureRoutine g c = Ok (g', index) → keeps_trees g g'.
Proof.
  unfold ensureRoutine. intros (g1 & Hnew & [= <- _])%bind_Ok_inv.
  destruct (bool_decide _); [by eapply newRoutine_keeps|].
  injection Hnew as <-. apply keeps_trees_refl.
Qed.

Lemma tryLockInt_keeps c m rLock g g' b :
  tryLockInt c m rLock g = Ok (g', b) → keeps_trees g g'.
Proof.
  unfold tryLockInt. destruct (negb (options.activated _)).
  { intros H%primitiveTryLock_routines. by apply keeps_trees_routines. }
  intros (o & _ & H)%bind_Ok_inv. destruct (negb (obj.getIn o)); [done|].
  apply bind_Ok_inv in H as ([g1 res] & Hprim%primitiveTryLock_routines & H).
  apply bind_Ok_inv in H as (g2 & Hg2 & H).
  assert (H12 : keeps_trees g1 g2).
  { destruct res; [|injection Hg2 as <-; apply keeps_trees_refl].
    apply bind_Ok_inv in Hg2 as ([g1' index] & Hnew & Hg2).
    apply bind_Ok_inv in Hg2 as (g1'' & Hn%updObj_routines & Hi%updObj_routines).
    apply (keeps_trees_trans _ g1'); [|apply keeps_trees_routines; by rewrite Hi, Hn].
    by eapply ensureRoutine_keeps. }
  apply (keeps_trees_trans _ g1); [by apply keeps_trees_routines|].
  apply (keeps_trees_trans _ g2); [exact H12|].
  destruct (negb _ && negb _); [injection H as <- _; apply keeps_trees_refl|].
  destruct (bool_decide _ && res); [|injection H as <- _; apply keeps_trees_refl].
  apply bind_Ok_inv in H as (r & Hr & H).
  apply bind_Ok_inv in H as ([r' σ'] & Hupd%updateTryLock_same_tree & H).
  apply bind_Ok_inv in H as (rs & Hrs & H). injection H as <- _.
  apply (keeps_trees_trans _ (state.set_routines g2 rs)); [by eapply keeps_trees_update|].
  by apply keeps_trees_routines.
Qed.

Lemma unlockInt_keeps c m g g' : unlockInt c m g = Ok g' → keeps_trees g g'.
Proof.
  unfold unlockInt. intros (o & _ & H)%bind_Ok_inv.
  destruct (negb (obj.getIn o)); [done|]. case_bool_decide; [done|].
  apply defer_Ok_inv in H as (g1 & Hbody & Hdef).
  apply bind_Ok_inv in Hdef as (g2 & Hn%updObj_routines & Hi%updObj_routines).
  apply (keeps_trees_trans _ g1); [|apply keeps_trees_routines; by rewrite Hi, Hn].
  destruct (negb _ && negb _); [injection Hbody as <-; apply keeps_trees_refl|].
  apply bind_Ok_inv in Hbody as (r & Hr & H).
  apply bind_Ok_inv in H as (r' & Hupd%updateUnlock_same_tree & H).
  apply bind_Ok_inv in H as (rs & Hrs & H). injection H as <-.
  by eapply keeps_trees_update.
Qed.

Lemma unlock_keeps c m g g'
    (k : state → bool * option loc * option loc → result state) :
  (∀ g1 glt g2, k g1 glt = Ok g2 → state.routines g2 = state.routines g1) →
  (let* g := if options.activated (state.opts g) then unlockInt c m g else Ok g in
   let* glt := getLock (state.locks g) m in
   k g glt) = Ok g' →
  keeps_trees g g'.
Proof.
  intros Hk (g1 & Hg1 & H)%bind_Ok_inv. apply bind_Ok_inv in H as (glt & _ & H).
  apply Hk in H.
  apply (keeps_trees_trans _ g1); [|by apply keeps_trees_routines].
  destruct (options.activated _); [by eapply unlockInt_keeps|].
  injection Hg1 as <-. apply keeps_trees_refl.
Qed.

Lemma runTryOp_keeps g op g' : runTryOp g op = Ok g' → keeps_trees g g'.
Proof.
  destruct op as [c m|c m|c m|c m|c m|c m]; simpl.
  - unfold MutexAPI.TryLock. intros ([g1 b] & H & [= <-])%bind_Ok_inv.
    by eapply tryLockInt_keeps.
  - unfold MutexAPI.Unlock.
    apply (unlock_keeps c m g g' (λ g '(_, l, _), onPrim g l sync.Unlock)).
    intros g1 [[? ?] ?] g2. apply onPrim_routines.
  - unfold RWMutexAPI.TryLock. intros ([g1 b] & H & [= <-])%bind_Ok_inv.
    apply bind_Ok_inv in H as ([g2 b2] & H & [= <- <-]). by eapply tryLockInt_keeps.
  - unfold RWMutexAPI.RTryLock. intros ([g1 b] & H & [= <-])%bind_Ok_inv.
    apply bind_Ok_inv in H as ([g2 b2] & H & [= <- <-]). by eapply tryLockInt_keeps.
  - unfold RWMutexAPI.Unlock.
    apply (unlock_keeps c m g g' (λ g '(_, _, t), onPrim g t sync.Unlock)).
    intros g1 [[? ?] ?] g2. apply onPrim_routines.
  - unfold RWMutexAPI.RUnlock.
    apply (unlock_keeps c m g g' (λ g '(_, _, t), onPrim g t sync.RUnlock)).
    intros g1 [[? ?] ?] g2. apply onPrim_routines.
Qed.

Lemma runTryOps_keeps ops g g' : foldM runTryOp g ops = Ok g' → keeps_trees g g'.
Proof.
  revert g. induction ops as [|op ops IH]; intros g; simpl.
  - intros [= <-]. apply keeps_trees_refl.
  - intros (g1 & H1%runTryOp_keeps & H)%bind_Ok_inv.
    eapply keeps_trees_trans; [exact H1|]. by apply IH.
Qed.

Lemma RWMutex_getRLock_setRLock m i v j :
  RWMutex.getRLock (RWMutex.setRLock m i v) j
  = if decide (i = j) then v else RWMutex.getRLock m j.
Proof.
  unfold RWMutex.getRLock, RWMutex.setRLock. simpl. case_decide as E.
  - subst. rewrite lookup_insert_eq. simpl. by destruct v.
  - by rewrite lookup_insert_ne.
Qed.

(** [setRLock] changes one reader flag of one lock. *)
Lemma setRLock_other σ m i v σ' m' i' :
  setRLock σ m i v = Ok σ' → m' ≠ m ∨ i' ≠ i → getRLock σ' m' i' = getRLock σ m' i'.
Proof.
  unfold setRLock. destruct m as [l|]; [|done].
  intros (o & Ho & [= <-])%bind_Ok_inv Hne. unfold getRLock, deref in *.
  destruct m' as [l'|]; [|done]. destruct (decide (l' = l)) as [->|Hl].
  - rewrite lookup_insert_eq. destruct (σ !! l) as [o'|]; [|done].
    injection Ho as ->. simpl. f_equal. destruct o as [mx|rw]; simpl; [done|].
    rewrite RWMutex_getRLock_setRLock. case_decide; [|done]. naive_solver.
  - by rewrite lookup_insert_ne.
Qed.

(** C5. [updateTryLock] returns whenever the holding set has room, and
    then the lock tree of the routine (the dependency list, [depCount], the
    dependency map and [curDep]) is what it was: only the holding set ([m]
    stored at position [holdingCount], the count one higher) and the reader
    flag of [m] for this routine change. Hence a sequence of try-lock and
    unlock calls of the wrappers, by any goroutines and on any locks, adds
    no dependency to any routine. *)
Theorem tryLock_adds_no_dependency (opts : options) (σ : gmap loc lockObj)
    (r : routine) (m : mutexInt) (rLock : bool) (ops : list tryOp) (g : state) :
  (allocated σ m = true →
   routine.holdingCount r < options.maxNumberOfDependentLocks opts →
   0 ≤ routine.holdingCount r < Z.of_nat (length (routine.holdingSet r)) →
   is_Ok (updateTryLock opts σ r m rLock))
  ∧ (∀ r' σ', updateTryLock opts σ r m rLock = Ok (r', σ') →
       same_tree r r'
       ∧ routine.index r' = routine.index r
       ∧ routine.collectedSingleLevelLocks r' = routine.collectedSingleLevelLocks r
       ∧ routine.holdingSet r'
         = <[Z.to_nat (routine.holdingCount r) := m]> (routine.holdingSet r)
       ∧ routine.holdingCount r' = int_add (routine.holdingCount r) 1
       ∧ (int_range (options.maxNumberOfDependentLocks opts) →
          routine.holdingCount r' = routine.holdingCount r + 1)
       ∧ setRLock σ m (routine.index r) rLock = Ok σ'
       ∧ ∀ m' i', m' ≠ m ∨ i' ≠ routine.index r →
           getRLock σ' m' i' = getRLock σ m' i')
  ∧ (∀ g', foldM runTryOp g ops = Ok g' → keeps_trees g g').
Proof.
  split; [|split].
  - intros (l & o & -> & Ho)%allocated_Some Hmax Hrange.
    unfold updateTryLock, setRLock, deref. rewrite bool_decide_false by lia.
    rewrite Ho. simpl. unfold slice_set. rewrite decide_True by done. simpl.
    by eexists.
  - intros r' σ' H. pose proof (updateTryLock_same_tree _ _ _ _ _ _ _ H) as Hsame.
    apply updateTryLock_inv in H as (Hmax & Hset & Hrange & ->). simpl.
    repeat split; try done; try apply Hsame.
    + intros Hint. apply int_add_small. unfold int_range in *. lia.
    + intros m' i'. by eapply setRLock_other.
  - apply runTryOps_keeps.
Qed.

Lemma tryLock_adds_no_dependency_witness :
  same_tree exRoutine
    (routine.mk 0 4 [exA; exB; exA; exB] (Some ∅) [None; None] None 0 (Some ∅)).
Proof.
  destruct (tryLock_adds_no_dependency exOpts exLocks exRoutine exB false [] exInit)
    as (_ & H & _).
  destruct (H (routine.mk 0 4 [exA; exB; exA; exB] (Some ∅) [None; None] None 0 (Some ∅))
              exLocks) as [Hs _]; [|exact Hs].
  vm_compute. reflexivity.
Defined.

(** ** newDependency and update *)

Lemma foldM_append (cur : list mutexInt) (len : nat) : ∀ (k : nat) (hs0 : list mutexInt),
  (k + len ≤ length cur)%nat →
  foldM (λ hs i, let* x := slice_get cur i in Ok (hs ++ [x])) hs0
        (seqZ (Z.of_nat k) (Z.of_nat len))
  = Ok (hs0 ++ take len (drop k cur)).
Proof.
  induction len as [|len IH]; intros k hs0 Hlen.
  - simpl. by rewrite app_nil_r.
  - rewrite seqZ_cons by lia. simpl.
    destruct (lookup_lt_is_Some_2 cur k) as [x Hx]; [lia|].
    rewrite (slice_get_Some cur (Z.of_nat k) x); [|lia|by rewrite Nat2Z.id]. simpl.
    replace (Z.succ (Z.of_nat k)) with (Z.of_nat (S k)) by lia.
    replace (Z.pred (Z.of_nat (S len))) with (Z.of_nat len) by lia.
    rewrite IH by lia. f_equal. rewrite <- app_assoc. f_equal.
    rewrite (drop_S cur x k Hx). done.
Qed.

(** What [newDependency] builds: [maxNumberOfDependentLocks] nil entries,
    and the current locks behind them. *)
Lemma newDependency_computes opts ptr lock (currentLocks : list mutexInt) n :
  0 ≤ options.maxNumberOfDependentLocks opts →
  n ≤ Z.of_nat (length currentLocks) →
  newDependency opts ptr lock currentLocks n
  = Ok (dependency.mk ptr lock
          (replicate (Z.to_nat (options.maxNumberOfDependentLocks opts)) None
           ++ take (Z.to_nat n) currentLocks) n).
Proof.
  intros Hmax Hn. unfold newDependency, make. rewrite decide_True by done. simpl.
  destruct (decide (0 ≤ n)) as [Hn0|Hn0].
  - pose proof (foldM_append currentLocks (Z.to_nat n) 0
      (replicate (Z.to_nat (options.maxNumberOfDependentLocks opts)) None)) as H.
    rewrite Z2Nat.id in H by done. change (Z.of_nat 0) with 0 in H. rewrite H by lia. simpl. by rewrite drop_0.
  - rewrite seqZ_nil by lia. simpl. replace (Z.to_nat n) with 0%nat by lia.
    by rewrite take_0, app_nil_r.
Qed.

(** After [update], as [updateLock] calls it, the first entries of the
    holding set are the current locks. *)
Lemma update_prefix (d : dependency) lock (hs : list mutexInt) n :
  (Z.to_nat n ≤ length hs)%nat → (Z.to_nat n ≤ length (dependency.holdingSet d))%nat →
  take (Z.to_nat n) (dependency.holdingSet (update d lock hs n)) = take (Z.to_nat n) hs
  ∧ dependency.holdingCount (update d lock hs n) = n
  ∧ dependency.mu (update d lock hs n) = lock
  ∧ dependency.ptr (update d lock hs n) = dependency.ptr d
  ∧ length (dependency.holdingSet (update d lock hs n)) = length (dependency.holdingSet d).
Proof.
  intros H1 H2. unfold update, copy. simpl. repeat split.
  - rewrite take_app_le by (rewrite length_take; lia). rewrite take_take. f_equal. lia.
  - rewrite length_app, length_take, length_drop. lia.
Qed.

(** C9. [newDependency] does not put the current locks at the positions
    [0..n-1] of the holding set: it returns a dependency with
    [holdingCount = n] whose holding set starts with
    [maxNumberOfDependentLocks] nil entries, the copies of the current
    locks behind them. The copy at the positions [0..n-1] is made by
    [update], which [updateLock] calls on the new dependency. *)
Theorem newDependency_prefix_is_nil (opts : options) (ptr : loc) (lock : mutexInt)
    (hs : list mutexInt) (n : Z) :
  0 ≤ options.maxNumberOfDependentLocks opts →
  0 ≤ n ≤ Z.of_nat (length hs) →
  ∃ d, newDependency opts ptr lock hs n = Ok d
       ∧ dependency.mu d = lock
       ∧ dependency.holdingCount d = n
       ∧ (∀ i, (i < Z.to_nat (options.maxNumberOfDependentLocks opts))%nat →
               dependency.holdingSet d !! i = Some None)
       ∧ (∀ i, (i < Z.to_nat n)%nat →
               dependency.holdingSet d
                 !! (Z.to_nat (options.maxNumberOfDependentLocks opts) + i)%nat = hs !! i)
       ∧ take (Z.to_nat n) (dependency.holdingSet (update d lock hs n))
         = take (Z.to_nat n) hs.
Proof.
  intros Hmax Hn. eexists. split; [apply newDependency_computes; lia|].
  cbn [dependency.mu dependency.holdingCount dependency.holdingSet].
  split_and!; [done|done| | |].
  - intros i Hi. rewrite lookup_app_l by (rewrite length_replicate; lia).
    by apply lookup_replicate_2.
  - intros i Hi. rewrite lookup_app_r by (rewrite length_replicate; lia).
    rewrite length_replicate.
    replace (Z.to_nat (options.maxNumberOfDependentLocks opts) + i
             - Z.to_nat (options.maxNumberOfDependentLocks opts))%nat with i by lia.
    by rewrite lookup_take_lt.
  - match goal with |- context [update ?d _ _ _] =>
      destruct (update_prefix d lock hs n) as [Hp _] end; [lia| |exact Hp].
    simpl. rewrite length_app, length_replicate, length_take. lia.
Qed.

(** With the default options, the dependency that [newDependency] builds
    for the lock [exB] and the holding set [[exA]] has nil at position 0,
    not [exA]. *)
Lemma newDependency_prefix_is_nil_witness :
  ∃ d, newDependency default_opts 9%positive exB [exA] 1 = Ok d
       ∧ dependency.holdingCount d = 1
       ∧ dependency.holdingSet d !! 0%nat = Some None
       ∧ dependency.holdingSet d !! 0%nat ≠ [exA] !! 0%nat
       ∧ dependency.holdingSet d !! 128%nat = Some exA.
Proof.
  destruct (newDependency_prefix_is_nil default_opts 9%positive exB [exA] 1)
    as (d & Hd & _ & Hn & Hnil & Hcopy & _); [simpl; lia..|].
  exists d. split_and!; [done|done| | |].
  - apply Hnil. simpl. lia.
  - rewrite Hnil by (simpl; lia). done.
  - apply (Hcopy 0%nat). lia.
Defined.

(** ** Deduplication in updateLock *)

(** A loop that returned: the first round that answered, and the rounds
    before it went on. *)
Lemma forEach_inv {I R} (body : I → result (option R)) xs r :
  forEach body xs = Ok r →
  match r with
  | None => ∀ k x, xs !! k = Some x → body x = Ok None
  | Some v => ∃ k x, xs !! k = Some x ∧ body x = Ok (Some v)
                     ∧ ∀ j y, (j < k)%nat → xs !! j = Some y → body y = Ok None
  end.
Proof.
  revert r. induction xs as [|x xs IH]; intros r; simpl.
  - intros [= <-]. intros k x Hk. done.
  - destruct (body x) as [[v|]| | | |] eqn:Hx; try done.
    + intros [= <-]. exists 0%nat, x. repeat split; [done|]. intros j y Hj. lia.
    + intros H. specialize (IH r H). destruct r as [v|].
      * destruct IH as (k & y & Hk & Hy & Hbefore). exists (S k), y.
        repeat split; [done..|]. intros [|j] z Hj Hz.
        -- injection Hz as <-. done.
        -- apply (Hbefore j); [lia|done].
      * intros [|k] y Hk; [injection Hk as <-; done|]. by apply (IH k).
Qed.

Lemma commonPrefix_inv (dhs rhs : list mutexInt) hc i :
  0 ≤ hc → commonPrefix dhs rhs hc = Ok i →
  0 ≤ i ≤ hc
  ∧ (∀ j, 0 ≤ j < i → is_Some (dhs !! Z.to_nat j) ∧ dhs !! Z.to_nat j = rhs !! Z.to_nat j)
  ∧ (i < hc → dhs !! Z.to_nat i ≠ rhs !! Z.to_nat i).
Proof.
  intros Hhc. unfold commonPrefix. intros (r & Hr & H)%bind_Ok_inv.
  destruct r as [v|]; [|done]. injection H as ->.
  apply forEach_inv in Hr as (k & x & Hk & Hx & Hbefore).
  rewrite Z.max_l in Hk, Hbefore by done.
  apply lookup_seqZ in Hk as [-> Hklt].
  apply bind_Ok_inv in Hx as (a & [_ Ha]%slice_get_inv & Hx).
  apply bind_Ok_inv in Hx as (b & [_ Hb]%slice_get_inv & Hx).
  destruct (bool_decide (a = b) && bool_decide (0 + Z.of_nat k < hc)) eqn:E; [done|].
  injection Hx as <-. split; [lia|]. split.
  - intros j Hj. specialize (Hbefore (Z.to_nat j) j).
    rewrite lookup_seqZ_lt in Hbefore by lia.
    assert (Hb' := Hbefore ltac:(lia) ltac:(f_equal; lia)).
    apply bind_Ok_inv in Hb' as (a' & [_ Ha']%slice_get_inv & Hb').
    apply bind_Ok_inv in Hb' as (b' & [_ Hb'']%slice_get_inv & Hb').
    destruct (bool_decide (a' = b')) eqn:E'; [|done].
    apply bool_decide_eq_true in E' as ->. rewrite Ha', Hb''. split; [eauto|done].
  - intros Hlt. apply andb_false_iff in E as [E|E].
    + apply bool_decide_eq_false in E. rewrite Ha, Hb. congruence.
    + apply bool_decide_eq_false in E. lia.
Qed.

Lemma commonPrefix_full (dhs rhs : list mutexInt) hc i :
  0 ≤ hc → commonPrefix dhs rhs hc = Ok i →
  (i = hc ↔ take (Z.to_nat hc) dhs = take (Z.to_nat hc) rhs).
Proof.
  intros Hhc (Hi & Heq & Hne)%commonPrefix_inv; [|done]. split.
  - intros ->. apply list_eq. intros j.
    destruct (decide (j < Z.to_nat hc)%nat) as [Hj|Hj].
    + rewrite !lookup_take_lt by done.
      destruct (Heq (Z.of_nat j)) as [_ H]; [lia|]. by rewrite Nat2Z.id in H.
    + rewrite !lookup_take_ge by lia. done.
  - intros Htake. destruct (decide (i = hc)) as [|Hne']; [done|]. exfalso.
    apply Hne; [lia|].
    rewrite <- (lookup_take_lt dhs (Z.to_nat hc)), <- (lookup_take_lt rhs (Z.to_nat hc)) by lia.
    by rewrite Htake.
Qed.

Lemma commonPrefix_total (dhs rhs : list mutexInt) hc :
  0 ≤ hc → (Z.to_nat hc < length dhs)%nat → (Z.to_nat hc < length rhs)%nat →
  ∃ i, commonPrefix dhs rhs hc = Ok i.
Proof.
  intros Hhc Hd Hr. unfold commonPrefix.
  match goal with |- context [forEach ?f ?xs] =>
    destruct (forEach_Ok f xs) as [r [E Hspec]] end.
  - intros i Hi%elem_of_seqZ.
    destruct (lookup_lt_is_Some_2 dhs (Z.to_nat i)) as [a Ha]; [lia|].
    destruct (lookup_lt_is_Some_2 rhs (Z.to_nat i)) as [b Hb]; [lia|].
    rewrite (slice_get_Some dhs i a), (slice_get_Some rhs i b) by (done || lia). simpl.
    destruct (_ && _); eauto.
  - rewrite E. simpl. destruct r as [v|]; [eauto|]. exfalso.
    specialize (Hspec hc). rewrite elem_of_seqZ in Hspec.
    destruct (lookup_lt_is_Some_2 dhs (Z.to_nat hc)) as [a Ha]; [lia|].
    destruct (lookup_lt_is_Some_2 rhs (Z.to_nat hc)) as [b Hb]; [lia|].
    rewrite (slice_get_Some dhs hc a), (slice_get_Some rhs hc b) in Hspec by (done || lia).
    simpl in Hspec. rewrite (bool_decide_false (hc < hc)) in Hspec by lia.
    rewrite andb_false_r in Hspec.
    assert (Hin : 0 ≤ hc < 0 + (Z.max hc 0 + 1)) by lia. by specialize (Hspec Hin).
Qed.

(** [dependencyAlreadyExists] answers whether the list holds a dependency
    for acquiring [m] in the current holding situation. *)
Lemma dependencyAlreadyExists_inv r m depList b :
  0 ≤ routine.holdingCount r →
  dependencyAlreadyExists r m depList = Ok b →
  (b = true ↔ ∃ d, d ∈ depList ∧ matches r m d).
Proof.
  intros Hhc. unfold dependencyAlreadyExists. intros (found & Hf & [= <-])%bind_Ok_inv.
  apply forEach_inv in Hf. destruct found as [v|]; simpl.
  - destruct Hf as (k & d & Hk & Hd & _).
    destruct (bool_decide (dependency.mu d = m)) eqn:E1; [|done].
    destruct (bool_decide (dependency.holdingCount d = routine.holdingCount r)) eqn:E2;
      [|done].
    simpl in Hd. apply bind_Ok_inv in Hd as (i & Hi & Hd).
    destruct (bool_decide (i = routine.holdingCount r)) eqn:E3; [|done].
    injection Hd as <-. split; [intros _|done].
    exists d. split; [by eapply list_elem_of_lookup_2|].
    apply bool_decide_eq_true in E1, E2, E3. repeat split; [done..|].
    by apply (commonPrefix_full _ _ _ i).
  - split; [done|]. intros (d & Hin & Hmu & Hcount & Htake). exfalso.
    apply list_elem_of_lookup in Hin as [k Hk]. specialize (Hf k d Hk).
    rewrite (bool_decide_true _ Hmu), (bool_decide_true _ Hcount) in Hf. simpl in Hf.
    apply bind_Ok_inv in Hf as (i & Hi & Hf).
    apply (commonPrefix_full _ _ _ i Hhc Hi) in Htake.
    by rewrite (bool_decide_true _ Htake) in Hf.
Qed.

Lemma dependencyAlreadyExists_true r m depList d :
  d ∈ depList → matches r m d →
  0 ≤ routine.holdingCount r →
  (Z.to_nat (routine.holdingCount r) < length (routine.holdingSet r))%nat →
  (∀ d', d' ∈ depList →
     0 ≤ dependency.holdingCount d'
     ∧ (Z.to_nat (dependency.holdingCount d') < length (dependency.holdingSet d'))%nat) →
  dependencyAlreadyExists r m depList = Ok true.
Proof.
  intros Hin Hmatch Hhc Hlen Hwf.
  assert (∃ b, dependencyAlreadyExists r m depList = Ok b) as [b Hb].
  { unfold dependencyAlreadyExists.
    match goal with |- context [forEach ?f ?xs] =>
      destruct (forEach_Ok f xs) as [found [E _]] end.
    - intros d' Hd'. destruct (Hwf d' Hd') as [Hc Hl].
      destruct (bool_decide (dependency.mu d' = m)); [|eauto].
      case_bool_decide as Hcount; [|eauto]. simpl.
      destruct (commonPrefix_total (dependency.holdingSet d') (routine.holdingSet r)
                  (routine.holdingCount r)) as [i ->]; [done| |done|].
      + rewrite <- Hcount. done.
      + simpl. destruct (bool_decide _); eauto.
    - rewrite E. simpl. eauto. }
  rewrite Hb. f_equal. apply (dependencyAlreadyExists_inv r m depList b Hhc Hb). eauto.
Qed.

Lemma same_objects_refl σ : same_objects σ σ.
Proof. done. Qed.

Lemma same_objects_trans σ1 σ2 σ3 :
  same_objects σ1 σ2 → same_objects σ2 σ3 → same_objects σ1 σ3.
Proof. intros H1 H2 l. by rewrite H2, H1. Qed.

Lemma same_objects_sym σ1 σ2 : same_objects σ1 σ2 → same_objects σ2 σ1.
Proof. intros H l. by rewrite H. Qed.

Lemma same_objects_position σ σ' m :
  same_objects σ σ' → getMemoryPosition σ' m = getMemoryPosition σ m.
Proof.
  intros H. unfold getMemoryPosition, deref. destruct m as [l|]; [|done].
  specialize (H l). destruct (σ !! l), (σ' !! l); simpl in *; congruence.
Qed.

Lemma same_objects_update σ l o (f : lockObj → lockObj) :
  σ !! l = Some o → obj.getMemoryPosition (f o) = obj.getMemoryPosition o →
  same_objects σ (<[l := f o]> σ).
Proof.
  intros Ho Hf l'. destruct (decide (l' = l)) as [->|Hne].
  - rewrite lookup_insert_eq, Ho. simpl. by rewrite Hf.
  - by rewrite lookup_insert_ne.
Qed.

Lemma deref_Some_inv σ m o : deref σ m = Ok o → ∃ l, m = Some l ∧ σ !! l = Some o.
Proof.
  unfold deref. destruct m as [l|]; [|done].
  destruct (σ !! l) eqn:E; [|done]. intros [= ->]. eauto.
Qed.

Lemma setRLock_same_objects σ m i v σ' : setRLock σ m i v = Ok σ' → same_objects σ σ'.
Proof.
  unfold setRLock. destruct m as [l|]; [|done].
  intros (o & (l' & [= <-] & Ho)%deref_Some_inv & [= <-])%bind_Ok_inv.
  apply (same_objects_update σ l o (λ o, obj.setRLock o i v)); [done|]. by destruct o.
Qed.

Lemma recordContext_same_objects opts c σ m σ' :
  recordContext opts c σ m = Ok σ' → same_objects σ σ'.
Proof.
  unfold recordContext. intros (buf & _ & H)%bind_Ok_inv. destruct m as [l|]; [|done].
  apply bind_Ok_inv in H as (o & (l' & [= <-] & Ho)%deref_Some_inv & [= <-]).
  apply (same_objects_update σ l o
    (λ o, obj.setContext o (obj.getContext o ++ [newInfo _ _ false buf]))); [done|].
  by destruct o.
Qed.

Lemma setRLock_total σ σ' m i v :
  same_objects σ σ' → is_Ok (setRLock σ m i v) → is_Ok (setRLock σ' m i v).
Proof.
  intros Hsame [σ1 H]. unfold setRLock in *. destruct m as [l|]; [|done].
  apply bind_Ok_inv in H as (o & (l' & [= <-] & Ho)%deref_Some_inv & _).
  specialize (Hsame l). rewrite Ho in Hsame. unfold deref.
  destruct (σ' !! l); [|done]. simpl. by eexists.
Qed.

Lemma recordContext_total opts c σ m :
  (options.collectCallStack opts = true → 0 ≤ options.maxCallStackSize opts) →
  is_Ok (deref σ m) → is_Ok (recordContext opts c σ m).
Proof.
  intros Hopts [o (l & -> & Ho)%deref_Some_inv]. unfold recordContext, make, deref.
  destruct (options.collectCallStack opts).
  - rewrite decide_True by auto. simpl. rewrite Ho. simpl. by eexists.
  - simpl. rewrite Ho. simpl. by eexists.
Qed.

Lemma updateLock_single_inv opts c r r1 isNew :
  updateLock_single opts c r = Ok (r1, isNew) →
  same_tree r r1 ∧ routine.index r1 = routine.index r
  ∧ routine.holdingCount r1 = routine.holdingCount r
  ∧ routine.holdingSet r1 = routine.holdingSet r
  ∧ (is_Some (routine.collectedSingleLevelLocks r1) ↔
     is_Some (routine.collectedSingleLevelLocks r))
  ∧ (options.collectSingleLevelLockStack opts = true →
     is_Some (routine.collectedSingleLevelLocks r)).
Proof.
  unfold updateLock_single. destruct (options.collectSingleLevelLockStack opts).
  - destruct (routine.collectedSingleLevelLocks r) as [cs|] eqn:Ecs; simpl.
    + destruct (cs !! caller.file c) as [lines|]; simpl.
      * destruct (negb _); intros [= <- <-]; simpl; rewrite ?Ecs; repeat split; eauto.
      * intros [= <- <-]; simpl; repeat split; eauto.
    + done.
  - intros [= <- <-]. repeat split; done.
Qed.

Lemma newDependency_inv opts ptr lock (cur : list mutexInt) n d :
  n ≤ Z.of_nat (length cur) →
  newDependency opts ptr lock cur n = Ok d →
  0 ≤ options.maxNumberOfDependentLocks opts
  ∧ d = dependency.mk ptr lock
          (replicate (Z.to_nat (options.maxNumberOfDependentLocks opts)) None
           ++ take (Z.to_nat n) cur) n.
Proof.
  intros Hn H.
  assert (0 ≤ options.maxNumberOfDependentLocks opts) as Hmax.
  { unfold newDependency in H. apply bind_Ok_inv in H as (hs0 & [? _]%make_inv & _). done. }
  rewrite newDependency_computes in H by done. injection H as <-. done.
Qed.

(** What the nested branch of [updateLock] does: nothing when the bucket
    of the key holds a matching dependency, and otherwise it adds one
    dependency, to the list, to the bucket and as [curDep]. *)
Lemma updateLock_nested_inv opts ptr σ r m r1 isNew :
  0 < routine.holdingCount r →
  routine.holdingCount r ≤ Z.of_nat (length (routine.holdingSet r)) →
  updateLock_nested opts ptr σ r m (routine.holdingCount r) = Ok (r1, isNew) →
  routine.index r1 = routine.index r
  ∧ routine.holdingCount r1 = routine.holdingCount r
  ∧ routine.holdingSet r1 = routine.holdingSet r
  ∧ routine.collectedSingleLevelLocks r1 = routine.collectedSingleLevelLocks r
  ∧ ∃ key, depKey σ r m = Ok key ∧
      ((isNew = false ∧ r1 = r ∧ ∃ d, d ∈ bucket r key ∧ matches r m d)
       ∨ (isNew = true
          ∧ (∀ d, d ∈ bucket r key → ¬ matches r m d)
          ∧ ∃ dep g,
              matches r m dep ∧ dependency.ptr dep = ptr
              ∧ 0 ≤ options.maxNumberOfDependentLocks opts
              ∧ length (dependency.holdingSet dep)
                = (Z.to_nat (options.maxNumberOfDependentLocks opts)
                   + Z.to_nat (routine.holdingCount r))%nat
              ∧ 0 ≤ routine.depCount r < options.maxDependencies opts
              ∧ routine.depCount r < Z.of_nat (length (routine.dependencies r))
              ∧ routine.dependencies r1
                = <[Z.to_nat (routine.depCount r) := Some dep]> (routine.dependencies r)
              ∧ routine.depCount r1 = int_add (routine.depCount r) 1
              ∧ routine.curDep r1 = Some dep
              ∧ routine.dependencyMap r = Some g
              ∧ routine.dependencyMap r1 = Some (<[key := bucket r key ++ [dep]]> g))).
Proof.
  intros Hhc Hlen. unfold updateLock_nested.
  intros (posM & HposM & H)%bind_Ok_inv.
  apply bind_Ok_inv in H as (last & Hlast & H).
  apply bind_Ok_inv in H as (posLast & HposLast & H).
  set (key := Z.lxor posM posLast) in *.
  assert (Hkey : depKey σ r m = Ok key).
  { unfold depKey. rewrite HposM. simpl. rewrite Hlast. simpl. by rewrite HposLast. }
  apply bind_Ok_inv in H as (known & Hknown & H).
  assert (Hk : known = true ↔ ∃ d, d ∈ bucket r key ∧ matches r m d).
  { unfold bucket. destruct (map_get (routine.dependencyMap r) key) as [depList|]; simpl.
    - apply (dependencyAlreadyExists_inv r m depList known); [lia|done].
    - injection Hknown as <-. split; [done|]. intros (d & Hd & _).
      by apply elem_of_nil in Hd. }
  destruct known.
  { injection H as <- <-. repeat split; try done. exists key. split; [done|].
    left. repeat split; try done. by apply Hk. }
  case_bool_decide as Hmax; [done|].
  apply bind_Ok_inv in H as (dep0 & Hdep0 & H).
  apply newDependency_inv in Hdep0 as [Hmax0 ->]; [|done].
  apply bind_Ok_inv in H as (deps & [Hrange ->]%slice_set_inv & H).
  apply bind_Ok_inv in H as (depMap & HdepMap & H).
  injection H as <- <-. simpl. repeat split; try done.
  exists key. split; [done|]. right. split; [done|]. split.
  { intros d Hd Hm. assert (false = true) as Hf by (apply Hk; eauto). done. }
  unfold map_set in HdepMap.
  destruct (routine.dependencyMap r) as [g|] eqn:Eg; [|done]. injection HdepMap as <-.
  set (dst := replicate (Z.to_nat (options.maxNumberOfDependentLocks opts)) None
              ++ take (Z.to_nat (routine.holdingCount r)) (routine.holdingSet r)).
  assert (Hdst : length dst = (Z.to_nat (options.maxNumberOfDependentLocks opts)
                               + Z.to_nat (routine.holdingCount r))%nat).
  { subst dst. rewrite length_app, length_replicate, length_take. lia. }
  eexists _, g. repeat split; try done; try lia.
  - unfold held. simpl. unfold copy.
    rewrite take_app_le by (rewrite length_take; lia).
    rewrite take_take. f_equal. lia.
  - simpl. unfold copy. rewrite length_app, length_take, length_drop. lia.
  - f_equal. f_equal. unfold bucket. rewrite Eg. simpl.
    by destruct (g !! key).
Qed.

Lemma updateLock_inv opts c ptr σ r m rLock r' σ' :
  updateLock opts c ptr σ r m rLock = Ok (r', σ') →
  ∃ σ1 r1 isNew,
    setRLock σ m (routine.index r) rLock = Ok σ1
    ∧ (if bool_decide (0 < routine.holdingCount r)
       then updateLock_nested opts ptr σ1 r m (routine.holdingCount r)
       else updateLock_single opts c r) = Ok (r1, isNew)
    ∧ (σ' = σ1 ∨ recordContext opts c σ1 m = Ok σ')
    ∧ routine.holdingCount r < options.maxNumberOfDependentLocks opts
    ∧ 0 ≤ routine.holdingCount r < Z.of_nat (length (routine.holdingSet r1))
    ∧ r' = routine.mk (routine.index r1) (int_add (routine.holdingCount r1) 1)
             (<[Z.to_nat (routine.holdingCount r) := m]> (routine.holdingSet r1))
             (routine.dependencyMap r1) (routine.dependencies r1) (routine.curDep r1)
             (routine.depCount r1) (routine.collectedSingleLevelLocks r1).
Proof.
  unfold updateLock. intros (σ1 & Hσ1 & H)%bind_Ok_inv.
  apply bind_Ok_inv in H as ([r1 isNew] & Hr1 & H).
  apply bind_Ok_inv in H as (σ2 & Hσ2 & H).
  case_bool_decide as Hmax; [done|].
  apply bind_Ok_inv in H as (hs & [Hrange ->]%slice_set_inv & H). injection H as <- <-.
  exists σ1, r1, isNew. repeat split; try done; try lia.
  destruct (isNew && _); [by right|]. injection Hσ2 as <-. by left.
Qed.

(** The branch of [updateLock] leaves the holding set, the count and the
    index alone; the map of call sites stays made. *)
Lemma updateLock_branch_frame opts c ptr σ r m r1 isNew :
  routine.holdingCount r ≤ Z.of_nat (length (routine.holdingSet r)) →
  (if bool_decide (0 < routine.holdingCount r)
   then updateLock_nested opts ptr σ r m (routine.holdingCount r)
   else updateLock_single opts c r) = Ok (r1, isNew) →
  routine.index r1 = routine.index r
  ∧ routine.holdingCount r1 = routine.holdingCount r
  ∧ routine.holdingSet r1 = routine.holdingSet r
  ∧ (is_Some (routine.collectedSingleLevelLocks r1) ↔
     is_Some (routine.collectedSingleLevelLocks r)).
Proof.
  intros Hlen. case_bool_decide as Hhc.
  - intros (Hi & Hc & Hs & Hcs & _)%updateLock_nested_inv; [|done..].
    rewrite Hcs. done.
  - intros (_ & Hi & Hc & Hs & Hcs & _)%updateLock_single_inv. done.
Qed.

Lemma slice_get_length {A} (s : list A) i x :
  slice_get s i = Ok x → 0 ≤ i < Z.of_nat (length s).
Proof. intros [Hi Hx]%slice_get_inv. apply lookup_lt_Some in Hx. lia. Qed.

(** The holding set is long enough for the reads of a call that returned. *)
Lemma updateLock_length opts c ptr σ r m rLock r' σ' :
  updateLock opts c ptr σ r m rLock = Ok (r', σ') →
  0 ≤ routine.holdingCount r < Z.of_nat (length (routine.holdingSet r)).
Proof.
  intros (σ1 & r1 & isNew & _ & Hbranch & _ & _ & Hrange & _)%updateLock_inv.
  revert Hbranch. case_bool_decide as Hhc.
  - unfold updateLock_nested. intros H.
    (* the holding set is not changed by the nested branch *)
    assert (routine.holdingSet r1 = routine.holdingSet r) as <-; [|done].
    apply bind_Ok_inv in H as (posM & _ & H).
    apply bind_Ok_inv in H as (last & _ & H).
    apply bind_Ok_inv in H as (posLast & _ & H).
    apply bind_Ok_inv in H as (known & _ & H).
    destruct known; [by injection H as <- _|].
    case_bool_decide; [done|].
    apply bind_Ok_inv in H as (dep0 & _ & H).
    apply bind_Ok_inv in H as (deps & _ & H).
    apply bind_Ok_inv in H as (depMap & _ & H). by injection H as <- _.
  - intros (_ & _ & _ & <- & _)%updateLock_single_inv. done.
Qed.

Lemma depKey_same σ σ' r m : same_objects σ σ' → depKey σ' r m = depKey σ r m.
Proof.
  intros H. unfold depKey. rewrite (same_objects_position σ σ' m H).
  destruct (getMemoryPosition σ m); simpl; try done.
  destruct (slice_get _ _); simpl; try done.
  by rewrite (same_objects_position σ σ' _ H).
Qed.

Lemma bucket_insert r g key key' l :
  routine.dependencyMap r = Some (<[key := l]> g) →
  bucket r key' = if decide (key = key') then l else default [] (g !! key').
Proof.
  intros Hm. unfold bucket, map_get. rewrite Hm. simpl. case_decide as E.
  - subst. by rewrite lookup_insert_eq.
  - by rewrite lookup_insert_ne.
Qed.

(** The branch of [updateLock] that returned: the buckets only grow, and
    for a nested acquisition the bucket of its key then holds a matching
    dependency. *)
Lemma updateLock_branch_effect opts c ptr σ r m r1 isNew :
  0 ≤ routine.holdingCount r < Z.of_nat (length (routine.holdingSet r)) →
  routine.holdingCount r < options.maxNumberOfDependentLocks opts →
  (if bool_decide (0 < routine.holdingCount r)
   then updateLock_nested opts ptr σ r m (routine.holdingCount r)
   else updateLock_single opts c r) = Ok (r1, isNew) →
  buckets_sub r r1
  ∧ (wf_buckets r → wf_buckets r1)
  ∧ (routine.holdingCount r ≤ 0 → options.collectSingleLevelLockStack opts = true →
     is_Some (routine.collectedSingleLevelLocks r))
  ∧ (0 < routine.holdingCount r →
     ∃ key d, depKey σ r m = Ok key ∧ d ∈ bucket r1 key ∧ matches r m d).
Proof.
  intros Hlen Hmax. case_bool_decide as Hhc.
  - intros (Hi & Hc & Hs & Hcs & key & Hkey & Hcase)%updateLock_nested_inv; [|lia..].
    destruct Hcase as [(-> & -> & d & Hd & Hmatch)
      |(-> & Hno & dep & g & Hmatch & Hptr & Hmax0 & Hdlen & Hdc & Hdl & Hdeps & Hcount
        & Hcur & Hg & Hg1)].
    + split_and!; [by intros ??|done|intros ?; lia|]. intros _. by exists key, d.
    + pose proof (λ key', bucket_insert r1 g key key' _ Hg1) as Hb.
      assert (Hb' : ∀ key', bucket r1 key'
                = if decide (key = key') then bucket r key ++ [dep] else bucket r key').
      { intros key'. rewrite Hb. case_decide; [done|]. unfold bucket, map_get.
        by rewrite Hg. }
      split_and!.
      * intros key' d Hd. rewrite Hb'. case_decide; [subst; set_solver|done].
      * intros Hwf key' d. rewrite Hb'. case_decide as E.
        -- subst key'. rewrite elem_of_app, list_elem_of_singleton. intros [Hd| ->].
           ++ by apply (Hwf key).
           ++ destruct Hmatch as (_ & -> & _). lia.
        -- apply Hwf.
      * intros ?; lia.
      * intros _. exists key, dep. rewrite Hb', decide_True by done.
        split; [done|]. split; [set_solver|done].
  - intros (Htree & Hi & Hc & Hs & Hcs & Hcs0)%updateLock_single_inv.
    destruct Htree as (Hd & Hdc & Hm & Hcur). split_and!.
    + intros key d. unfold bucket. by rewrite Hm.
    + intros Hwf key d. unfold bucket. rewrite Hm. apply Hwf.
    + done.
    + intros ?; lia.
Qed.

(** An acquisition that returned: the wrappers stay where they are, the
    buckets only grow, and for a nested acquisition the bucket of its key
    then holds a matching dependency. *)
Lemma updateLock_effect opts c ptr σ r m rLock r' σ' :
  updateLock opts c ptr σ r m rLock = Ok (r', σ') →
  same_objects σ σ'
  ∧ buckets_sub r r'
  ∧ (wf_buckets r → wf_buckets r')
  ∧ routine.index r' = routine.index r
  ∧ routine.holdingCount r' = int_add (routine.holdingCount r) 1
  ∧ routine.holdingSet r'
    = <[Z.to_nat (routine.holdingCount r) := m]> (routine.holdingSet r)
  ∧ (is_Some (routine.collectedSingleLevelLocks r') ↔
     is_Some (routine.collectedSingleLevelLocks r))
  ∧ (routine.holdingCount r ≤ 0 → options.collectSingleLevelLockStack opts = true →
     is_Some (routine.collectedSingleLevelLocks r))
  ∧ (0 < routine.holdingCount r →
     ∃ key d, depKey σ r m = Ok key ∧ d ∈ bucket r' key ∧ matches r m d).
Proof.
  intros H. pose proof (updateLock_length _ _ _ _ _ _ _ _ _ H) as Hlen.
  apply updateLock_inv in H as (σ1 & r1 & isNew & Hσ1 & Hbranch & Hσ' & Hmax & Hrange & ->).
  pose proof (setRLock_same_objects _ _ _ _ _ Hσ1) as Hobj1.
  assert (Hobj : same_objects σ σ').
  { destruct Hσ' as [->|Hrec]; [done|].
    eapply same_objects_trans; [exact Hobj1|]. by eapply recordContext_same_objects. }
  assert (Hle : routine.holdingCount r ≤ Z.of_nat (length (routine.holdingSet r))) by lia.
  destruct (updateLock_branch_frame _ _ _ _ _ _ _ _ Hle Hbranch) as (Hi & Hc & Hs & Hcs).
  destruct (updateLock_branch_effect _ _ _ _ _ _ _ _ Hlen Hmax Hbranch)
    as (Hsub & Hwf & Hsingle & Hcov).
  simpl. rewrite Hi, Hc, Hs. split_and!; try done.
  intros Hhc. destruct (Hcov Hhc) as (key & d & Hkey & Hd & Hmatch).
  exists key, d. rewrite <- (depKey_same σ σ1 r m Hobj1). done.
Qed.

Lemma updateLock_single_total opts c r :
  (options.collectSingleLevelLockStack opts = true →
   is_Some (routine.collectedSingleLevelLocks r)) →
  ∃ r1 isNew, updateLock_single opts c r = Ok (r1, isNew).
Proof.
  intros Hcs. unfold updateLock_single.
  destruct (options.collectSingleLevelLockStack opts); [|eauto].
  destruct (Hcs eq_refl) as [cs ->]. simpl.
  destruct (cs !! caller.file c); simpl; [destruct (negb _)|]; eauto.
Qed.

Lemma updateLock_nested_known opts ptr σ r m key d :
  depKey σ r m = Ok key → d ∈ bucket r key → matches r m d → wf_buckets r →
  0 ≤ routine.holdingCount r →
  (Z.to_nat (routine.holdingCount r) < length (routine.holdingSet r))%nat →
  updateLock_nested opts ptr σ r m (routine.holdingCount r) = Ok (r, false).
Proof.
  intros Hkey Hd Hmatch Hwf Hhc Hlen. unfold depKey in Hkey.
  apply bind_Ok_inv in Hkey as (posM & HposM & Hkey).
  apply bind_Ok_inv in Hkey as (last & Hlast & Hkey).
  apply bind_Ok_inv in Hkey as (posLast & HposLast & Hkey). injection Hkey as <-.
  unfold updateLock_nested. rewrite HposM. simpl. rewrite Hlast. simpl.
  rewrite HposLast. simpl.
  pose proof Hd as Hd'. unfold bucket in Hd'.
  destruct (map_get (routine.dependencyMap r) (Z.lxor posM posLast)) as [depList|] eqn:E;
    [|by apply elem_of_nil in Hd'].
  simpl in Hd'. rewrite (dependencyAlreadyExists_true r m depList d); try done.
  intros d' Hd''. apply (Hwf (Z.lxor posM posLast)). unfold bucket. by rewrite E.
Qed.

Lemma setRLock_deref σ m i v σ' : setRLock σ m i v = Ok σ' → is_Ok (deref σ' m).
Proof.
  unfold setRLock. destruct m as [l|]; [|done].
  intros (o & _ & [= <-])%bind_Ok_inv. unfold deref. rewrite lookup_insert_eq. by eexists.
Qed.

(** An acquisition whose dependency is already in the lock tree returns
    and leaves the tree as it is. *)
Lemma updateLock_again opts c ptr σ r m rLock :
  sane_opts opts →
  is_Ok (setRLock σ m (routine.index r) rLock) →
  routine.holdingCount r < options.maxNumberOfDependentLocks opts →
  0 ≤ routine.holdingCount r < Z.of_nat (length (routine.holdingSet r)) →
  (0 < routine.holdingCount r →
   ∃ key d, depKey σ r m = Ok key ∧ d ∈ bucket r key ∧ matches r m d) →
  wf_buckets r →
  (routine.holdingCount r ≤ 0 → options.collectSingleLevelLockStack opts = true →
   is_Some (routine.collectedSingleLevelLocks r)) →
  ∃ r' σ', updateLock opts c ptr σ r m rLock = Ok (r', σ') ∧ same_tree r r'.
Proof.
  intros Hsane [σ1 Hσ1] Hmax Hrange Hcov Hwf Hsingle. unfold updateLock.
  rewrite Hσ1. simpl.
  pose proof (setRLock_same_objects _ _ _ _ _ Hσ1) as Hobj.
  case_bool_decide as Hhc.
  - destruct (Hcov Hhc) as (key & d & Hkey & Hd & Hmatch).
    rewrite <- (depKey_same σ σ1 r m Hobj) in Hkey.
    rewrite (updateLock_nested_known opts ptr σ1 r m key d) by (done || lia). simpl.
    rewrite bool_decide_false by lia. unfold slice_set. rewrite decide_True by done.
    simpl. eexists _, _. split; [done|]. by repeat split.
  - destruct (updateLock_single_total opts c r) as (r1 & isNew & Hr1).
    { apply Hsingle. lia. }
    rewrite Hr1. simpl.
    apply updateLock_single_inv in Hr1 as (Htree & Hi & Hc & Hs & _).
    match goal with |- context [if ?b then recordContext opts c σ1 m else Ok σ1] =>
      assert (∃ σ2, (if b then recordContext opts c σ1 m else Ok σ1) = Ok σ2) as [σ2 ->]
    end.
    { destruct (isNew && _); [|eauto].
      apply recordContext_total; [done|]. by eapply setRLock_deref. }
    simpl. rewrite bool_decide_false by lia. rewrite Hs, Hc.
    unfold slice_set. rewrite decide_True by done. simpl.
    eexists _, _. split; [done|]. destruct Htree as (? & ? & ? & ?). by repeat split.
Qed.

(** ** Running a pattern again *)

Lemma forEach_ext {I R} (body1 body2 : I → result (option R)) xs :
  (∀ x, x ∈ xs → body1 x = body2 x) → forEach body1 xs = forEach body2 xs.
Proof.
  induction xs as [|x xs IH]; intros H; simpl; [done|].
  rewrite <- (H x) by (by left). destruct (body1 x) as [[v|]| | | |]; try done.
  apply IH. intros y Hy. apply H. by right.
Qed.

Lemma int_wrap_le z : - 2 ^ 63 ≤ z → int_wrap z ≤ z.
Proof.
  intros Hz. unfold int_wrap.
  pose proof (Z.mod_le (z + 2 ^ 63) (2 ^ 64)). lia.
Qed.

Lemma same_holding_lookup s t i :
  same_holding s t → (i < Z.to_nat (routine.holdingCount s))%nat →
  routine.holdingSet t !! i = routine.holdingSet s !! i.
Proof.
  intros (Hc & Hheld & _) Hi. unfold held in Hheld. rewrite Hc in Hheld.
  rewrite <- (lookup_take_lt (routine.holdingSet t) (Z.to_nat (routine.holdingCount s)))
    by done.
  rewrite Hheld. by rewrite lookup_take_lt.
Qed.

Lemma same_holding_get s t i :
  same_holding s t → i < routine.holdingCount s →
  slice_get (routine.holdingSet t) i = slice_get (routine.holdingSet s) i.
Proof.
  intros H Hi. unfold slice_get. case_decide; [|done].
  rewrite (same_holding_lookup s t) by (done || lia). done.
Qed.

Lemma depKey_holding σ s t m :
  same_holding s t → depKey σ t m = depKey σ s m.
Proof.
  intros H. unfold depKey. destruct (getMemoryPosition σ m); simpl; try done.
  destruct H as (Hc & ?). rewrite Hc.
  rewrite (same_holding_get s t) by (done || lia). done.
Qed.

Lemma matches_holding s t m d : same_holding s t → matches s m d → matches t m d.
Proof.
  intros (Hc & Hheld & _) (Hmu & Hcount & Htake). unfold matches.
  rewrite Hc, Hheld. done.
Qed.

Lemma same_holding_trans r s t : same_holding r s → same_holding s t → same_holding r t.
Proof.
  intros (?&?&?&?&?) (?&?&?&?&?). unfold same_holding. split_and!; try congruence. auto.
Qed.

Lemma take_insert_same {A} (l1 l2 : list A) k x n :
  take k l1 = take k l2 → (k < length l1)%nat → (k < length l2)%nat → (n ≤ S k)%nat →
  take n (<[k := x]> l1) = take n (<[k := x]> l2).
Proof.
  intros Htake H1 H2 Hn. apply list_eq. intros i.
  destruct (decide (i < n)%nat) as [Hi|Hi].
  - rewrite !lookup_take_lt by done. destruct (decide (i = k)) as [->|Hne].
    + by rewrite !list_lookup_insert_eq.
    + rewrite !list_lookup_insert_ne by done.
      rewrite <- (lookup_take_lt l1 k), <- (lookup_take_lt l2 k) by lia. by rewrite Htake.
  - rewrite !lookup_take_ge by lia. done.
Qed.

(** Storing the same lock on top of the same holding sets. *)
Lemma same_holding_push s t s1 t1 m :
  same_holding s t →
  0 ≤ routine.holdingCount s < Z.of_nat (length (routine.holdingSet s)) →
  routine.holdingCount s1 = int_add (routine.holdingCount s) 1 →
  routine.holdingCount t1 = int_add (routine.holdingCount t) 1 →
  routine.holdingSet s1
  = <[Z.to_nat (routine.holdingCount s) := m]> (routine.holdingSet s) →
  routine.holdingSet t1
  = <[Z.to_nat (routine.holdingCount t) := m]> (routine.holdingSet t) →
  routine.index s1 = routine.index s → routine.index t1 = routine.index t →
  (is_Some (routine.collectedSingleLevelLocks s1) →
   is_Some (routine.collectedSingleLevelLocks t1)) →
  same_holding s1 t1.
Proof.
  intros (Hc & Hheld & Hlen & Hi & Hcs) Hrange Hc1 Hc2 Hs1 Hs2 Hi1 Hi2 Hcs'.
  unfold same_holding, held. rewrite Hc1, Hc2, Hs1, Hs2, Hi1, Hi2, Hc, !length_insert.
  split_and!; try done.
  apply take_insert_same; try lia; [exact (eq_trans (f_equal (λ n, take (Z.to_nat n) _)
    (eq_sym Hc)) Hheld)|].
  pose proof (int_wrap_le (routine.holdingCount s + 1)). unfold int_add. lia.
Qed.

Lemma setRLock_again σ σ' m i i' v v' :
  same_objects σ σ' → is_Ok (setRLock σ m i v) → is_Ok (setRLock σ' m i' v').
Proof.
  intros Hsame [σ1 H]. unfold setRLock in *. destruct m as [l|]; [|done].
  apply bind_Ok_inv in H as (o & (l' & [= <-] & Ho)%deref_Some_inv & _).
  specialize (Hsame l). rewrite Ho in Hsame. unfold deref.
  destruct (σ' !! l); [|done]. simpl. by eexists.
Qed.

Lemma acquire_again opts c ps pt σs σt s t m rLock s1 σs1 :
  sane_opts opts →
  updateLock opts c ps σs s m rLock = Ok (s1, σs1) →
  same_holding s t → same_objects σs σt → wf_buckets t → buckets_sub s1 t →
  ∃ t1 σt1, updateLock opts c pt σt t m rLock = Ok (t1, σt1)
            ∧ same_tree t t1 ∧ same_holding s1 t1 ∧ same_objects σs1 σt1.
Proof.
  intros Hsane Hs Hhold Hobj Hwf Hsub.
  pose proof (updateLock_length _ _ _ _ _ _ _ _ _ Hs) as Hlen.
  pose proof (updateLock_effect _ _ _ _ _ _ _ _ _ Hs)
    as (Hobjs & _ & _ & Hi1 & Hc1 & Hs1 & Hcs1 & Hsingle & Hcov).
  pose proof Hs as (σ1 & _ & _ & Hσ1 & _ & _ & Hmax & _)%updateLock_inv.
  pose proof Hhold as (Hc & Hheld & Hl & Hi & Hcs).
  destruct (updateLock_again opts c pt σt t m rLock) as (t1 & σt1 & Ht & Htree);
    try done.
  - eapply setRLock_again; [exact Hobj|]. by eexists.
  - lia.
  - lia.
  - rewrite Hc. intros Hhc. destruct (Hcov Hhc) as (key & d & Hkey & Hd & Hmatch).
    exists key, d. split_and!.
    + by rewrite (depKey_same σs σt t m Hobj), (depKey_holding σs s t m Hhold).
    + by apply Hsub.
    + by eapply matches_holding.
  - rewrite Hc. intros Hhc Hopt. apply Hcs. by apply Hsingle.
  - exists t1, σt1. split; [done|]. split; [done|].
    pose proof (updateLock_effect _ _ _ _ _ _ _ _ _ Ht)
      as (Hobjt & _ & _ & Hi2 & Hc2 & Hs2 & Hcs2 & _ & _).
    split.
    + apply (same_holding_push s t s1 t1 m); try done.
      rewrite Hcs1, Hcs2. done.
    + apply (same_objects_trans _ σs); [by apply same_objects_sym|].
      by apply (same_objects_trans _ σt).
Qed.

Lemma splice_length (l : list mutexInt) i :
  0 ≤ i < Z.of_nat (length l) → length (splice l i) = length l.
Proof.
  intros Hi. unfold splice. rewrite !length_app, length_take, length_drop. simpl. lia.
Qed.

Lemma splice_lookup (l : list mutexInt) i j :
  0 ≤ i < Z.of_nat (length l) → (S j < length l)%nat →
  splice l i !! j = if decide (j < Z.to_nat i)%nat then l !! j else l !! S j.
Proof.
  intros Hi Hj. unfold splice. case_decide as E.
  - rewrite lookup_app_l by (rewrite length_take; lia). by rewrite lookup_take_lt.
  - rewrite lookup_app_r by (rewrite length_take; lia). rewrite length_take.
    rewrite lookup_app_l by (rewrite length_drop; lia). rewrite lookup_drop.
    f_equal. lia.
Qed.

Lemma take_splice_same (l1 l2 : list mutexInt) k i n :
  take k l1 = take k l2 → 0 ≤ i → (Z.to_nat i < k)%nat →
  (k ≤ length l1)%nat → (k ≤ length l2)%nat → (S n ≤ k)%nat →
  take n (splice l1 i) = take n (splice l2 i).
Proof.
  intros Htake Hi Hik H1 H2 Hn. apply list_eq. intros j.
  destruct (decide (j < n)%nat) as [Hj|Hj].
  - rewrite !lookup_take_lt by done. rewrite !splice_lookup by lia.
    assert (∀ j', (j' < k)%nat → l1 !! j' = l2 !! j') as Hl.
    { intros j' Hj'. rewrite <- (lookup_take_lt l1 k), <- (lookup_take_lt l2 k) by lia.
      by rewrite Htake. }
    case_decide; apply Hl; lia.
  - rewrite !lookup_take_ge by lia. done.
Qed.

(** [updateUnlock] returned: nothing was found, or the entry at some
    position below the count was taken out. *)
Lemma updateUnlock_inv r m r' :
  updateUnlock r m = Ok r' →
  r' = r
  ∨ ∃ i, 0 ≤ i < routine.holdingCount r
         ∧ i < Z.of_nat (length (routine.holdingSet r))
         ∧ r' = routine.mk (routine.index r) (int_sub (routine.holdingCount r) 1)
                  (splice (routine.holdingSet r) i)
                  (routine.dependencyMap r) (routine.dependencies r) (routine.curDep r)
                  (routine.depCount r) (routine.collectedSingleLevelLocks r).
Proof.
  unfold updateUnlock, forDown. intros (found & Hf & H)%bind_Ok_inv.
  destruct found as [i|]; injection H as <-; [|by left]. right.
  apply forEach_inv in Hf as (k & x & Hk & Hx & _).
  apply list_elem_of_lookup_2, elem_of_reverse, elem_of_seqZ in Hk.
  apply bind_Ok_inv in Hx as (y & Hy%slice_get_length & Hx).
  destruct (bool_decide (y = m)); [|done]. injection Hx as ->.
  exists i. split; [lia|]. split; [lia|done].
Qed.

(** The loop of [updateUnlock] starts by reading the topmost entry. *)
Lemma updateUnlock_scan_top (hs : list mutexInt) hc m found :
  0 < hc →
  forDown hc (λ i,
    let* x := slice_get hs i in
    if bool_decide (x = m) then Ok (Some i) else Ok None) = Ok found →
  hc ≤ Z.of_nat (length hs).
Proof.
  intros Hhc. unfold forDown.
  replace hc with ((hc - 1) + 1) at 1 by lia. rewrite seqZ_app by lia.
  rewrite reverse_app. change (seqZ (0 + (hc - 1)) 1) with [0 + (hc - 1)]. simpl.
  destruct (slice_get hs (0 + (hc - 1))) as [x| | | |] eqn:E; try done.
  apply slice_get_length in E. lia.
Qed.

Lemma release_again s t m s1 :
  updateUnlock s m = Ok s1 → same_holding s t →
  ∃ t1, updateUnlock t m = Ok t1 ∧ same_tree t t1 ∧ same_holding s1 t1.
Proof.
  intros Hs Hhold. pose proof Hhold as (Hc & Hheld & Hl & Hi & Hcs).
  unfold updateUnlock in Hs |- *. apply bind_Ok_inv in Hs as (found & Hf & Hs).
  assert (Ht : forDown (routine.holdingCount t) (λ i,
      let* x := slice_get (routine.holdingSet t) i in
      if bool_decide (x = m) then Ok (Some i) else Ok None) = Ok found).
  { rewrite <- Hf, Hc. unfold forDown. apply forEach_ext.
    intros i Hin%elem_of_reverse%elem_of_seqZ.
    rewrite (same_holding_get s t) by (done || lia). done. }
  rewrite Ht. simpl. destruct found as [i|]; injection Hs as <-.
  - eexists. split; [done|]. split; [by repeat split|].
    pose proof Hf as Hf'.
    unfold forDown in Hf. apply forEach_inv in Hf as (k & x & Hk & Hx & _).
    apply list_elem_of_lookup_2, elem_of_reverse, elem_of_seqZ in Hk.
    apply bind_Ok_inv in Hx as (y & Hy%slice_get_length & Hx).
    destruct (bool_decide (y = m)); [|done]. injection Hx as ->.
    apply updateUnlock_scan_top in Hf'; [|lia].
    unfold same_holding, held. simpl. rewrite Hc, Hi, !splice_length by lia.
    split_and!; try done.
    unfold held in Hheld. rewrite Hc in Hheld.
    pose proof (int_wrap_le (routine.holdingCount s - 1)) as Hw. unfold int_sub.
    apply (take_splice_same _ _ (Z.to_nat (routine.holdingCount s))); try done; lia.
  - exists t. split; [done|]. split; [apply same_tree_refl|done].
Qed.

Lemma tryAcquire_again opts σs σt s t m rLock s1 σs1 :
  updateTryLock opts σs s m rLock = Ok (s1, σs1) →
  same_holding s t → same_objects σs σt →
  ∃ t1 σt1, updateTryLock opts σt t m rLock = Ok (t1, σt1)
            ∧ same_tree t t1 ∧ same_holding s1 t1 ∧ same_objects σs1 σt1.
Proof.
  intros (Hmax & Hσ & Hrange & ->)%updateTryLock_inv Hhold Hobj.
  pose proof Hhold as (Hc & Hheld & Hl & Hi & Hcs).
  destruct (setRLock_again σs σt m (routine.index s) (routine.index t) rLock rLock Hobj)
    as [σt1 Hσt]; [by eexists|].
  unfold updateTryLock. rewrite bool_decide_false by lia. rewrite Hσt. simpl.
  unfold slice_set. rewrite decide_True by lia. simpl.
  eexists _, _. split; [done|]. split; [by repeat split|]. split.
  - by apply (same_holding_push s t _ _ m).
  - apply (same_objects_trans _ σs);
      [by eapply same_objects_sym, setRLock_same_objects|].
    apply (same_objects_trans _ σt); [done|]. by eapply setRLock_same_objects.
Qed.

Lemma same_tree_buckets r r' : same_tree r r' → ∀ key, bucket r' key = bucket r key.
Proof. intros (_ & _ & Hm & _) key. unfold bucket. by rewrite Hm. Qed.

Lemma stepOp_effect opts r σ p op r' σ' p' :
  stepOp opts (r, σ, p) op = Ok (r', σ', p') →
  same_objects σ σ' ∧ buckets_sub r r' ∧ (wf_buckets r → wf_buckets r').
Proof.
  destruct op as [c m rLock|m rLock|m]; simpl.
  - intros ([r1 σ1] & H & [= <- <- <-])%bind_Ok_inv.
    apply updateLock_effect in H as (? & ? & ? & _). done.
  - intros ([r1 σ1] & H & [= <- <- <-])%bind_Ok_inv.
    pose proof (updateTryLock_same_tree _ _ _ _ _ _ _ H) as Htree.
    apply updateTryLock_inv in H as (_ & Hσ%setRLock_same_objects & _).
    pose proof (same_tree_buckets _ _ Htree) as Hb. split_and!; [done|..].
    + intros key d. by rewrite Hb.
    + intros Hwf key d. rewrite Hb. apply Hwf.
  - intros (r1 & H & [= <- <- <-])%bind_Ok_inv.
    pose proof (same_tree_buckets _ _ (updateUnlock_same_tree _ _ _ H)) as Hb.
    split_and!; [done|..].
    + intros key d. by rewrite Hb.
    + intros Hwf key d. rewrite Hb. apply Hwf.
Qed.

Lemma runPattern_effect opts ops : ∀ r σ p r' σ' p',
  runPattern opts ops (r, σ, p) = Ok (r', σ', p') →
  same_objects σ σ' ∧ buckets_sub r r' ∧ (wf_buckets r → wf_buckets r').
Proof.
  unfold runPattern. induction ops as [|op ops IH]; intros r σ p r' σ' p'; simpl.
  - intros [= <- <- <-]. split_and!; [done|by intros ??|done].
  - intros ([[r1 σ1] p1] & H1 & H)%bind_Ok_inv.
    apply stepOp_effect in H1 as (Ho1 & Hs1 & Hw1).
    apply IH in H as (Ho & Hs & Hw). split_and!.
    + by apply (same_objects_trans _ σ1).
    + intros key d Hd. by apply Hs, Hs1.
    + auto.
Qed.

(** A pattern that ran once from [s] runs again from every routine [t]
    that holds the same locks and has the dependencies the first run ended
    with: the second run returns and leaves the lock tree of [t] as it is. *)
Lemma runPattern_again opts ops : ∀ s σs ps s' σs' ps' t σt pt,
  sane_opts opts →
  runPattern opts ops (s, σs, ps) = Ok (s', σs', ps') →
  same_holding s t → same_objects σs σt → wf_buckets t → buckets_sub s' t →
  ∃ t' σt' pt', runPattern opts ops (t, σt, pt) = Ok (t', σt', pt')
                ∧ same_tree t t' ∧ same_holding s' t' ∧ same_objects σs' σt'.
Proof.
  unfold runPattern.
  induction ops as [|op ops IH]; intros s σs ps s' σs' ps' t σt pt Hsane; cbn [foldM].
  - intros [= <- <- <-] Hhold Hobj Hwf Hsub. exists t, σt, pt.
    split_and!; [done|apply same_tree_refl|done|done].
  - intros ([[s1 σs1] ps1] & H1 & H)%bind_Ok_inv Hhold Hobj Hwf Hsub.
    pose proof (runPattern_effect opts ops _ _ _ _ _ _ H) as (_ & Hsub1 & _).
    assert (∃ t1 σt1 pt1, stepOp opts (t, σt, pt) op = Ok (t1, σt1, pt1)
              ∧ same_tree t t1 ∧ same_holding s1 t1 ∧ same_objects σs1 σt1)
      as (t1 & σt1 & pt1 & Ht1 & Htree1 & Hhold1 & Hobj1).
    { destruct op as [c m rLock|m rLock|m]; simpl in H1 |- *.
      - apply bind_Ok_inv in H1 as ([s1' σs1'] & H1 & [= <- <- <-]).
        destruct (acquire_again opts c ps pt σs σt s t m rLock s1' σs1')
          as (t1 & σt1 & -> & ? & ? & ?); try done.
        { intros key d Hd. by apply Hsub, Hsub1. }
        simpl. by eexists _, _, _.
      - apply bind_Ok_inv in H1 as ([s1' σs1'] & H1 & [= <- <- <-]).
        destruct (tryAcquire_again opts σs σt s t m rLock s1' σs1')
          as (t1 & σt1 & -> & ? & ? & ?); try done.
        simpl. by eexists _, _, _.
      - apply bind_Ok_inv in H1 as (s1' & H1 & [= <- <- <-]).
        destruct (release_again s t m s1') as (t1 & -> & ? & ?); try done.
        simpl. by eexists _, _, _. }
    rewrite Ht1. cbn [bind].
    pose proof (same_tree_buckets _ _ Htree1) as Hb.
    destruct (IH s1 σs1 ps1 s' σs' ps' t1 σt1 pt1 Hsane H Hhold1 Hobj1)
      as (t' & σt' & pt' & Ht' & Htree' & Hhold' & Hobj').
    + intros key d. rewrite Hb. apply Hwf.
    + intros key d Hd. rewrite Hb. by apply Hsub.
    + exists t', σt', pt'. split_and!; try done. by apply (same_tree_trans _ t1).
Qed.

Lemma stepOp_frame opts r σ p op r' σ' p' :
  stepOp opts (r, σ, p) op = Ok (r', σ', p') →
  routine.index r' = routine.index r
  ∧ length (routine.holdingSet r') = length (routine.holdingSet r)
  ∧ (is_Some (routine.collectedSingleLevelLocks r') ↔
     is_Some (routine.collectedSingleLevelLocks r)).
Proof.
  destruct op as [c m rLock|m rLock|m]; simpl.
  - intros ([r1 σ1] & H & [= <- <- <-])%bind_Ok_inv.
    apply updateLock_effect in H as (_ & _ & _ & Hi & _ & Hs & Hcs & _).
    rewrite Hi, Hs, length_insert. done.
  - intros ([r1 σ1] & H & [= <- <- <-])%bind_Ok_inv.
    apply updateTryLock_inv in H as (_ & _ & _ & ->). simpl.
    by rewrite length_insert.
  - intros (r1 & H & [= <- <- <-])%bind_Ok_inv.
    apply updateUnlock_inv in H as [->|(i & Hi & Hlen & ->)]; [done|]. simpl.
    rewrite splice_length by lia. done.
Qed.

Lemma runPattern_frame opts ops : ∀ r σ p r' σ' p',
  runPattern opts ops (r, σ, p) = Ok (r', σ', p') →
  routine.index r' = routine.index r
  ∧ length (routine.holdingSet r') = length (routine.holdingSet r)
  ∧ (is_Some (routine.collectedSingleLevelLocks r') ↔
     is_Some (routine.collectedSingleLevelLocks r)).
Proof.
  unfold runPattern. induction ops as [|op ops IH]; intros r σ p r' σ' p'; cbn [foldM].
  - by intros [= <- <- <-].
  - intros ([[r1 σ1] p1] & H1 & H)%bind_Ok_inv.
    apply stepOp_frame in H1 as (Hi1 & Hl1 & Hc1). apply IH in H as (Hi & Hl & Hc).
    rewrite Hi, Hl, Hc. done.
Qed.

Lemma repeatPattern_again opts ops r σ p r1 σ1 p1 :
  sane_opts opts →
  runPattern opts ops (r, σ, p) = Ok (r1, σ1, p1) →
  same_holding r r1 → wf_buckets r1 →
  ∀ n t σt pt, same_holding r t → same_tree r1 t → same_objects σ σt →
    ∃ rn σn pn, repeatPattern opts ops n (t, σt, pt) = Ok (rn, σn, pn)
                ∧ same_tree r1 rn.
Proof.
  intros Hsane Hrun Hhold1 Hwf1.
  pose proof (runPattern_effect _ _ _ _ _ _ _ _ Hrun) as (Hobj1 & _ & _).
  induction n as [|n IH]; intros t σt pt Hhold Htree Hobj; simpl.
  - by exists t, σt, pt.
  - pose proof (same_tree_buckets _ _ Htree) as Hb.
    destruct (runPattern_again opts ops r σ p r1 σ1 p1 t σt pt Hsane Hrun Hhold Hobj)
      as (t' & σt' & pt' & -> & Htree' & Hhold' & Hobj').
    + intros key d. rewrite Hb. apply Hwf1.
    + intros key d. by rewrite Hb.
    + simpl. apply IH.
      * by apply (same_holding_trans _ r1).
      * by apply (same_tree_trans _ t).
      * by apply (same_objects_trans _ σ1).
Qed.

(** C3. [updateLock] adds a dependency to the lock tree only for a nested
    acquisition for which the bucket of the key (the memory position of the
    acquired lock xor that of the top of the holding set) holds no
    dependency with the same acquired lock, the same holding count and the
    same holding set up to the count; otherwise the lock tree is left as it
    is. Consequently a pattern of acquisitions and releases that ends with
    the locks held that it started with can be run any number of times:
    every further run returns and leaves [depCount] and the whole lock tree
    as the first run left them. *)
Theorem updateLock_dedup (opts : options) (c : caller) (ptr : loc)
    (σ : gmap loc lockObj) (r : routine) (m : mutexInt) (rLock : bool)
    (ops : list lockOp) :
  (∀ r' σ', updateLock opts c ptr σ r m rLock = Ok (r', σ') →
     (same_tree r r'
      ∧ (routine.holdingCount r ≤ 0
         ∨ ∃ key d, depKey σ r m = Ok key ∧ d ∈ bucket r key ∧ matches r m d))
     ∨ (0 < routine.holdingCount r
        ∧ ∃ key dep,
            depKey σ r m = Ok key
            ∧ (∀ d, d ∈ bucket r key → ¬ matches r m d)
            ∧ matches r m dep ∧ dependency.ptr dep = ptr
            ∧ routine.dependencies r'
              = <[Z.to_nat (routine.depCount r) := Some dep]> (routine.dependencies r)
            ∧ routine.depCount r' = int_add (routine.depCount r) 1
            ∧ bucket r' key = bucket r key ++ [dep]
            ∧ routine.curDep r' = Some dep))
  ∧ (sane_opts opts → wf_buckets r →
     ∀ p r1 σ1 p1, runPattern opts ops (r, σ, p) = Ok (r1, σ1, p1) →
       routine.holdingCount r1 = routine.holdingCount r → held r1 = held r →
       ∀ n, ∃ rn σn pn,
         repeatPattern opts ops (S n) (r, σ, p) = Ok (rn, σn, pn)
         ∧ routine.depCount rn = routine.depCount r1
         ∧ same_tree r1 rn).
Proof.
  split.
  - intros r' σ' H. pose proof (updateLock_length _ _ _ _ _ _ _ _ _ H) as Hlen.
    apply updateLock_inv in H as (σ1 & r1 & isNew & Hσ1 & Hbranch & _ & Hmax & _ & ->).
    pose proof (setRLock_same_objects _ _ _ _ _ Hσ1) as Hobj.
    revert Hbranch. case_bool_decide as Hhc.
    + intros (Hi & Hc & Hs & Hcs & key & Hkey & Hcase)%updateLock_nested_inv; [|lia..].
      rewrite (depKey_same σ σ1 r m Hobj) in Hkey.
      destruct Hcase as [(-> & -> & d & Hd & Hmatch)
        |(-> & Hno & dep & g & Hmatch & Hptr & _ & _ & _ & _ & Hdeps & Hcount & Hcur
          & Hg & Hg1)].
      * left. split; [by repeat split|]. right. by exists key, d.
      * right. split; [done|]. exists key, dep. split_and!; try done.
        unfold bucket at 1. simpl. rewrite Hg1. simpl. by rewrite lookup_insert_eq.
    + intros ((Hd & Hdc & Hm & Hcur) & _)%updateLock_single_inv. left.
      split; [by repeat split|]. left. lia.
  - intros Hsane Hwf p r1 σ1 p1 Hrun Hc Hheld n.
    pose proof (runPattern_frame _ _ _ _ _ _ _ _ Hrun) as (Hi & Hl & Hcs).
    pose proof (runPattern_effect _ _ _ _ _ _ _ _ Hrun) as (Hobj & _ & Hwf1).
    assert (Hhold : same_holding r r1).
    { unfold same_holding. split_and!; try done. by apply Hcs. }
    destruct (repeatPattern_again opts ops r σ p r1 σ1 p1 Hsane Hrun Hhold (Hwf1 Hwf)
                n r1 σ1 p1 Hhold (same_tree_refl r1) Hobj)
      as (rn & σn & pn & Hn & Htree).
    exists rn, σn, pn. simpl. rewrite Hrun. simpl. split_and!; [done| |done].
    by destruct Htree as (_ & -> & _).
Qed.


Lemma updateLock_dedup_witness :
  ∃ rn σn pn,
    repeatPattern exOpts exPattern 3 (exFresh, exMutexes, 9%positive) = Ok (rn, σn, pn)
    ∧ routine.depCount rn = 1.
Proof.
  destruct (updateLock_dedup exOpts (exCaller 7 10) 9%positive exMutexes exFresh exA false
              exPattern) as [_ H].
  assert (Hrun : ∃ r1 σ1 p1,
    runPattern exOpts exPattern (exFresh, exMutexes, 9%positive) = Ok (r1, σ1, p1)
    ∧ routine.depCount r1 = 1 ∧ routine.holdingCount r1 = 0 ∧ held r1 = []).
  { vm_compute. eexists _, _, _. split_and!; reflexivity. }
  destruct Hrun as (r1 & σ1 & p1 & Hrun & Hcount & Hc & Hheld).
  assert (Hsane : sane_opts exOpts) by (intros H'; discriminate H').
  assert (Hwf : wf_buckets exFresh).
  { intros key d Hd. unfold bucket, map_get, exFresh in Hd. simpl in Hd.
    rewrite lookup_empty in Hd. by apply elem_of_nil in Hd. }
  destruct (H Hsane Hwf 9%positive r1 σ1 p1 Hrun) with (n := 2%nat)
    as (rn & σn & pn & Hn & Hcn & _).
  - rewrite Hc. reflexivity.
  - rewrite Hheld. reflexivity.
  - exists rn, σn, pn. split; [exact Hn|]. rewrite Hcn. exact Hcount.
Defined.

(** ** Double locking *)

Lemma avoids_bind o {A B} (r : result A) (f : A → result B) :
  avoids o r → (∀ a, r = Ok a → avoids o (f a)) → avoids o (bind r f).
Proof. destruct r; simpl; auto. Qed.

Lemma avoids_forEach o {I R} (body : I → result (option R)) xs :
  (∀ x, avoids o (body x)) → avoids o (forEach body xs).
Proof.
  intros H. induction xs as [|x xs IH]; simpl; [done|].
  specialize (H x). destruct (body x) as [[v|]| | | |]; done.
Qed.

Lemma avoids_foldM o {I S} (body : S → I → result S) xs : ∀ s,
  (∀ s x, avoids o (body s x)) → avoids o (foldM body s xs).
Proof.
  induction xs as [|x xs IH]; intros s H; simpl; [done|].
  apply avoids_bind; [apply H|]. intros s' _. by apply IH.
Qed.

Lemma avoids_slice_get o {A} (s : list A) i : avoids o (slice_get s i).
Proof. unfold slice_get. case_decide; [|done]. by destruct (s !! _). Qed.

Lemma avoids_slice_set o {A} (s : list A) i x : avoids o (slice_set s i x).
Proof. unfold slice_set. by case_decide. Qed.

Lemma avoids_make o {A} n (z : A) : avoids o (make n z).
Proof. unfold make. by case_decide. Qed.

Lemma avoids_deref o σ m : avoids o (deref σ m).
Proof. unfold deref. destruct m as [l|]; [|done]. by destruct (σ !! l). Qed.

Lemma avoids_map_set o {K V} `{Countable K} (m : option (gmap K V)) k v :
  avoids o (map_set m k v).
Proof. by destruct m. Qed.

Lemma avoids_getMemoryPosition o σ m : avoids o (getMemoryPosition σ m).
Proof. unfold getMemoryPosition. apply avoids_bind; [apply avoids_deref|done]. Qed.

Lemma avoids_setRLock o σ m i v : avoids o (setRLock σ m i v).
Proof.
  unfold setRLock. destruct m; [|done]. apply avoids_bind; [apply avoids_deref|done].
Qed.

Lemma avoids_updObj o g m f : avoids o (updObj g m f).
Proof.
  unfold updObj. destruct m; [|done]. apply avoids_bind; [apply avoids_deref|done].
Qed.

Lemma avoids_onPrim o g p f : (∀ x, avoids o (f x)) → avoids o (onPrim g p f).
Proof.
  intros Hf. unfold onPrim. destruct p; [|done]. destruct (state.prims g !! _); [|done].
  apply avoids_bind; [apply Hf|done].
Qed.

Lemma avoids_primitiveLock o g m rLock : avoids o (primitiveLock g m rLock).
Proof.
  unfold primitiveLock, getLock. apply avoids_bind.
  { apply avoids_bind; [apply avoids_deref|done]. }
  intros [[d l] t] _. destruct d; [|destruct rLock]; apply avoids_onPrim; intros x.
  - unfold sync.Lock. by destruct (sync.free x).
  - unfold sync.RLock. by destruct (sync.writer x).
  - unfold sync.Lock. by destruct (sync.free x).
Qed.

Lemma avoids_commonPrefix o dhs rhs hc : avoids o (commonPrefix dhs rhs hc).
Proof.
  unfold commonPrefix. apply avoids_bind.
  - apply avoids_forEach. intros i. apply avoids_bind; [apply avoids_slice_get|].
    intros a _. apply avoids_bind; [apply avoids_slice_get|]. intros b _.
    by destruct (_ && _).
  - intros [i|] Hr; [done|]. exfalso. apply forEach_inv in Hr.
    assert (seqZ 0 (Z.max hc 0 + 1) !! Z.to_nat (Z.max hc 0) = Some (Z.max hc 0)) as Hk
      by (apply lookup_seqZ; lia).
    apply Hr in Hk. apply bind_Ok_inv in Hk as (a & _ & Hk).
    apply bind_Ok_inv in Hk as (b & _ & Hk).
    rewrite (bool_decide_false (Z.max hc 0 < hc)) in Hk by lia.
    by rewrite andb_false_r in Hk.
Qed.

Lemma avoids_dependencyAlreadyExists o r m l : avoids o (dependencyAlreadyExists r m l).
Proof.
  unfold dependencyAlreadyExists. apply avoids_bind; [|done].
  apply avoids_forEach. intros d. destruct (_ && _); [|done].
  apply avoids_bind; [apply avoids_commonPrefix|]. intros i _. by destruct (bool_decide _).
Qed.

Lemma avoids_newDependency o opts ptr lock cur n :
  avoids o (newDependency opts ptr lock cur n).
Proof.
  unfold newDependency. apply avoids_bind; [apply avoids_make|]. intros hs0 _.
  apply avoids_bind; [|done]. apply avoids_foldM. intros hs i.
  apply avoids_bind; [apply avoids_slice_get|done].
Qed.

Lemma avoids_updateLock o opts c ptr σ r m rLock :
  avoids o (updateLock opts c ptr σ r m rLock).
Proof.
  unfold updateLock. apply avoids_bind; [apply avoids_setRLock|]. intros σ1 _.
  apply avoids_bind.
  { case_bool_decide.
    - unfold updateLock_nested.
      apply avoids_bind; [apply avoids_getMemoryPosition|]. intros posM _.
      apply avoids_bind; [apply avoids_slice_get|]. intros last _.
      apply avoids_bind; [apply avoids_getMemoryPosition|]. intros posLast _.
      apply avoids_bind.
      { destruct (map_get _ _); [apply avoids_dependencyAlreadyExists|done]. }
      intros known _. destruct known; [done|]. case_bool_decide; [done|].
      apply avoids_bind; [apply avoids_newDependency|]. intros dep _.
      apply avoids_bind; [apply avoids_slice_set|]. intros deps _.
      apply avoids_bind; [apply avoids_map_set|done].
    - unfold updateLock_single. destruct (options.collectSingleLevelLockStack opts); [|done].
      destruct (map_get _ _).
      + destruct (negb _); [|done]. apply avoids_bind; [apply avoids_map_set|done].
      + apply avoids_bind; [apply avoids_map_set|done]. }
  intros [r1 isNew] _. apply avoids_bind.
  { destruct (isNew && _); [|done]. unfold recordContext. apply avoids_bind.
    - destruct (options.collectCallStack opts); [|done].
      apply avoids_bind; [apply avoids_make|done].
    - intros buf _. destruct m; [|done]. apply avoids_bind; [apply avoids_deref|done]. }
  intros σ2 _. case_bool_decide; [done|].
  apply avoids_bind; [apply avoids_slice_set|done].
Qed.

Lemma no_exit_neq {A} (r : result A) code e : no_exit r → r ≠ Exit code e.
Proof. by intros H ->. Qed.

Lemma bind_Exit_iff {A B} (r : result A) (f : A → result B) code e :
  bind r f = Exit code e ↔ r = Exit code e ∨ ∃ a, r = Ok a ∧ f a = Exit code e.
Proof.
  destruct r as [a| | | |]; simpl; split; try done; try naive_solver.
Qed.

Lemma defer_Exit_iff deferred body g code e :
  defer deferred body g = Exit code e ↔
  body g = Exit code e ∨ ∃ g', body g = Ok g' ∧ deferred g' = Exit code e.
Proof.
  unfold defer. destruct (body g) as [g1|msg| | |]; split; try naive_solver.
  by destruct (deferred g).
Qed.

Lemma newRoutine_frame g c g' :
  newRoutine g c = Ok g' →
  state.locks g' = state.locks g ∧ state.opts g' = state.opts g ∧
  state.stderr g' = state.stderr g ∧ state.numGoroutine g' = state.numGoroutine g.
Proof.
  unfold newRoutine. destruct (_ && _); [by intros [= <-]|].
  intros (hs & _ & H)%bind_Ok_inv. apply bind_Ok_inv in H as (deps & _ & H).
  case_bool_decide; [done|]. by apply bind_Ok_inv in H as (rs & _ & [= <-]).
Qed.

Lemma ensureRoutine_frame g c g' index :
  ensureRoutine g c = Ok (g', index) →
  state.locks g' = state.locks g ∧ state.opts g' = state.opts g ∧
  state.stderr g' = state.stderr g ∧ state.numGoroutine g' = state.numGoroutine g.
Proof.
  unfold ensureRoutine. intros (g1 & Hnew & [= <- _])%bind_Ok_inv.
  destruct (bool_decide _); [by eapply newRoutine_frame|]. by injection Hnew as <-.
Qed.

Lemma FindPotentialDeadlocks_stderr g g' :
  FindPotentialDeadlocks g = Ok g' → ∃ out, state.stderr g' = state.stderr g ++ out.
Proof.
  unfold FindPotentialDeadlocks. destruct (negb _).
  { intros [= <-]. exists []. by rewrite app_nil_r. }
  case_bool_decide; [|intros [= <-]; exists []; by rewrite app_nil_r].
  intros (enough & _ & Hd)%bind_Ok_inv. destruct (negb enough).
  { injection Hd as <-. exists []. by rewrite app_nil_r. }
  apply bind_Ok_inv in Hd as (s & _ & [= <-]). by exists (search.out s).
Qed.

Lemma avoids_loopM o {I S R} (body : S → I → result (S + R)) xs : ∀ s,
  (∀ s x, avoids o (body s x)) → avoids o (loopM body s xs).
Proof.
  induction xs as [|x xs IH]; intros s Hb; simpl; [done|].
  apply avoids_bind; [apply Hb|]. intros [s'|r] _; [by apply IH|done].
Qed.

Lemma avoids_deref_dep o d : avoids o (deref_dep d).
Proof. by destruct d. Qed.

Lemma avoids_getLock o σ m : avoids o (getLock σ m).
Proof. unfold getLock. apply avoids_bind; [apply avoids_deref|done]. Qed.

Lemma avoids_getRLock o σ m i : avoids o (getRLock σ m i).
Proof. unfold getRLock. apply avoids_bind; [apply avoids_deref|done]. Qed.

(** Takes a goal [avoids o e] apart along the structure of [e]; [leaf]
    closes the calls of functions that have a lemma of their own. *)
Ltac avoids_with leaf :=
  repeat first
    [ exact I
    | assumption
    | leaf
    | apply avoids_slice_get | apply avoids_slice_set | apply avoids_make
    | apply avoids_deref | apply avoids_deref_dep | apply avoids_map_set
    | apply avoids_getLock | apply avoids_getRLock | apply avoids_getMemoryPosition
    | apply avoids_bind; [|intros ? _]
    | apply avoids_forEach; intros ?
    | apply avoids_foldM; intros ? ?
    | apply avoids_loopM; intros ? ?
    | match goal with
      | |- avoids _ (if ?b then _ else _) => destruct b
      | |- avoids _ (match ?x with _ => _ end) => destruct x
      | |- avoids _ ((match ?x with _ => _ end) _) => destruct x
      end ].

Lemma avoids_mutexHaveEqualLock o σ m1 m2 : avoids o (mutexHaveEqualLock σ m1 m2).
Proof. unfold mutexHaveEqualLock. avoids_with fail. Qed.

Lemma avoids_andThen o a b : avoids o a → avoids o b → avoids o (andThen a b).
Proof. intros Ha Hb. unfold andThen. avoids_with fail. Qed.

Lemma avoids_isChain o σ stack dep i : avoids o (isChain σ stack dep i).
Proof.
  unfold isChain, forRange.
  avoids_with ltac:(first [apply avoids_mutexHaveEqualLock | apply avoids_andThen]).
Qed.

Lemma avoids_isCycleChain o σ stack dep i : avoids o (isCycleChain σ stack dep i).
Proof.
  unfold isCycleChain, forRange.
  avoids_with ltac:(first [apply avoids_mutexHaveEqualLock | apply avoids_andThen]).
Qed.

Lemma no_exit_dfs fuel g : ∀ visiting s, no_exit (dfs fuel g visiting s).
Proof.
  induction fuel as [|fuel IH]; intros visiting s; [done|]. simpl.
  unfold dfs_routine, dfs_dependency.
  avoids_with ltac:(first [apply avoids_isChain | apply avoids_isCycleChain | apply IH]).
Qed.

Lemma no_exit_detect g : no_exit (detect g).
Proof. unfold detect. avoids_with ltac:(apply no_exit_dfs). Qed.

Lemma avoids_getDependencyString o σ dep : avoids o (getDependencyString σ dep).
Proof. unfold getDependencyString. avoids_with fail. Qed.

Lemma no_exit_FindPotentialDeadlocks g : no_exit (FindPotentialDeadlocks g).
Proof.
  unfold FindPotentialDeadlocks, isNumberDependenciesGreaterEqualTwo.
  avoids_with ltac:(first [apply no_exit_detect | apply avoids_getDependencyString]).
Qed.

(** What [checkDoubleLocking] does for a lock that exists. *)
Lemma checkDoubleLocking_Exit_iff g m index rLock o code e :
  deref (state.locks g) m = Ok o →
  checkDoubleLocking g m index rLock = Exit code e ↔
  heldBy o index ≠ 0 ∧ ¬ (rLock = true ∧ obj.getRLock o index = true) ∧
  ∃ g', FindPotentialDeadlocks (reported g m) = Ok g' ∧ code = 2 ∧ e = state.stderr g'.
Proof.
  intros Ho. unfold checkDoubleLocking. rewrite Ho. simpl. fold (heldBy o index).
  case_bool_decide as Hheld; [naive_solver|].
  unfold andThen, getRLock. rewrite Ho. simpl. fold (reported g m).
  pose proof (no_exit_FindPotentialDeadlocks (reported g m)) as Hfpd.
  assert ((let* g0 := FindPotentialDeadlocks (reported g m) in Exit 2 (state.stderr g0))
           = (Exit code e : result state) ↔
          ∃ g', FindPotentialDeadlocks (reported g m) = Ok g' ∧ code = 2 ∧ e = state.stderr g')
    as Hb.
  { rewrite bind_Exit_iff. split.
    - intros [Hd|(g' & Hd & [= <- <-])]; [|by eauto].
      by rewrite Hd in Hfpd.
    - intros (g' & Hd & -> & ->). right. by exists g'. }
  destruct rLock; [destruct (obj.getRLock o index)|]; simpl.
  - naive_solver.
  - rewrite Hb. naive_solver.
  - rewrite Hb. naive_solver.
Qed.

Lemma no_exit_lockInt_deferred m rLock g :
  no_exit (let* g := primitiveLock g m rLock in addNumberLocked g m 1).
Proof.
  apply avoids_bind; [apply avoids_primitiveLock|]. intros g' _. apply avoids_updObj.
Qed.

(** [lockInt] leaves the process only from [checkDoubleLocking]. *)
Lemma lockInt_Exit_iff c m rLock g o g1 index code e :
  options.activated (state.opts g) = true →
  options.periodicDetection (state.opts g) || options.comprehensiveDetection (state.opts g)
    = true →
  deref (state.locks g) m = Ok o →
  obj.getIn o = true →
  ensureRoutine g c = Ok (g1, index) →
  is_Ok (slice_get (state.routines g1) index) →
  lockInt c m rLock g = Exit code e ↔
  options.checkDoubleLocking (state.opts g) = true ∧ obj.getNumberLocked o ≠ 0 ∧
  checkDoubleLocking g1 m index rLock = Exit code e.
Proof.
  intros Hact Han Ho Hin Hens Hr. unfold lockInt. rewrite Hact, Ho. simpl. rewrite Hin. simpl.
  rewrite defer_Exit_iff.
  destruct (ensureRoutine_frame _ _ _ _ Hens) as (Hlocks & _).
  destruct Hr as [r0 Hr].
  assert (negb (options.periodicDetection (state.opts g)) &&
          negb (options.comprehensiveDetection (state.opts g)) = false) as ->.
  { by destruct (options.periodicDetection _), (options.comprehensiveDetection _). }
  rewrite Hens. simpl. rewrite Hr. simpl. rewrite Hlocks, Ho. simpl.
  split.
  - intros [Hb|(g' & _ & Hd)]; [|by apply no_exit_neq in Hd; [|apply no_exit_lockInt_deferred]].
    apply bind_Exit_iff in Hb as [Hb|(g2 & _ & Hb)].
    + destruct (options.checkDoubleLocking _); [|done]. by case_bool_decide.
    + apply no_exit_neq in Hb; [done|].
      avoids_with ltac:(first [apply avoids_updObj | apply avoids_updateLock]).
  - intros (-> & Hn & Hc). left. rewrite bool_decide_false by done. simpl. by rewrite Hc.
Qed.

(** The check as the wrapper's counters decide it. With the detector
    activated, one of the two analyses enabled and double-lock checking
    enabled, an acquisition of a created lock by a
    routine whose counters are consistent leaves the process only by the
    report of double locking and exit status 2, and only when the routine
    holds the lock already and not both the new acquisition is a reader's
    and the reader flag recorded for the routine is set; when the
    comprehensive pass that follows the report completes, it does so
    exactly then. *)
Theorem lockInt_double_locking (c : caller) (m : mutexInt) (rLock : bool)
    (g g1 : state) (o : lockObj) (index : Z) :
  options.activated (state.opts g) = true →
  options.periodicDetection (state.opts g) || options.comprehensiveDetection (state.opts g)
    = true →
  options.checkDoubleLocking (state.opts g) = true →
  deref (state.locks g) m = Ok o →
  obj.getIn o = true →
  ensureRoutine g c = Ok (g1, index) →
  is_Ok (slice_get (state.routines g1) index) →
  counters_consistent o index →
  (∀ code e, lockInt c m rLock g = Exit code e →
     doubleLocking o index rLock ∧ exitsDoubleLocking m (lockInt c m rLock g))
  ∧ (is_Ok (FindPotentialDeadlocks (reported g1 m)) →
     (exitsDoubleLocking m (lockInt c m rLock g) ↔ doubleLocking o index rLock)).
Proof.
  intros Hact Han Hchk Ho Hin Hens Hr [Hge Hlocked].
  pose proof (lockInt_Exit_iff c m rLock g o g1 index) as Hexit.
  destruct (ensureRoutine_frame _ _ _ _ Hens) as (Hlocks & _).
  assert (deref (state.locks g1) m = Ok o) as Ho1 by by rewrite Hlocks.
  assert (∀ code e, lockInt c m rLock g = Exit code e →
            doubleLocking o index rLock ∧ exitsDoubleLocking m (lockInt c m rLock g)) as Honly.
  { intros code e Hl. pose proof Hl as Hl'.
    apply Hexit in Hl' as (_ & _ & Hc); [|done..].
    apply (checkDoubleLocking_Exit_iff _ _ _ _ o) in Hc as (Hheld & Hrd & g' & Hf & -> & ->);
      [|done].
    split; [split; [lia|done]|]. exists (state.stderr g'). split; [done|].
    apply FindPotentialDeadlocks_stderr in Hf as [out ->]. simpl.
    rewrite !elem_of_app, list_elem_of_singleton. auto. }
  split; [exact Honly|]. intros [g' Hf]. split.
  - intros (e & Hl & _). by apply Honly in Hl as [? _].
  - intros [Hheld Hrd].
    assert (lockInt c m rLock g = Exit 2 (state.stderr g')) as Hl.
    { apply Hexit; [done..|]. split_and!; [done|apply Hlocked; lia|].
      apply (checkDoubleLocking_Exit_iff _ _ _ _ o); [done|].
      split_and!; [lia|done|by exists g']. }
    by apply Honly in Hl as [_ ?].
Qed.

(** Goroutine X, then goroutine Y: Y parks on the platform lock, nothing
    is reported. X twice: the report and exit status 2. X twice as a reader
    of a rw-lock, or X and Y as readers: both return. X as a reader and as a
    writer, in either order: the report. *)
Example double_locking_scenarios :
  lockProgram exOpts false [(exX, false); (exY, false)] = Blocked
  ∧ exitsDoubleLocking (Some 2%positive) (lockProgram exOpts false [(exX, false); (exX, false)])
  ∧ is_Ok (lockProgram exOpts true [(exX, true); (exX, true)])
  ∧ is_Ok (lockProgram exOpts true [(exX, true); (exY, true)])
  ∧ exitsDoubleLocking (Some 2%positive) (lockProgram exOpts true [(exX, true); (exX, false)])
  ∧ exitsDoubleLocking (Some 2%positive) (lockProgram exOpts true [(exX, false); (exX, true)]).
Proof.
  split_and!.
  - vm_compute. reflexivity.
  - eexists. split; [vm_compute; reflexivity|]. apply list_elem_of_singleton. reflexivity.
  - eexists. vm_compute. reflexivity.
  - eexists. vm_compute. reflexivity.
  - eexists. split; [vm_compute; reflexivity|]. apply list_elem_of_singleton. reflexivity.
  - eexists. split; [vm_compute; reflexivity|]. apply list_elem_of_singleton. reflexivity.
Qed.


Lemma lockInt_double_locking_witness :
  ∃ g m,
    (let* (g, m) := NewLock exX exInit in
     let* g := lockInt exX m false g in Ok (g, m)) = Ok (g, m)
    ∧ exitsDoubleLocking m (lockInt exX m false g)
    ∧ ¬ exitsDoubleLocking m (lockInt exY m false g).
Proof.
  eexists _, _. split; [vm_compute; reflexivity|]. split.
  - eapply lockInt_double_locking.
    + reflexivity.
    + reflexivity.
    + reflexivity.
    + vm_compute. reflexivity.
    + reflexivity.
    + vm_compute. reflexivity.
    + eexists. vm_compute. reflexivity.
    + split; [vm_compute; discriminate|]. intros _. vm_compute. discriminate.
    + eexists. vm_compute. reflexivity.
    + split; [vm_compute; reflexivity|]. intros [Hr _]. discriminate Hr.
  - intros (e & He & _).
    eapply lockInt_double_locking in He as [[Hheld _] _]; cycle 1.
    + reflexivity.
    + reflexivity.
    + reflexivity.
    + vm_compute. reflexivity.
    + reflexivity.
    + vm_compute. reflexivity.
    + eexists. vm_compute. reflexivity.
    + split; [vm_compute; discriminate|]. intros Hheld. vm_compute in Hheld. discriminate Hheld.
    + vm_compute in Hheld. discriminate Hheld.
Defined.

(** ** The try-lock methods of the rw-mutex *)

Lemma newRoutine_prims g c g' : newRoutine g c = Ok g' → state.prims g' = state.prims g.
Proof.
  unfold newRoutine. destruct (_ && _); [by intros [= <-]|].
  intros (hs & _ & Hd)%bind_Ok_inv. apply bind_Ok_inv in Hd as (deps & _ & Hd).
  case_bool_decide; [done|]. by apply bind_Ok_inv in Hd as (rs & _ & [= <-]).
Qed.

Lemma ensureRoutine_prims g c g' index :
  ensureRoutine g c = Ok (g', index) → state.prims g' = state.prims g.
Proof.
  unfold ensureRoutine. intros (g1 & Hnew & [= <- _])%bind_Ok_inv.
  destruct (bool_decide _); [by eapply newRoutine_prims|]. by injection Hnew as <-.
Qed.

Lemma updObj_frame g m f g' :
  updObj g m f = Ok g' →
  state.prims g' = state.prims g ∧ state.numGoroutine g' = state.numGoroutine g.
Proof.
  unfold updObj. destruct m; [|done]. intros (o & _ & Hd)%bind_Ok_inv. by injection Hd as <-.
Qed.

Lemma tryPrim_numGoroutine g p f g' b :
  tryPrim g p f = Ok (g', b) → state.numGoroutine g' = state.numGoroutine g.
Proof.
  unfold tryPrim. destruct p; [|done]. destruct (state.prims g !! _); [|done].
  by intros [= <- _].
Qed.

Lemma primitiveTryLock_numGoroutine g m rLock g' b :
  primitiveTryLock g m rLock = Ok (g', b) → state.numGoroutine g' = state.numGoroutine g.
Proof.
  unfold primitiveTryLock. intros ([[d l] t] & _ & Hd)%bind_Ok_inv.
  destruct d; [|destruct rLock]; by eapply tryPrim_numGoroutine.
Qed.

(** The bookkeeping of a successful try-lock: the routine is registered
    and the two counters of the lock go up. *)
Lemma tryLockInt_counted g c m g' :
  (let* (g, index) := ensureRoutine g c in
   let* g := addNumberLocked g m 1 in
   addIsLockedRoutineIndex g m index 1) = Ok g' →
  state.prims g' = state.prims g ∧ state.numGoroutine g' = state.numGoroutine g.
Proof.
  intros ([g1 index] & Hens & Hd)%bind_Ok_inv.
  apply bind_Ok_inv in Hd as (g2 & [H2 H2']%updObj_frame & [H3 H3']%updObj_frame).
  rewrite H3, H2, H3', H2'. split; [by eapply ensureRoutine_prims|].
  by apply ensureRoutine_frame in Hens as (_ & _ & _ & ?).
Qed.

(** [tryLockInt] starts with the try-lock call on the platform lock, whose
    answer it returns, and leaves the platform locks alone after it. *)
Lemma tryLockInt_prims c m rLock g g' res :
  tryLockInt c m rLock g = Ok (g', res) →
  ∃ g1, primitiveTryLock g m rLock = Ok (g1, res) ∧ state.prims g' = state.prims g1.
Proof.
  unfold tryLockInt. destruct (negb (options.activated _)); [by eauto|].
  intros (o & _ & Hd)%bind_Ok_inv. destruct (negb (obj.getIn o)); [done|].
  apply bind_Ok_inv in Hd as ([g1 res1] & Hprim & Hd).
  apply bind_Ok_inv in Hd as (g2 & Hg2 & Hd).
  assert (state.prims g2 = state.prims g1) as H12.
  { destruct res1; [by apply tryLockInt_counted in Hg2 as [? _]|by injection Hg2 as <-]. }
  destruct (negb _ && negb _); [injection Hd as <- <-; by eauto|].
  destruct (bool_decide _ && res1); [|injection Hd as <- <-; by eauto].
  apply bind_Ok_inv in Hd as (r & _ & Hd). apply bind_Ok_inv in Hd as ([r' σ'] & _ & Hd).
  apply bind_Ok_inv in Hd as (rs & _ & [= <- <-]). by eauto.
Qed.

Lemma setRLock_false σ m i σ' : setRLock σ m i false = Ok σ' → getRLock σ' m i = Ok false.
Proof.
  unfold setRLock. destruct m as [l|]; [|done].
  intros (o & _ & [= <-])%bind_Ok_inv. unfold getRLock, deref.
  rewrite lookup_insert_eq. simpl. f_equal. destruct o as [mx|rw]; simpl; [done|].
  rewrite RWMutex_getRLock_setRLock. by case_decide.
Qed.

(** With an analysis enabled and more than one goroutine, a successful
    [tryLockInt] ends with [updateTryLock] on [routines[0]]. *)
Lemma tryLockInt_records c m rLock g g' :
  options.activated (state.opts g) = true →
  options.periodicDetection (state.opts g) || options.comprehensiveDetection (state.opts g)
    = true →
  1 < state.numGoroutine g →
  tryLockInt c m rLock g = Ok (g', true) →
  ∃ g2 r0 r0' σ',
    slice_get (state.routines g2) 0 = Ok r0
    ∧ updateTryLock (state.opts g) (state.locks g2) r0 m rLock = Ok (r0', σ')
    ∧ state.routines g' = <[0%nat := r0']> (state.routines g2)
    ∧ state.locks g' = σ'.
Proof.
  intros Hact Han Hnum. unfold tryLockInt. rewrite Hact. simpl.
  intros (o & _ & Hd)%bind_Ok_inv. destruct (negb (obj.getIn o)); [done|].
  apply bind_Ok_inv in Hd as ([g1 res1] & Hprim & Hd).
  apply bind_Ok_inv in Hd as (g2 & Hg2 & Hd).
  assert (negb (options.periodicDetection (state.opts g)) &&
          negb (options.comprehensiveDetection (state.opts g)) = false) as Hoff.
  { by destruct (options.periodicDetection _), (options.comprehensiveDetection _). }
  rewrite Hoff in Hd.
  destruct res1.
  - apply tryLockInt_counted in Hg2 as [_ Hn2].
    apply primitiveTryLock_numGoroutine in Hprim.
    rewrite bool_decide_true in Hd by lia. simpl in Hd.
    apply bind_Ok_inv in Hd as (r & Hr & Hd).
    apply bind_Ok_inv in Hd as ([r' σ'] & Hupd & Hd).
    apply bind_Ok_inv in Hd as (rs & [_ ->]%slice_set_inv & [= <-]).
    by exists g2, r, r', σ'.
  - rewrite andb_false_r in Hd. by injection Hd as <- ?.
Qed.

(** C10. [RTryLock] of a rw-mutex is [TryLock]: both are [tryLockInt]
    with the reader flag false. So the call on the platform lock is the
    writer's try-lock, whose answer is returned, and, where the routine
    state is updated, the acquisition is entered in [routines[0]] with the
    reader flag of the lock for that routine set to false. *)
Theorem RTryLock_is_TryLock (c : caller) (m : mutexInt) (g : state) :
  RWMutexAPI.RTryLock c m g = RWMutexAPI.TryLock c m g
  ∧ RWMutexAPI.RTryLock c m g = tryLockInt c m false g
  ∧ (∀ rw g' res,
       deref (state.locks g) m = Ok (RWMutexObj rw) →
       RWMutexAPI.RTryLock c m g = Ok (g', res) →
       ∃ x, state.prims g !! RWMutex.mu rw = Some x
            ∧ res = (sync.TryLock x).2
            ∧ state.prims g' !! RWMutex.mu rw = Some (sync.TryLock x).1)
  ∧ (∀ g',
       options.activated (state.opts g) = true →
       options.periodicDetection (state.opts g)
         || options.comprehensiveDetection (state.opts g) = true →
       1 < state.numGoroutine g →
       RWMutexAPI.RTryLock c m g = Ok (g', true) →
       ∃ r0, state.routines g' !! 0%nat = Some r0
             ∧ getRLock (state.locks g') m (routine.index r0) = Ok false).
Proof.
  assert (RWMutexAPI.RTryLock c m g = tryLockInt c m false g) as Heq.
  { unfold RWMutexAPI.RTryLock. by destruct (tryLockInt c m false g). }
  split_and!.
  - reflexivity.
  - exact Heq.
  - intros rw g' res Ho. rewrite Heq.
    intros (g1 & Hprim & ->)%tryLockInt_prims.
    unfold primitiveTryLock, getLock in Hprim. rewrite Ho in Hprim. simpl in Hprim.
    destruct (state.prims g !! RWMutex.mu rw) as [x|]; [|done].
    injection Hprim as <- <-. exists x. simpl. by rewrite lookup_insert_eq.
  - intros g' Hact Han Hnum. rewrite Heq.
    intros (g2 & r0 & r0' & σ' & Hr0 & Hupd & Hrs & Hσ)%tryLockInt_records; [|done..].
    apply slice_get_inv in Hr0 as [_ Hr0].
    apply updateTryLock_inv in Hupd as (_ & Hset & _ & ->).
    eexists. split.
    + rewrite Hrs. apply list_lookup_insert_eq. by eapply lookup_lt_Some.
    + simpl. rewrite Hσ. by eapply setRLock_false.
Qed.

Lemma RTryLock_is_TryLock_witness :
  ∃ g m g',
    (let* (g, m) := NewRWLock exX exInit in
     let* g := RWMutexAPI.RLock exY m g in Ok (g, m)) = Ok (g, m)
    ∧ RWMutexAPI.RTryLock exX m g = Ok (g', false)
    ∧ state.prims g' !! 1%positive = Some (sync.mk false 1)
    ∧ (sync.TryRLock (sync.mk false 1)).2 = true.
Proof.
  eexists _, _, _. split; [vm_compute; reflexivity|].
  match goal with |- RWMutexAPI.RTryLock ?c ?m ?g = _ ∧ _ =>
    destruct (RTryLock_is_TryLock c m g) as (_ & _ & Hprim & _) end.
  split; [vm_compute; reflexivity|]. split; [|reflexivity].
  edestruct Hprim as (x & Hx & _ & Hx').
  - vm_compute. reflexivity.
  - vm_compute. reflexivity.
  - vm_compute in Hx. injection Hx as <-. exact Hx'.
Defined.

(** ** The periodical detection *)

Lemma zip_seqZ_cons {A} (k : Z) (x : A) (xs : list A) :
  zip (seqZ k (Z.of_nat (length (x :: xs)))) (x :: xs)
  = (k, x) :: zip (seqZ (k + 1) (Z.of_nat (length xs))) xs.
Proof.
  rewrite seqZ_cons by (simpl; lia). simpl. do 3 f_equal; lia.
Qed.

Lemma int_wrap_ge z : - 2 ^ 63 ≤ int_wrap z.
Proof. unfold int_wrap. pose proof (Z.mod_pos_bound (z + 2 ^ 63) (2 ^ 64)). lia. Qed.

Lemma holdSeveral_cons r rs :
  length (holdSeveral (r :: rs))
  = Nat.add (if bool_decide (1 < routine.holdingCount r) then 1%nat else 0%nat)
      (length (holdSeveral rs)).
Proof.
  unfold holdSeveral. rewrite filter_cons. case_decide.
  - by rewrite bool_decide_true.
  - by rewrite bool_decide_false.
Qed.

(** One round of the loop of [periodicalDetection]. *)
Lemma periodicalDetection_body_inv lh sthNew nr k r lh' sthNew' nr' :
  0 ≤ routine.holdingCount r < 2 ^ 63 → - 2 ^ 63 ≤ nr → 0 ≤ k →
  periodicalDetection_body (lh, sthNew, nr) (k, r) = Ok (lh', sthNew', nr') →
  (sthNew' = sthNew ∨ default None (lh !! Z.to_nat k) ≠ topOfHolding r)
  ∧ (sthNew = true → sthNew' = true)
  ∧ - 2 ^ 63 ≤ nr'
  ∧ nr' ≤ nr + (if bool_decide (1 < routine.holdingCount r) then 1 else 0)
  ∧ (∀ j : nat, j ≠ Z.to_nat k → lh' !! j = lh !! j).
Proof.
  intros Hhc Hnr Hk. unfold periodicalDetection_body, topOfHolding.
  rewrite int_sub_small by (unfold int_range; lia).
  intros (c1 & Hc1 & Hd)%bind_Ok_inv. destruct c1.
  - apply bind_Ok_inv in Hd as (top & Htop & Hd).
    apply bind_Ok_inv in Hd as (lh1 & [_ ->]%slice_set_inv & [= <- <- <-]).
    case_bool_decide as Hholds; [|done].
    apply bind_Ok_inv in Hc1 as (last & [_ Hlast]%slice_get_inv & Hc1).
    apply bind_Ok_inv in Hc1 as (top' & Htop' & [= Hne]).
    rewrite Htop in Htop'. injection Htop' as <-.
    apply slice_get_inv in Htop as [_ Htop].
    apply negb_true_iff, bool_decide_eq_false in Hne.
    rewrite bool_decide_true by lia. rewrite Hlast, Htop. simpl.
    split_and!; [by right|done| | |].
    + case_bool_decide; [apply int_wrap_ge|done].
    + pose proof (int_wrap_le (nr + 1)). unfold int_add.
      repeat case_bool_decide. all: lia.
    + intros j Hj. by rewrite list_lookup_insert_ne.
  - apply bind_Ok_inv in Hd as (c2 & Hc2 & Hd). destruct c2.
    + apply bind_Ok_inv in Hd as (lh1 & [_ ->]%slice_set_inv & [= <- <- <-]).
      case_bool_decide as Hholds; [|done].
      apply bind_Ok_inv in Hc2 as (last & [_ Hlast]%slice_get_inv & [= Hne]).
      apply negb_true_iff, bool_decide_eq_false in Hne.
      rewrite bool_decide_false by lia. rewrite Hlast. simpl.
      split_and!; [by right|done|done| |].
      * destruct (bool_decide (1 < routine.holdingCount r)); lia.
      * intros j Hj. by rewrite list_lookup_insert_ne.
    + injection Hd as <- <- <-.
      split_and!; [by left|done|done| |done].
      destruct (bool_decide (1 < routine.holdingCount r)); lia.
Qed.

Lemma periodicalDetection_scan_inv (rs : list routine) : ∀ k lh sthNew nr lh' sthNew' nr',
  (∀ r, r ∈ rs → 0 ≤ routine.holdingCount r < 2 ^ 63) → - 2 ^ 63 ≤ nr → 0 ≤ k →
  foldM periodicalDetection_body (lh, sthNew, nr)
    (zip (seqZ k (Z.of_nat (length rs))) rs) = Ok (lh', sthNew', nr') →
  (sthNew' = true →
   sthNew = true ∨
   ∃ (i : nat) r, rs !! i = Some r
     ∧ default None (lh !! (Z.to_nat k + i)%nat) ≠ topOfHolding r)
  ∧ nr' ≤ nr + Z.of_nat (length (holdSeveral rs)).
Proof.
  induction rs as [|r rs IH]; intros k lh sthNew nr lh' sthNew' nr' Hhc Hnr Hk.
  { simpl. intros [= <- <- <-]. split; [by left|lia]. }
  rewrite zip_seqZ_cons. cbn [foldM].
  intros ([[lh1 sthNew1] nr1] & Hbody & Hrest)%bind_Ok_inv.
  apply periodicalDetection_body_inv in Hbody as (Hnew & _ & Hnr1 & Hle & Hother);
    [|apply Hhc; left|done..].
  apply IH in Hrest as [Hnew' Hle']; [|intros r' Hr'; apply Hhc; by right|done|lia].
  split.
  - intros ->. destruct (Hnew' eq_refl) as [->|(i & r' & Hr' & Hne)].
    + destruct Hnew as [<-|Hne]; [by left|]. right. exists 0%nat, r.
      split; [done|]. by rewrite Nat.add_0_r.
    + right. exists (S i), r'. split; [done|].
      assert ((Z.to_nat (k + 1) + i)%nat ≠ Z.to_nat k) as Hj by (clear -Hk; lia).
      rewrite (Hother _ Hj) in Hne.
      replace (Z.to_nat k + S i)%nat with (Z.to_nat (k + 1) + i)%nat by (clear -Hk; lia).
      done.
  - rewrite holdSeveral_cons.
    destruct (bool_decide (1 < routine.holdingCount r)); lia.
Qed.

Lemma slice_set_Ok {A} (s : list A) i x :
  0 ≤ i < Z.of_nat (length s) → slice_set s i x = Ok (<[Z.to_nat i := x]> s).
Proof. intros Hi. unfold slice_set. by rewrite decide_True. Qed.

Lemma slice_get_Ok {A} (s : list A) i :
  0 ≤ i < Z.of_nat (length s) → ∃ x, slice_get s i = Ok x.
Proof.
  intros Hi. destruct (lookup_lt_is_Some_2 s (Z.to_nat i)) as [x Hx]; [lia|].
  exists x. apply slice_get_Some; [lia|done].
Qed.

(** A round of the loop returns when the routine's holding count and the
    length of [lastHolding] fit. *)
Lemma periodicalDetection_body_total lh sthNew nr k r :
  holding_ok r → 0 ≤ k < Z.of_nat (length lh) →
  ∃ lh' sthNew' nr',
    periodicalDetection_body (lh, sthNew, nr) (k, r) = Ok (lh', sthNew', nr')
    ∧ length lh' = length lh.
Proof.
  intros [Hhc Hmax] Hk. unfold periodicalDetection_body.
  rewrite int_sub_small by (unfold int_range; lia).
  destruct (slice_get_Ok lh k Hk) as [last Hlast]. rewrite Hlast.
  case_bool_decide as Hholds.
  - destruct (slice_get_Ok (routine.holdingSet r) (routine.holdingCount r - 1)) as [top Htop];
      [lia|].
    rewrite Htop. simpl. destruct (negb (bool_decide (last = top))).
    + rewrite slice_set_Ok by done. simpl. eexists _, _, _. split; [done|].
      by rewrite length_insert.
    + rewrite bool_decide_false by lia. simpl. by eexists _, _, _.
  - simpl. rewrite bool_decide_true by lia. simpl.
    destruct (negb (bool_decide (last = None))).
    + rewrite slice_set_Ok by done. simpl. eexists _, _, _. split; [done|].
      by rewrite length_insert.
    + by eexists _, _, _.
Qed.

Lemma periodicalDetection_scan_total (rs : list routine) : ∀ k lh sthNew nr,
  (∀ r, r ∈ rs → holding_ok r) → 0 ≤ k →
  k + Z.of_nat (length rs) ≤ Z.of_nat (length lh) →
  is_Ok (foldM periodicalDetection_body (lh, sthNew, nr)
           (zip (seqZ k (Z.of_nat (length rs))) rs)).
Proof.
  induction rs as [|r rs IH]; intros k lh sthNew nr Hok Hk Hlen; [by eexists|].
  rewrite zip_seqZ_cons. cbn [foldM].
  destruct (periodicalDetection_body_total lh sthNew nr k r)
    as (lh1 & sthNew1 & nr1 & -> & Hlen1); [apply Hok; left|simpl in Hlen; lia|].
  cbn [bind]. apply IH; [intros r' Hr'; apply Hok; by right|lia|].
  rewrite Hlen1. simpl in Hlen. lia.
Qed.

(** C7. [periodicalDetection] returns when the holding counts of the
    routines and the length of [lastHolding] fit, and it calls
    [detectionPeriodical] only when the snapshot [lastHolding] differs from
    what some routine holds on top now and at least two routines hold more
    than one lock; when one of the two fails it returns the updated
    snapshot, whatever the search would do. *)
Theorem periodicalDetection_runs_only_when (g : state) (lastHolding : list mutexInt) :
  (∀ r, r ∈ state.routines g → holding_ok r) →
  (length (state.routines g) ≤ length lastHolding)%nat →
  ∃ lastHolding' run,
    periodicalDetection_guard g lastHolding = Ok (lastHolding', run)
    ∧ (run = true →
       snapshotChanged (state.routines g) lastHolding
       ∧ (2 ≤ length (holdSeveral (state.routines g)))%nat)
    ∧ (∀ fuel, periodicalDetection fuel g lastHolding
               = if run then let* _ := detectionPeriodical fuel g lastHolding' in
                             Ok lastHolding'
                 else Ok lastHolding')
    ∧ (¬ (snapshotChanged (state.routines g) lastHolding
          ∧ (2 ≤ length (holdSeveral (state.routines g)))%nat) →
       ∀ fuel, periodicalDetection fuel g lastHolding = Ok lastHolding').
Proof.
  intros Hok Hlen.
  assert (∃ lastHolding' run,
    periodicalDetection_guard g lastHolding = Ok (lastHolding', run)
    ∧ (run = true →
       snapshotChanged (state.routines g) lastHolding
       ∧ (2 ≤ length (holdSeveral (state.routines g)))%nat)) as (lh' & run & Hguard & Hrun).
  { unfold periodicalDetection_guard. case_bool_decide; [by eexists _, _|].
    destruct (periodicalDetection_scan_total (state.routines g) 0 lastHolding false 0)
      as [[[lh' sthNew] nr] Hscan]; [done|done|lia|].
    unfold periodicalDetection_scan. rewrite Hscan. cbn [bind].
    apply periodicalDetection_scan_inv in Hscan as [Hnew Hnr];
      [|intros r [? ?]%Hok; lia|done..].
    destruct sthNew; simpl; [|by eexists _, _].
    case_bool_decide as Hfew; [by eexists _, _|].
    eexists _, _. split; [done|]. intros _. split; [|lia].
    destruct (Hnew eq_refl) as [?|(i & r & Hr & Hne)]; [done|]. by exists i, r. }
  exists lh', run.
  assert (∀ fuel, periodicalDetection fuel g lastHolding
               = if run then let* _ := detectionPeriodical fuel g lh' in Ok lh'
                 else Ok lh') as Hrest.
  { intros fuel. unfold periodicalDetection. rewrite Hguard. by destruct run. }
  split_and!; [done..|].
  intros Hnot fuel. rewrite Hrest. destruct run; [|done]. by destruct Hnot; apply Hrun.
Qed.

Lemma periodicalDetection_runs_only_when_witness :
  ∃ g lastHolding',
    exTick = Ok g
    ∧ periodicalDetection_guard g (replicate 4 None) = Ok (lastHolding', true)
    ∧ snapshotChanged (state.routines g) (replicate 4 None)
    ∧ (2 ≤ length (holdSeveral (state.routines g)))%nat.
Proof.
  eexists _, _. split; [vm_compute; reflexivity|].
  match goal with |- periodicalDetection_guard ?g ?lh = _ ∧ _ =>
    destruct (periodicalDetection_runs_only_when g lh)
      as (lh' & run & Hguard & Hrun & _) end.
  - intros r Hr. repeat (apply elem_of_cons in Hr as [->|Hr]); [..|by apply elem_of_nil in Hr].
    all: split; [split|]; vm_compute; congruence.
  - vm_compute. lia.
  - assert (run = true ∧ lh' = [Some 4%positive; Some 8%positive; None; None]) as [-> ->].
    { vm_compute in Hguard. by injection Hguard as <- <-. }
    split; [|by apply Hrun]. vm_compute. reflexivity.
Defined.

(** ** The searches for cycles *)

Lemma foldM_inv {I S} (P : S → Prop) (body : S → I → result S) xs : ∀ s s',
  P s → (∀ s x s', x ∈ xs → P s → body s x = Ok s' → P s') →
  foldM body s xs = Ok s' → P s'.
Proof.
  induction xs as [|x xs IH]; intros s s' Hs Hbody; simpl.
  - by intros [= <-].
  - intros (s1 & H1 & Hrest)%bind_Ok_inv. apply (IH s1); [|intros ???? ; apply Hbody; by right|done].
    apply (Hbody s x); [left|done..].
Qed.

Lemma pop_push s d i : pop (push s d i) = s.
Proof.
  destruct s as [b ch]. unfold pop, push. simpl.
  destruct (ch ++ [newStackElement d i]) eqn:E; [by destruct ch|].
  by rewrite <- E, removelast_last.
Qed.

Lemma list_insert_restore (t : list bool) (i : nat) (b b' : bool) :
  t !! i = Some b → <[i := b]> (<[i := b']> t) = t.
Proof. intros Hi. rewrite list_insert_insert_eq. by apply list_insert_id. Qed.

(** Pushing a dependency of a routine whose marker is not set. *)
Lemma one_per_routine_push g (st : depStack) (t : list bool) i r j dep :
  one_per_routine g (depStack.chain st, t) →
  0 ≤ i → state.routines g !! Z.to_nat i = Some r →
  0 ≤ j < routine.depCount r → routine.dependencies r !! Z.to_nat j = Some dep →
  t !! Z.to_nat i = Some false →
  one_per_routine g (depStack.chain (push st dep i), <[Z.to_nat i := true]> t).
Proof.
  intros [Hnd Hall] Hi Hr Hj Hdep Ht. unfold one_per_routine. simpl in *.
  rewrite Forall_forall in Hall. split.
  - rewrite fmap_app. apply NoDup_app. split_and!; [done| |apply NoDup_singleton].
    intros x (c & -> & Hc)%list_elem_of_fmap [= Heq]%list_elem_of_singleton.
    destruct (Hall c Hc) as [[Hc0 _] Hmark]. simpl in Heq. rewrite Heq in Hmark. congruence.
  - rewrite Forall_app, Forall_singleton, !Forall_forall. split.
    + intros c Hc. destruct (Hall c Hc) as [Htaken Hmark]. split; [done|].
      rewrite list_lookup_insert_ne; [done|]. intros Heq. destruct Htaken as [Hc0 _].
      assert (stackElement.index c = i) as Hci by lia. rewrite Hci in Hmark. congruence.
    + simpl. split; [split; [done|by exists r, j]|].
      apply list_lookup_insert_eq. by eapply lookup_lt_Some.
Qed.

Lemma keeps_search_ok g s s' : search_ok g s → keeps_search g s s' → search_ok g s'.
Proof. intros [Hcur _] (Hst & Htr & Hex). split; [by rewrite Hst, Htr|done]. Qed.

Lemma keeps_search_trans g s1 s2 s3 :
  keeps_search g s1 s2 → keeps_search g s2 s3 → keeps_search g s1 s3.
Proof.
  intros (H1 & H2 & _) (Hst & Htr & H3). unfold keeps_search. by rewrite Hst, Htr.
Qed.

Section dfs_body.
Variables (rec : search → result search) (g : state).
Hypothesis rec_keeps : ∀ s s', search_ok g s → rec s = Ok s' → keeps_search g s s'.

Lemma dfs_dependency_keeps i r s j s' :
  search_ok g s → 0 ≤ i → state.routines g !! Z.to_nat i = Some r →
  search.isTraversed s !! Z.to_nat i = Some false → 0 ≤ j < routine.depCount r →
  dfs_dependency rec g i r s j = Ok s' → keeps_search g s s'.
Proof.
  intros [Hcur Hex] Hi Hr Ht Hj. unfold dfs_dependency.
  intros (dep & [_ Hdep]%slice_get_inv & Hbody)%bind_Ok_inv.
  apply bind_Ok_inv in Hbody as (d & _ & Hbody).
  apply bind_Ok_inv in Hbody as (chain & _ & Hbody).
  destruct chain; [|by injection Hbody as <-].
  apply bind_Ok_inv in Hbody as (cycle & _ & Hbody). destruct cycle.
  { injection Hbody as <-. unfold keeps_search. simpl. by rewrite pop_push. }
  apply bind_Ok_inv in Hbody as (t1 & [_ ->]%slice_set_inv & Hbody).
  apply bind_Ok_inv in Hbody as (s5 & Hrec & Hbody).
  apply bind_Ok_inv in Hbody as (t2 & [_ ->]%slice_set_inv & [= <-]).
  apply rec_keeps in Hrec as (Hst5 & Htr5 & Hex5).
  - unfold keeps_search. simpl. rewrite Hst5, Htr5. simpl. rewrite pop_push.
    split_and!; [done| |done]. by apply list_insert_restore.
  - split; [|done]. simpl. by apply (one_per_routine_push g _ _ i r j dep).
Qed.

Lemma dfs_routine_keeps s i s' :
  search_ok g s → dfs_routine rec g s i = Ok s' → keeps_search g s s'.
Proof.
  intros Hok. unfold dfs_routine.
  intros (r & [Hi Hr]%slice_get_inv & Hbody)%bind_Ok_inv.
  apply bind_Ok_inv in Hbody as (traversed & [_ Ht]%slice_get_inv & Hbody).
  destruct traversed; [injection Hbody as <-; by destruct Hok|].
  apply (foldM_inv (keeps_search g s)) in Hbody; [done|by destruct Hok|].
  intros s1 j s2 Hj%elem_of_seqZ Hs1 Hstep.
  apply (keeps_search_trans g s s1 s2); [done|].
  apply dfs_dependency_keeps in Hstep; [done|by eapply keeps_search_ok|done..| |lia].
  destruct Hs1 as (_ & -> & _). done.
Qed.
End dfs_body.

(** The comprehensive search leaves the path and the markers as it found
    them, and every path it explores has at most one dependency of each
    routine, the markers of those routines set. *)
Lemma dfs_keeps fuel g : ∀ visiting s s',
  search_ok g s → dfs fuel g visiting s = Ok s' → keeps_search g s s'.
Proof.
  induction fuel as [|fuel IH]; intros visiting s s' Hok; [done|]. simpl.
  assert (search_ok g (search.enter s)) as Hok'.
  { destruct Hok as [Hcur Hex]. split; [done|]. by constructor. }
  intros Hfold. apply (foldM_inv (keeps_search g (search.enter s))) in Hfold.
  - destruct Hfold as (Hst & Htr & Hex). by split_and!.
  - by destruct Hok'.
  - intros s1 i s2 _ Hs1 Hstep. apply (keeps_search_trans g _ s1 s2); [done|].
    eapply dfs_routine_keeps; [|by eapply keeps_search_ok|done].
    intros s3 s4. apply IH.
Qed.

Lemma avoids_foldM_inv {I S} o (P : S → Prop) (body : S → I → result S) xs : ∀ s,
  P s → (∀ s x, x ∈ xs → P s → avoids o (body s x)) →
  (∀ s x s', x ∈ xs → P s → body s x = Ok s' → P s') →
  avoids o (foldM body s xs).
Proof.
  induction xs as [|x xs IH]; intros s Hs Hav Hinv; simpl; [done|].
  apply avoids_bind; [apply Hav; [left|done]|]. intros s1 H1. apply IH.
  - apply (Hinv s x); [left|done..].
  - intros s2 y Hy. apply Hav. by right.
  - intros s2 y s3 Hy. apply Hinv. by right.
Qed.

Lemma untraversed_set (t : list bool) : ∀ i : nat,
  t !! i = Some false → S (untraversed (<[i := true]> t)) = untraversed t.
Proof.
  unfold untraversed. induction t as [|b t IH]; intros [|i] Hi; try done; simpl in *.
  - injection Hi as ->. rewrite (filter_cons_False _ true) by done.
    by rewrite (filter_cons_True _ false) by done.
  - rewrite !(filter_cons _ b). case_decide; simpl; by rewrite IH.
Qed.

Section dfs_fuel.
Variables (rec : search → result search) (g : state) (n : nat).
Hypothesis rec_keeps : ∀ s s', search_ok g s → rec s = Ok s' → keeps_search g s s'.
Hypothesis rec_fuel : ∀ s,
  search_ok g s → (untraversed (search.isTraversed s) < n)%nat → avoids oFuel (rec s).

Lemma dfs_dependency_fuel i r s j :
  search_ok g s → 0 ≤ i → state.routines g !! Z.to_nat i = Some r →
  search.isTraversed s !! Z.to_nat i = Some false → 0 ≤ j < routine.depCount r →
  (untraversed (search.isTraversed s) ≤ n)%nat →
  avoids oFuel (dfs_dependency rec g i r s j).
Proof.
  intros [Hcur Hex] Hi Hr Ht Hj Hn. unfold dfs_dependency.
  apply avoids_bind; [apply avoids_slice_get|]. intros dep [_ Hdep]%slice_get_inv.
  apply avoids_bind; [apply avoids_deref_dep|]. intros d _.
  apply avoids_bind; [apply avoids_isChain|]. intros chain _. destruct chain; [|done].
  apply avoids_bind; [apply avoids_isCycleChain|]. intros cycle _. destruct cycle; [done|].
  apply avoids_bind; [apply avoids_slice_set|]. intros t1 [_ ->]%slice_set_inv.
  apply avoids_bind.
  - apply rec_fuel; simpl.
    + split; [|done]. by apply (one_per_routine_push g _ _ i r j dep).
    + apply untraversed_set in Ht. lia.
  - intros s5 _. apply avoids_bind; [apply avoids_slice_set|done].
Qed.

Lemma dfs_routine_fuel s i :
  search_ok g s → (untraversed (search.isTraversed s) ≤ n)%nat →
  avoids oFuel (dfs_routine rec g s i).
Proof.
  intros Hok Hn. unfold dfs_routine.
  apply avoids_bind; [apply avoids_slice_get|]. intros r [Hi Hr]%slice_get_inv.
  apply avoids_bind; [apply avoids_slice_get|]. intros traversed [_ Ht]%slice_get_inv.
  destruct traversed; [done|].
  apply (avoids_foldM_inv _ (keeps_search g s)); [by destruct Hok| |].
  - intros s1 j Hj%elem_of_seqZ Hs1.
    apply dfs_dependency_fuel; [by eapply keeps_search_ok|done..| |lia|].
    all: destruct Hs1 as (_ & -> & _); done.
  - intros s1 j s2 Hj%elem_of_seqZ Hs1 Hstep.
    apply (keeps_search_trans g s s1 s2); [done|].
    apply (dfs_dependency_keeps rec g rec_keeps) in Hstep;
      [done|by eapply keeps_search_ok|done..| |lia].
    destruct Hs1 as (_ & -> & _). done.
Qed.
End dfs_fuel.

(** The recursion of the comprehensive search is as deep as there are
    markers that are not set, at most. *)
Lemma dfs_fuel fuel g : ∀ visiting s,
  search_ok g s → (untraversed (search.isTraversed s) < fuel)%nat →
  avoids oFuel (dfs fuel g visiting s).
Proof.
  induction fuel as [|fuel IH]; intros visiting s Hok Hfuel; [lia|]. simpl.
  assert (search_ok g (search.enter s)) as Hok'.
  { destruct Hok as [Hcur Hex]. split; [done|]. by constructor. }
  apply (avoids_foldM_inv _ (keeps_search g (search.enter s))); [by destruct Hok'| |].
  - intros s1 i _ Hs1. apply (dfs_routine_fuel _ _ fuel).
    + intros s3 s4. apply dfs_keeps.
    + intros s3. apply IH.
    + by eapply keeps_search_ok.
    + destruct Hs1 as (_ & -> & _). simpl. lia.
  - intros s1 i s2 _ Hs1 Hstep. apply (keeps_search_trans g _ s1 s2); [done|].
    eapply dfs_routine_keeps; [|by eapply keeps_search_ok|done].
    intros s3 s4. apply dfs_keeps.
Qed.

Lemma untraversed_le (t : list bool) : (untraversed t ≤ length t)%nat.
Proof. unfold untraversed. apply length_filter. Qed.

(** The search that [detect] starts with the dependency [j] of routine [i]. *)
Lemma detect_start g s i r j dep t :
  detect_inv g s → 0 ≤ i → state.routines g !! Z.to_nat i = Some r →
  0 ≤ j < routine.depCount r → routine.dependencies r !! Z.to_nat j = Some dep →
  slice_set (search.isTraversed s) i true = Ok t →
  search_ok g (search.mk (push (search.stack s) dep i) t (search.out s) (search.explored s))
  ∧ (untraversed t < S (Z.to_nat (state.numberRoutines g)))%nat.
Proof.
  intros (Hch & Hlen & Hex) Hi Hr Hj Hdep [Hrange ->]%slice_set_inv. split.
  - split; [|done]. unfold one_per_routine. simpl. rewrite Hch. simpl. split.
    + apply NoDup_singleton.
    + apply Forall_singleton. simpl. split; [split; [done|by exists r, j]|].
      apply list_lookup_insert_eq. lia.
  - pose proof (untraversed_le (<[Z.to_nat i:=true]> (search.isTraversed s))) as Hle.
    rewrite length_insert in Hle. lia.
Qed.

Lemma detect_step g s i r j s' :
  detect_inv g s → 0 ≤ i → state.routines g !! Z.to_nat i = Some r →
  0 ≤ j < routine.depCount r →
  (let* dep := slice_get (routine.dependencies r) j in
   let* isTraversed := slice_set (search.isTraversed s) i true in
   let stack := push (search.stack s) dep i in
   let* s := dfs (S (Z.to_nat (state.numberRoutines g))) g i
               (search.mk stack isTraversed (search.out s) (search.explored s)) in
   Ok (search.mk (pop (search.stack s)) (search.isTraversed s) (search.out s)
         (search.explored s))) = Ok s' →
  detect_inv g s'.
Proof.
  intros Hinv Hi Hr Hj (dep & [_ Hdep]%slice_get_inv & Hbody)%bind_Ok_inv.
  apply bind_Ok_inv in Hbody as (t & Ht & Hbody).
  destruct (detect_start g s i r j dep t) as [Hok _]; [done..|].
  apply bind_Ok_inv in Hbody as (s1 & (Hst & Htr & Hex)%dfs_keeps & [= <-]); [|done].
  apply slice_set_inv in Ht as [_ ->]. destruct Hinv as (Hch & Hlen & _).
  unfold detect_inv. simpl in *. rewrite Hst, Htr, pop_push, length_insert. done.
Qed.

(** Every path that the comprehensive detection explores has at most one
    dependency of each routine, and the marker of the routine of each of
    its dependencies is set; the recursion budget that [detect] gives is
    enough. *)
Theorem detect_one_per_routine (g : state) :
  avoids oFuel (detect g)
  ∧ ∀ s, detect g = Ok s → Forall (one_per_routine g) (search.explored s).
Proof.
  unfold detect.
  assert (∀ t, make (state.numberRoutines g) false = Ok t →
               detect_inv g (search.mk newDepStack t [] [])) as Hinit.
  { intros t [Hn ->]%make_inv. split_and!; [done| |done]. simpl. by rewrite length_replicate. }
  split.
  - apply avoids_bind; [apply avoids_make|]. intros t Ht%Hinit.
    apply (avoids_foldM_inv _ (detect_inv g)); [done| |].
    + intros s i Hi%elem_of_seqZ Hs.
      apply avoids_bind; [apply avoids_slice_get|]. intros r [_ Hr]%slice_get_inv.
      apply (avoids_foldM_inv _ (detect_inv g)); [done| |].
      * intros s1 j Hj%elem_of_seqZ Hs1.
        apply avoids_bind; [apply avoids_slice_get|]. intros dep [_ Hdep]%slice_get_inv.
        apply avoids_bind; [apply avoids_slice_set|]. intros t1 Ht1.
        destruct (detect_start g s1 i r j dep t1) as [Hok Hfuel]; [done|lia|done|lia|done..|].
        apply avoids_bind; [by apply dfs_fuel|done].
      * intros s1 j s2 Hj%elem_of_seqZ Hs1. apply detect_step; [done|lia|done|lia].
    + intros s i s' Hi%elem_of_seqZ Hs (r & [_ Hr]%slice_get_inv & Hbody)%bind_Ok_inv.
      apply (foldM_inv (detect_inv g)) in Hbody; [done..|].
      intros s1 j s2 Hj%elem_of_seqZ Hs1. apply detect_step; [done|lia|done|lia].
  - intros s (t & Ht%Hinit & Hfold)%bind_Ok_inv.
    apply (foldM_inv (detect_inv g)) in Hfold; [by destruct Hfold as (_ & _ & ?)|done|].
    intros s0 i s' Hi%elem_of_seqZ Hs (r & [_ Hr]%slice_get_inv & Hbody)%bind_Ok_inv.
    apply (foldM_inv (detect_inv g)) in Hbody; [done..|].
    intros s1 j s2 Hj%elem_of_seqZ Hs1. apply detect_step; [done|lia|done|lia].
Qed.

Lemma off_marker_refl g t : off_marker g t t.
Proof. by intros j Hj. Qed.

Lemma off_marker_trans g t1 t2 t3 :
  off_marker g t1 t2 → off_marker g t2 t3 → off_marker g t1 t3.
Proof. intros H12 H23 j Hj. by rewrite H23, H12. Qed.

Lemma off_marker_set g t b :
  off_marker g t (<[Z.to_nat (state.numberRoutines g) := b]> t).
Proof. intros j Hj. by rewrite list_lookup_insert_ne. Qed.

Lemma keeps_periodical_refl g visiting s : keeps_periodical g visiting s s.
Proof. split_and!; [done|apply off_marker_refl|]. by exists []. Qed.

Lemma keeps_periodical_trans g visiting s1 s2 s3 :
  keeps_periodical g visiting s1 s2 → keeps_periodical g visiting s2 s3 →
  keeps_periodical g visiting s1 s3.
Proof.
  intros (Hst & Hm & new & Hex & Hnew) (Hst' & Hm' & new' & Hex' & Hnew').
  split_and!; [congruence|by eapply off_marker_trans|].
  exists (new' ++ new). split; [by rewrite Hex', Hex, app_assoc|].
  apply Forall_app. split; [|done].
  eapply Forall_impl; [exact Hnew'|]. intros e (Hoff & ext & He & Hext).
  split; [by eapply off_marker_trans|]. exists ext. by rewrite He, Hst.
Qed.

Section dfsPeriodical_body.
Variables (rec : search → result search) (g : state) (visiting : Z)
  (lastHolding : list mutexInt).
Hypothesis rec_keeps : ∀ s s', rec s = Ok s' → keeps_periodical g visiting s s'.

Lemma dfsPeriodical_routine_keeps s i s' :
  visiting < i < state.numberRoutines g →
  dfsPeriodical_routine rec g lastHolding s i = Ok s' → keeps_periodical g visiting s s'.
Proof.
  intros Hi. unfold dfsPeriodical_routine.
  intros (r & [Hi0 Hr]%slice_get_inv & Hbody)%bind_Ok_inv.
  apply bind_Ok_inv in Hbody as (skip & Hskip & Hbody).
  destruct skip; [injection Hbody as <-; apply keeps_periodical_refl|].
  destruct (routine.curDep r) as [d0|] eqn:Hcur; [|done].
  apply slice_get_inv in Hskip as [_ Hunset].
  apply bind_Ok_inv in Hbody as (d & _ & Hbody).
  apply bind_Ok_inv in Hbody as (chain & _ & Hbody).
  destruct chain; simpl in Hbody; [|injection Hbody as <-; apply keeps_periodical_refl].
  apply bind_Ok_inv in Hbody as (cycle & _ & Hbody). destruct cycle.
  { apply bind_Ok_inv in Hbody as (sthNew & _ & Hbody).
    destruct (negb (default false sthNew)).
    - by apply bind_Ok_inv in Hbody as (g' & _ & ?).
    - injection Hbody as <-. split_and!; simpl; [by rewrite pop_push|apply off_marker_refl|].
      by exists []. }
  apply bind_Ok_inv in Hbody as (t1 & [_ ->]%slice_set_inv & Hbody).
  apply bind_Ok_inv in Hbody as (s5 & Hrec & Hbody).
  apply bind_Ok_inv in Hbody as (t2 & [_ ->]%slice_set_inv & [= <-]).
  apply rec_keeps in Hrec as (Hst5 & Hm5 & new & Hex5 & Hnew). simpl in *.
  split_and!; simpl.
  - by rewrite Hst5, pop_push.
  - eapply off_marker_trans; [|apply off_marker_set].
    eapply off_marker_trans; [apply off_marker_set|exact Hm5].
  - exists new. split; [done|].
    eapply Forall_impl; [exact Hnew|]. intros e (Hoff & ext & He & Hext). simpl in *.
    split; [eapply off_marker_trans; [apply off_marker_set|exact Hoff]|].
    exists (newStackElement (Some d0) (state.numberRoutines g) :: ext).
    split; [by rewrite He, <- app_assoc|].
    constructor; [|done]. split; [done|]. exists i, r.
    split_and!; [lia|lia|done|done|by eexists|].
    rewrite Hoff by lia. by rewrite list_lookup_insert_ne by lia.
Qed.
End dfsPeriodical_body.

(** C8. The periodical search does not set the marker of the routine
    whose dependency it adds to the path: it sets the marker at
    [numberRoutines], which is no routine's, and gives the new element that
    index. When a search that started at [s] returns, the path is that of
    [s], the markers of all routines are those of [s], and in every path
    it explored each element it added is the current dependency of a
    routine whose marker is not set. *)
Theorem dfsPeriodical_marks_numberRoutines (fuel : nat) (g : state) (visiting : Z)
    (lastHolding : list mutexInt) (s s' : search) :
  dfsPeriodical fuel g visiting lastHolding s = Ok s' →
  search.stack s' = search.stack s
  ∧ off_marker g (search.isTraversed s) (search.isTraversed s')
  ∧ ∃ new, search.explored s' = new ++ search.explored s
           ∧ Forall (periodical_entry g visiting s) new.
Proof.
  revert s s'. induction fuel as [|fuel IH]; intros s s'; [done|]. simpl.
  intros Hfold.
  apply (foldM_inv (keeps_periodical g visiting (search.enter s))) in Hfold.
  - destruct Hfold as (Hst & Hm & new & Hex & Hnew). split_and!; [done..|].
    exists (new ++ [(depStack.chain (search.stack s), search.isTraversed s)]).
    split; [by rewrite Hex, <- app_assoc|]. apply Forall_app. split; [done|].
    apply Forall_singleton. split; [apply off_marker_refl|]. exists []. simpl.
    by rewrite app_nil_r.
  - apply keeps_periodical_refl.
  - intros s1 i s2 Hi%elem_of_seqZ Hs1 Hstep.
    apply (keeps_periodical_trans g visiting _ s1 s2); [done|].
    eapply dfsPeriodical_routine_keeps; [| |exact Hstep]; [apply IH|lia].
Qed.

Lemma dfsPeriodical_marks_numberRoutines_witness :
  ∃ g s s',
    exThree exOpts = Ok g
    ∧ s = search.mk (push newDepStack (curDepOf g 0) 0) [true; false; false; false] [] []
    ∧ dfsPeriodical 3 g 0 (exStale 4) s = Ok s'
    ∧ search.stack s' = search.stack s
    ∧ off_marker g (search.isTraversed s) (search.isTraversed s')
    ∧ ∃ new, search.explored s' = new ++ search.explored s
             ∧ Forall (periodical_entry g 0 s) new.
Proof.
  eexists _, _, _. split; [vm_compute; reflexivity|]. split; [reflexivity|].
  split; [vm_compute; reflexivity|].
  apply (dfsPeriodical_marks_numberRoutines 3 _ 0 (exStale 4)). vm_compute. reflexivity.
Defined.

(** The periodical detection on the three goroutines: it explores the path
    of the current dependencies of the routines 0 and 1 with the marker of
    routine 1 not set and the marker 3, of no routine, set. With as many
    routines as [maxRoutines] allows there is no marker 3. *)
Example detectionPeriodical_unmarked :
  ∃ g s d0 d1,
    exThree exOpts = Ok g
    ∧ state.numberRoutines g = 3
    ∧ curDepOf g 0 = Some d0 ∧ curDepOf g 1 = Some d1
    ∧ detectionPeriodical 3 g (exStale 4) = Ok s
    ∧ ([newStackElement (Some d0) 0; newStackElement (Some d1) 3],
       [true; false; false; true]) ∈ search.explored s
    ∧ (let* g := exThree exFull in detectionPeriodical 3 g (exStale 3))
      = Panic "index out of range".
Proof.
  eexists _, _, _, _. split; [vm_compute; reflexivity|].
  split; [vm_compute; reflexivity|]. split; [vm_compute; reflexivity|].
  split; [vm_compute; reflexivity|]. split; [vm_compute; reflexivity|].
  split; [|vm_compute; reflexivity].
  do 3 apply list_elem_of_further. apply list_elem_of_here.
Qed.

(** ** Holding sets as slices *)

Lemma elements_length h s : slice_ok h s → length (elements h s) = Z.to_nat (slice.len s).
Proof.
  intros (a & Ha & Hlen & Hcap). unfold elements. rewrite Ha. simpl.
  rewrite length_take. lia.
Qed.

Lemma index_slice_Ok h s i :
  slice_ok h s → 0 ≤ i < slice.len s →
  ∃ x, index_slice h s i = Ok x ∧ elements h s !! Z.to_nat i = Some x.
Proof.
  intros (a & Ha & Hlen & Hcap) Hi. unfold index_slice, elements.
  rewrite decide_True by done. rewrite Ha. simpl.
  destruct (lookup_lt_is_Some_2 a (Z.to_nat i)) as [x Hx]; [lia|].
  rewrite Hx. exists x. split; [done|]. rewrite lookup_take_lt by lia. done.
Qed.

(** [append] to the holding set that is being built. *)
Lemma append_slice_built grow h0 h cur hs l x h' hs' :
  (∀ c, c < grow c) → is_Some (heap.arrays h0 !! slice.array cur) →
  built h0 h cur hs l → append_slice grow h hs x = Ok (h', hs') →
  built h0 h' cur hs' (l ++ [x]).
Proof.
  intros Hgrow Hcur (Hheap & Hhs & Hne & Hkeep & Hl) Happ.
  pose proof (elements_length h hs Hhs) as Hlen.
  destruct Hhs as (a & Ha & Hrange & Hcap). unfold append_slice in Happ.
  case_decide as Hfull.
  - rewrite Ha in Happ. injection Happ as <- <-. unfold built, slice_ok, elements. simpl.
    rewrite lookup_insert_eq, lookup_insert_ne by done. simpl. split_and!; [|
      exists (<[Z.to_nat (slice.len hs) := x]> a); rewrite length_insert;
      split_and!; [done|lia..] |done|done|].
    + intros b Hb. simpl in Hb. apply Hheap.
      destruct (decide (b = slice.array hs)) as [->|Hb'].
      * by exists a.
      * by rewrite lookup_insert_ne in Hb.
    + rewrite <- Hl. unfold elements. rewrite Ha. simpl.
      replace (Z.to_nat (slice.len hs + 1)) with (S (Z.to_nat (slice.len hs))) by lia.
      rewrite (take_S_r _ _ x) by (apply list_lookup_insert_eq; lia).
      by rewrite take_insert_ge by lia.
  - injection Happ as <- <-.
    assert (heap.next h ≠ slice.array cur) as Hfresh.
    { intros Heq. rewrite <- Hkeep in Hcur. apply Hheap in Hcur. rewrite Heq in Hcur. lia. }
    unfold built, slice_ok, elements. simpl.
    rewrite lookup_insert_eq, lookup_insert_ne by done. simpl.
    pose proof (Hgrow (slice.cap hs)) as Hc.
    split_and!; [|eexists; split; [done|]|done|done|].
    + intros b Hb. simpl in *. destruct (decide (b = heap.next h)) as [->|Hb']; [lia|].
      rewrite lookup_insert_ne in Hb by done. apply Hheap in Hb. lia.
    + fold (elements h hs). rewrite length_app, length_cons, length_replicate, Hlen. lia.
    + fold (elements h hs). rewrite <- Hl.
      change (elements h hs ++ x :: ?r) with (elements h hs ++ [x] ++ r).
      rewrite app_assoc. rewrite take_app_le by (rewrite length_app, Hlen; simpl; lia).
      rewrite take_ge; [done|]. rewrite length_app, Hlen. simpl. lia.
Qed.

Lemma newDependency_slices_loop grow h0 cur (len : nat) : ∀ (k : nat) h hs l,
  (∀ c, c < grow c) → slice_ok h0 cur → built h0 h cur hs l →
  Z.of_nat (k + len) ≤ slice.len cur →
  ∃ h' hs',
    foldM (λ '(h, hs) i, let* x := index_slice h cur i in append_slice grow h hs x)
      (h, hs) (seqZ (Z.of_nat k) (Z.of_nat len)) = Ok (h', hs')
    ∧ built h0 h' cur hs' (l ++ take len (drop k (elements h0 cur))).
Proof.
  induction len as [|len IH]; intros k h hs l Hgrow Hcur Hb Hlen.
  { exists h, hs. simpl. by rewrite app_nil_r. }
  rewrite seqZ_cons by lia. cbn [foldM].
  assert (slice_ok h cur) as Hcur'.
  { destruct Hcur as (a & Ha & ?). exists a. destruct Hb as (_ & _ & _ & -> & _). done. }
  destruct (index_slice_Ok h cur (Z.of_nat k)) as (x & -> & Hx); [done|lia|]. cbn [bind].
  assert (elements h cur = elements h0 cur) as He.
  { unfold elements. by destruct Hb as (_ & _ & _ & -> & _). }
  rewrite He, Nat2Z.id in Hx.
  destruct (append_slice grow h hs x) as [[h1 hs1]| | | |] eqn:Happ.
  2-5: unfold append_slice in Happ; destruct Hb as (_ & (a & Ha & _) & _);
       rewrite Ha in Happ; by case_decide.
  cbn [bind]. apply (append_slice_built grow h0 h cur hs l x) in Happ;
    [|done|by destruct Hcur as (a & -> & _)|done].
  replace (Z.succ (Z.of_nat k)) with (Z.of_nat (S k)) by lia.
  replace (Z.pred (Z.of_nat (S len))) with (Z.of_nat len) by lia.
  destruct (IH (S k) h1 hs1 (l ++ [x])) as (h' & hs' & -> & Hb'); [done..|lia|].
  exists h', hs'. split; [done|].
  by rewrite (drop_S _ x k Hx), <- app_assoc in *.
Qed.

(** The holding set that [newDependency] builds is in an array of its own:
    it has the entries that the model with lists gives it, and an
    assignment to the holding set of the routine does not change it. *)
Theorem newDependency_slices_snapshot (grow : Z → Z) (opts : options) (h : heap)
    (lock : mutexInt) (currentLocks : slice) (numberOfLocks : Z) :
  (∀ c, c < grow c) → heap_ok h → slice_ok h currentLocks →
  0 ≤ options.maxNumberOfDependentLocks opts →
  0 ≤ numberOfLocks ≤ slice.len currentLocks →
  ∃ h' d,
    newDependency_slices grow opts h lock currentLocks numberOfLocks = Ok (h', d)
    ∧ (∀ ptr, newDependency opts ptr lock (elements h currentLocks) numberOfLocks
              = Ok (dependency.mk ptr (dependencyRef.mu d)
                      (elements h' (dependencyRef.holdingSet d))
                      (dependencyRef.holdingCount d)))
    ∧ elements h' currentLocks = elements h currentLocks
    ∧ slice.array (dependencyRef.holdingSet d) ≠ slice.array currentLocks
    ∧ ∀ i x h'', assign_slice h' currentLocks i x = Ok h'' →
        elements h'' (dependencyRef.holdingSet d) = elements h' (dependencyRef.holdingSet d).
Proof.
  intros Hgrow Hheap Hcur Hmax Hn. unfold newDependency_slices, make_slice.
  rewrite decide_True by done. cbn [bind].
  set (h1 := heap.mk _ _). set (hs1 := slice.mk _ _ _).
  assert (slice.array hs1 ≠ slice.array currentLocks) as Hne.
  { simpl. intros Heq. destruct Hcur as (a & Ha & _).
    assert (heap.next h < heap.next h)%positive by (apply Hheap; exists a; by rewrite Heq).
    lia. }
  assert (built h h1 currentLocks hs1
            (replicate (Z.to_nat (options.maxNumberOfDependentLocks opts)) None)) as Hb.
  { unfold built, slice_ok, elements. simpl. rewrite lookup_insert_eq. simpl.
    split_and!.
    - intros b Hb. simpl in *. destruct (decide (b = heap.next h)) as [->|Hb']; [lia|].
      rewrite lookup_insert_ne in Hb by done. apply Hheap in Hb. lia.
    - eexists. split; [done|]. rewrite length_replicate. lia.
    - done.
    - by rewrite lookup_insert_ne.
    - rewrite take_ge; [done|]. rewrite length_replicate. lia. }
  destruct (newDependency_slices_loop grow h currentLocks (Z.to_nat numberOfLocks) 0 h1 hs1 _
              Hgrow Hcur Hb) as (h' & hs' & Hloop & Hb'); [lia|].
  rewrite Z2Nat.id in Hloop by lia. change (Z.of_nat 0) with 0 in Hloop.
  rewrite Hloop. cbn [bind]. exists h', (dependencyRef.mk lock hs' numberOfLocks).
  destruct Hb' as (Hheap' & Hhs' & Hne' & Hkeep & Hl). rewrite drop_0 in Hl.
  split_and!; simpl.
  - done.
  - intros ptr. rewrite newDependency_computes; [by rewrite Hl|done|].
    rewrite elements_length by done. lia.
  - unfold elements. by rewrite Hkeep.
  - done.
  - intros i x h'' Hset. unfold assign_slice in Hset. case_decide; [|done].
    destruct (heap.arrays h' !! slice.array currentLocks); [|done].
    injection Hset as <-. unfold elements. simpl. by rewrite lookup_insert_ne.
Qed.

Lemma newDependency_slices_snapshot_witness :
  ∃ h d,
    newDependency_slices (λ c, Z.max (2 * c) (c + 1)) exOpts exHeap exB (slice.mk 1%positive 4 4) 1
      = Ok (h, d)
    ∧ elements h (dependencyRef.holdingSet d) = [None; None; None; None; exA]
    ∧ slice.array (dependencyRef.holdingSet d) ≠ 1%positive.
Proof.
  destruct (newDependency_slices_snapshot (λ c, Z.max (2 * c) (c + 1)) exOpts exHeap exB
              (slice.mk 1%positive 4 4) 1) as (h & d & Hd & Hlist & _ & Hne & _).
  - intros c. lia.
  - intros a [l Hl]. simpl in *. destruct (decide (a = 1%positive)) as [->|Ha]; [done|].
    by rewrite lookup_singleton_ne in Hl.
  - exists [exA; None; None; None]. split; [done|]. simpl. lia.
  - simpl. lia.
  - simpl. lia.
  - exists h, d. split; [done|]. split; [|done].
    assert (newDependency exOpts 1%positive exB (elements exHeap (slice.mk 1%positive 4 4)) 1
            = Ok (dependency.mk 1%positive exB [None; None; None; None; exA] 1)) as Hc
      by (vm_compute; reflexivity).
    rewrite Hlist in Hc. by injection Hc as _ -> _.
Defined.

(** ** The invariant of the detector's state *)

Lemma grows_refl σ : grows σ σ.
Proof. by intros l. Qed.

Lemma grows_trans σ1 σ2 σ3 : grows σ1 σ2 → grows σ2 σ3 → grows σ1 σ3.
Proof. intros H12 H23 l Hl. by apply H23, H12. Qed.

Lemma same_objects_grows σ σ' : same_objects σ σ' → grows σ σ'.
Proof.
  intros Hsame l [o Ho]. specialize (Hsame l). rewrite Ho in Hsame.
  destruct (σ' !! l); [by eexists|done].
Qed.

Lemma grows_insert σ l o : grows σ (<[l := o]> σ).
Proof.
  intros l' Hl'. destruct (decide (l' = l)) as [->|Hne].
  - rewrite lookup_insert_eq. by eexists.
  - by rewrite lookup_insert_ne.
Qed.

Lemma allocated_grows σ σ' m : grows σ σ' → allocated σ m = true → allocated σ' m = true.
Proof.
  intros Hg. destruct m as [l|]; simpl; [|done].
  rewrite !bool_decide_eq_true. apply Hg.
Qed.

Lemma wf_dep_grows σ σ' d : grows σ σ' → wf_dep σ d = true → wf_dep σ' d = true.
Proof.
  intros Hg. unfold wf_dep. rewrite !andb_true_iff.
  intros [[Hmu Hlen] Hall]. split_and!; [by eapply allocated_grows|done|].
  apply Is_true_true, forallb_True. apply Is_true_true, forallb_True in Hall.
  eapply Forall_impl; [exact Hall|]. intros m Hm. apply Is_true_true.
  apply Is_true_true in Hm. by eapply allocated_grows.
Qed.

Lemma routine_ok_grows opts σ σ' i r :
  grows σ σ' → routine_ok opts σ i r → routine_ok opts σ' i r.
Proof.
  intros Hg (Hi & Hhc & Hlen & Hheld & Hdc & Hdlen & Hdeps & Hcur & Hmap & Hcs).
  split_and!; try lia; try done.
  - eapply Forall_impl; [exact Hheld|]. intros m. by apply allocated_grows.
  - intros j Hj. destruct (Hdeps j Hj) as (d & Hd & Hwf). exists d.
    split; [done|]. by eapply wf_dep_grows.
  - intros d Hd. eapply wf_dep_grows; [done|]. by apply Hcur.
Qed.

Lemma wf_dep_iff σ d :
  wf_dep σ d = true ↔
  allocated σ (dependency.mu d) = true
  ∧ 0 ≤ dependency.holdingCount d ≤ Z.of_nat (length (dependency.holdingSet d))
  ∧ Forall (λ m, allocated σ m = true)
      (take (Z.to_nat (dependency.holdingCount d)) (dependency.holdingSet d)).
Proof.
  unfold wf_dep. split.
  - intros [[Hmu Hlen%bool_decide_eq_true]%andb_true_iff Hall]%andb_true_iff.
    split_and!; [done|lia|lia|]. apply Is_true_true, forallb_True in Hall.
    eapply Forall_impl; [exact Hall|]. intros m Hm. by apply Is_true_true.
  - intros (Hmu & Hlen & Hall). rewrite !andb_true_iff.
    split_and!; [done|by apply bool_decide_eq_true|].
    apply Is_true_true, forallb_True. eapply Forall_impl; [exact Hall|].
    intros m Hm. by apply Is_true_true.
Qed.

Lemma held_push (r : routine) m :
  0 ≤ routine.holdingCount r < Z.of_nat (length (routine.holdingSet r)) →
  take (Z.to_nat (routine.holdingCount r + 1))
    (<[Z.to_nat (routine.holdingCount r) := m]> (routine.holdingSet r))
  = held r ++ [m].
Proof.
  intros Hhc. unfold held.
  replace (Z.to_nat (routine.holdingCount r + 1))
    with (S (Z.to_nat (routine.holdingCount r))) by lia.
  rewrite (take_S_r _ _ m) by (apply list_lookup_insert_eq; lia).
  by rewrite take_insert_ge by lia.
Qed.

(** [updateLock] keeps a routine in order. *)
Lemma updateLock_routine_ok opts c ptr σ r m rLock r' σ' i :
  opts_ok opts → routine_ok opts σ i r → allocated σ m = true →
  updateLock opts c ptr σ r m rLock = Ok (r', σ') →
  routine_ok opts σ' i r' ∧ grows σ σ'.
Proof.
  intros (Hmax & Hmaxd & _) Hok Hm Hupd.
  assert (grows σ σ') as Hg.
  { apply same_objects_grows. by apply updateLock_effect in Hupd as (? & _). }
  split; [|done].
  apply (routine_ok_grows _ _ _ _ _ Hg) in Hok
    as (Hi & Hhc & Hlen & Hheld & Hdc & Hdlen & Hdeps & Hcur & Hmap & Hcs).
  apply (allocated_grows _ _ _ Hg) in Hm.
  apply updateLock_inv in Hupd as (σ1 & r1 & isNew & _ & Hbranch & _ & Hlt & Hrange & ->).
  assert (routine.index r1 = routine.index r
          ∧ routine.holdingCount r1 = routine.holdingCount r
          ∧ routine.holdingSet r1 = routine.holdingSet r
          ∧ is_Some (routine.collectedSingleLevelLocks r1)
          ∧ is_Some (routine.dependencyMap r1)
          ∧ 0 ≤ routine.depCount r1 ≤ options.maxDependencies opts
          ∧ routine.depCount r1 ≤ Z.of_nat (length (routine.dependencies r1))
          ∧ (∀ j, 0 ≤ j < routine.depCount r1 →
               ∃ d, dependencyAt r1 j = Some d ∧ wf_dep σ' d = true)
          ∧ (∀ d, routine.curDep r1 = Some d → wf_dep σ' d = true))
    as (Hi1 & Hhc1 & Hhs1 & Hcs1 & Hmap1 & Hdc1 & Hdlen1 & Hdeps1 & Hcur1).
  { revert Hbranch. case_bool_decide as Hnested.
    - intros (Hi1 & Hhc1 & Hhs1 & Hcs1 & key & _ & Hcase)%updateLock_nested_inv; [|lia..].
      rewrite Hcs1.
      destruct Hcase as [(_ & -> & _)|(_ & _ & dep & gm & Hmatch & _ & _ & Hdlen' & Hdcr
        & Hdlt & Hdeps' & Hdc' & Hcur' & _ & Hmap')]; [split_and!; try done; lia|].
      assert (wf_dep σ' dep = true) as Hwf.
      { destruct Hmatch as (Hmu & Hcount & Htake). apply wf_dep_iff.
        rewrite Hmu, Hcount, Htake, Hdlen'. split_and!; [done|lia|lia|done]. }
      rewrite Hdc', int_add_small by (unfold int_range; lia).
      split_and!; try done; try lia.
      + rewrite Hdeps', length_insert. lia.
      + intros j Hj. unfold dependencyAt. rewrite Hdeps'.
        destruct (decide (j = routine.depCount r)) as [->|Hne].
        * exists dep. rewrite list_lookup_insert_eq by lia. done.
        * rewrite list_lookup_insert_ne by lia. apply Hdeps. lia.
      + intros d. rewrite Hcur'. by intros [= <-].
    - intros ((Hd & Hdcs & Hm1 & Hc1) & Hi1 & Hhc1 & Hhs1 & Hcs1 & _)%updateLock_single_inv.
      rewrite Hdcs, Hd, Hm1, Hc1. split_and!; try done; try lia; [by apply Hcs1|].
      intros j Hj. unfold dependencyAt. rewrite Hd. by apply Hdeps. }
  rewrite Hhs1 in Hrange.
  unfold routine_ok. simpl. rewrite Hhc1, Hhs1, length_insert.
  rewrite int_add_small by (unfold int_range; lia).
  unfold held. simpl. rewrite held_push by lia.
  split_and!; try done; try lia.
  apply Forall_app. split; [done|]. by apply Forall_singleton.
Qed.

(** [updateTryLock] keeps a routine in order. *)
Lemma updateTryLock_routine_ok opts σ r m rLock r' σ' i :
  opts_ok opts → routine_ok opts σ i r → allocated σ m = true →
  updateTryLock opts σ r m rLock = Ok (r', σ') →
  routine_ok opts σ' i r' ∧ grows σ σ'.
Proof.
  intros (Hmax & _) Hok Hm (Hlt & Hset & Hrange & ->)%updateTryLock_inv.
  assert (grows σ σ') as Hg by (by eapply same_objects_grows, setRLock_same_objects).
  split; [|done].
  apply (routine_ok_grows _ _ _ _ _ Hg) in Hok
    as (Hi & Hhc & Hlen & Hheld & Hdc & Hdlen & Hdeps & Hcur & Hmap & Hcs).
  apply (allocated_grows _ _ _ Hg) in Hm.
  unfold routine_ok. simpl. rewrite length_insert.
  rewrite int_add_small by (unfold int_range; lia).
  unfold held. simpl. rewrite held_push by lia.
  split_and!; try done; try lia.
  apply Forall_app. split; [done|]. by apply Forall_singleton.
Qed.

(** [updateUnlock] keeps a routine in order. *)
Lemma updateUnlock_routine_ok opts σ r m r' i :
  opts_ok opts → routine_ok opts σ i r → updateUnlock r m = Ok r' →
  routine_ok opts σ i r'.
Proof.
  intros (Hmax & _) Hok [->|(k & Hk & Hklen & ->)]%updateUnlock_inv; [done|].
  destruct Hok as (Hi & Hhc & Hlen & Hheld & Hdc & Hdlen & Hdeps & Hcur & Hmap & Hcs).
  unfold routine_ok. simpl. rewrite splice_length by lia.
  rewrite int_sub_small by (unfold int_range; lia).
  split_and!; try done; try lia.
  unfold held in *. simpl. rewrite Forall_lookup in Hheld. apply Forall_lookup.
  intros j x Hj. pose proof (lookup_lt_Some _ _ _ Hj) as Hjlt.
  rewrite length_take in Hjlt. rewrite lookup_take_lt in Hj by lia.
  rewrite splice_lookup in Hj by lia. case_decide.
  - apply (Hheld j). by rewrite lookup_take_lt by lia.
  - apply (Hheld (S j)). by rewrite lookup_take_lt by lia.
Qed.

(** A state that differs from one in order in its routines and wrappers
    only. *)
Lemma state_ok_change g g' :
  state_ok g →
  state.opts g' = state.opts g → state.numberRoutines g' = state.numberRoutines g →
  state.mapIndex g' = state.mapIndex g → state.initialized g' = true →
  state.numberRoutines g ≤ Z.of_nat (length (state.routines g')) →
  (∀ i r, 0 ≤ i < state.numberRoutines g → state.routines g' !! Z.to_nat i = Some r →
     routine_ok (state.opts g) (state.locks g') i r) →
  state_ok g'.
Proof.
  intros (Hopts & Hn & Hmap & Hinj & _ & _) Ho Hnr Hm Hinit Hlen Hrs.
  unfold state_ok. rewrite Ho, Hnr, Hm, Hinit. split_and!; try done; lia.
Qed.

Lemma state_ok_initialized g l o :
  state_ok g → state.locks g !! l = Some o → obj.getIn o = true →
  state.initialized g = true.
Proof.
  intros (_ & _ & _ & _ & _ & Hfresh) Hl Hin.
  destruct (state.initialized g); [done|].
  destruct (Hfresh eq_refl) as (_ & _ & Hnone). by rewrite (Hnone l o Hl) in Hin.
Qed.

Lemma state_ok_prims g ps : state_ok g → state_ok (state.set_prims g ps).
Proof. done. Qed.

Lemma state_ok_stderr g e : state_ok g → state_ok (state.set_stderr g e).
Proof. done. Qed.

(** The wrappers change, none is lost. *)
Lemma state_ok_locks g σ :
  state_ok g → state.initialized g = true → grows (state.locks g) σ →
  state_ok (state.set_locks g σ).
Proof.
  intros Hok Hinit Hg. apply (state_ok_change g); try done.
  { destruct Hok as (_ & ? & _); simpl; lia. }
  simpl. intros i r Hi Hr. destruct Hok as (_ & _ & _ & _ & Hrs & _).
  eapply routine_ok_grows; [done|]. by apply Hrs.
Qed.

(** A registered routine and the wrappers change. *)
Lemma state_ok_routine g index r σ p :
  state_ok g → state.initialized g = true → 0 ≤ index < state.numberRoutines g →
  grows (state.locks g) σ → routine_ok (state.opts g) σ index r →
  state_ok (state.set_nextPtr
              (state.set_locks
                 (state.set_routines g (<[Z.to_nat index := r]> (state.routines g))) σ) p).
Proof.
  intros Hok Hinit Hindex Hg Hr. apply (state_ok_change g); try done; simpl.
  - rewrite length_insert. destruct Hok as (_ & Hn & _). apply Hn.
  - intros i r' Hi Hr'. destruct Hok as (_ & Hn & _ & _ & Hrs & _).
    destruct (decide (i = index)) as [->|Hne].
    + rewrite list_lookup_insert_eq in Hr' by lia. by injection Hr' as <-.
    + rewrite list_lookup_insert_ne in Hr' by lia.
      eapply routine_ok_grows; [done|]. by apply Hrs.
Qed.

Lemma updObj_state_ok g m f g' :
  state_ok g → state.initialized g = true → updObj g m f = Ok g' →
  state_ok g' ∧ state.initialized g' = true ∧ grows (state.locks g) (state.locks g')
  ∧ state.routines g' = state.routines g
  ∧ state.numberRoutines g' = state.numberRoutines g
  ∧ state.mapIndex g' = state.mapIndex g ∧ state.opts g' = state.opts g.
Proof.
  intros Hok Hinit. unfold updObj. destruct m as [l|]; [|done].
  intros (o & _ & [= <-])%bind_Ok_inv. split_and!; try done; [|apply grows_insert].
  apply state_ok_locks; [done..|apply grows_insert].
Qed.

Lemma onPrim_inv g p f g' : onPrim g p f = Ok g' → ∃ ps, g' = state.set_prims g ps.
Proof.
  unfold onPrim. destruct p; [|done]. destruct (state.prims g !! _); [|done].
  intros (x & _ & [= <-])%bind_Ok_inv. eauto.
Qed.

Lemma tryPrim_inv g p f g' b : tryPrim g p f = Ok (g', b) → ∃ ps, g' = state.set_prims g ps.
Proof.
  unfold tryPrim. destruct p; [|done]. destruct (state.prims g !! _); [|done].
  intros [= <- _]. eauto.
Qed.

Lemma primitiveLock_inv g m rLock g' :
  primitiveLock g m rLock = Ok g' → ∃ ps, g' = state.set_prims g ps.
Proof.
  unfold primitiveLock. intros ([[d l] t] & _ & Hd)%bind_Ok_inv.
  destruct d; [|destruct rLock]; by eapply onPrim_inv.
Qed.

Lemma primitiveTryLock_inv g m rLock g' b :
  primitiveTryLock g m rLock = Ok (g', b) → ∃ ps, g' = state.set_prims g ps.
Proof.
  unfold primitiveTryLock. intros ([[d l] t] & _ & Hd)%bind_Ok_inv.
  destruct d; [|destruct rLock]; by eapply tryPrim_inv.
Qed.

Lemma getRoutineIndex_range g c :
  state_ok g → getRoutineIndex g c = -1 ∨ 0 ≤ getRoutineIndex g c < state.numberRoutines g.
Proof.
  intros (_ & _ & Hmap & _). unfold getRoutineIndex.
  destruct (state.mapIndex g !! caller.goid c) as [i|] eqn:Hi; [right; eauto|by left].
Qed.

Lemma routine_ok_new opts σ n hs deps :
  make (options.maxNumberOfDependentLocks opts) (None : mutexInt) = Ok hs →
  make (options.maxDependencies opts) (None : option dependency) = Ok deps →
  routine_ok opts σ n (routine.mk n 0 hs (Some ∅) deps None 0 (Some ∅)).
Proof.
  intros [Hh ->]%make_inv [Hd ->]%make_inv. unfold routine_ok, held; simpl.
  split_and!; try done; try lia.
Qed.

Lemma newRoutine_state_ok g c g' :
  state_ok g → state.initialized g = true → getRoutineIndex g c = -1 →
  newRoutine g c = Ok g' →
  state_ok g' ∧ state.initialized g' = true ∧ state.locks g' = state.locks g
  ∧ state.opts g' = state.opts g.
Proof.
  intros Hok Hinit Hidx. unfold newRoutine.
  destruct (_ && _); [by intros [= <-]|].
  intros (hs & Hhs & H)%bind_Ok_inv. apply bind_Ok_inv in H as (deps & Hdeps & H).
  case_bool_decide as Hmax; [done|]. apply bind_Ok_inv in H as (rs & Hrs & H).
  injection H as <-. apply slice_set_inv in Hrs as [Hrange ->].
  split_and!; try done.
  destruct Hok as (Hopts & Hn & Hmap & Hinj & Hrs & _).
  assert (Hadd : int_add (state.numberRoutines g) 1 = state.numberRoutines g + 1).
  { apply int_add_small. destruct Hopts as (_ & _ & ?). unfold int_range. lia. }
  assert (Hnone : state.mapIndex g !! caller.goid c = None).
  { unfold getRoutineIndex in Hidx.
    destruct (state.mapIndex g !! caller.goid c) as [i|] eqn:Hi; [|done].
    apply Hmap in Hi. lia. }
  unfold state_ok; simpl. rewrite Hadd, Hinit, length_insert. split_and!; try done; try lia.
  - intros id i. destruct (decide (id = caller.goid c)) as [->|Hne].
    + rewrite lookup_insert_eq. intros [= <-]. lia.
    + rewrite lookup_insert_ne by done. intros Hi%Hmap. lia.
  - intros id id' i. destruct (decide (id = caller.goid c)) as [->|Hne];
      destruct (decide (id' = caller.goid c)) as [->|Hne']; try done.
    + rewrite lookup_insert_eq, lookup_insert_ne by done. intros [= <-] Hi%Hmap. lia.
    + rewrite lookup_insert_eq, lookup_insert_ne by done. intros Hi%Hmap [= <-]. lia.
    + rewrite !lookup_insert_ne by done. apply Hinj.
  - intros i r Hi. destruct (decide (i = state.numberRoutines g)) as [->|Hne].
    + rewrite list_lookup_insert_eq by lia. intros [= <-]. by apply routine_ok_new.
    + rewrite list_lookup_insert_ne by lia. apply Hrs. lia.
Qed.

Lemma ensureRoutine_state_ok g c g' index :
  state_ok g → state.initialized g = true → ensureRoutine g c = Ok (g', index) →
  state_ok g' ∧ state.initialized g' = true ∧ state.locks g' = state.locks g
  ∧ state.opts g' = state.opts g
  ∧ (index = -1 ∨ 0 ≤ index < state.numberRoutines g').
Proof.
  intros Hok Hinit. unfold ensureRoutine. intros (g1 & Hnew & [= <- <-])%bind_Ok_inv.
  assert (H1 : state_ok g1 ∧ state.initialized g1 = true ∧ state.locks g1 = state.locks g
               ∧ state.opts g1 = state.opts g).
  { case_bool_decide; [by apply (newRoutine_state_ok g c)|]. by injection Hnew as <-. }
  destruct H1 as (H1 & ? & ? & ?). split_and!; try done. by apply getRoutineIndex_range.
Qed.

Lemma checkDoubleLocking_Ok_inv g m index rLock g' :
  checkDoubleLocking g m index rLock = Ok g' → g' = g.
Proof.
  unfold checkDoubleLocking. intros (o & _ & H)%bind_Ok_inv.
  case_bool_decide; [by injection H|].
  apply bind_Ok_inv in H as (both & _ & H). destruct both; [by injection H|].
  by apply bind_Ok_inv in H as (g2 & _ & H).
Qed.

Lemma updObj_allocated g m f g' : updObj g m f = Ok g' → allocated (state.locks g') m = true.
Proof.
  unfold updObj. destruct m as [l|]; [|done].
  intros (o & _ & [= <-])%bind_Ok_inv. unfold allocated; simpl.
  by rewrite lookup_insert_eq.
Qed.

Lemma lockInt_state_ok c m rLock g g' :
  state_ok g → lockInt c m rLock g = Ok g' → state_ok g'.
Proof.
  intros Hok. unfold lockInt. destruct (negb (options.activated _)).
  { intros [ps ->]%primitiveLock_inv. by apply state_ok_prims. }
  intros (o & Ho & H)%bind_Ok_inv. destruct (obj.getIn o) eqn:Hin; [|done]. simpl in H.
  assert (Hinit : state.initialized g = true).
  { apply deref_Some_inv in Ho as (l & -> & Hl). by eapply state_ok_initialized. }
  apply defer_Ok_inv in H as (g1 & Hbody & Hdef). cbv beta in Hbody, Hdef.
  assert (H1 : state_ok g1 ∧ state.initialized g1 = true).
  { revert Hbody. destruct (negb _ && negb _); [intros ?; by simplify_eq|]. intros Hbody.
    apply bind_Ok_inv in Hbody as ([g2 index] & Hens & H).
    apply ensureRoutine_state_ok in Hens as (H2 & Hinit2 & Hl2 & Ho2 & Hindex); [|done..].
    apply bind_Ok_inv in H as (r0 & Hr0 & H). apply slice_get_inv in Hr0 as [Hrange _].
    apply bind_Ok_inv in H as (o2 & _ & H). apply bind_Ok_inv in H as (g3 & Hg3 & H).
    assert (g3 = g2) as ->.
    { revert Hg3. destruct (_ && _); [by apply checkDoubleLocking_Ok_inv|by intros [= <-]]. }
    apply bind_Ok_inv in H as (g4 & Hg4 & H).
    pose proof (updObj_allocated _ _ _ _ Hg4) as Halloc.
    apply updObj_state_ok in Hg4 as (H4 & Hinit4 & Hgr4 & Hrs4 & Hn4 & Hm4 & Ho4); [|done..].
    revert H. destruct (bool_decide (1 < _)); [|by intros [= <-]]. intros H.
    apply bind_Ok_inv in H as (r & Hr & H). apply bind_Ok_inv in H as ([r' σ'] & Hupd & H).
    apply bind_Ok_inv in H as (rs & Hrs & H). injection H as <-.
    apply slice_get_inv in Hr as [Hrange4 Hr]. apply slice_set_inv in Hrs as [_ ->].
    assert (Hrok : routine_ok (state.opts g4) (state.locks g4) index r).
    { destruct H4 as (_ & _ & _ & _ & Hrs & _). apply Hrs; [|done].
      rewrite Hn4. lia. }
    rewrite <- Ho2, <- Ho4 in Hupd.
    eapply updateLock_routine_ok in Hupd as [Hr' Hgrows]; [|by destruct H4|done..].
    split; [|done]. apply state_ok_routine; try done. rewrite Hn4. lia. }
  destruct H1 as [H1 Hinit1].
  apply bind_Ok_inv in Hdef as (g5 & [ps ->]%primitiveLock_inv & Hadd).
  by apply updObj_state_ok in Hadd as (? & _).
Qed.

(** With an analysis on, the caller is registered after [ensureRoutine]. *)
Lemma ensureRoutine_registered g c g' index :
  state_ok g →
  options.periodicDetection (state.opts g) = true
  ∨ options.comprehensiveDetection (state.opts g) = true →
  ensureRoutine g c = Ok (g', index) → 0 ≤ index < state.numberRoutines g'.
Proof.
  intros Hok Hon. unfold ensureRoutine. intros (g1 & Hnew & [= <- <-])%bind_Ok_inv.
  destruct (decide (getRoutineIndex g c = -1)) as [Hidx|Hidx].
  - rewrite bool_decide_eq_true_2 in Hnew by done. revert Hnew. unfold newRoutine.
    destruct (negb _ && negb _) eqn:Hoff.
    { apply andb_prop in Hoff as [?%negb_true_iff ?%negb_true_iff].
      destruct Hon; congruence. }
    intros (hs & _ & Hd)%bind_Ok_inv. apply bind_Ok_inv in Hd as (deps & _ & Hd).
    destruct (bool_decide (options.maxRoutines _ ≤ _)) eqn:Hmax; [done|].
    apply bool_decide_eq_false in Hmax.
    apply bind_Ok_inv in Hd as (rs & [? _]%slice_set_inv & Hd).
    injection Hd as <-. unfold getRoutineIndex; simpl. rewrite lookup_insert_eq.
    rewrite int_add_small; [lia|]. destruct Hok as ((_ & _ & ?) & _). unfold int_range. lia.
  - rewrite bool_decide_eq_false_2 in Hnew by done. injection Hnew as <-.
    destruct (getRoutineIndex_range g c Hok) as [?|?]; [done|lia].
Qed.

Lemma tryLockInt_state_ok c m rLock g g' res :
  state_ok g → tryLockInt c m rLock g = Ok (g', res) → state_ok g'.
Proof.
  intros Hok. unfold tryLockInt. destruct (negb (options.activated _)).
  { intros [ps ->]%primitiveTryLock_inv. by apply state_ok_prims. }
  intros (o & Ho & H)%bind_Ok_inv. destruct (obj.getIn o) eqn:Hin; [|done]. simpl in H.
  assert (Hinit : state.initialized g = true).
  { apply deref_Some_inv in Ho as (l & -> & Hl). by eapply state_ok_initialized. }
  apply bind_Ok_inv in H as ([g1 b] & [ps ->]%primitiveTryLock_inv & H).
  apply bind_Ok_inv in H as (g2 & Hg2 & H).
  assert (H2 : state_ok g2 ∧ state.initialized g2 = true
               ∧ state.opts g2 = state.opts g
               ∧ (b = true → (options.periodicDetection (state.opts g) = true
                              ∨ options.comprehensiveDetection (state.opts g) = true) →
                  0 < state.numberRoutines g2 ∧ allocated (state.locks g2) m = true)).
  { destruct b; [|injection Hg2 as <-; by split_and!].
    apply bind_Ok_inv in Hg2 as ([g3 index] & Hens & Hg2).
    pose proof Hens as Hreg.
    apply ensureRoutine_state_ok in Hens as (H3 & Hinit3 & Hl3 & Ho3 & Hindex);
      [|by apply state_ok_prims|done].
    apply bind_Ok_inv in Hg2 as (g4 & Hg4 & Hg5).
    apply updObj_state_ok in Hg4 as (H4 & Hinit4 & Hgr4 & Hrs4 & Hn4 & Hm4 & Ho4); [|done..].
    pose proof (updObj_allocated _ _ _ _ Hg5) as Halloc.
    apply updObj_state_ok in Hg5 as (H5 & Hinit5 & Hgr5 & Hrs5 & Hn5 & Hm5 & Ho5); [|done..].
    split_and!; try done; [by rewrite Ho5, Ho4, Ho3|].
    intros _ Hon. split; [|done]. rewrite Hn5, Hn4.
    apply ensureRoutine_registered in Hreg; [lia|by apply state_ok_prims|done]. }
  destruct H2 as (H2 & Hinit2 & Ho2 & Hreg).
  destruct (negb _ && negb _) eqn:Hoff; [by injection H as <- _|].
  apply andb_false_iff in Hoff.
  destruct (bool_decide (1 < _) && b) eqn:Hb; [|by injection H as <- _].
  apply andb_prop in Hb as [_ ->].
  destruct Hreg as [Hpos Halloc]; [done|..].
  { destruct Hoff as [?%negb_false_iff|?%negb_false_iff]; eauto. }
  apply bind_Ok_inv in H as (r & Hr & H). apply bind_Ok_inv in H as ([r' σ'] & Hupd & H).
  apply bind_Ok_inv in H as (rs & Hrs & H). injection H as <- _.
  apply slice_get_inv in Hr as [Hrange Hr]. apply slice_set_inv in Hrs as [_ ->].
  assert (Hrok : routine_ok (state.opts g2) (state.locks g2) 0 r).
  { destruct H2 as (_ & _ & _ & _ & Hrs & _). apply Hrs; [lia|done]. }
  rewrite <- Ho2 in Hupd.
  eapply updateTryLock_routine_ok in Hupd as [Hr' Hgrows]; [|by destruct H2|done..].
  apply (state_ok_change g2); try done; simpl.
  - rewrite length_insert. destruct H2 as (_ & Hn & _). apply Hn.
  - intros i r0 Hi. destruct H2 as (_ & Hn & _ & _ & Hrs & _).
    destruct (decide (i = 0)) as [->|Hne].
    + rewrite list_lookup_insert_eq by lia. by intros [= <-].
    + rewrite list_lookup_insert_ne by lia. intros Hr0.
      eapply routine_ok_grows; [done|]. by apply Hrs.
Qed.

Lemma unlockInt_state_ok c m g g' :
  state_ok g → unlockInt c m g = Ok g' → state_ok g'.
Proof.
  intros Hok. unfold unlockInt.
  intros (o & Ho & H)%bind_Ok_inv. destruct (obj.getIn o) eqn:Hin; [|done]. simpl in H.
  assert (Hinit : state.initialized g = true).
  { apply deref_Some_inv in Ho as (l & -> & Hl). by eapply state_ok_initialized. }
  destruct (bool_decide (_ = 0)); [done|].
  apply defer_Ok_inv in H as (g1 & Hbody & Hdef). cbv beta in Hbody, Hdef.
  assert (H1 : state_ok g1 ∧ state.initialized g1 = true).
  { revert Hbody. destruct (negb _ && negb _); [by intros [= <-]|]. intros Hbody.
    apply bind_Ok_inv in Hbody as (r & Hr & H).
    apply bind_Ok_inv in H as (r' & Hupd & H).
    apply bind_Ok_inv in H as (rs & Hrs & H). injection H as <-.
    apply slice_get_inv in Hr as [Hrange Hr]. apply slice_set_inv in Hrs as [_ ->].
    destruct (getRoutineIndex_range g c Hok) as [Hneg|Hidx]; [lia|].
    assert (Hrok : routine_ok (state.opts g) (state.locks g) (getRoutineIndex g c) r).
    { destruct Hok as (_ & _ & _ & _ & Hrs & _). by apply Hrs. }
    eapply updateUnlock_routine_ok in Hupd; [|by destruct Hok|done].
    split; [|done]. apply (state_ok_change g); try done; simpl.
    - rewrite length_insert. destruct Hok as (_ & Hn & _). apply Hn.
    - intros i r0 Hi. destruct Hok as (_ & Hn & _ & _ & Hrs & _).
      destruct (decide (i = getRoutineIndex g c)) as [->|Hne].
      + rewrite list_lookup_insert_eq by lia. by intros [= <-].
      + rewrite list_lookup_insert_ne by lia. by apply Hrs. }
  destruct H1 as [H1 Hinit1].
  apply bind_Ok_inv in Hdef as (g2 & Hg2 & Hg3).
  apply updObj_state_ok in Hg2 as (H2 & Hinit2 & _); [|done..].
  by apply updObj_state_ok in Hg3 as (H3 & _).
Qed.

Lemma initialize_state_ok g g' :
  state_ok g → state.initialized g = false → initialize g = Ok g' →
  state_ok g' ∧ state.initialized g' = true.
Proof.
  intros (Hopts & Hn & Hmap & Hinj & Hrs & Hfresh) Hinit.
  destruct (Hfresh Hinit) as (Hzero & Hempty & _).
  unfold initialize. intros (rs & [Hmax ->]%make_inv & [= <-])%bind_Ok_inv.
  split; [|done]. unfold state_ok; simpl. rewrite Hzero, Hempty.
  split_and!; try done; try lia.
Qed.

Lemma NewLock_state_ok c g g' m :
  state_ok g → NewLock c g = Ok (g', m) → state_ok g'.
Proof.
  intros Hok. unfold NewLock. intros (g1 & Hg1 & [= <- _])%bind_Ok_inv.
  assert (H1 : state_ok g1 ∧ state.initialized g1 = true).
  { revert Hg1. destruct (state.initialized g) eqn:Hinit; simpl; [by intros [= <-]|].
    by apply initialize_state_ok. }
  destruct H1 as [H1 Hinit1]. apply (state_ok_locks g1); [done..|apply grows_insert].
Qed.

Lemma NewRWLock_state_ok c g g' m :
  state_ok g → NewRWLock c g = Ok (g', m) → state_ok g'.
Proof.
  intros Hok. unfold NewRWLock. intros (g1 & Hg1 & [= <- _])%bind_Ok_inv.
  assert (H1 : state_ok g1 ∧ state.initialized g1 = true).
  { revert Hg1. destruct (state.initialized g) eqn:Hinit; simpl; [by intros [= <-]|].
    by apply initialize_state_ok. }
  destruct H1 as [H1 Hinit1]. apply (state_ok_locks g1); [done..|apply grows_insert].
Qed.

Lemma state_ok_start opts n : opts_ok opts → state_ok (start opts n).
Proof.
  intros Hopts. unfold state_ok, start. cbn [state.opts state.numberRoutines
    state.mapIndex state.initialized state.locks state.routines].
  split_and!; try done; lia.
Qed.

Lemma unlock_state_ok c m g g' (k : state → bool * option loc * option loc → result state) :
  (∀ g1 glt g2, k g1 glt = Ok g2 → ∃ ps, g2 = state.set_prims g1 ps) →
  state_ok g →
  (let* g := if options.activated (state.opts g) then unlockInt c m g else Ok g in
   let* glt := getLock (state.locks g) m in
   k g glt) = Ok g' →
  state_ok g'.
Proof.
  intros Hk Hok (g1 & Hg1 & H)%bind_Ok_inv. apply bind_Ok_inv in H as (glt & _ & H).
  apply Hk in H as [ps ->]. apply state_ok_prims.
  revert Hg1. destruct (options.activated _); [by apply unlockInt_state_ok|by intros [= <-]].
Qed.

Lemma FindPotentialDeadlocks_state_ok g g' :
  state_ok g → FindPotentialDeadlocks g = Ok g' → state_ok g'.
Proof.
  intros Hok. unfold FindPotentialDeadlocks. destruct (negb _); [by intros [= <-]|].
  destruct (bool_decide _); [|by intros [= <-]].
  intros (enough & _ & H)%bind_Ok_inv. destruct (negb enough); [by injection H as <-|].
  by apply bind_Ok_inv in H as (s & _ & [= <-]).
Qed.

Lemma runCall_state_ok g a g' : state_ok g → runCall g a = Ok g' → state_ok g'.
Proof.
  intros Hok. destruct a as [c|c|c m|c m|c m|op|]; simpl.
  - intros ([g1 m] & H & [= <-])%bind_Ok_inv. by eapply NewLock_state_ok.
  - intros ([g1 m] & H & [= <-])%bind_Ok_inv. by eapply NewRWLock_state_ok.
  - by apply lockInt_state_ok.
  - by apply lockInt_state_ok.
  - by apply lockInt_state_ok.
  - destruct op as [c m|c m|c m|c m|c m|c m]; simpl.
    + intros ([g1 b] & H & [= <-])%bind_Ok_inv. by eapply tryLockInt_state_ok.
    + apply unlock_state_ok; [|done]. intros g1 [[d l] t] g2. apply onPrim_inv.
    + intros ([g1 b] & H & [= <-])%bind_Ok_inv.
      apply bind_Ok_inv in H as ([g2 b2] & H & [= <- _]). by eapply tryLockInt_state_ok.
    + intros ([g1 b] & H & [= <-])%bind_Ok_inv.
      apply bind_Ok_inv in H as ([g2 b2] & H & [= <- _]). by eapply tryLockInt_state_ok.
    + apply unlock_state_ok; [|done]. intros g1 [[d l] t] g2. apply onPrim_inv.
    + apply unlock_state_ok; [|done]. intros g1 [[d l] t] g2. apply onPrim_inv.
  - by apply FindPotentialDeadlocks_state_ok.
Qed.

Lemma runCalls_state_ok calls g g' :
  state_ok g → foldM runCall g calls = Ok g' → state_ok g'.
Proof.
  intros Hok. apply (foldM_inv state_ok runCall); [done|].
  intros g1 a g2 _. apply runCall_state_ok.
Qed.

(** The bookkeeping of the library is consistent in every state that a
    program reaches from its start by calls of the library that return:
    the registry maps goroutine ids one-to-one to the indices below
    [numberRoutines], which is at most the length of [routines]; every
    registered routine carries its own index, its holding count and its
    dependency count are within the configured limits and within the
    lengths of their slices, the locks it holds and the locks of its
    dependencies point to wrappers, and its maps are made. *)
Theorem program_keeps_state_ok (opts : options) (numGoroutine : Z) (calls : list apiCall)
    (g : state) :
  opts_ok opts →
  foldM runCall (start opts numGoroutine) calls = Ok g →
  state_ok g.
Proof.
  intros Hopts. apply runCalls_state_ok. by apply state_ok_start.
Qed.

Lemma program_keeps_state_ok_witness :
  ∃ g, foldM runCall (start exOpts 2) exCalls = Ok g ∧ state_ok g.
Proof.
  eexists. split; [vm_compute; reflexivity|].
  apply (program_keeps_state_ok exOpts 2 exCalls).
  - unfold opts_ok. simpl. lia.
  - vm_compute. reflexivity.
Defined.

(** ** The comprehensive detection returns *)

Lemma foldM_total {I S} (P : S → Prop) (body : S → I → result S) xs : ∀ s,
  P s → (∀ s x, x ∈ xs → P s → ∃ s', body s x = Ok s' ∧ P s') →
  ∃ s', foldM body s xs = Ok s' ∧ P s'.
Proof.
  induction xs as [|x xs IH]; intros s Hs Hbody; simpl; [eauto|].
  destruct (Hbody s x) as (s1 & -> & Hs1); [by left|done|]. simpl.
  apply IH; [done|]. intros s2 y Hy. apply Hbody. by right.
Qed.

Lemma loopM_total {I S R} (P : S → Prop) (body : S → I → result (S + R)) xs : ∀ s,
  P s → (∀ s x, x ∈ xs → P s → ∃ r, body s x = Ok r ∧ ∀ s', r = inl s' → P s') →
  ∃ r, loopM body s xs = Ok r ∧ ∀ s', r = inl s' → P s'.
Proof.
  induction xs as [|x xs IH]; intros s Hs Hbody; simpl.
  { exists (inl s). split; [done|]. by intros s' [= <-]. }
  destruct (Hbody s x) as (r & -> & Hr); [by left|done|]. simpl.
  destruct r as [s1|r]; [|by exists (inr r)].
  apply IH; [by apply Hr|]. intros s2 y Hy. apply Hbody. by right.
Qed.

Lemma getMemoryPosition_alloc σ l o :
  σ !! l = Some o → getMemoryPosition σ (Some l) = Ok (obj.getMemoryPosition o).
Proof. intros H. unfold getMemoryPosition, deref. by rewrite H. Qed.

(** The dependency string of a well-formed dependency is computed. *)
Lemma getDependencyString_total σ d :
  wf_dep σ d = true → is_Ok (getDependencyString σ (Some d)).
Proof.
  intros Hd. unfold getDependencyString. simpl.
  destruct (wf_dep_mu _ _ Hd) as (l & o & -> & Ho).
  rewrite (getMemoryPosition_alloc _ _ _ Ho). simpl.
  destruct (foldM_total (λ _ : string, True)
    (λ str i,
      let* m := slice_get (dependency.holdingSet d) i in
      let* pos := getMemoryPosition σ m in
      Ok (str +:+ pretty pos))
    (seqZ 0 (dependency.holdingCount d)) (pretty (obj.getMemoryPosition o)))
    as (str & Hstr & _); [done| |by exists str].
  intros s i Hi%elem_of_seqZ _.
  destruct (wf_dep_get σ d i Hd) as (li & oi & Hli & Hoi); [lia|].
  rewrite (slice_get_Some _ _ _ (proj1 Hi) Hli). simpl.
  rewrite (getMemoryPosition_alloc _ _ _ Hoi). simpl. eauto.
Qed.

(** Reading slot [j] of a registered routine. *)
Lemma routine_ok_dep opts σ i r j :
  routine_ok opts σ i r → 0 ≤ j < routine.depCount r →
  ∃ d, slice_get (routine.dependencies r) j = Ok (Some d) ∧ wf_dep σ d = true.
Proof.
  intros (_ & _ & _ & _ & _ & _ & Hdeps & _) Hj.
  destruct (Hdeps j Hj) as (d & Hd & Hwf). exists d. split; [|done].
  unfold dependencyAt in Hd.
  destruct (routine.dependencies r !! Z.to_nat j) as [[d'|]|] eqn:E; try done.
  simpl in Hd. injection Hd as ->. apply slice_get_Some; [lia|done].
Qed.

Lemma state_ok_routine_at g i :
  state_ok g → 0 ≤ i < state.numberRoutines g →
  ∃ r, slice_get (state.routines g) i = Ok r
       ∧ routine_ok (state.opts g) (state.locks g) i r.
Proof.
  intros (_ & Hn & _ & _ & Hrs & _) Hi.
  destruct (lookup_lt_is_Some_2 (state.routines g) (Z.to_nat i)) as [r Hr]; [lia|].
  exists r. split; [apply slice_get_Some; [lia|done]|by apply Hrs].
Qed.

Lemma isNumberDependenciesGreaterEqualTwo_total g :
  state_ok g → is_Ok (isNumberDependenciesGreaterEqualTwo g).
Proof.
  intros Hok. unfold isNumberDependenciesGreaterEqualTwo.
  match goal with |- is_Ok (bind (loopM ?body ?s ?xs) _) =>
    destruct (loopM_total (λ _, True) body xs s) as (r & -> & _) end; [done| |].
  - intros acc i Hi%elem_of_seqZ _.
    destruct (state_ok_routine_at g i Hok) as (r & -> & Hr); [lia|]. simpl.
    match goal with |- ∃ _, loopM ?body ?s ?xs = _ ∧ _ =>
      destruct (loopM_total (λ _, True) body xs s) as (r' & -> & _) end; [done| |by eauto].
    intros [depCount dependencyMap] j Hj%elem_of_seqZ _.
    destruct (routine_ok_dep _ _ _ _ j Hr) as (d & -> & Hd); [lia|]. simpl.
    destruct (getDependencyString_total _ _ Hd) as [str ->]. simpl.
    destruct (bool_decide (str ∈ dependencyMap)); destruct (bool_decide (_ = 2)); eauto.
  - simpl. destruct r; by eexists.
Qed.

Lemma isChain_total σ stack cand candRoutine :
  wf_stack σ stack = true → wf_dep σ cand = true →
  is_Ok (isChain σ stack cand candRoutine).
Proof.
  intros Hs Hc. unfold isChain.
  destruct (isChain_link σ stack cand candRoutine Hs Hc) as (found & -> & _).
  simpl. destruct (default false found); simpl; [|by eexists].
  match goal with |- context [forEach ?f ?xs] =>
    destruct (forEach_Ok f xs) as (bad & -> & _) end; [|by eexists].
  intros c Hcin. destruct (wf_stack_elem _ _ _ Hs Hcin) as (d & Hd & Hwd).
  destruct (isChain_element σ cand candRoutine c d Hc Hd Hwd) as [[E _]|[E _]]; eauto.
Qed.

Lemma isCycleChain_total σ stack cand candRoutine :
  wf_stack σ stack = true → wf_dep σ cand = true →
  is_Ok (isCycleChain σ stack cand candRoutine).
Proof.
  intros Hs Hc. unfold isCycleChain, depStack.next.
  destruct (depStack.chain stack) as [|c chain] eqn:Echain.
  { unfold wf_stack in Hs. by rewrite Echain in Hs. }
  simpl. destruct (wf_stack_elem σ stack c Hs) as (bottom & Hb & Hwb).
  { rewrite Echain. by left. }
  rewrite Hb. simpl. destruct (wf_dep_mu _ _ Hc) as (la & oa & Hmu & Ha).
  match goal with |- context [forRange 0 ?n ?f] =>
    destruct (forRange_Ok 0 n f) as (found & -> & _) end; [|by eexists].
  intros i Hi. destruct (wf_dep_get _ _ _ Hwb Hi) as (li & oi & Hli & Hoi).
  rewrite (slice_get_Some _ _ _ (proj1 Hi) Hli). simpl. rewrite Hmu.
  rewrite (mutexHaveEqualLock_alloc _ _ _ _ _ Hoi Ha). simpl.
  rewrite (getRLock_alloc _ _ _ _ Hoi), (getRLock_alloc _ _ _ _ Ha), andThen_Ok.
  destruct (obj_sameLock oi oa); simpl; [|by eauto].
  destruct (obj.getRLock oi _ && obj.getRLock oa candRoutine); simpl; eauto.
Qed.

Lemma search_fits_keeps g s s' : search_fits g s → keeps_search g s s' → search_fits g s'.
Proof.
  intros (Hok & Hlen & Hne) Hkeep. split; [by eapply keeps_search_ok|].
  destruct Hkeep as (-> & -> & _). done.
Qed.

(** The elements of the path of a search are well-formed dependencies of
    registered routines. *)
Lemma search_fits_wf g s :
  state_ok g → search_fits g s → wf_stack (state.locks g) (search.stack s) = true.
Proof.
  intros Hg ([[_ Hall] _] & Hlen & Hne). unfold wf_stack.
  destruct (depStack.chain (search.stack s)) as [|c0 chain] eqn:E; [done|].
  apply Is_true_true, forallb_True. simpl in Hall. rewrite Forall_forall in Hall |- *.
  intros c Hc. destruct (Hall c Hc) as [(Hc0 & r & j & Hr & Hj & Hdep) Hmark].
  apply lookup_lt_Some in Hmark.
  destruct Hg as (_ & _ & _ & _ & Hrs & _).
  assert (Hrok : routine_ok (state.opts g) (state.locks g) (stackElement.index c) r).
  { apply Hrs; [lia|done]. }
  destruct (routine_ok_dep _ _ _ _ j Hrok Hj) as (d & [_ Hd]%slice_get_inv & Hwf).
  rewrite Hd in Hdep. injection Hdep as <-. by apply Is_true_true.
Qed.

Section dfs_total.
Variables (rec : search → result search) (g : state) (n : nat).
Hypothesis g_ok : state_ok g.
Hypothesis rec_keeps : ∀ s s', search_ok g s → rec s = Ok s' → keeps_search g s s'.
Hypothesis rec_total : ∀ s,
  search_fits g s → (untraversed (search.isTraversed s) < n)%nat → is_Ok (rec s).

Lemma dfs_dependency_total i r s j :
  search_fits g s → 0 ≤ i < state.numberRoutines g →
  state.routines g !! Z.to_nat i = Some r →
  search.isTraversed s !! Z.to_nat i = Some false → 0 ≤ j < routine.depCount r →
  (untraversed (search.isTraversed s) ≤ n)%nat →
  is_Ok (dfs_dependency rec g i r s j).
Proof.
  intros Hfit Hi Hr Ht Hj Hn. pose proof (search_fits_wf g s g_ok Hfit) as Hwf.
  destruct Hfit as ([Hcur Hex] & Hlen & Hne).
  assert (Hrok : routine_ok (state.opts g) (state.locks g) i r).
  { destruct g_ok as (_ & _ & _ & _ & Hrs & _). by apply Hrs. }
  destruct (routine_ok_dep _ _ _ _ j Hrok Hj) as (d & Hd & Hwd).
  unfold dfs_dependency. rewrite Hd. simpl.
  destruct (isChain_total _ _ _ i Hwf Hwd) as [chain ->]. simpl.
  destruct chain; [|by eexists].
  destruct (isCycleChain_total _ _ _ i Hwf Hwd) as [cycle ->]. simpl.
  destruct cycle; [by eexists|].
  rewrite slice_set_Ok by lia. simpl.
  apply slice_get_inv in Hd as [_ Hd].
  set (s1 := search.mk _ _ _ _).
  assert (Hfit1 : search_fits g s1).
  { split_and!; simpl.
    - split; [|done]. simpl. apply (one_per_routine_push g _ _ i r j (Some d)); try done; lia.
    - by rewrite length_insert.
    - unfold push. simpl. by destruct (depStack.chain (search.stack s)). }
  destruct (rec_total s1) as [s5 Hs5]; [done| |].
  { simpl. apply untraversed_set in Ht. lia. }
  rewrite Hs5. simpl. apply rec_keeps in Hs5 as (_ & Htr5 & _); [|by destruct Hfit1].
  rewrite slice_set_Ok; [by eexists|]. rewrite Htr5. simpl. rewrite length_insert. lia.
Qed.

Lemma dfs_routine_total s i :
  search_fits g s → 0 ≤ i < state.numberRoutines g →
  (untraversed (search.isTraversed s) ≤ n)%nat →
  is_Ok (dfs_routine rec g s i).
Proof.
  intros Hfit Hi Hn. unfold dfs_routine.
  destruct (state_ok_routine_at g i g_ok Hi) as (r & Hr & Hrok). rewrite Hr. simpl.
  apply slice_get_inv in Hr as [_ Hr].
  destruct (slice_get_Ok (search.isTraversed s) i) as [traversed Ht].
  { destruct Hfit as (_ & -> & _). lia. }
  rewrite Ht. simpl. apply slice_get_inv in Ht as [_ Ht].
  destruct traversed; [by eexists|].
  destruct (foldM_total (keeps_search g s) (dfs_dependency rec g i r)
              (seqZ 0 (routine.depCount r)) s) as (s' & Hs' & _); [| |by exists s'].
  { by destruct Hfit as ([_ ?] & _). }
  intros s1 j Hj%elem_of_seqZ Hs1.
  assert (Ht1 : search.isTraversed s1 !! Z.to_nat i = Some false).
  { by destruct Hs1 as (_ & -> & _). }
  destruct (dfs_dependency_total i r s1 j) as [s2 Hs2];
    [by eapply search_fits_keeps|done..|lia| |].
  { by destruct Hs1 as (_ & -> & _). }
  exists s2. split; [done|]. apply (keeps_search_trans g s s1 s2); [done|].
  apply (dfs_dependency_keeps rec g rec_keeps i r s1 j); try done; try lia.
  eapply keeps_search_ok; [|done]. by destruct Hfit.
Qed.
End dfs_total.

(** The comprehensive search returns when its budget is above the number
    of markers that are not set. *)
Lemma dfs_total fuel g : state_ok g → ∀ visiting s,
  search_fits g s → -1 ≤ visiting →
  (untraversed (search.isTraversed s) < fuel)%nat →
  is_Ok (dfs fuel g visiting s).
Proof.
  intros Hg. induction fuel as [|fuel IH]; intros visiting s Hfit Hv Hfuel; [lia|]. simpl.
  assert (search_fits g (search.enter s)) as Hfit'.
  { destruct Hfit as ([Hcur Hex] & Hlen & Hne). split_and!; try done.
    split; [done|]. by constructor. }
  match goal with |- is_Ok (foldM ?body ?s0 ?xs) =>
    destruct (foldM_total (keeps_search g (search.enter s)) body xs s0)
      as (s' & Hs' & _) end; [| |by exists s'].
  { by destruct Hfit' as ([_ ?] & _). }
  intros s1 i Hi%elem_of_seqZ Hs1.
  destruct (dfs_routine_total (dfs fuel g visiting) g fuel Hg) with (s := s1) (i := i)
    as [s2 Hs2].
  - intros s3 s4. apply dfs_keeps.
  - intros s3 Hs3 Hn3. by apply IH.
  - by eapply search_fits_keeps.
  - lia.
  - destruct Hs1 as (_ & -> & _). simpl. lia.
  - exists s2. split; [done|]. apply (keeps_search_trans g _ s1 s2); [done|].
    eapply dfs_routine_keeps; [|eapply keeps_search_ok; [by destruct Hfit'|done]|done].
    intros s3 s4. apply dfs_keeps.
Qed.

Lemma detect_total g : state_ok g → is_Ok (detect g).
Proof.
  intros Hg. unfold detect. pose proof Hg as (_ & Hn & _).
  remember (S (Z.to_nat (state.numberRoutines g))) as fuel eqn:Efuel.
  unfold make. rewrite decide_True by lia. simpl.
  match goal with |- is_Ok (foldM ?body ?s0 ?xs) =>
    destruct (foldM_total (detect_inv g) body xs s0) as (s' & Hs' & _) end;
    [| |by exists s'].
  { split_and!; [done| |done]. simpl. by rewrite length_replicate. }
  intros s i Hi%elem_of_seqZ Hs.
  destruct (state_ok_routine_at g i Hg) as (r & Hr & Hrok); [lia|]. rewrite Hr. simpl.
  apply slice_get_inv in Hr as [_ Hr].
  apply foldM_total; [done|]. intros s1 j Hj%elem_of_seqZ Hs1.
  match goal with |- ∃ s', ?body = Ok s' ∧ _ =>
    assert (is_Ok body) as [s2 Hs2] end.
  - destruct (routine_ok_dep _ _ _ _ j Hrok) as (d & Hd & Hwd); [lia|]. rewrite Hd. cbn [bind].
    apply slice_get_inv in Hd as [_ Hd].
    assert (Hset : slice_set (search.isTraversed s1) i true
                   = Ok (<[Z.to_nat i := true]> (search.isTraversed s1))).
    { apply slice_set_Ok. destruct Hs1 as (_ & -> & _). lia. }
    rewrite Hset. cbn [bind].
    destruct (detect_start g s1 i r j (Some d)
                (<[Z.to_nat i := true]> (search.isTraversed s1)) Hs1) as [Hok Hfuel];
      [lia|done|lia|done|done|].
    destruct (dfs_total fuel g Hg i
                (search.mk (push (search.stack s1) (Some d) i)
                   (<[Z.to_nat i := true]> (search.isTraversed s1))
                   (search.out s1) (search.explored s1))) as [s3 ->]; [|lia|by subst fuel|by eexists].
    split_and!; [done|simpl|simpl].
    + rewrite length_insert. by destruct Hs1 as (_ & ? & _).
    + unfold push. simpl. by destruct (depStack.chain (search.stack s1)).
  - exists s2. split; [done|]. subst fuel. apply (detect_step g s1 i r j s2); try done; lia.
Qed.

Lemma FindPotentialDeadlocks_total g :
  state_ok g →
  ∃ out, FindPotentialDeadlocks g = Ok (state.set_stderr g (state.stderr g ++ out)).
Proof.
  intros Hg. unfold FindPotentialDeadlocks.
  assert (Hsame : state.set_stderr g (state.stderr g ++ []) = g).
  { rewrite app_nil_r. by destruct g. }
  destruct (negb _); [exists []; by rewrite Hsame|].
  destruct (bool_decide _); [|exists []; by rewrite Hsame].
  destruct (isNumberDependenciesGreaterEqualTwo_total g Hg) as [enough ->]. simpl.
  destruct enough; simpl; [|exists []; by rewrite Hsame].
  destruct (detect_total g Hg) as [s ->]. simpl. by eexists.
Qed.

(** ** The reports of the comprehensive detection *)

Lemma path_linked_push σ st d i :
  path_linked σ st → isChain σ st d i = Ok true → path_linked σ (push st (Some d) i).
Proof.
  intros Hst Hchain k c d' Hk. unfold push. simpl.
  destruct (decide (k < length (depStack.chain st))%nat) as [Hlt|Hge].
  - rewrite lookup_app_l by done. rewrite take_app_le by lia. by apply Hst.
  - rewrite lookup_app_r by lia.
    destruct (k - length (depStack.chain st))%nat as [|k'] eqn:Ek; [|by destruct k'].
    simpl. intros [= <-] [= <-]. simpl.
    assert (k = length (depStack.chain st)) as -> by lia.
    rewrite take_app_length. by destruct st.
Qed.

Lemma one_per_routine_fresh g (chain : list stackElement) (t : list bool) i :
  one_per_routine g (chain, t) → 0 ≤ i → t !! Z.to_nat i = Some false →
  NoDup (i :: (stackElement.index <$> chain)) ∧ Forall (taken_from g) chain.
Proof.
  intros [Hnd Hall] Hi Ht. simpl in *. rewrite Forall_forall in Hall. split.
  - apply NoDup_cons. split; [|done].
    intros (c & -> & Hc)%list_elem_of_fmap. destruct (Hall c Hc) as [_ Hmark]. congruence.
  - apply Forall_forall. intros c Hc. by destruct (Hall c Hc).
Qed.

Section dfs_sound.
Variables (rec : search → result search) (g : state).
Hypothesis rec_keeps : ∀ s s', search_ok g s → rec s = Ok s' → keeps_search g s s'.
Hypothesis rec_sound : ∀ s s',
  search_ok g s → sound g s → rec s = Ok s' → Forall (closes_cycle g) (search.out s').

Lemma dfs_dependency_sound i r s j s' :
  search_ok g s → sound g s → 0 ≤ i → state.routines g !! Z.to_nat i = Some r →
  search.isTraversed s !! Z.to_nat i = Some false → 0 ≤ j < routine.depCount r →
  dfs_dependency rec g i r s j = Ok s' → Forall (closes_cycle g) (search.out s').
Proof.
  intros [Hcur Hex] [Hpath Hout] Hi Hr Ht Hj. unfold dfs_dependency.
  intros (dep & [_ Hdep]%slice_get_inv & Hbody)%bind_Ok_inv.
  apply bind_Ok_inv in Hbody as (d & Hd & Hbody).
  destruct dep as [d'|]; [|done]. injection Hd as ->.
  apply bind_Ok_inv in Hbody as (chain & Hchain & Hbody).
  destruct chain; [|by injection Hbody as <-].
  apply bind_Ok_inv in Hbody as (cycle & Hcycle & Hbody). destruct cycle.
  { injection Hbody as <-. simpl. apply Forall_app. split; [done|].
    apply Forall_singleton.
    destruct (one_per_routine_fresh g _ _ i Hcur Hi Ht) as [Hnd Htaken].
    exists (search.stack s), d, i, j, r. split_and!; try done; lia. }
  apply bind_Ok_inv in Hbody as (t1 & [_ ->]%slice_set_inv & Hbody).
  apply bind_Ok_inv in Hbody as (s5 & Hrec & Hbody).
  apply bind_Ok_inv in Hbody as (t2 & _ & [= <-]). simpl.
  apply rec_sound in Hrec; [done| |].
  - split; [|done]. simpl. by apply (one_per_routine_push g _ _ i r j (Some d)).
  - split; [|done]. simpl. by apply path_linked_push.
Qed.

Lemma dfs_routine_sound s i s' :
  search_ok g s → sound g s → dfs_routine rec g s i = Ok s' →
  Forall (closes_cycle g) (search.out s').
Proof.
  intros Hok [Hpath Hout]. unfold dfs_routine.
  intros (r & [Hi Hr]%slice_get_inv & Hbody)%bind_Ok_inv.
  apply bind_Ok_inv in Hbody as (traversed & [_ Ht]%slice_get_inv & Hbody).
  destruct traversed; [by injection Hbody as <-|].
  apply (foldM_inv (λ s1, keeps_search g s s1 ∧ Forall (closes_cycle g) (search.out s1)))
    in Hbody; [by destruct Hbody| |].
  { split; [|done]. by destruct Hok. }
  intros s1 j s2 Hj%elem_of_seqZ [Hs1 Hout1] Hstep.
  assert (Ht1 : search.isTraversed s1 !! Z.to_nat i = Some false).
  { by destruct Hs1 as (_ & -> & _). }
  assert (Hok1 : search_ok g s1) by by eapply keeps_search_ok.
  split.
  - apply (keeps_search_trans g s s1 s2); [done|].
    apply (dfs_dependency_keeps rec g rec_keeps i r s1 j); try done; lia.
  - apply (dfs_dependency_sound i r s1 j); try done; try lia.
    split; [|done]. by destruct Hs1 as (-> & _).
Qed.
End dfs_sound.

Lemma dfs_sound fuel g : ∀ visiting s s',
  search_ok g s → sound g s → dfs fuel g visiting s = Ok s' →
  Forall (closes_cycle g) (search.out s').
Proof.
  induction fuel as [|fuel IH]; intros visiting s s' Hok [Hpath Hout]; [done|]. simpl.
  assert (search_ok g (search.enter s)) as Hok'.
  { destruct Hok as [Hcur Hex]. split; [done|]. by constructor. }
  intros Hfold.
  apply (foldM_inv (λ s1, keeps_search g (search.enter s) s1
                          ∧ Forall (closes_cycle g) (search.out s1))) in Hfold;
    [by destruct Hfold| |].
  { split; [|done]. by destruct Hok'. }
  intros s1 i s2 _ [Hs1 Hout1] Hstep.
  assert (Hok1 : search_ok g s1) by by eapply keeps_search_ok.
  split.
  - apply (keeps_search_trans g _ s1 s2); [done|].
    apply (dfs_routine_keeps (dfs fuel g visiting) g
             (λ s3 s4, dfs_keeps fuel g visiting s3 s4) s1 i s2 Hok1 Hstep).
  - apply (dfs_routine_sound (dfs fuel g visiting) g) with (s := s1) (i := i); try done.
    + intros s3 s4. apply dfs_keeps.
    + intros s3 s4. apply IH.
    + split; [|done]. by destruct Hs1 as (-> & _).
Qed.

Lemma path_linked_single σ bottom c : path_linked σ (depStack.mk bottom [c]).
Proof. intros k c' d Hk. simpl. destruct k as [|[|k]]; [lia|done..]. Qed.

Lemma detect_sound g s : detect g = Ok s → Forall (closes_cycle g) (search.out s).
Proof.
  unfold detect. intros (t & [Hn ->]%make_inv & Hfold)%bind_Ok_inv.
  apply (foldM_inv (λ s1, detect_inv g s1 ∧ Forall (closes_cycle g) (search.out s1)))
    in Hfold; [by destruct Hfold| |].
  { split; [|done]. split_and!; [done| |done]. simpl. by rewrite length_replicate. }
  intros s1 i s2 Hi%elem_of_seqZ Hs1.
  intros (r & [_ Hr]%slice_get_inv & Hinner)%bind_Ok_inv.
  apply (foldM_inv (λ s1, detect_inv g s1 ∧ Forall (closes_cycle g) (search.out s1)))
    in Hinner; [done..|].
  intros s3 j s4 Hj%elem_of_seqZ [Hs3 Hout3] Hstep. split.
  { apply (detect_step g s3 i r j s4); try done; lia. }
  apply bind_Ok_inv in Hstep as (dep & [_ Hdep]%slice_get_inv & Hbody).
  apply bind_Ok_inv in Hbody as (t3 & Ht3 & Hbody).
  destruct (detect_start g s3 i r j dep t3) as [Hok _]; [done|lia|done|lia|done..|].
  apply bind_Ok_inv in Hbody as (s5 & Hdfs & [= <-]). simpl.
  apply dfs_sound in Hdfs; [done..|].
  split; [|done]. simpl. destruct Hs3 as (Hch & _).
  destruct (search.stack s3) as [bottom chain]. simpl in Hch. subst chain.
  apply path_linked_single.
Qed.

(** The comprehensive detection changes nothing but standard error. *)
Lemma FindPotentialDeadlocks_frame g g' :
  FindPotentialDeadlocks g = Ok g' →
  ∃ out, g' = state.set_stderr g (state.stderr g ++ out).
Proof.
  assert (Hsame : state.set_stderr g (state.stderr g ++ []) = g).
  { rewrite app_nil_r. by destruct g. }
  unfold FindPotentialDeadlocks. destruct (negb _); [intros [= <-]; by exists []|].
  destruct (bool_decide _); [|intros [= <-]; by exists []].
  intros (enough & _ & H)%bind_Ok_inv. destruct enough; simpl in H;
    [|injection H as <-; by exists []].
  apply bind_Ok_inv in H as (s & _ & [= <-]). by exists (search.out s).
Qed.

(** ** The comprehensive detection at the end of a program *)

(** In every state that a program reaches from its start by calls of the
    library that return, [FindPotentialDeadlocks] returns: it does not
    panic, it does not end the program, the recursion budget of the search
    is enough, and it changes nothing but standard error. *)
Theorem FindPotentialDeadlocks_returns (opts : options) (numGoroutine : Z)
    (calls : list apiCall) (g : state) :
  opts_ok opts →
  foldM runCall (start opts numGoroutine) calls = Ok g →
  ∃ out, FindPotentialDeadlocks g = Ok (state.set_stderr g (state.stderr g ++ out)).
Proof.
  intros Hopts Hrun. apply FindPotentialDeadlocks_total.
  eapply runCalls_state_ok; [|done]. by apply state_ok_start.
Qed.

Lemma FindPotentialDeadlocks_returns_witness :
  ∃ g, foldM runCall (start exOpts 2) exCycleCalls = Ok g
       ∧ ∃ out, FindPotentialDeadlocks g
                = Ok (state.set_stderr g (state.stderr g ++ out)).
Proof.
  eexists. split; [vm_compute; reflexivity|].
  apply (FindPotentialDeadlocks_returns exOpts 2 exCycleCalls).
  - unfold opts_ok. simpl. lia.
  - vm_compute. reflexivity.
Defined.

(** Every potential deadlock that [FindPotentialDeadlocks] reports is a
    cycle: a path of dependencies of pairwise different routines, each
    accepted by [isChain] as an extension of the ones before it, followed
    by a dependency of one more routine that [isChain] accepts and
    [isCycleChain] accepts as closing the path. Nothing else is written,
    and nothing but standard error changes. *)
Theorem FindPotentialDeadlocks_reports_cycles (g g' : state) :
  FindPotentialDeadlocks g = Ok g' →
  ∃ out, g' = state.set_stderr g (state.stderr g ++ out) ∧ Forall (closes_cycle g) out.
Proof.
  assert (Hsame : state.set_stderr g (state.stderr g ++ []) = g).
  { rewrite app_nil_r. by destruct g. }
  unfold FindPotentialDeadlocks. destruct (negb _); [intros [= <-]; by exists []|].
  destruct (bool_decide _); [|intros [= <-]; by exists []].
  intros (enough & _ & H)%bind_Ok_inv. destruct enough; simpl in H;
    [|injection H as <-; by exists []].
  apply bind_Ok_inv in H as (s & Hs%detect_sound & [= <-]). by exists (search.out s).
Qed.

Lemma FindPotentialDeadlocks_reports_cycles_witness :
  ∃ g g', foldM runCall (start exOpts 2) exCycleCalls = Ok g
    ∧ FindPotentialDeadlocks g = Ok g'
    ∧ state.stderr g' ≠ []
    ∧ ∃ out, g' = state.set_stderr g (state.stderr g ++ out) ∧ Forall (closes_cycle g) out.
Proof.
  eexists _, _. split; [vm_compute; reflexivity|].
  split; [vm_compute; reflexivity|]. split; [done|].
  apply FindPotentialDeadlocks_reports_cycles. vm_compute. reflexivity.
Defined.

(** ** Try-lock *)

Lemma returns_or_panics_bind {A B} (r : result A) (f : A → result B) :
  returns_or_panics r → (∀ a, r = Ok a → returns_or_panics (f a)) →
  returns_or_panics (bind r f).
Proof. destruct r; simpl; try done. intros _ H. by apply H. Qed.

Lemma returns_or_panics_deref σ m : returns_or_panics (deref σ m).
Proof. unfold deref. destruct m as [l|]; [|done]. by destruct (σ !! l). Qed.

Lemma returns_or_panics_slice_get {A} (s : list A) i : returns_or_panics (slice_get s i).
Proof. unfold slice_get. case_decide; [|done]. by destruct (s !! _). Qed.

Lemma returns_or_panics_slice_set {A} (s : list A) i x :
  returns_or_panics (slice_set s i x).
Proof. unfold slice_set. by case_decide. Qed.

Lemma returns_or_panics_make {A} n (z : A) : returns_or_panics (make n z).
Proof. unfold make. by case_decide. Qed.

Lemma returns_or_panics_updObj g m f : returns_or_panics (updObj g m f).
Proof.
  unfold updObj. destruct m; [|done].
  apply returns_or_panics_bind; [apply returns_or_panics_deref|done].
Qed.

Lemma returns_or_panics_setRLock σ m i v : returns_or_panics (setRLock σ m i v).
Proof.
  unfold setRLock. destruct m; [|done].
  apply returns_or_panics_bind; [apply returns_or_panics_deref|done].
Qed.

Lemma returns_or_panics_newRoutine g c : returns_or_panics (newRoutine g c).
Proof.
  unfold newRoutine. destruct (negb _ && negb _); [done|].
  apply returns_or_panics_bind; [apply returns_or_panics_make|]. intros hs _.
  apply returns_or_panics_bind; [apply returns_or_panics_make|]. intros deps _.
  case_bool_decide; [done|].
  apply returns_or_panics_bind; [apply returns_or_panics_slice_set|done].
Qed.

Lemma returns_or_panics_ensureRoutine g c : returns_or_panics (ensureRoutine g c).
Proof.
  unfold ensureRoutine. apply returns_or_panics_bind; [|done].
  case_bool_decide; [apply returns_or_panics_newRoutine|done].
Qed.

Lemma set_prims_id g a x :
  state.prims g !! a = Some x → state.set_prims g (<[a := x]> (state.prims g)) = g.
Proof. intros H. rewrite insert_id by done. by destruct g. Qed.

Lemma tryPrim_failed g p f g' :
  (∀ x, (f x).2 = false → (f x).1 = x) → tryPrim g p f = Ok (g', false) → g' = g.
Proof.
  intros Hf. unfold tryPrim. destruct p as [a|]; [|done].
  destruct (state.prims g !! a) as [x|] eqn:Hx; [|done].
  intros [= <- Hres]. rewrite (Hf x Hres). by apply set_prims_id.
Qed.

Lemma sync_TryLock_failed x : (sync.TryLock x).2 = false → (sync.TryLock x).1 = x.
Proof. unfold sync.TryLock. by destruct (sync.free x). Qed.

Lemma sync_TryRLock_failed x : (sync.TryRLock x).2 = false → (sync.TryRLock x).1 = x.
Proof. unfold sync.TryRLock. by destruct (sync.writer x). Qed.

Lemma primitiveTryLock_failed g m rLock g' :
  primitiveTryLock g m rLock = Ok (g', false) → g' = g.
Proof.
  unfold primitiveTryLock. intros ([[d l] t] & _ & H)%bind_Ok_inv.
  destruct d; [|destruct rLock]; revert H; apply tryPrim_failed;
    auto using sync_TryLock_failed, sync_TryRLock_failed.
Qed.

(** A try-lock that fails leaves everything as it was. A try-lock that
    returns false has changed nothing: not the platform lock, not the
    counters of the wrapper, not the routines. And a try-lock on a created
    lock whose platform try-lock fails returns false: it does not look for
    the routine of the caller and registers none. *)
Theorem tryLockInt_failed_changes_nothing (c : caller) (m : mutexInt) (rLock : bool)
    (g : state) :
  (∀ g', tryLockInt c m rLock g = Ok (g', false) → g' = g)
  ∧ ∀ o g',
      deref (state.locks g) m = Ok o →
      (options.activated (state.opts g) = true → obj.getIn o = true) →
      primitiveTryLock g m rLock = Ok (g', false) →
      tryLockInt c m rLock g = Ok (g, false).
Proof.
  split.
  - intros g'. unfold tryLockInt.
    destruct (negb (options.activated _)); [apply primitiveTryLock_failed|].
    intros (o & _ & H)%bind_Ok_inv. destruct (negb (obj.getIn o)); [done|].
    apply bind_Ok_inv in H as ([g1 res] & Hprim & H).
    apply bind_Ok_inv in H as (g2 & Hg2 & H).
    assert (res = false) as ->.
    { revert H. destruct (negb _ && negb _); [by intros [= _ ->]|].
      destruct (bool_decide _ && res); [|by intros [= _ ->]].
      intros (r & _ & H)%bind_Ok_inv. apply bind_Ok_inv in H as ([r' σ'] & _ & H).
      by apply bind_Ok_inv in H as (rs & _ & [= _ ->]). }
    apply primitiveTryLock_failed in Hprim as ->. injection Hg2 as <-.
    rewrite andb_false_r in H. by destruct (negb _ && negb _); injection H as <-.
  - intros o g' Ho Hin Hprim. pose proof (primitiveTryLock_failed _ _ _ _ Hprim) as ->.
    unfold tryLockInt. destruct (options.activated (state.opts g)); [|done]. cbn [negb].
    rewrite Ho. cbn [bind]. rewrite Hin by done. cbn [negb]. rewrite Hprim. cbn [bind].
    rewrite andb_false_r. by destruct (negb _ && negb _).
Qed.

Lemma tryLockInt_failed_changes_nothing_witness :
  ∃ g, foldM runCall (start exOpts 2) exLocked = Ok g
       ∧ tryLockInt exY (Some 2%positive) false g = Ok (g, false).
Proof.
  eexists.
  match goal with |- ?H ∧ _ => assert H as Hrun by (vm_compute; reflexivity) end.
  split; [exact Hrun|].
  eapply (proj2 (tryLockInt_failed_changes_nothing exY (Some 2%positive) false _)).
  - vm_compute. reflexivity.
  - intros _. vm_compute. reflexivity.
  - vm_compute. reflexivity.
Defined.

Lemma updObj_inv g m f g' : updObj g m f = Ok g' → ∃ σ, g' = state.set_locks g σ.
Proof.
  unfold updObj. destruct m; [|done]. intros (o & _ & [= <-])%bind_Ok_inv. eauto.
Qed.

(** A successful try-lock of a goroutine that is registered, but not as
    the first, is entered in the holding set of the first routine, and the
    unlock of that goroutine does not take it out again. *)
Theorem tryLock_is_held_by_first_routine (c : caller) (m : mutexInt) (g g1 g2 : state)
    (r0 : routine) :
  state_ok g →
  options.activated (state.opts g) = true →
  options.periodicDetection (state.opts g) || options.comprehensiveDetection (state.opts g)
    = true →
  1 < state.numGoroutine g →
  0 < getRoutineIndex g c →
  state.routines g !! 0%nat = Some r0 →
  MutexAPI.TryLock c m g = Ok (g1, true) →
  MutexAPI.Unlock c m g1 = Ok g2 →
  ∃ r0', state.routines g2 !! 0%nat = Some r0' ∧ held r0' = held r0 ++ [m].
Proof.
  intros Hok Hact Han Hnum Hidx Hr0. unfold MutexAPI.TryLock, MutexAPI.Unlock, tryLockInt.
  rewrite Hact. simpl. intros (o & _ & H)%bind_Ok_inv. destruct (negb (obj.getIn o)); [done|].
  apply bind_Ok_inv in H as ([g3 res] & [ps ->]%primitiveTryLock_inv & H).
  apply bind_Ok_inv in H as (g4 & Hg4 & H).
  assert (negb (options.periodicDetection (state.opts g)) &&
          negb (options.comprehensiveDetection (state.opts g)) = false) as Hoff.
  { by destruct (options.periodicDetection _), (options.comprehensiveDetection _). }
  simpl in H. rewrite Hoff in H.
  destruct res; [|rewrite andb_false_r in H; by injection H].
  apply bind_Ok_inv in Hg4 as ([g5 index] & Hens & Hg4).
  unfold ensureRoutine in Hens. apply bind_Ok_inv in Hens as (g6 & Hg6 & [= <- <-]).
  assert (getRoutineIndex (state.set_prims g ps) c = getRoutineIndex g c) as Hsame by done.
  rewrite Hsame, bool_decide_eq_false_2 in Hg6 by lia. injection Hg6 as <-.
  apply bind_Ok_inv in Hg4 as (g7 & [σ7 ->]%updObj_inv & [σ8 ->]%updObj_inv).
  simpl in H. rewrite bool_decide_eq_true_2 in H by done. simpl in H.
  apply bind_Ok_inv in H as (r & [_ Hr]%slice_get_inv & H).
  apply bind_Ok_inv in H as ([r' σ'] & Hupd & H).
  apply bind_Ok_inv in H as (rs & [Hrange ->]%slice_set_inv & [= <-]).
  change (Z.to_nat 0) with 0%nat in *. simpl in Hr. rewrite Hr0 in Hr. injection Hr as <-.
  apply updateTryLock_inv in Hupd as (Hmax & _ & Hhc & ->).
  (* the unlock *)
  simpl. rewrite Hact. intros (g8 & Hunlock & H)%bind_Ok_inv.
  apply bind_Ok_inv in H as ([[d l] t] & _ & [ps' ->]%onPrim_inv). simpl.
  unfold unlockInt in Hunlock. apply bind_Ok_inv in Hunlock as (o' & _ & H).
  destruct (negb (obj.getIn o')); [done|]. destruct (bool_decide (_ = 0)); [done|].
  apply defer_Ok_inv in H as (g9 & Hbody & Hdef). cbv beta in Hbody, Hdef.
  apply bind_Ok_inv in Hdef as (g10 & [σ10 ->]%updObj_inv & [σ11 ->]%updObj_inv).
  simpl in Hbody |- *. rewrite Hoff in Hbody.
  apply bind_Ok_inv in Hbody as (rk & _ & H). apply bind_Ok_inv in H as (rk' & _ & H).
  apply bind_Ok_inv in H as (rs & [_ ->]%slice_set_inv & [= <-]). simpl.
  change (getRoutineIndex _ c) with (getRoutineIndex g c).
  rewrite list_lookup_insert_ne by lia. simpl in Hrange.
  rewrite list_lookup_insert_eq by lia. eexists. split; [done|].
  unfold held at 1. simpl. rewrite int_add_small.
  - by apply held_push.
  - destruct Hok as ((? & _) & _). unfold int_range. lia.
Qed.

Lemma tryLock_is_held_by_first_routine_witness :
  ∃ g g1 g2 r0,
    foldM runCall (start exOpts 2) exRegistered = Ok g
    ∧ state.routines g !! 0%nat = Some r0 ∧ held r0 = []
    ∧ MutexAPI.TryLock exY (Some 4%positive) g = Ok (g1, true)
    ∧ MutexAPI.Unlock exY (Some 4%positive) g1 = Ok g2
    ∧ ∃ r0', state.routines g2 !! 0%nat = Some r0'
             ∧ held r0' = held r0 ++ [Some 4%positive].
Proof.
  eexists _, _, _, _. split; [vm_compute; reflexivity|].
  split; [vm_compute; reflexivity|]. split; [reflexivity|].
  split; [vm_compute; reflexivity|]. split; [vm_compute; reflexivity|].
  eapply (tryLock_is_held_by_first_routine exY (Some 4%positive)).
  - apply (runCalls_state_ok exRegistered (start exOpts 2)).
    + apply state_ok_start. unfold opts_ok. simpl. lia.
    + vm_compute. reflexivity.
  - reflexivity.
  - reflexivity.
  - vm_compute. reflexivity.
  - vm_compute. reflexivity.
  - vm_compute. reflexivity.
  - vm_compute. reflexivity.
  - vm_compute. reflexivity.
Defined.

(** ** The errors of an unlock *)

Lemma unlockInt_unregistered c l o g :
  state.locks g !! l = Some o → obj.getIn o = true → obj.getNumberLocked o ≠ 0 →
  options.periodicDetection (state.opts g) || options.comprehensiveDetection (state.opts g)
    = true →
  state.mapIndex g !! caller.goid c = None →
  unlockInt c (Some l) g = Panic "index out of range".
Proof.
  intros Hl Hin Hn Han Hc. unfold unlockInt, deref. rewrite Hl. simpl. rewrite Hin. simpl.
  rewrite bool_decide_eq_false_2 by done. unfold defer.
  assert (negb (options.periodicDetection (state.opts g)) &&
          negb (options.comprehensiveDetection (state.opts g)) = false) as ->.
  { by destruct (options.periodicDetection _), (options.comprehensiveDetection _). }
  unfold getRoutineIndex. rewrite Hc. simpl.
  unfold addNumberLocked, addIsLockedRoutineIndex, updObj, deref. rewrite Hl. simpl.
  by rewrite lookup_insert_eq.
Qed.

(** The errors of an unlock, with the detector activated: a lock that was
    not made by [NewLock] or [NewRWLock] and a lock that is not locked are
    refused with a panic; and with an analysis enabled, the unlock of a
    locked lock by a goroutine that has not yet locked any lock itself
    panics on [routines[-1]] before the platform lock is released. *)
Theorem unlock_errors (unlock : caller → mutexInt → state → result state)
    (c : caller) (l : loc) (o : lockObj) (g : state) :
  unlock ∈ unlockMethods →
  options.activated (state.opts g) = true →
  state.locks g !! l = Some o →
  (obj.getIn o = false → unlock c (Some l) g = Panic notCreated)
  ∧ (obj.getIn o = true → obj.getNumberLocked o = 0 →
     unlock c (Some l) g = Panic "Tried to unLock lock which was not locked.")
  ∧ (obj.getIn o = true → obj.getNumberLocked o ≠ 0 →
     options.periodicDetection (state.opts g)
       || options.comprehensiveDetection (state.opts g) = true →
     state.mapIndex g !! caller.goid c = None →
     unlock c (Some l) g = Panic "index out of range").
Proof.
  intros Hu Hact Hl.
  assert (∀ msg, unlockInt c (Some l) g = Panic msg → unlock c (Some l) g = Panic msg)
    as Hpanic.
  { intros msg Hmsg. unfold unlockMethods in Hu.
    repeat (apply elem_of_cons in Hu as [->|Hu]);
      [| | |by apply elem_of_nil in Hu];
      unfold MutexAPI.Unlock, RWMutexAPI.Unlock, RWMutexAPI.RUnlock;
      by rewrite Hact, Hmsg. }
  split_and!.
  - intros Hin. apply Hpanic. unfold unlockInt, deref. rewrite Hl. simpl. by rewrite Hin.
  - intros Hin Hn. apply Hpanic. unfold unlockInt, deref. rewrite Hl. simpl.
    rewrite Hin. simpl. by rewrite bool_decide_eq_true_2.
  - intros Hin Hn Han Hc. apply Hpanic. by apply (unlockInt_unregistered c l o).
Qed.

Lemma unlock_errors_witness :
  ∃ g o, foldM runCall (start exOpts 2) exLocked = Ok g
    ∧ state.locks g !! 2%positive = Some o
    ∧ MutexAPI.Unlock exY (Some 2%positive) g = Panic "index out of range".
Proof.
  eexists _, _. split; [vm_compute; reflexivity|]. split; [vm_compute; reflexivity|].
  eapply (unlock_errors MutexAPI.Unlock exY 2%positive).
  - by left.
  - reflexivity.
  - vm_compute. reflexivity.
  - reflexivity.
  - done.
  - reflexivity.
  - reflexivity.
Defined.

(** ** Lock and unlock as a round trip *)

Lemma foldM_app {I S} (body : S → I → result S) xs ys s s' :
  foldM body s (xs ++ ys) = Ok s' →
  ∃ s1, foldM body s xs = Ok s1 ∧ foldM body s1 ys = Ok s'.
Proof.
  revert s. induction xs as [|x xs IH]; intros s; simpl; [by eauto|].
  intros (s0 & H0 & Hrest)%bind_Ok_inv. rewrite H0. simpl. by apply IH.
Qed.

(** Releasing the lock on top of the holding set. *)
Lemma updateUnlock_top (r r' : routine) (below : list mutexInt) m :
  0 ≤ routine.holdingCount r ≤ Z.of_nat (length (routine.holdingSet r)) →
  routine.holdingCount r < 2 ^ 63 →
  held r = below ++ [m] →
  updateUnlock r m = Ok r' →
  routine.holdingCount r' = routine.holdingCount r - 1 ∧ held r' = below
  ∧ length (routine.holdingSet r') = length (routine.holdingSet r).
Proof.
  intros Hhc Hmax Hheld. unfold updateUnlock.
  destruct (updateUnlock_scan (routine.holdingSet r) (routine.holdingCount r) m Hhc)
    as [_ Hsome].
  rewrite (Hsome below []) by (done || apply not_elem_of_nil). simpl. intros [= <-].
  assert (Hlen : (length below + 1 = Z.to_nat (routine.holdingCount r))%nat).
  { unfold held in Hheld. rewrite <- (length_take_le (routine.holdingSet r)
      (Z.to_nat (routine.holdingCount r))) by lia. rewrite Hheld, length_app. done. }
  unfold held. simpl. rewrite int_sub_small by (unfold int_range; lia).
  split; [done|]. unfold splice. split.
  - rewrite Nat2Z.id. rewrite take_app_le by (rewrite length_take; lia).
    rewrite take_take. replace (Z.to_nat (routine.holdingCount r - 1)) with (length below)
      by lia.
    rewrite Nat.min_id. unfold held in Hheld.
    replace (take (length below) (routine.holdingSet r))
      with (take (length below) (take (Z.to_nat (routine.holdingCount r))
                                   (routine.holdingSet r))).
    + rewrite Hheld. by rewrite take_app_length.
    + rewrite take_take. f_equal. lia.
  - rewrite !length_app, length_take, length_drop. simpl. lia.
Qed.

Lemma held_pushed opts (r r1 : routine) m :
  options.maxNumberOfDependentLocks opts < 2 ^ 63 →
  routine.holdingCount r < options.maxNumberOfDependentLocks opts →
  0 ≤ routine.holdingCount r < Z.of_nat (length (routine.holdingSet r)) →
  routine.holdingCount r1 = int_add (routine.holdingCount r) 1 →
  routine.holdingSet r1 = <[Z.to_nat (routine.holdingCount r) := m]> (routine.holdingSet r) →
  routine.holdingCount r1 = routine.holdingCount r + 1
  ∧ held r1 = held r ++ [m]
  ∧ length (routine.holdingSet r1) = length (routine.holdingSet r).
Proof.
  intros Hopts Hmax Hhc Hc Hs. rewrite int_add_small in Hc by (unfold int_range; lia).
  split; [done|]. split; [|by rewrite Hs, length_insert].
  unfold held at 1. rewrite Hc, Hs. by apply held_push.
Qed.

(** The rest of a pattern after an acquisition of [m]: a pattern that
    restores what is held, the release of [m], and another such pattern. *)
Lemma restores_release opts inner rest (r r1 : routine) σ1 p1 r' σ' p' m :
  restores_holding opts inner → restores_holding opts rest →
  0 ≤ routine.holdingCount r → routine.holdingCount r1 < 2 ^ 63 →
  routine.holdingCount r1 = routine.holdingCount r + 1 →
  held r1 = held r ++ [m] →
  length (routine.holdingSet r1) = length (routine.holdingSet r) →
  routine.holdingCount r1 ≤ Z.of_nat (length (routine.holdingSet r1)) →
  foldM (stepOp opts) (r1, σ1, p1) (inner ++ Release m :: rest) = Ok (r', σ', p') →
  routine.holdingCount r' = routine.holdingCount r ∧ held r' = held r
  ∧ length (routine.holdingSet r') = length (routine.holdingSet r).
Proof.
  intros IHi IHr Hhc Hmax Hc1 Hh1 Hl1 Hle1.
  intros ([[r2 σ2] p2] & Hinner & Hrest)%foldM_app.
  apply IHi in Hinner as (Hc2 & Hh2 & Hl2); [|lia].
  simpl in Hrest. apply bind_Ok_inv in Hrest as ([[r3 σ3] p3] & Hrel & Hrest).
  apply bind_Ok_inv in Hrel as (r3' & Hunlock & [= <- <- <-]).
  apply (updateUnlock_top r2 r3' (held r) m) in Hunlock as (Hc3 & Hh3 & Hl3);
    [|lia|lia|by rewrite Hh2, Hh1].
  apply IHr in Hrest as (Hc4 & Hh4 & Hl4); [|lia].
  split_and!; [lia|by rewrite Hh4, Hh3|lia].
Qed.

(** Lock and unlock are a round trip on the holding set: after a pattern
    in which every acquisition, by lock or by try-lock, is released after
    those made in between, the routine holds the locks it held before, in
    the same order. *)
Theorem balanced_restores_holding (opts : options) (ops : list lockOp) :
  options.maxNumberOfDependentLocks opts < 2 ^ 63 →
  balanced ops → restores_holding opts ops.
Proof.
  intros Hopts.
  induction 1 as [|c m rLock inner rest _ IHi _ IHr|m rLock inner rest _ IHi _ IHr];
    intros r σ p r' σ' p' Hhc.
  - by intros [= <- <- <-].
  - unfold runPattern. cbn [foldM]. intros ([[r1 σ1] p1] & Hacq & Hrest)%bind_Ok_inv.
    cbn [stepOp] in Hacq. apply bind_Ok_inv in Hacq as ([r1' σ1'] & Hupd & [= <- <- <-]).
    pose proof (updateLock_length _ _ _ _ _ _ _ _ _ Hupd) as Hlen.
    pose proof Hupd as (_ & _ & _ & _ & Hc1 & Hs1 & _)%updateLock_effect.
    apply updateLock_inv in Hupd as (_ & _ & _ & _ & _ & _ & Hmax & _).
    destruct (held_pushed opts r r1' m Hopts Hmax Hlen Hc1 Hs1) as (Hc & Hh & Hl).
    eapply (restores_release opts inner rest r r1'); try done; lia.
  - unfold runPattern. cbn [foldM]. intros ([[r1 σ1] p1] & Hacq & Hrest)%bind_Ok_inv.
    cbn [stepOp] in Hacq. apply bind_Ok_inv in Hacq as ([r1' σ1'] & Hupd & [= <- <- <-]).
    apply updateTryLock_inv in Hupd as (Hmax & _ & Hlen & ->).
    match type of Hrest with foldM _ (?r1, _, _) _ = _ =>
      destruct (held_pushed opts r r1 m Hopts Hmax Hlen eq_refl eq_refl) as (Hc & Hh & Hl) end.
    eapply (restores_release opts inner rest r); try done; lia.
Qed.

Lemma balanced_restores_holding_witness :
  ∃ r' σ' p', runPattern exOpts exPattern (exFresh, exMutexes, 9%positive) = Ok (r', σ', p')
    ∧ routine.holdingCount r' = routine.holdingCount exFresh ∧ held r' = held exFresh
    ∧ length (routine.holdingSet r') = length (routine.holdingSet exFresh).
Proof.
  eexists _, _, _.
  match goal with |- ?H ∧ _ => assert H as Hrun by (vm_compute; reflexivity) end.
  split; [exact Hrun|].
  eapply (balanced_restores_holding exOpts exPattern); [| | |exact Hrun].
  - simpl. lia.
  - apply (balanced_acquire _ _ _ [Acquire (exCaller 7 11) exB false; Release exB] []).
    + apply (balanced_acquire _ _ _ [] []); apply balanced_nil.
    + apply balanced_nil.
  - simpl. lia.
Defined.

(** ** The gate of the periodical detection *)

Lemma periodicalDetection_body_exact lh sthNew nr k r :
  holding_ok r → 0 ≤ k < Z.of_nat (length lh) → 0 ≤ nr < 2 ^ 63 - 1 →
  periodicalDetection_body (lh, sthNew, nr) (k, r)
  = Ok (<[Z.to_nat k := topOfHolding r]> lh,
        sthNew || changed lh (k, r),
        nr + Z.of_nat (length (changedSeveral lh [(k, r)]))).
Proof.
  intros [Hhc Hmax] Hk Hnr. unfold periodicalDetection_body, changedSeveral, changed,
    topOfHolding. simpl.
  rewrite int_sub_small by (unfold int_range; lia).
  destruct (lookup_lt_is_Some_2 lh (Z.to_nat k)) as [last Hlast]; [lia|].
  rewrite (slice_get_Some lh k last) by (lia || done). rewrite Hlast. simpl.
  destruct (decide (1 ≤ routine.holdingCount r)) as [Hpos|Hzero].
  - rewrite (bool_decide_eq_true_2 (0 ≤ _)) by lia.
    rewrite (bool_decide_eq_true_2 (1 ≤ _)) by lia.
    destruct (lookup_lt_is_Some_2 (routine.holdingSet r)
                (Z.to_nat (routine.holdingCount r - 1))) as [top Htop]; [lia|].
    rewrite (slice_get_Some _ _ top) by (lia || done). rewrite Htop. simpl.
    destruct (decide (last = top)) as [->|Hne].
    + rewrite !(bool_decide_eq_true_2 (top = top)) by done. simpl.
      rewrite (bool_decide_eq_false_2 (_ < 0)) by lia. simpl.
      rewrite list_insert_id by done. rewrite orb_false_r. do 3 f_equal. lia.
    + rewrite !(bool_decide_eq_false_2 (last = top)) by done. simpl.
      rewrite slice_set_Ok by lia. simpl. rewrite orb_true_r. do 2 f_equal.
      destruct (decide (1 < routine.holdingCount r)).
      * rewrite (bool_decide_eq_true_2 (0 < _)) by lia.
        rewrite (bool_decide_eq_true_2 (1 < _)) by lia. simpl.
        rewrite int_add_small by (unfold int_range; lia). done.
      * rewrite (bool_decide_eq_false_2 (0 < _)) by lia.
        rewrite (bool_decide_eq_false_2 (1 < _)) by lia. simpl. lia.
  - rewrite (bool_decide_eq_false_2 (0 ≤ _)) by lia.
    rewrite (bool_decide_eq_false_2 (1 ≤ _)) by lia. simpl.
    rewrite (bool_decide_eq_true_2 (_ < 0)) by lia. simpl.
    rewrite (bool_decide_eq_false_2 (1 < _)) by lia. rewrite andb_false_r. simpl.
    destruct (decide (last = None)) as [->|Hne].
    + rewrite !(bool_decide_eq_true_2 (None = None)) by done. simpl.
      rewrite list_insert_id by done. rewrite orb_false_r. do 3 f_equal. lia.
    + rewrite !(bool_decide_eq_false_2 (last = None)) by done. simpl.
      rewrite slice_set_Ok by lia. simpl. rewrite orb_true_r. do 3 f_equal. lia.
Qed.

Lemma indexed_cons k r rs : indexed k (r :: rs) = (k, r) :: indexed (k + 1) rs.
Proof. apply zip_seqZ_cons. Qed.

Lemma indexed_ge k rs ir : ir ∈ indexed k rs → k ≤ ir.1.
Proof.
  revert k. induction rs as [|r rs IH]; intros k; [by intros ?%elem_of_nil|].
  rewrite indexed_cons. intros [->|Hin%IH]%elem_of_cons; simpl; lia.
Qed.

(** An entry of the snapshot that is written is not read afterwards. *)
Lemma changed_insert lh k x irs :
  0 ≤ k → (∀ ir, ir ∈ irs → k < ir.1) →
  existsb (changed (<[Z.to_nat k := x]> lh)) irs = existsb (changed lh) irs
  ∧ changedSeveral (<[Z.to_nat k := x]> lh) irs = changedSeveral lh irs.
Proof.
  intros Hk. unfold changedSeveral. induction irs as [|ir irs IH]; intros Hall; [done|].
  destruct IH as [IH1 IH2]; [intros ir' Hir'; apply Hall; by right|]. simpl.
  assert (changed (<[Z.to_nat k := x]> lh) ir = changed lh ir) as ->.
  { unfold changed. rewrite list_lookup_insert_ne; [done|].
    specialize (Hall ir (list_elem_of_here _ _)). lia. }
  by rewrite IH1, IH2.
Qed.

Lemma periodicalDetection_scan_exact (rs : list routine) : ∀ k lh sthNew nr,
  (∀ r, r ∈ rs → holding_ok r) → 0 ≤ k →
  k + Z.of_nat (length rs) ≤ Z.of_nat (length lh) →
  0 ≤ nr → nr + Z.of_nat (length rs) < 2 ^ 63 →
  foldM periodicalDetection_body (lh, sthNew, nr) (indexed k rs)
  = Ok (take (Z.to_nat k) lh ++ (topOfHolding <$> rs)
          ++ drop (Z.to_nat k + length rs) lh,
        sthNew || existsb (changed lh) (indexed k rs),
        nr + Z.of_nat (length (changedSeveral lh (indexed k rs)))).
Proof.
  induction rs as [|r rs IH]; intros k lh sthNew nr Hok Hk Hlen Hnr Hmax.
  { simpl. rewrite Nat.add_0_r, take_drop, orb_false_r. do 3 f_equal. lia. }
  rewrite indexed_cons. cbn [foldM]. simpl in Hlen, Hmax.
  rewrite periodicalDetection_body_exact; [|apply Hok; by left|lia|lia]. cbn [bind].
  assert (Hone : (length (changedSeveral lh [(k, r)]) ≤ 1)%nat).
  { unfold changedSeveral. simpl. destruct (_ && _); simpl; lia. }
  rewrite IH; [|intros r' Hr'; apply Hok; by right|lia|rewrite length_insert; lia|lia|lia].
  destruct (changed_insert lh k (topOfHolding r) (indexed (k + 1) rs)) as [-> ->]; [lia| |].
  { intros ir Hir%indexed_ge. lia. }
  f_equal. f_equal; [f_equal|].
  - replace (Z.to_nat (k + 1)) with (S (Z.to_nat k)) by lia.
    rewrite (take_S_r _ _ (topOfHolding r)) by (apply list_lookup_insert_eq; lia).
    rewrite take_insert_ge by lia. rewrite <- app_assoc. simpl. do 3 f_equal.
    rewrite drop_insert_lt by lia. f_equal. lia.
  - simpl. by rewrite orb_assoc.
  - unfold changedSeveral. simpl. destruct (_ && _); simpl; lia.
Qed.

Lemma indexed_lookup k rs ir :
  ir ∈ indexed k rs → ∃ i : nat, ir.1 = k + Z.of_nat i ∧ rs !! i = Some ir.2.
Proof.
  revert k. induction rs as [|r rs IH]; intros k; [by intros ?%elem_of_nil|].
  rewrite indexed_cons. intros [->|(i & Hi & Hr)%IH]%elem_of_cons.
  - exists 0%nat. split; [simpl; lia|done].
  - exists (S i). split; [lia|done].
Qed.

Lemma filter_none {A} (f : A → bool) (xs : list A) :
  (∀ x, x ∈ xs → f x = false) → List.filter f xs = [].
Proof.
  induction xs as [|x xs IH]; intros H; [done|]. simpl.
  rewrite (H x) by (by left). apply IH. intros y Hy. apply H. by right.
Qed.

(** No entry of the snapshot that was brought up to date differs from what
    the routines hold on top. *)
Lemma changedSeveral_snapshot rs lh :
  changedSeveral (snapshot rs lh) (indexed 0 rs) = [].
Proof.
  apply filter_none. intros ir (i & Hi & Hr)%indexed_lookup.
  unfold changed, snapshot. replace (Z.to_nat ir.1) with i by lia.
  rewrite lookup_app_l by (rewrite length_fmap; by eapply lookup_lt_Some).
  rewrite list_lookup_fmap, Hr. simpl. by rewrite bool_decide_eq_true_2.
Qed.

Lemma snapshot_snapshot rs lh :
  (length rs ≤ length lh)%nat → snapshot rs (snapshot rs lh) = snapshot rs lh.
Proof.
  intros Hlen. unfold snapshot. f_equal.
  rewrite drop_app_length'; [done|by rewrite length_fmap].
Qed.

Lemma periodicalDetection_guard_computes g lh :
  (∀ r, r ∈ state.routines g → holding_ok r) →
  (length (state.routines g) ≤ length lh)%nat →
  Z.of_nat (length (state.routines g)) < 2 ^ 63 →
  2 ≤ state.numGoroutine g →
  periodicalDetection_guard g lh
  = Ok (snapshot (state.routines g) lh,
        bool_decide (2 ≤ length (changedSeveral lh (indexed 0 (state.routines g))))%nat).
Proof.
  intros Hok Hlen Hmax Hnum. unfold periodicalDetection_guard, periodicalDetection_scan.
  rewrite bool_decide_eq_false_2 by lia.
  fold (indexed 0 (state.routines g)).
  rewrite periodicalDetection_scan_exact by (done || lia). cbn [bind]. simpl.
  fold (snapshot (state.routines g) lh).
  set (n := length (changedSeveral lh (indexed 0 (state.routines g)))).
  destruct (decide (2 ≤ n)%nat) as [Hn|Hn].
  - rewrite (bool_decide_eq_true_2 (2 ≤ n)%nat) by done.
    rewrite (bool_decide_eq_false_2 (Z.of_nat n ≤ 1)) by lia.
    assert (existsb (changed lh) (indexed 0 (state.routines g)) = true) as ->; [|done].
    subst n. unfold changedSeveral in Hn. apply existsb_exists.
    destruct (List.filter _ _) as [|ir irs] eqn:E; [simpl in Hn; lia|].
    assert (In ir (List.filter (λ ir, changed lh ir
              && bool_decide (1 < routine.holdingCount ir.2))
              (indexed 0 (state.routines g)))) as Hin by (rewrite E; by left).
    apply filter_In in Hin as [Hin Hb]. exists ir. split; [done|].
    by apply andb_prop in Hb as [? _].
  - rewrite (bool_decide_eq_false_2 (2 ≤ n)%nat) by done.
    rewrite (bool_decide_eq_true_2 (Z.of_nat n ≤ 1)) by lia. by rewrite orb_true_r.
Qed.

(** What [periodicalDetection] does before the search, with at least two
    goroutines: it brings the snapshot up to date for every routine, and
    it calls [detectionPeriodical] exactly when at least two routines hold
    more than one lock and have, each of them, a lock on top that is not
    the one of the snapshot. A second pass on the same routines never
    calls the search. *)
Theorem periodicalDetection_guard_exact (g : state) (lastHolding : list mutexInt) :
  (∀ r, r ∈ state.routines g → holding_ok r) →
  (length (state.routines g) ≤ length lastHolding)%nat →
  Z.of_nat (length (state.routines g)) < 2 ^ 63 →
  2 ≤ state.numGoroutine g →
  periodicalDetection_guard g lastHolding
  = Ok (snapshot (state.routines g) lastHolding,
        bool_decide
          (2 ≤ length (changedSeveral lastHolding (indexed 0 (state.routines g))))%nat)
  ∧ periodicalDetection_guard g (snapshot (state.routines g) lastHolding)
    = Ok (snapshot (state.routines g) lastHolding, false).
Proof.
  intros Hok Hlen Hmax Hnum. split; [by apply periodicalDetection_guard_computes|].
  rewrite periodicalDetection_guard_computes; try done.
  - by rewrite snapshot_snapshot, changedSeveral_snapshot.
  - unfold snapshot. rewrite length_app, length_fmap. lia.
Qed.

Lemma periodicalDetection_guard_exact_witness :
  ∃ g, exTick = Ok g
    ∧ periodicalDetection_guard g (replicate 4 None) 
      = Ok (snapshot (state.routines g) (replicate 4 None), true)
    ∧ periodicalDetection_guard g (snapshot (state.routines g) (replicate 4 None))
      = Ok (snapshot (state.routines g) (replicate 4 None), false).
Proof.
  eexists. split; [vm_compute; reflexivity|].
  match goal with |- periodicalDetection_guard ?g ?lh = _ ∧ _ =>
    destruct (periodicalDetection_guard_exact g lh) as [H1 H2] end.
  - intros r Hr. unfold holding_ok.
    repeat (apply elem_of_cons in Hr as [->|Hr]); try (simpl; lia).
    by apply elem_of_nil in Hr.
  - simpl. lia.
  - simpl. lia.
  - simpl. lia.
  - split; [|exact H2]. rewrite H1. reflexivity.
Defined.

(** ** The setters of the options *)

Lemma applySetting_frame g s :
  let g' := (applySetting g s).1 in
  state.initialized g' = state.initialized g ∧ state.routines g' = state.routines g
  ∧ state.numberRoutines g' = state.numberRoutines g
  ∧ state.mapIndex g' = state.mapIndex g ∧ state.locks g' = state.locks g
  ∧ state.prims g' = state.prims g ∧ state.nextPtr g' = state.nextPtr g
  ∧ state.numGoroutine g' = state.numGoroutine g ∧ state.stderr g' = state.stderr g.
Proof.
  destruct s; simpl;
    unfold SetActivated, SetPeriodicDetection, SetComprehensiveDetection,
      SetCollectCallStack, SetCollectSingleLevelLockInformation, SetDoubleLockingDetection,
      SetMaxDependencies, SetMaxNumberOfDependentLocks, SetMaxRoutines, SetMaxCallStackSize;
    destruct (state.initialized g) eqn:E; simpl; by split_and!.
Qed.

Lemma setActivatedAuto_fits o : activated_fits (setActivatedAuto o).
Proof.
  unfold activated_fits, detections, setActivatedAuto.
  destruct (options.periodicDetection o) eqn:E1, (options.checkDoubleLocking o) eqn:E2,
    (options.comprehensiveDetection o) eqn:E3; simpl; rewrite ?E1, ?E2, ?E3; simpl;
    by split.
Qed.

Lemma activated_fits_ext o o' :
  options.activated o' = options.activated o →
  options.periodicDetection o' = options.periodicDetection o →
  options.checkDoubleLocking o' = options.checkDoubleLocking o →
  options.comprehensiveDetection o' = options.comprehensiveDetection o →
  activated_fits o → activated_fits o'.
Proof. unfold activated_fits, detections. by intros -> -> -> ->. Qed.

Lemma applySetting_activated_fits g s :
  activated_fits (state.opts g) → activated_fits (state.opts (applySetting g s).1).
Proof.
  intros Hfit. destruct s as [e|e|e|e|e|e|n|n|n|n]; simpl;
    unfold SetActivated, SetPeriodicDetection, SetComprehensiveDetection,
      SetCollectCallStack, SetCollectSingleLevelLockInformation, SetDoubleLockingDetection,
      SetMaxDependencies, SetMaxNumberOfDependentLocks, SetMaxRoutines, SetMaxCallStackSize;
    destruct (state.initialized g); try done; simpl;
    try apply setActivatedAuto_fits;
    try (by apply (activated_fits_ext (state.opts g))).
Qed.

(** The calls of the setters compose as follows. Whatever setters a
    program calls before it makes its first lock, the detector is
    activated only with one of the three detections enabled, and it is
    left not activated with a detection enabled only when all three are
    enabled; a call of [SetActivated] sets [activated] to its argument and,
    with either argument, sets each of the three detections to true; and
    after [SetActivated(false)] a call of [SetPeriodicDetection],
    [SetComprehensiveDetection] or [SetDoubleLockingDetection], with either
    argument, activates the detector again. *)
Theorem setters_compose (ss : list setting) (s : setting) (enable : bool) :
  activated_fits (state.opts (applySettings initial_state ss))
  ∧ (let o := state.opts (applySettings initial_state (ss ++ [Activated enable])) in
     options.activated o = enable
     ∧ options.periodicDetection o = true
     ∧ options.checkDoubleLocking o = true
     ∧ options.comprehensiveDetection o = true)
  ∧ (detectionSetting s →
     options.activated
       (state.opts (applySettings initial_state (ss ++ [Activated false; s]))) = true).
Proof.
  assert (Hinit : ∀ ss, state.initialized (applySettings initial_state ss) = false).
  { intros ss'. induction ss' as [|s' ss' IH] using rev_ind; [done|].
    unfold applySettings in *. rewrite fold_left_app. simpl.
    by destruct (applySetting_frame (fold_left (λ g s, (applySetting g s).1) ss' initial_state)
                   s') as (-> & _). }
  split_and!.
  - induction ss as [|s' ss IH] using rev_ind; [by split|].
    unfold applySettings in *. rewrite fold_left_app. simpl.
    by apply applySetting_activated_fits.
  - unfold applySettings. rewrite fold_left_app. simpl. unfold SetActivated.
    fold (applySettings initial_state ss). by rewrite Hinit.
  - intros Hs. unfold applySettings. rewrite fold_left_app. simpl.
    fold (applySettings initial_state ss). unfold SetActivated. rewrite Hinit.
    destruct s as [e|e|e|e|e|e|n|n|n|n]; try done; simpl;
      unfold SetPeriodicDetection, SetComprehensiveDetection, SetDoubleLockingDetection;
      simpl; unfold setActivatedAuto; simpl; rewrite Hinit; simpl; by destruct e.
Qed.

Lemma keeps_opts_refl g : keeps_opts g g.
Proof. by split. Qed.

Lemma keeps_opts_trans g1 g2 g3 : keeps_opts g1 g2 → keeps_opts g2 g3 → keeps_opts g1 g3.
Proof. intros [H1 H1'] [H2 H2']. split; [by rewrite H2|auto]. Qed.

Lemma updObj_keeps_opts g m f g' : updObj g m f = Ok g' → keeps_opts g g'.
Proof. intros [σ ->]%updObj_inv. by split. Qed.

Lemma newRoutine_keeps_opts g c g' : newRoutine g c = Ok g' → keeps_opts g g'.
Proof.
  unfold newRoutine. destruct (_ && _); [by intros [= <-]|].
  intros (hs & _ & H)%bind_Ok_inv. apply bind_Ok_inv in H as (deps & _ & H).
  case_bool_decide; [done|]. by apply bind_Ok_inv in H as (rs & _ & [= <-]).
Qed.

Lemma ensureRoutine_keeps_opts g c g' index :
  ensureRoutine g c = Ok (g', index) → keeps_opts g g'.
Proof.
  unfold ensureRoutine. intros (g1 & Hnew & [= <- _])%bind_Ok_inv.
  destruct (bool_decide _); [by eapply newRoutine_keeps_opts|by injection Hnew as <-].
Qed.

Lemma lockInt_keeps_opts c m rLock g g' : lockInt c m rLock g = Ok g' → keeps_opts g g'.
Proof.
  unfold lockInt. destruct (negb (options.activated _)).
  { by intros [ps ->]%primitiveLock_inv. }
  intros (o & _ & H)%bind_Ok_inv. destruct (negb (obj.getIn o)); [done|].
  apply defer_Ok_inv in H as (g1 & Hbody & Hdef). cbv beta in Hbody, Hdef.
  apply bind_Ok_inv in Hdef as (g5 & [ps ->]%primitiveLock_inv & Hadd%updObj_keeps_opts).
  apply (keeps_opts_trans g g1); [|done]. clear Hadd.
  revert Hbody. destruct (negb _ && negb _); [by intros [= <-]|]. intros Hbody.
  apply bind_Ok_inv in Hbody as ([g2 index] & Hens%ensureRoutine_keeps_opts & H).
  apply (keeps_opts_trans g g2); [done|].
  apply bind_Ok_inv in H as (r0 & _ & H). apply bind_Ok_inv in H as (o2 & _ & H).
  apply bind_Ok_inv in H as (g3 & Hg3 & H).
  assert (g3 = g2) as ->.
  { revert Hg3. destruct (_ && _); [by apply checkDoubleLocking_Ok_inv|by intros [= <-]]. }
  apply bind_Ok_inv in H as (g4 & Hg4%updObj_keeps_opts & H).
  apply (keeps_opts_trans g2 g4); [done|].
  revert H. destruct (bool_decide (1 < _)); [|by intros [= <-]]. intros H.
  apply bind_Ok_inv in H as (r & _ & H). apply bind_Ok_inv in H as ([r' σ'] & _ & H).
  by apply bind_Ok_inv in H as (rs & _ & [= <-]).
Qed.

Lemma tryLockInt_keeps_opts c m rLock g g' res :
  tryLockInt c m rLock g = Ok (g', res) → keeps_opts g g'.
Proof.
  unfold tryLockInt. destruct (negb (options.activated _)).
  { by intros [ps ->]%primitiveTryLock_inv. }
  intros (o & _ & H)%bind_Ok_inv. destruct (negb (obj.getIn o)); [done|].
  apply bind_Ok_inv in H as ([g1 b] & [ps ->]%primitiveTryLock_inv & H).
  apply bind_Ok_inv in H as (g2 & Hg2 & H).
  assert (H2 : keeps_opts g g2).
  { destruct b; [|by injection Hg2 as <-].
    apply bind_Ok_inv in Hg2 as ([g3 index] & Hens%ensureRoutine_keeps_opts & Hg2).
    apply bind_Ok_inv in Hg2 as (g4 & Hg4%updObj_keeps_opts & Hg5%updObj_keeps_opts).
    apply (keeps_opts_trans _ (state.set_prims g ps)); [done|].
    apply (keeps_opts_trans _ g3); [done|]. by apply (keeps_opts_trans _ g4). }
  apply (keeps_opts_trans g g2); [done|].
  revert H. destruct (negb _ && negb _); [by intros [= <- _]|].
  destruct (bool_decide (1 < _) && b); [|by intros [= <- _]]. intros H.
  apply bind_Ok_inv in H as (r & _ & H). apply bind_Ok_inv in H as ([r' σ'] & _ & H).
  by apply bind_Ok_inv in H as (rs & _ & [= <- _]).
Qed.

Lemma unlockInt_keeps_opts c m g g' : unlockInt c m g = Ok g' → keeps_opts g g'.
Proof.
  unfold unlockInt. intros (o & _ & H)%bind_Ok_inv.
  destruct (negb (obj.getIn o)); [done|]. destruct (bool_decide (_ = 0)); [done|].
  apply defer_Ok_inv in H as (g1 & Hbody & Hdef). cbv beta in Hbody, Hdef.
  apply bind_Ok_inv in Hdef as (g2 & Hg2%updObj_keeps_opts & Hg3%updObj_keeps_opts).
  apply (keeps_opts_trans g g1); [|by apply (keeps_opts_trans _ g2)].
  revert Hbody. destruct (negb _ && negb _); [by intros [= <-]|]. intros Hbody.
  apply bind_Ok_inv in Hbody as (r & _ & H). apply bind_Ok_inv in H as (r' & _ & H).
  by apply bind_Ok_inv in H as (rs & _ & [= <-]).
Qed.

Lemma unlock_keeps_opts c m g g'
    (k : state → bool * option loc * option loc → result state) :
  (∀ g1 glt g2, k g1 glt = Ok g2 → ∃ ps, g2 = state.set_prims g1 ps) →
  (let* g := if options.activated (state.opts g) then unlockInt c m g else Ok g in
   let* glt := getLock (state.locks g) m in
   k g glt) = Ok g' →
  keeps_opts g g'.
Proof.
  intros Hk (g1 & Hg1 & H)%bind_Ok_inv. apply bind_Ok_inv in H as (glt & _ & H).
  apply Hk in H as [ps ->]. apply (keeps_opts_trans g g1); [|done].
  revert Hg1. destruct (options.activated _); [apply unlockInt_keeps_opts|by intros [= <-]].
Qed.

Lemma NewLock_initialized c g g' m :
  NewLock c g = Ok (g', m) → state.opts g' = state.opts g ∧ state.initialized g' = true.
Proof.
  unfold NewLock. intros (g1 & Hg1 & [= <- _])%bind_Ok_inv. simpl. revert Hg1.
  destruct (state.initialized g) eqn:Hinit; simpl; [by intros [= <-]|].
  unfold initialize. by intros (rs & _ & [= <-])%bind_Ok_inv.
Qed.

Lemma NewRWLock_initialized c g g' m :
  NewRWLock c g = Ok (g', m) → state.opts g' = state.opts g ∧ state.initialized g' = true.
Proof.
  unfold NewRWLock. intros (g1 & Hg1 & [= <- _])%bind_Ok_inv. simpl. revert Hg1.
  destruct (state.initialized g) eqn:Hinit; simpl; [by intros [= <-]|].
  unfold initialize. by intros (rs & _ & [= <-])%bind_Ok_inv.
Qed.

Lemma runCall_keeps_opts g a g' :
  runCall g a = Ok g' →
  keeps_opts g g' ∧ (makesLock a → state.initialized g' = true).
Proof.
  destruct a as [c|c|c m|c m|c m|op|]; simpl.
  - intros ([g1 m] & [Ho Hi]%NewLock_initialized & [= <-])%bind_Ok_inv. by split.
  - intros ([g1 m] & [Ho Hi]%NewRWLock_initialized & [= <-])%bind_Ok_inv. by split.
  - intros H%lockInt_keeps_opts. by split.
  - intros H%lockInt_keeps_opts. by split.
  - intros H%lockInt_keeps_opts. by split.
  - intros H. split; [|done]. revert H. destruct op as [c m|c m|c m|c m|c m|c m]; simpl.
    + intros ([g1 b] & H & [= <-])%bind_Ok_inv. by eapply tryLockInt_keeps_opts.
    + apply unlock_keeps_opts. intros g1 [[d l] t] g2. apply onPrim_inv.
    + intros ([g1 b] & H & [= <-])%bind_Ok_inv.
      apply bind_Ok_inv in H as ([g2 b2] & H & [= <- _]). by eapply tryLockInt_keeps_opts.
    + intros ([g1 b] & H & [= <-])%bind_Ok_inv.
      apply bind_Ok_inv in H as ([g2 b2] & H & [= <- _]). by eapply tryLockInt_keeps_opts.
    + apply unlock_keeps_opts. intros g1 [[d l] t] g2. apply onPrim_inv.
    + apply unlock_keeps_opts. intros g1 [[d l] t] g2. apply onPrim_inv.
  - intros (out & ->)%FindPotentialDeadlocks_frame. by split.
Qed.

Lemma applySetting_initialized g s :
  state.initialized g = true → applySetting g s = (g, false).
Proof.
  intros Hinit. destruct s; simpl;
    unfold SetActivated, SetPeriodicDetection, SetComprehensiveDetection,
      SetCollectCallStack, SetCollectSingleLevelLockInformation, SetDoubleLockingDetection,
      SetMaxDependencies, SetMaxNumberOfDependentLocks, SetMaxRoutines, SetMaxCallStackSize;
    by rewrite Hinit.
Qed.

(** The options are frozen by the first lock that is made: the calls of
    the library leave the options as the setters left them, and once a
    program has made a lock every setter answers false and changes
    nothing, for the rest of the run. *)
Theorem options_frozen (calls : list apiCall) (g g' : state) (s : setting) :
  foldM runCall g calls = Ok g' →
  state.opts g' = state.opts g
  ∧ (Exists makesLock calls → applySetting g' s = (g', false)).
Proof.
  intros Hrun.
  assert (keeps_opts g g' ∧ (Exists makesLock calls → state.initialized g' = true))
    as [[Ho Hi] Hmade].
  { revert g Hrun. induction calls as [|a calls IH]; intros g; simpl.
    - intros [= <-]. split; [apply keeps_opts_refl|]. by intros ?%Exists_nil.
    - intros (g1 & [H1 Hmk]%runCall_keeps_opts & [Hrest Hmade]%IH)%bind_Ok_inv.
      split; [by apply (keeps_opts_trans g g1)|].
      intros [Ha|Hex]%Exists_cons; [|by apply Hmade].
      destruct Hrest as [_ Hrest]. by apply Hrest, Hmk. }
  split; [done|]. intros Hex. by apply applySetting_initialized, Hmade.
Qed.

Lemma options_frozen_witness :
  ∃ g', foldM runCall (start exOpts 2) exCalls = Ok g'
    ∧ state.opts g' = exOpts
    ∧ applySetting g' (MaxRoutines 8) = (g', false).
Proof.
  eexists.
  match goal with |- ?H ∧ _ => assert H as Hrun by (vm_compute; reflexivity) end.
  split; [exact Hrun|].
  destruct (options_frozen exCalls _ _ (MaxRoutines 8) Hrun) as [Ho Hs].
  split; [exact Ho|]. apply Hs. by left.
Defined.

(** The limits are not checked: before the detector is initialized
    [SetMaxRoutines] accepts a negative number and answers true, and the
    call of [NewLock] or [NewRWLock] that then initializes the detector
    panics when it makes the slice of routines. *)
Theorem SetMaxRoutines_negative (number : Z) (c : caller) (g : state) :
  state.initialized g = false → number < 0 →
  ∃ g', SetMaxRoutines number g = (g', true)
    ∧ NewLock c g' = Panic "makeslice: len out of range"
    ∧ NewRWLock c g' = Panic "makeslice: len out of range".
Proof.
  intros Hinit Hn. unfold SetMaxRoutines. rewrite Hinit. eexists. split; [done|].
  unfold NewLock, NewRWLock, initialize, make. simpl. rewrite Hinit. simpl.
  by rewrite decide_False by lia.
Qed.

Lemma SetMaxRoutines_negative_witness :
  ∃ g', SetMaxRoutines (-1) initial_state = (g', true)
    ∧ NewLock exX g' = Panic "makeslice: len out of range"
    ∧ NewRWLock exX g' = Panic "makeslice: len out of range".
Proof. apply SetMaxRoutines_negative; [reflexivity|lia]. Defined.

(** ** stack.go on the heap *)

Lemma represents_new h :
  heap_fresh h →
  represents (newDepStack_ref h).1 (newDepStack_ref h).2 newDepStack.
Proof.
  intros Hfresh. exists [stackHeap.free h]. unfold newDepStack_ref, alloc_element. simpl.
  split_and!; try done.
  - apply NoDup_singleton.
  - intros [|i] a c; simpl; [|done]. intros [= <-] [= <-].
    eexists. unfold element_at. simpl. rewrite lookup_insert_eq. by split_and!.
  - intros a [e He]. destruct (decide (a = stackHeap.free h)) as [->|Hne]; [lia|].
    rewrite lookup_insert_ne in He by done. specialize (Hfresh a (ex_intro _ e He)). lia.
Qed.

Lemma represents_push h s st dep index :
  represents h s st →
  ∃ h' s', push_ref h s dep index = Ok (h', s') ∧ represents h' s' (push st dep index).
Proof.
  intros (path & Hlen & Hnd & Hstack & Htop & Hat & Hfresh).
  set (n := length (depStack.chain st)) in *. set (f := stackHeap.free h).
  destruct (lookup_lt_is_Some_2 path n) as [t Ht]; [lia|].
  destruct (lookup_lt_is_Some_2 (depStack.stack st :: depStack.chain st) n) as [ct Hct];
    [simpl; lia|].
  destruct (Hat n t ct Ht Hct) as (et & Het & Hprev & Hnext & Hdep & Hidx).
  assert (Hf : f ∉ path).
  { intros (i & Hi)%list_elem_of_lookup_1.
    destruct (lookup_lt_is_Some_2 (depStack.stack st :: depStack.chain st) i) as [c Hc].
    { apply lookup_lt_Some in Hi. simpl. lia. }
    destruct (Hat i f c Hi Hc) as (e & He & _).
    specialize (Hfresh f (ex_intro _ e He)). unfold f in Hfresh. lia. }
  assert (Htf : t ≠ f).
  { intros ->. apply Hf. by eapply list_elem_of_lookup_2. }
  unfold push_ref, alloc_element, update_element, deref_element. rewrite Htop, Ht. simpl.
  rewrite lookup_insert_ne by done. rewrite Het. simpl.
  rewrite lookup_insert_ne by done. rewrite lookup_insert_eq. simpl.
  eexists _, _. split; [done|].
  exists (path ++ [f]). simpl. rewrite !length_app. simpl. fold n. split_and!.
  - lia.
  - apply NoDup_app. split_and!; [done| |apply NoDup_singleton].
    intros x Hx ->%list_elem_of_singleton. done.
  - rewrite lookup_app_l by lia. done.
  - rewrite lookup_app_r by lia. replace (n + 1 - length path)%nat with 0%nat by lia. done.
  - intros i a c Hi Hc.
    destruct (decide (i < n)%nat) as [Hlt|Hge]; [|destruct (decide (i = n)) as [->|Hne]].
    + (* below the old top *)
      rewrite lookup_app_l in Hi by lia.
      assert (Hc' : (depStack.stack st :: depStack.chain st) !! i = Some c).
      { destruct i as [|i]; [done|]. simpl in *. by rewrite lookup_app_l in Hc by lia. }
      destruct (Hat i a c Hi Hc') as (e & He & Hp & Hn & Hd & Hx).
      assert (a ≠ t).
      { intros ->. apply (NoDup_lookup _ _ _ _ Hnd Hi) in Ht. lia. }
      assert (a ≠ f).
      { intros ->. apply Hf. by eapply list_elem_of_lookup_2. }
      exists e. simpl. rewrite !lookup_insert_ne by done. split_and!; try done.
      * destruct i as [|j]; [done|]. rewrite lookup_app_l by lia. done.
      * rewrite lookup_app_l by lia. done.
    + (* the old top *)
      rewrite lookup_app_l in Hi by lia. rewrite Ht in Hi. injection Hi as <-.
      assert (Hc' : (depStack.stack st :: depStack.chain st) !! n = Some c).
      { destruct n as [|n'] eqn:En; [done|]. simpl in *.
        rewrite lookup_app_l in Hc by lia. done. }
      rewrite Hct in Hc'. injection Hc' as <-.
      exists (element.set_next et (Some f)). simpl.
      rewrite lookup_insert_ne by done. rewrite lookup_insert_eq. simpl. split_and!; try done.
      * rewrite Hprev. destruct n as [|j]; [done|]. rewrite lookup_app_l by lia. done.
      * rewrite lookup_app_r by lia. replace (S n - length path)%nat with 0%nat by lia. done.
    + (* the new element *)
      assert (i = S n) as ->.
      { apply lookup_lt_Some in Hi. rewrite length_app in Hi. simpl in Hi. lia. }
      rewrite lookup_app_r in Hi by lia.
      replace (S n - length path)%nat with 0%nat in Hi by lia. injection Hi as <-.
      simpl in Hc. rewrite lookup_app_r in Hc by lia.
      replace (n - length (depStack.chain st))%nat with 0%nat in Hc by lia.
      injection Hc as <-.
      eexists. simpl. rewrite lookup_insert_eq. simpl. split_and!; try done.
      * rewrite lookup_app_l by lia. done.
      * rewrite lookup_ge_None_2; [done|]. rewrite length_app. simpl. lia.
  - intros a [e He]. simpl in *. destruct (decide (a = f)) as [->|Hne]; [unfold f; lia|].
    rewrite lookup_insert_ne in He by done.
    destruct (decide (a = t)) as [->|Hne'].
    + specialize (Hfresh t (ex_intro _ et Het)). lia.
    + rewrite lookup_insert_ne in He by done. rewrite lookup_insert_ne in He by done.
      specialize (Hfresh a (ex_intro _ e He)). lia.
Qed.

Lemma removelast_snoc_length {A} (l : list A) :
  l ≠ [] → length (removelast l) = pred (length l).
Proof.
  intros Hne. destruct (exists_last Hne) as (l' & a & ->).
  rewrite removelast_last, length_app. simpl. lia.
Qed.

Lemma removelast_lookup {A} (l : list A) (i : nat) :
  (i < pred (length l))%nat → removelast l !! i = l !! i.
Proof.
  intros Hi. destruct l as [|x l] using rev_ind; [simpl in Hi; lia|].
  rewrite removelast_last. rewrite length_app in Hi. simpl in Hi.
  rewrite lookup_app_l by lia. done.
Qed.

Lemma represents_pop h s st :
  represents h s st →
  ∃ h' s', pop_ref h s = Ok (h', s') ∧ represents h' s' (pop st).
Proof.
  intros (path & Hlen & Hnd & Hstack & Htop & Hat & Hfresh).
  set (n := length (depStack.chain st)) in *.
  unfold pop_ref, pop. destruct (depStack.chain st) as [|c0 chain] eqn:Echain.
  { (* only the bottom element *)
    simpl in n. subst n. rewrite bool_decide_eq_true_2 by congruence.
    eexists _, _. split; [done|]. exists path. rewrite Echain. by split_and!. }
  (* the top is not the bottom *)
  set (ch := c0 :: chain) in *. assert (Hn : n = S (length chain)) by done.
  destruct (lookup_lt_is_Some_2 path n) as [t Ht]; [lia|].
  destruct (lookup_lt_is_Some_2 path (pred n)) as [p Hp]; [lia|].
  destruct (lookup_lt_is_Some_2 path 0) as [b Hb]; [lia|].
  rewrite bool_decide_eq_false_2.
  2: { rewrite Htop, Hstack, Ht, Hb. intros [= ->].
       apply (NoDup_lookup _ _ _ _ Hnd Ht) in Hb. lia. }
  destruct (lookup_lt_is_Some_2 (depStack.stack st :: ch) n) as [ct Hct]; [simpl; lia|].
  destruct (Hat n t ct Ht Hct) as (et & Het & Hprevt & Hnextt & _).
  destruct (lookup_lt_is_Some_2 (depStack.stack st :: ch) (pred n)) as [cp Hcp];
    [simpl; lia|].
  destruct (Hat (pred n) p cp Hp Hcp) as (ep & Hep & Hprevp & Hnextp & Hdepp & Hidxp).
  assert (Hpt : p ≠ t).
  { intros ->. apply (NoDup_lookup _ _ _ _ Hnd Hp) in Ht. lia. }
  rewrite Hn in Hprevt. rewrite Hn in Hp. simpl in Hp. rewrite Hp in Hprevt.
  rewrite lookup_ge_None_2 in Hnextt by lia.
  unfold update_element, deref_element. rewrite Htop, Ht. simpl. rewrite Het. simpl.
  rewrite Hprevt. simpl. rewrite Hep. simpl.
  rewrite lookup_insert_ne by done. rewrite Het. simpl. rewrite Hprevt, Hnextt.
  eexists _, _. split; [done|].
  exists (removelast path). cbn [depStack.chain depStack.stack depStackRef.stack
    depStackRef.top].
  change (match chain with [] => [] | _ :: _ => c0 :: removelast chain end)
    with (removelast ch).
  assert (Hpath : path ≠ []) by (intros ->; done).
  assert (Hrl : length (removelast ch) = length chain).
  { rewrite removelast_snoc_length by done. done. }
  rewrite Hrl. split_and!.
  - rewrite removelast_snoc_length by done. lia.
  - destruct (exists_last Hpath) as (l' & a & ->). rewrite removelast_last.
    by apply NoDup_app in Hnd as (? & _).
  - rewrite removelast_lookup by lia. done.
  - rewrite removelast_lookup by lia. done.
  - intros i a c Hi Hc.
    assert (Hil : (i < S (length chain))%nat).
    { apply lookup_lt_Some in Hi. rewrite removelast_snoc_length in Hi by done. lia. }
    rewrite removelast_lookup in Hi by lia.
    assert (Hc' : (depStack.stack st :: ch) !! i = Some c).
    { destruct i as [|i]; [done|]. change (removelast ch !! i = Some c) in Hc.
      change (ch !! i = Some c). rewrite removelast_lookup in Hc; [done|].
      unfold ch. simpl. lia. }
    destruct (Hat i a c Hi Hc') as (e & He & Hpe & Hne & Hd & Hx).
    destruct (decide (i = length chain)) as [->|Hne'].
    + rewrite Hp in Hi. injection Hi as <-. rewrite Hep in He. injection He as <-.
      eexists. simpl. rewrite lookup_insert_eq. simpl. split_and!; try done.
      * unfold element.set_next. simpl. rewrite Hpe.
        destruct (length chain) as [|j] eqn:Ej; [done|].
        rewrite removelast_lookup by lia. done.
      * unfold element.set_next. simpl.
        rewrite lookup_ge_None_2; [done|]. rewrite removelast_snoc_length by done. lia.
    + assert (a ≠ p).
      { intros ->. apply (NoDup_lookup _ _ _ _ Hnd Hi) in Hp. lia. }
      exists e. simpl. rewrite lookup_insert_ne by done. split_and!; try done.
      * rewrite Hpe. destruct i as [|j]; [done|]. rewrite removelast_lookup by lia. done.
      * rewrite Hne. rewrite removelast_lookup by lia. done.
  - intros a [e He]. simpl in *. destruct (decide (a = p)) as [->|Hne'].
    + apply Hfresh. by eexists.
    + rewrite lookup_insert_ne in He by done. apply Hfresh. by eexists.
Qed.

(** The loop over the elements visits the chain from its [i]-th element
    on. *)
Lemma walk_represents h path (cs : list stackElement) (bottom : stackElement) :
  length path = S (length cs) →
  (∀ i a c, path !! i = Some a → (bottom :: cs) !! i = Some c → element_at h path i a c) →
  ∀ k i fuel, (length cs = k + i)%nat → (k < fuel)%nat →
    walk fuel h (path !! S i) = Ok (drop i cs).
Proof.
  intros Hlen Hat. induction k as [|k IH]; intros i fuel Hk Hfuel.
  - rewrite lookup_ge_None_2 by lia. rewrite drop_ge by lia. by destruct fuel.
  - destruct fuel as [|fuel]; [lia|].
    destruct (lookup_lt_is_Some_2 path (S i)) as [a Ha]; [lia|].
    destruct (lookup_lt_is_Some_2 cs i) as [c Hc]; [lia|].
    destruct (Hat (S i) a c Ha Hc) as (e & He & _ & Hnext & Hdep & Hidx).
    rewrite Ha. simpl. unfold deref_element. rewrite He. simpl.
    rewrite Hnext, (IH (S i) fuel) by lia. simpl.
    rewrite (drop_S cs c i Hc). f_equal. f_equal. destruct c. simpl in *. by subst.
Qed.

(** stack.go on the heap and the stack of the model: a new stack stands
    for the empty stack; [push] and [pop] return, without a panic, and
    take a stack that stands for [st] to one that stands for the pushed
    and the popped [st]; and on such a stack the loop over the elements
    from [stack.stack.next] visits the chain of [st] in order, and the
    element at [stack.top] carries the dependency and the index of the top
    of [st]. *)
Theorem stack_refines (h : stackHeap.t) (s : depStackRef.t) (st : depStack)
    (dep : option dependency) (index : Z) :
  (heap_fresh h → represents (newDepStack_ref h).1 (newDepStack_ref h).2 newDepStack)
  ∧ (represents h s st →
     (∃ h' s', push_ref h s dep index = Ok (h', s')
               ∧ represents h' s' (push st dep index))
     ∧ (∃ h' s', pop_ref h s = Ok (h', s') ∧ represents h' s' (pop st))
     ∧ (∀ fuel, (length (depStack.chain st) < fuel)%nat →
          elements_of fuel h s = Ok (depStack.chain st))
     ∧ ∃ e, deref_element h (depStackRef.top s) = Ok e
            ∧ stackElement.mk (element.depEntry e) (element.index e) = depStack.top st).
Proof.
  split; [apply represents_new|]. intros Hrep.
  split; [by apply represents_push|]. split; [by apply represents_pop|].
  destruct Hrep as (path & Hlen & Hnd & Hstack & Htop & Hat & Hfresh). split.
  - intros fuel Hfuel. unfold elements_of.
    destruct (lookup_lt_is_Some_2 path 0) as [b Hb]; [lia|].
    destruct (Hat 0%nat b (depStack.stack st) Hb eq_refl) as (e & He & _ & Hnext & _).
    unfold deref_element. rewrite Hstack, Hb. simpl. rewrite He. simpl. rewrite Hnext.
    by apply (walk_represents h path (depStack.chain st) (depStack.stack st) Hlen Hat
                (length (depStack.chain st)) 0%nat fuel).
  - set (n := length (depStack.chain st)) in *.
    destruct (lookup_lt_is_Some_2 path n) as [t Ht]; [lia|].
    assert (Hc : (depStack.stack st :: depStack.chain st) !! n = Some (depStack.top st)).
    { unfold depStack.top, n. destruct (depStack.chain st) as [|c0 chain] using rev_ind;
        [done|].
      rewrite last_last, length_app. simpl.
      replace (length chain + 1)%nat with (S (length chain)) by lia.
      change (((chain ++ [c0]) !! length chain) = Some c0).
      rewrite lookup_app_r by lia. by rewrite Nat.sub_diag. }
    destruct (Hat n t _ Ht Hc) as (e & He & _ & _ & Hdep & Hidx).
    exists e. unfold deref_element. rewrite Htop, Ht. simpl. rewrite He. split; [done|].
    destruct (depStack.top st). simpl in *. by subst.
Qed.

Lemma stack_refines_witness :
  let h0 := stackHeap.mk ∅ 1%positive in
  let h := (newDepStack_ref h0).1 in
  let s := (newDepStack_ref h0).2 in
  represents h s newDepStack
  ∧ ∃ h' s', push_ref h s (Some exDep0) 0 = Ok (h', s')
             ∧ represents h' s' (push newDepStack (Some exDep0) 0)
             ∧ elements_of 2 h' s' = Ok [newStackElement (Some exDep0) 0].
Proof.
  intros h0 h s.
  destruct (stack_refines h0 s newDepStack (Some exDep0) 0) as [Hnew _].
  assert (Hrep : represents h s newDepStack).
  { apply Hnew. intros a [e He]. done. }
  split; [exact Hrep|].
  destruct (stack_refines h s newDepStack (Some exDep0) 0) as [_ Hops].
  destruct (Hops Hrep) as ((h' & s' & Hpush & Hrep') & _).
  exists h', s'. split; [exact Hpush|]. split; [exact Hrep'|].
  destruct (stack_refines h' s' (push newDepStack (Some exDep0) 0) None 0) as [_ Hops'].
  destruct (Hops' Hrep') as (_ & _ & Hwalk & _). apply Hwalk. simpl. lia.
Defined.

(** ** The comprehensive detection is complete *)

Lemma foldM_reaches {I S} (P Q : S → Prop) (body : S → I → result S) xs x : ∀ s s',
  x ∈ xs → P s →
  (∀ s y s', y ∈ xs → P s → body s y = Ok s' → P s') →
  (∀ s s', P s → body s x = Ok s' → Q s') →
  (∀ s y s', y ∈ xs → P s → Q s → body s y = Ok s' → Q s') →
  foldM body s xs = Ok s' → Q s'.
Proof.
  induction xs as [|y xs IH]; intros s s' Hx Hs HP Hat HQ; [by apply elem_of_nil in Hx|].
  simpl. intros (s1 & H1 & Hrest)%bind_Ok_inv.
  assert (HP1 : P s1) by (apply (HP s y); [left|done..]).
  apply elem_of_cons in Hx as [->|Hx].
  - assert (HQ1 : Q s1) by by apply (Hat s).
    apply (foldM_inv (λ s, P s ∧ Q s)) in Hrest; [by destruct Hrest|done|].
    intros s2 z s3 Hz [HP2 HQ2] Hstep. split.
    + apply (HP s2 z); [by right|done..].
    + apply (HQ s2 z); [by right|done..].
  - apply (IH s1); try done.
    + intros ??? Hy. apply HP. by right.
    + intros ??? Hy. apply HQ. by right.
Qed.

Section dfs_mono.
Variables (rec : search → result search) (g : state).
Hypothesis rec_mono : ∀ s s', rec s = Ok s' → search.out s `prefix_of` search.out s'.

Lemma dfs_dependency_mono i r s j s' :
  dfs_dependency rec g i r s j = Ok s' → search.out s `prefix_of` search.out s'.
Proof.
  unfold dfs_dependency. intros (dep & _ & Hbody)%bind_Ok_inv.
  apply bind_Ok_inv in Hbody as (d & _ & Hbody).
  apply bind_Ok_inv in Hbody as (chain & _ & Hbody).
  destruct chain; [|by injection Hbody as <-].
  apply bind_Ok_inv in Hbody as (cycle & _ & Hbody). destruct cycle.
  { injection Hbody as <-. simpl. by apply prefix_app_r. }
  apply bind_Ok_inv in Hbody as (t1 & _ & Hbody).
  apply bind_Ok_inv in Hbody as (s5 & Hrec%rec_mono & Hbody).
  by apply bind_Ok_inv in Hbody as (t2 & _ & [= <-]).
Qed.

Lemma dfs_routine_mono s i s' :
  dfs_routine rec g s i = Ok s' → search.out s `prefix_of` search.out s'.
Proof.
  unfold dfs_routine. intros (r & _ & Hbody)%bind_Ok_inv.
  apply bind_Ok_inv in Hbody as (traversed & _ & Hbody).
  destruct traversed; [by injection Hbody as <-|].
  apply (foldM_inv (λ s1, search.out s `prefix_of` search.out s1)) in Hbody; [done..|].
  intros s1 j s2 _ Hs1 Hstep%dfs_dependency_mono. by etrans.
Qed.
End dfs_mono.

(** The comprehensive search only adds to what has been reported. *)
Lemma dfs_mono fuel g : ∀ visiting s s',
  dfs fuel g visiting s = Ok s' → search.out s `prefix_of` search.out s'.
Proof.
  induction fuel as [|fuel IH]; intros visiting s s'; [done|]. simpl. intros Hfold.
  apply (foldM_inv (λ s1, search.out s `prefix_of` search.out s1)) in Hfold; [done..|].
  intros s1 i s2 _ Hs1 Hstep. etrans; [done|].
  eapply dfs_routine_mono; [|done]. intros s3 s4. apply IH.
Qed.

Lemma prefix_elem {A} (l1 l2 : list A) x : l1 `prefix_of` l2 → x ∈ l1 → x ∈ l2.
Proof. intros [k ->] Hx. apply elem_of_app. by left. Qed.

Lemma markers_tight_keeps g v s s' :
  markers_tight g v s → keeps_search g s s' → markers_tight g v s'.
Proof. intros Ht (Hst & Htr & _) k Hk. rewrite Hst, Htr. by apply Ht. Qed.

(** One round of the search: the dependency [j] of the routine [i], which
    is after [visiting] and has no dependency in the path, is tried on the
    path of [s]. *)
Lemma dfs_reaches fuel g visiting s s' i r j (Q : search → Prop) :
  search_ok g s → markers_tight g visiting s → -1 ≤ visiting →
  visiting < i < state.numberRoutines g →
  i ∉ stackElement.index <$> depStack.chain (search.stack s) →
  state.routines g !! Z.to_nat i = Some r → 0 ≤ j < routine.depCount r →
  (∀ s1 s2, keeps_search g (search.enter s) s1 →
     dfs_dependency (dfs fuel g visiting) g i r s1 j = Ok s2 → Q s2) →
  (∀ s1 s2, Q s1 → search.out s1 `prefix_of` search.out s2 → Q s2) →
  dfs (S fuel) g visiting s = Ok s' → Q s'.
Proof.
  intros Hok Htight Hv Hi Hfresh Hr Hj Hat HQ. simpl.
  assert (Hok' : search_ok g (search.enter s)).
  { destruct Hok as [Hcur Hex]. split; [done|]. by constructor. }
  assert (Hkeeps : ∀ s3 s4, search_ok g s3 → dfs fuel g visiting s3 = Ok s4 →
                            keeps_search g s3 s4).
  { intros s3 s4. apply dfs_keeps. }
  assert (Hmono : ∀ s3 s4, dfs fuel g visiting s3 = Ok s4 →
                           search.out s3 `prefix_of` search.out s4).
  { intros s3 s4. apply dfs_mono. }
  apply (foldM_reaches (keeps_search g (search.enter s)) Q _ _ i).
  - apply elem_of_seqZ. lia.
  - by destruct Hok'.
  - intros s1 k s2 _ Hs1 Hstep. apply (keeps_search_trans g _ s1 s2); [done|].
    apply (dfs_routine_keeps (dfs fuel g visiting) g Hkeeps s1 k s2); [|done].
    by eapply keeps_search_ok.
  - intros s1 s2 Hs1. unfold dfs_routine. rewrite (slice_get_Some _ _ r) by (lia || done).
    simpl.
    assert (Ht1 : search.isTraversed s1 !! Z.to_nat i = Some false).
    { apply (markers_tight_keeps g visiting (search.enter s) s1); [done|done|done|].
      by destruct Hs1 as (-> & _). }
    rewrite (slice_get_Some _ _ false) by (lia || done). simpl.
    apply (foldM_reaches (keeps_search g s1) Q _ _ j).
    + apply elem_of_seqZ. lia.
    + split_and!; [done..|]. by destruct (keeps_search_ok g _ s1 Hok' Hs1).
    + intros s3 k s4 Hk%elem_of_seqZ Hs3 Hstep. apply (keeps_search_trans g _ s3 s4); [done|].
      apply (dfs_dependency_keeps _ g Hkeeps i r s3 k); try done; try lia.
      * eapply keeps_search_ok; [|done]. by eapply keeps_search_ok.
      * by destruct Hs3 as (_ & -> & _).
    + intros s3 s4 Hs3. apply Hat. by apply (keeps_search_trans g _ s1 s3).
    + intros s3 k s4 _ _ HQ3 Hstep. apply (HQ s3); [done|].
      by eapply dfs_dependency_mono.
  - intros s1 k s2 _ _ HQ1 Hstep. apply (HQ s1); [done|].
    by eapply dfs_routine_mono.
Qed.

Lemma dfs_finds g visiting rep st :
  leads_to g visiting rep st → -1 ≤ visiting →
  ∀ fuel s s', search_ok g s → markers_tight g visiting s → search.stack s = st →
    dfs fuel g visiting s = Ok s' → rep ∈ search.out s'.
Proof.
  intros Hleads Hv.
  induction Hleads as [st i r j d Hi Hfresh Hr Hj Hd Hchain Hcycle ->
                      |st i r j d Hi Hfresh Hr Hj Hd Hchain Hcycle _ IH];
    intros fuel s s' Hok Htight Hst; (destruct fuel as [|fuel]; [done|]).
  - assert (Hfresh' : i ∉ stackElement.index <$> depStack.chain (search.stack s))
      by by rewrite Hst.
    intros Hdfs. revert Hdfs.
    apply (dfs_reaches fuel g visiting s s' i r j (λ s, _ ∈ search.out s)
             Hok Htight Hv Hi Hfresh' Hr Hj).
    + intros s1 s2 (Hst1 & _ & _). simpl in Hst1. unfold dfs_dependency.
      rewrite (slice_get_Some _ _ (Some d)) by (lia || done). simpl.
      rewrite Hst1, Hst, Hchain. simpl. rewrite Hcycle. simpl. intros [= <-]. simpl.
      apply elem_of_app. right. by apply list_elem_of_singleton.
    + intros s1 s2 Hin Hpre. by eapply prefix_elem.
  - assert (Hfresh' : i ∉ stackElement.index <$> depStack.chain (search.stack s))
      by by rewrite Hst.
    intros Hdfs. revert Hdfs.
    apply (dfs_reaches fuel g visiting s s' i r j (λ s, rep ∈ search.out s)
             Hok Htight Hv Hi Hfresh' Hr Hj).
    + intros s1 s2 Hs1. pose proof Hs1 as (Hst1 & Htr1 & _). simpl in Hst1, Htr1.
      unfold dfs_dependency.
      rewrite (slice_get_Some _ _ (Some d)) by (lia || done). simpl.
      rewrite Hst1, Hst, Hchain. simpl. rewrite Hcycle. simpl.
      intros (t1 & [_ ->]%slice_set_inv & Hbody)%bind_Ok_inv.
      apply bind_Ok_inv in Hbody as (s5 & Hrec & Hbody).
      apply bind_Ok_inv in Hbody as (t2 & _ & [= <-]). simpl.
      assert (Hok1 : search_ok g s1).
      { eapply keeps_search_ok; [|done]. destruct Hok as [Hcur Hex].
        split; [done|]. by constructor. }
      assert (Hmark : search.isTraversed s1 !! Z.to_nat i = Some false).
      { rewrite Htr1. apply Htight; [done|]. by rewrite Hst. }
      apply IH in Hrec; [done| | |done].
      * destruct Hok1 as [Hcur1 Hex1]. split; [|done]. simpl. rewrite <- Hst, <- Hst1.
        apply (one_per_routine_push g _ _ i r j (Some d)); try done; lia.
      * intros k Hk Hnot. simpl in *.
        assert (k ≠ i).
        { intros ->. apply Hnot. unfold push. simpl. rewrite fmap_app.
          apply elem_of_app. right. by apply list_elem_of_singleton. }
        rewrite list_lookup_insert_ne by lia. rewrite Htr1. apply Htight; [done|].
        rewrite Hst. intros Hin. apply Hnot. unfold push. simpl. rewrite fmap_app.
        apply elem_of_app. by left.
    + intros s1 s2 Hin Hpre. by eapply prefix_elem.
Qed.

Lemma foldM_reaches_after {I S} (P Q : S → Prop) (body : S → I → result S)
    xs1 x xs2 s s' :
  P s →
  (∀ s y s', y ∈ xs1 → P s → body s y = Ok s' → P s') →
  (∀ s s', P s → body s x = Ok s' → Q s') →
  (∀ s y s', y ∈ xs2 → Q s → body s y = Ok s' → Q s') →
  foldM body s (xs1 ++ x :: xs2) = Ok s' → Q s'.
Proof.
  intros Hs HP Hat HQ (s1 & H1 & Hrest)%foldM_app.
  apply (foldM_inv P) in H1; [|done..]. simpl in Hrest.
  apply bind_Ok_inv in Hrest as (s2 & H2%Hat & Hrest); [|done].
  by apply (foldM_inv Q) in Hrest.
Qed.

Lemma seqZ_split (n x : Z) :
  0 ≤ x < n → seqZ 0 n = seqZ 0 x ++ x :: seqZ (x + 1) (n - x - 1).
Proof.
  intros Hx. replace n with (x + (1 + (n - x - 1))) at 1 by lia.
  rewrite seqZ_app by lia. rewrite (seqZ_app _ 1) by lia. done.
Qed.

(** A search that [detect] starts with a dependency of a routine [y] up
    to [i]. *)
Lemma detect_step_before g i s y r j s' :
  detect_before g i s → 0 ≤ y ≤ i → state.routines g !! Z.to_nat y = Some r →
  0 ≤ j < routine.depCount r →
  (let* dep := slice_get (routine.dependencies r) j in
   let* isTraversed := slice_set (search.isTraversed s) y true in
   let stack := push (search.stack s) dep y in
   let* s := dfs (S (Z.to_nat (state.numberRoutines g))) g y
               (search.mk stack isTraversed (search.out s) (search.explored s)) in
   Ok (search.mk (pop (search.stack s)) (search.isTraversed s) (search.out s)
         (search.explored s))) = Ok s' →
  detect_before g i s'.
Proof.
  intros (Hinv & Hst & Hmark) Hy Hr Hj Hbody.
  split; [apply (detect_step g s y r j s'); (done || lia)|].
  apply bind_Ok_inv in Hbody as (dep & [_ Hdep]%slice_get_inv & Hbody).
  apply bind_Ok_inv in Hbody as (t & Ht & Hbody).
  destruct (detect_start g s y r j dep t) as [Hok _]; [done|lia|done..|].
  apply bind_Ok_inv in Hbody as (s1 & (Hst1 & Htr1 & _)%dfs_keeps & [= <-]); [|done].
  apply slice_set_inv in Ht as [_ ->]. simpl in *. rewrite Hst1, Htr1, pop_push.
  split; [done|]. intros k Hk. rewrite list_lookup_insert_ne by lia. by apply Hmark.
Qed.

Lemma detect_step_mono g s y r j s' :
  (let* dep := slice_get (routine.dependencies r) j in
   let* isTraversed := slice_set (search.isTraversed s) y true in
   let stack := push (search.stack s) dep y in
   let* s := dfs (S (Z.to_nat (state.numberRoutines g))) g y
               (search.mk stack isTraversed (search.out s) (search.explored s)) in
   Ok (search.mk (pop (search.stack s)) (search.isTraversed s) (search.out s)
         (search.explored s))) = Ok s' →
  search.out s `prefix_of` search.out s'.
Proof.
  intros (dep & _ & Hbody)%bind_Ok_inv. apply bind_Ok_inv in Hbody as (t & _ & Hbody).
  by apply bind_Ok_inv in Hbody as (s1 & Hmono%dfs_mono & [= <-]).
Qed.

(** The comprehensive detection is complete for the cycles it looks for:
    the search that [detect] starts with the dependency [j1] of a routine
    [i1] reports every cycle that is reached from that dependency by
    dependencies of pairwise different routines after [i1], each accepted
    by [isChain] as an extension of the path before it and none but the
    last accepted by [isCycleChain]. The markers and the pops of the
    searches made before do not hide it. *)
Theorem detect_complete (g : state) (s : search) (rep : report) (i1 j1 : Z)
    (r1 : routine) (d1 : dependency) :
  detect g = Ok s →
  0 ≤ i1 < state.numberRoutines g →
  state.routines g !! Z.to_nat i1 = Some r1 →
  0 ≤ j1 < routine.depCount r1 →
  routine.dependencies r1 !! Z.to_nat j1 = Some (Some d1) →
  leads_to g i1 rep (push newDepStack (Some d1) i1) →
  rep ∈ search.out s.
Proof.
  intros Hdetect Hi1 Hr1 Hj1 Hd1 Hleads. unfold detect in Hdetect.
  apply bind_Ok_inv in Hdetect as (t & [Hn ->]%make_inv & Hfold).
  rewrite (seqZ_split _ i1 Hi1) in Hfold.
  apply (foldM_reaches_after (detect_before g i1) (λ s, rep ∈ search.out s)) in Hfold;
    [done| | | |].
  - split_and!; [|done|].
    + split_and!; [done| |done]. simpl. by rewrite length_replicate.
    + intros k Hk. simpl. apply lookup_replicate_2. lia.
  - intros s1 y s2 Hy%elem_of_seqZ Hs1.
    intros (r & [_ Hr]%slice_get_inv & Hinner)%bind_Ok_inv.
    apply (foldM_inv (detect_before g i1)) in Hinner; [done..|].
    intros s3 j s4 Hj%elem_of_seqZ Hs3. apply (detect_step_before g i1 s3 y r j); [done|lia|done|lia].
  - intros s1 s2 Hs1. rewrite (slice_get_Some _ _ r1) by (lia || done). simpl.
    rewrite (seqZ_split _ j1 Hj1).
    apply (foldM_reaches_after (detect_before g i1) (λ s, rep ∈ search.out s)); [done| | |].
    + intros s3 j s4 Hj%elem_of_seqZ Hs3.
      apply (detect_step_before g i1 s3 i1 r1 j); [done|lia|done|lia].
    + intros s3 s4 (Hinv3 & Hst3 & Hmark3).
      rewrite (slice_get_Some _ _ (Some d1)) by (lia || done). simpl.
      intros (t3 & Ht3 & Hbody)%bind_Ok_inv.
      destruct (detect_start g s3 i1 r1 j1 (Some d1) t3) as [Hok _]; [done|lia|done..|].
      apply bind_Ok_inv in Hbody as (s5 & Hdfs & [= <-]). simpl.
      apply slice_set_inv in Ht3 as [_ ->].
      apply (dfs_finds g i1 rep _ Hleads ltac:(lia) (S (Z.to_nat (state.numberRoutines g)))
               (search.mk (push (search.stack s3) (Some d1) i1)
                  (<[Z.to_nat i1 := true]> (search.isTraversed s3))
                  (search.out s3) (search.explored s3)) s5);
        [done| |by rewrite Hst3|exact Hdfs].
      intros k Hk _. simpl. rewrite list_lookup_insert_ne by lia. by apply Hmark3.
    + intros s3 j s4 _ Hin Hstep%detect_step_mono. by eapply prefix_elem.
  - intros s1 y s2 _ Hin. intros (r & _ & Hinner)%bind_Ok_inv.
    apply (foldM_inv (λ s, rep ∈ search.out s)) in Hinner; [done..|].
    intros s3 j s4 _ Hin3 Hstep%detect_step_mono. by eapply prefix_elem.
Qed.

Lemma detect_complete_witness :
  foldM runCall (start exOpts 2) exCycleCalls = Ok exCycleState
  ∧ ∃ s, detect exCycleState = Ok s
    ∧ reportDeadlock [newStackElement (Some exCycleDep0) 0;
                      newStackElement (Some exCycleDep1) 0] ∈ search.out s.
Proof.
  split; [vm_compute; reflexivity|].
  destruct (detect exCycleState) as [s| | | |] eqn:Hdetect; try (by vm_compute in Hdetect).
  exists s. split; [done|].
  apply (detect_complete exCycleState s _ 0 0
           (default routine.zero (state.routines exCycleState !! 0%nat)) exCycleDep0 Hdetect).
  - vm_compute. done.
  - vm_compute. reflexivity.
  - vm_compute. done.
  - vm_compute. reflexivity.
  - apply (leads_closes exCycleState 0 _ (push newDepStack (Some exCycleDep0) 0) 1
             (default routine.zero (state.routines exCycleState !! 1%nat)) 0 exCycleDep1).
    + vm_compute. done.
    + simpl. by intros [=]%list_elem_of_singleton.
    + vm_compute. reflexivity.
    + vm_compute. done.
    + vm_compute. reflexivity.
    + vm_compute. reflexivity.
    + vm_compute. reflexivity.
    + reflexivity.
Defined.

(** ** Lock identity in reachable states *)

Lemma stable_made p : stable (λ l o, made l o ∧ (l < p)%positive).
Proof.
  intros l o [Hmade Hl]. split_and!; intros; (split; [|done]); by destruct o.
Qed.

Lemma lockwise_update R σ l o o' :
  lockwise R σ → σ !! l = Some o → R l o' → lockwise R (<[l := o']> σ).
Proof.
  intros Hσ Ho Ho' l' o1. destruct (decide (l' = l)) as [->|Hne].
  - rewrite lookup_insert_eq. by intros [= <-].
  - rewrite lookup_insert_ne by done. apply Hσ.
Qed.

Section lockwise.
Variable R : loc → lockObj → Prop.
Hypothesis R_stable : stable R.

Lemma setRLock_lockwise σ m i v σ' :
  lockwise R σ → setRLock σ m i v = Ok σ' → lockwise R σ'.
Proof.
  intros Hσ. unfold setRLock. destruct m as [l|]; [|done].
  intros (o & (l' & [= <-] & Ho)%deref_Some_inv & [= <-])%bind_Ok_inv.
  apply (lockwise_update R σ l o); [done..|]. by apply R_stable, Hσ.
Qed.

Lemma recordContext_lockwise opts c σ m σ' :
  lockwise R σ → recordContext opts c σ m = Ok σ' → lockwise R σ'.
Proof.
  intros Hσ. unfold recordContext. intros (buf & _ & H)%bind_Ok_inv.
  destruct m as [l|]; [|done].
  apply bind_Ok_inv in H as (o & (l' & [= <-] & Ho)%deref_Some_inv & [= <-]).
  apply (lockwise_update R σ l o); [done..|]. by apply R_stable, Hσ.
Qed.

Lemma updateLock_lockwise opts c ptr σ r m rLock r' σ' :
  lockwise R σ → updateLock opts c ptr σ r m rLock = Ok (r', σ') → lockwise R σ'.
Proof.
  intros Hσ (σ1 & r1 & isNew & Hσ1 & _ & Hσ' & _)%updateLock_inv.
  apply setRLock_lockwise in Hσ1; [|done].
  destruct Hσ' as [->|Hrec]; [done|]. by eapply recordContext_lockwise.
Qed.

Lemma updateTryLock_lockwise opts σ r m rLock r' σ' :
  lockwise R σ → updateTryLock opts σ r m rLock = Ok (r', σ') → lockwise R σ'.
Proof.
  intros Hσ (_ & Hσ1 & _)%updateTryLock_inv. by eapply setRLock_lockwise.
Qed.

Lemma addNumberLocked_lockwise g m k g' :
  lockwise R (state.locks g) → addNumberLocked g m k = Ok g' →
  lockwise R (state.locks g') ∧ state.nextPtr g' = state.nextPtr g.
Proof.
  intros Hσ. unfold addNumberLocked, updObj. destruct m as [l|]; [|done].
  intros (o & (l' & [= <-] & Ho)%deref_Some_inv & [= <-])%bind_Ok_inv. split; [|done].
  apply (lockwise_update R _ l o); [done..|]. by apply R_stable, Hσ.
Qed.

Lemma addIsLockedRoutineIndex_lockwise g m i k g' :
  lockwise R (state.locks g) → addIsLockedRoutineIndex g m i k = Ok g' →
  lockwise R (state.locks g') ∧ state.nextPtr g' = state.nextPtr g.
Proof.
  intros Hσ. unfold addIsLockedRoutineIndex, updObj. destruct m as [l|]; [|done].
  intros (o & (l' & [= <-] & Ho)%deref_Some_inv & [= <-])%bind_Ok_inv. split; [|done].
  apply (lockwise_update R _ l o); [done..|]. by apply R_stable, Hσ.
Qed.
End lockwise.

Lemma locks_made_lockwise g :
  locks_made g ↔ lockwise (λ l o, made l o ∧ (l < state.nextPtr g)%positive) (state.locks g).
Proof. done. Qed.

Lemma lockwise_later (p p' : loc) σ :
  (p ≤ p')%positive →
  lockwise (λ l o, made l o ∧ (l < p)%positive) σ →
  lockwise (λ l o, made l o ∧ (l < p')%positive) σ.
Proof. intros Hp Hσ l o [? ?]%Hσ. split; [done|lia]. Qed.

Lemma ensureRoutine_locks g c g' index :
  ensureRoutine g c = Ok (g', index) →
  state.locks g' = state.locks g ∧ state.nextPtr g' = state.nextPtr g.
Proof.
  unfold ensureRoutine. intros (g1 & Hnew & [= <- _])%bind_Ok_inv. revert Hnew.
  destruct (bool_decide _); [|by intros [= <-]]. unfold newRoutine.
  destruct (_ && _); [by intros [= <-]|].
  intros (hs & _ & H)%bind_Ok_inv. apply bind_Ok_inv in H as (deps & _ & H).
  case_bool_decide; [done|]. by apply bind_Ok_inv in H as (rs & _ & [= <-]).
Qed.

Lemma lockInt_locks_made c m rLock g g' :
  locks_made g → lockInt c m rLock g = Ok g' → locks_made g'.
Proof.
  intros Hg. unfold lockInt. destruct (negb (options.activated _)).
  { by intros [ps ->]%primitiveLock_inv. }
  intros (o & _ & H)%bind_Ok_inv. destruct (negb (obj.getIn o)); [done|].
  apply defer_Ok_inv in H as (g1 & Hbody & Hdef). cbv beta in Hbody, Hdef.
  assert (H1 : locks_made g1).
  { revert Hbody. destruct (negb _ && negb _); [by intros [= <-]|]. intros Hbody.
    apply bind_Ok_inv in Hbody as ([g2 index] & [Hl2 Hp2]%ensureRoutine_locks & H).
    apply bind_Ok_inv in H as (r0 & _ & H). apply bind_Ok_inv in H as (o2 & _ & H).
    apply bind_Ok_inv in H as (g3 & Hg3 & H).
    assert (g3 = g2) as ->.
    { revert Hg3. destruct (_ && _); [by apply checkDoubleLocking_Ok_inv|by intros [= <-]]. }
    apply bind_Ok_inv in H as (g4 & Hg4 & H).
    apply (addIsLockedRoutineIndex_lockwise _ (stable_made (state.nextPtr g))) in Hg4
      as [H4 Hp4]; [|by rewrite Hl2].
    revert H. destruct (bool_decide (1 < _)).
    - intros H. apply bind_Ok_inv in H as (r & _ & H).
      apply bind_Ok_inv in H as ([r' σ'] & Hupd & H).
      apply bind_Ok_inv in H as (rs & _ & [= <-]).
      apply (updateLock_lockwise _ (stable_made (state.nextPtr g))) in Hupd; [|done].
      apply locks_made_lockwise. simpl. eapply lockwise_later; [|done].
      rewrite Hp4, Hp2. lia.
    - intros [= <-]. apply locks_made_lockwise. by rewrite Hp4, Hp2. }
  apply bind_Ok_inv in Hdef as (g5 & [ps ->]%primitiveLock_inv & Hadd).
  apply (addNumberLocked_lockwise _ (stable_made (state.nextPtr g1))) in Hadd as [H5 Hp5];
    [|done].
  apply locks_made_lockwise. by rewrite Hp5.
Qed.

Lemma tryLockInt_locks_made c m rLock g g' res :
  locks_made g → tryLockInt c m rLock g = Ok (g', res) → locks_made g'.
Proof.
  intros Hg. unfold tryLockInt. destruct (negb (options.activated _)).
  { by intros [ps ->]%primitiveTryLock_inv. }
  intros (o & _ & H)%bind_Ok_inv. destruct (negb (obj.getIn o)); [done|].
  apply bind_Ok_inv in H as ([g1 b] & [ps ->]%primitiveTryLock_inv & H).
  apply bind_Ok_inv in H as (g2 & Hg2 & H).
  assert (H2 : locks_made g2).
  { destruct b; [|by injection Hg2 as <-].
    apply bind_Ok_inv in Hg2 as ([g3 index] & [Hl3 Hp3]%ensureRoutine_locks & Hg2).
    apply bind_Ok_inv in Hg2 as (g4 & Hg4 & Hg5).
    apply (addNumberLocked_lockwise _ (stable_made (state.nextPtr g))) in Hg4 as [H4 Hp4];
      [|by rewrite Hl3].
    apply (addIsLockedRoutineIndex_lockwise _ (stable_made (state.nextPtr g))) in Hg5
      as [H5 Hp5]; [|done].
    apply locks_made_lockwise. by rewrite Hp5, Hp4, Hp3. }
  revert H. destruct (negb _ && negb _); [by intros [= <- _]|].
  destruct (bool_decide (1 < _) && b); [|by intros [= <- _]]. intros H.
  apply bind_Ok_inv in H as (r & _ & H). apply bind_Ok_inv in H as ([r' σ'] & Hupd & H).
  apply bind_Ok_inv in H as (rs & _ & [= <- _]).
  apply (updateTryLock_lockwise _ (stable_made (state.nextPtr g2))) in Hupd; [|done].
  by apply locks_made_lockwise.
Qed.

Lemma unlockInt_locks_made c m g g' :
  locks_made g → unlockInt c m g = Ok g' → locks_made g'.
Proof.
  intros Hg. unfold unlockInt. intros (o & _ & H)%bind_Ok_inv.
  destruct (negb (obj.getIn o)); [done|]. destruct (bool_decide (_ = 0)); [done|].
  apply defer_Ok_inv in H as (g1 & Hbody & Hdef). cbv beta in Hbody, Hdef.
  assert (H1 : locks_made g1).
  { revert Hbody. destruct (negb _ && negb _); [by intros [= <-]|]. intros Hbody.
    apply bind_Ok_inv in Hbody as (r & _ & H). apply bind_Ok_inv in H as (r' & _ & H).
    by apply bind_Ok_inv in H as (rs & _ & [= <-]). }
  apply bind_Ok_inv in Hdef as (g2 & Hg2 & Hg3).
  apply (addNumberLocked_lockwise _ (stable_made (state.nextPtr g1))) in Hg2 as [H2 Hp2];
    [|done].
  apply (addIsLockedRoutineIndex_lockwise _ (stable_made (state.nextPtr g1))) in Hg3
    as [H3 Hp3]; [|done].
  apply locks_made_lockwise. by rewrite Hp3, Hp2.
Qed.

Lemma unlock_locks_made c m g g'
    (k : state → bool * option loc * option loc → result state) :
  (∀ g1 glt g2, k g1 glt = Ok g2 → ∃ ps, g2 = state.set_prims g1 ps) →
  locks_made g →
  (let* g := if options.activated (state.opts g) then unlockInt c m g else Ok g in
   let* glt := getLock (state.locks g) m in
   k g glt) = Ok g' →
  locks_made g'.
Proof.
  intros Hk Hg (g1 & Hg1 & H)%bind_Ok_inv. apply bind_Ok_inv in H as (glt & _ & H).
  apply Hk in H as [ps ->].
  assert (locks_made g1) as H1; [|done].
  revert Hg1. destruct (options.activated _); [by apply unlockInt_locks_made|by intros [= <-]].
Qed.

Lemma initialize_locks g g' :
  initialize g = Ok g' →
  state.locks g' = state.locks g ∧ state.nextPtr g' = state.nextPtr g.
Proof. unfold initialize. by intros (rs & _ & [= <-])%bind_Ok_inv. Qed.

Lemma new_locks_made g (o : lockObj) :
  locks_made g →
  made (Pos.succ (state.nextPtr g)) o →
  lockwise (λ l o, made l o ∧ (l < Pos.succ (Pos.succ (state.nextPtr g)))%positive)
    (<[Pos.succ (state.nextPtr g) := o]> (state.locks g)).
Proof.
  intros Hg Ho l o'. destruct (decide (l = Pos.succ (state.nextPtr g))) as [->|Hne].
  - rewrite lookup_insert_eq. intros [= <-]. split; [done|lia].
  - rewrite lookup_insert_ne by done. intros [? ?]%Hg. split; [done|lia].
Qed.

Lemma NewLock_locks_made c g g' m : locks_made g → NewLock c g = Ok (g', m) → locks_made g'.
Proof.
  intros Hg. unfold NewLock. intros (g1 & Hg1 & [= <- _])%bind_Ok_inv.
  assert (locks_made g1) as H1.
  { revert Hg1. destruct (negb _); [|by intros [= <-]].
    intros [Hl Hp]%initialize_locks. intros l o. rewrite Hl, Hp. apply Hg. }
  apply locks_made_lockwise. simpl. apply new_locks_made; [done|].
  split_and!; [done..|]. exists (state.nextPtr g1). split; [done|by left].
Qed.

Lemma NewRWLock_locks_made c g g' m :
  locks_made g → NewRWLock c g = Ok (g', m) → locks_made g'.
Proof.
  intros Hg. unfold NewRWLock. intros (g1 & Hg1 & [= <- _])%bind_Ok_inv.
  assert (locks_made g1) as H1.
  { revert Hg1. destruct (negb _); [|by intros [= <-]].
    intros [Hl Hp]%initialize_locks. intros l o. rewrite Hl, Hp. apply Hg. }
  apply locks_made_lockwise. simpl. apply new_locks_made; [done|].
  split_and!; [done..|]. exists (state.nextPtr g1). split; [done|by right].
Qed.

Lemma runCall_locks_made g a g' : locks_made g → runCall g a = Ok g' → locks_made g'.
Proof.
  intros Hg. destruct a as [c|c|c m|c m|c m|op|]; simpl.
  - intros ([g1 m] & H & [= <-])%bind_Ok_inv. by eapply NewLock_locks_made.
  - intros ([g1 m] & H & [= <-])%bind_Ok_inv. by eapply NewRWLock_locks_made.
  - by apply lockInt_locks_made.
  - by apply lockInt_locks_made.
  - by apply lockInt_locks_made.
  - destruct op as [c m|c m|c m|c m|c m|c m]; simpl.
    + intros ([g1 b] & H & [= <-])%bind_Ok_inv. by eapply tryLockInt_locks_made.
    + apply unlock_locks_made; [|done]. intros g1 [[d l] t] g2. apply onPrim_inv.
    + intros ([g1 b] & H & [= <-])%bind_Ok_inv.
      apply bind_Ok_inv in H as ([g2 b2] & H & [= <- _]). by eapply tryLockInt_locks_made.
    + intros ([g1 b] & H & [= <-])%bind_Ok_inv.
      apply bind_Ok_inv in H as ([g2 b2] & H & [= <- _]). by eapply tryLockInt_locks_made.
    + apply unlock_locks_made; [|done]. intros g1 [[d l] t] g2. apply onPrim_inv.
    + apply unlock_locks_made; [|done]. intros g1 [[d l] t] g2. apply onPrim_inv.
  - by intros (out & ->)%FindPotentialDeadlocks_frame.
Qed.

(** Lock identity is wrapper identity: in every state that a program
    reaches by calls of the library, [mutexHaveEqualLock] on two wrappers
    answers true exactly when they are the same wrapper, and every
    wrapper reports its own address as its memory position. *)
Theorem lock_identity (opts : options) (numGoroutine : Z) (calls : list apiCall)
    (g : state) (l1 l2 : loc) :
  foldM runCall (start opts numGoroutine) calls = Ok g →
  is_Some (state.locks g !! l1) → is_Some (state.locks g !! l2) →
  mutexHaveEqualLock (state.locks g) (Some l1) (Some l2) = Ok (bool_decide (l1 = l2))
  ∧ getMemoryPosition (state.locks g) (Some l1) = Ok (Z.pos l1).
Proof.
  intros Hrun [o1 Ho1] [o2 Ho2].
  assert (Hmade : locks_made g).
  { apply (foldM_inv locks_made) in Hrun; [done|by intros l o|].
    intros g1 a g2 _. apply runCall_locks_made. }
  destruct (Hmade l1 o1 Ho1) as [(Hin1 & Hpos1 & p1 & -> & Hlock1) _].
  destruct (Hmade l2 o2 Ho2) as [(Hin2 & Hpos2 & p2 & -> & Hlock2) _].
  split.
  - rewrite (mutexHaveEqualLock_alloc _ _ _ _ _ Ho1 Ho2). f_equal.
    destruct (decide (p1 = p2)) as [->|Hne].
    + rewrite Ho1 in Ho2. injection Ho2 as <-. rewrite bool_decide_eq_true_2 by done.
      destruct o1; simpl; by rewrite bool_decide_eq_true_2.
    + rewrite (bool_decide_eq_false_2 (Pos.succ p1 = Pos.succ p2)) by lia.
      destruct o1 as [m1|m1], o2 as [m2|m2]; simpl in *; try done;
        destruct Hlock1 as [[= ?]|[= ?]], Hlock2 as [[= ?]|[= ?]];
        apply bool_decide_eq_false_2; congruence.
  - unfold getMemoryPosition, deref. rewrite Ho1. simpl. by rewrite Hpos1.
Qed.

Lemma lock_identity_witness :
  ∃ g, foldM runCall (start exOpts 2) exCalls = Ok g
    ∧ mutexHaveEqualLock (state.locks g) (Some 2%positive) (Some 4%positive) = Ok false
    ∧ getMemoryPosition (state.locks g) (Some 2%positive) = Ok 2.
Proof.
  eexists.
  match goal with |- ?H ∧ _ => assert H as Hrun by (vm_compute; reflexivity) end.
  split; [exact Hrun|].
  apply (lock_identity exOpts 2 exCalls _ 2%positive 4%positive Hrun).
  - vm_compute. by eexists.
  - vm_compute. by eexists.
Defined.

(** ** The periodical detection ends *)

Lemma ends_with_bind {A B} (I : A → Prop) (J : B → Prop) X (r : result A)
    (f : A → result B) :
  ends_with I X r → (∀ a, r = Ok a → I a → ends_with J X (f a)) →
  ends_with J X (bind r f).
Proof. destruct r; simpl; try done. intros Ha H. by apply H. Qed.

Lemma ends_with_returns {A} (I : A → Prop) X (r : result A) :
  returns_or_panics r → (∀ a, r = Ok a → I a) → ends_with I X r.
Proof. destruct r; simpl; try done. intros _ H. by apply H. Qed.

Lemma ends_with_impl {A} (I J : A → Prop) X (r : result A) :
  ends_with I X r → (∀ a, r = Ok a → I a → J a) → ends_with J X r.
Proof. destruct r; simpl; try done. intros Ha H. by apply H. Qed.

Lemma foldM_ends {I S} (P : S → Prop) X (body : S → I → result S) xs : ∀ s,
  P s → (∀ s x, x ∈ xs → P s → ends_with P X (body s x)) →
  ends_with P X (foldM body s xs).
Proof.
  induction xs as [|x xs IH]; intros s Hs Hbody; simpl; [done|].
  apply (ends_with_bind P); [apply Hbody; [by left|done]|].
  intros s' _ Hs'. apply IH; [done|]. intros s1 y Hy. apply Hbody. by right.
Qed.

Lemma loopM_ends {I S R} (P : S → Prop) (Q : S + R → Prop) X
    (body : S → I → result (S + R)) xs : ∀ s,
  P s → (∀ s, P s → Q (inl s)) →
  (∀ s x, x ∈ xs → P s →
     ends_with (λ r, match r with inl s' => P s' | inr _ => Q r end) X (body s x)) →
  ends_with Q X (loopM body s xs).
Proof.
  intros s Hs HQ. revert s Hs.
  induction xs as [|x xs IH]; intros s Hs Hbody; simpl; [by apply HQ|].
  eapply ends_with_bind; [apply Hbody; [by left|done]|].
  intros [s'|r] _ Hr; [|done]. apply IH; [done|].
  intros s1 y Hy. apply Hbody. by right.
Qed.

Lemma returns_or_panics_forEach {I R} (body : I → result (option R)) xs :
  (∀ x, x ∈ xs → returns_or_panics (body x)) → returns_or_panics (forEach body xs).
Proof.
  induction xs as [|x xs IH]; intros Hbody; simpl; [done|].
  pose proof (Hbody x (list_elem_of_here _ _)) as Hx.
  destruct (body x) as [[v|]| | | |]; try done.
  apply IH. intros y Hy. apply Hbody. by right.
Qed.

Lemma returns_or_panics_forRange {R} lo hi (body : Z → result (option R)) :
  (∀ i, returns_or_panics (body i)) → returns_or_panics (forRange lo hi body).
Proof. intros Hbody. apply returns_or_panics_forEach. intros i _. apply Hbody. Qed.

Lemma returns_or_panics_foldM {I S} (body : S → I → result S) xs : ∀ s,
  (∀ s x, returns_or_panics (body s x)) → returns_or_panics (foldM body s xs).
Proof.
  induction xs as [|x xs IH]; intros s Hbody; simpl; [done|].
  apply returns_or_panics_bind; [apply Hbody|]. intros s' _. by apply IH.
Qed.

Lemma returns_or_panics_deref_dep d : returns_or_panics (deref_dep d).
Proof. by destruct d. Qed.

Lemma returns_or_panics_getLock σ m : returns_or_panics (getLock σ m).
Proof.
  unfold getLock. apply returns_or_panics_bind; [apply returns_or_panics_deref|done].
Qed.

Lemma returns_or_panics_getRLock σ m i : returns_or_panics (getRLock σ m i).
Proof.
  unfold getRLock. apply returns_or_panics_bind; [apply returns_or_panics_deref|done].
Qed.

Lemma returns_or_panics_mutexHaveEqualLock σ m1 m2 :
  returns_or_panics (mutexHaveEqualLock σ m1 m2).
Proof.
  unfold mutexHaveEqualLock.
  apply returns_or_panics_bind; [apply returns_or_panics_getLock|].
  intros [[d1 l1] t1] _.
  apply returns_or_panics_bind; [apply returns_or_panics_getLock|].
  intros [[d2 l2] t2] _.
  destruct (negb _); [done|]. destruct (_ && _); [done|]. by destruct (_ && _).
Qed.

Lemma returns_or_panics_andThen a b :
  returns_or_panics a → returns_or_panics b → returns_or_panics (andThen a b).
Proof.
  intros Ha Hb. unfold andThen. apply returns_or_panics_bind; [done|].
  by intros [] _.
Qed.

Lemma returns_or_panics_isChain σ stack dep routineIndex :
  returns_or_panics (isChain σ stack dep routineIndex).
Proof.
  unfold isChain. apply returns_or_panics_bind.
  { apply returns_or_panics_forRange. intros i.
    apply returns_or_panics_bind; [apply returns_or_panics_slice_get|]. intros m _.
    apply returns_or_panics_bind; [apply returns_or_panics_deref_dep|]. intros topDep _.
    apply returns_or_panics_bind; [apply returns_or_panics_mutexHaveEqualLock|].
    intros [] _; [|done].
    apply returns_or_panics_bind; [|by intros []].
    apply returns_or_panics_andThen; apply returns_or_panics_getRLock. }
  intros found _. destruct (negb _); [done|].
  apply returns_or_panics_bind; [|done].
  apply returns_or_panics_forEach. intros c _. destruct (dep_ptr_eqb _ _); [done|].
  apply returns_or_panics_forRange. intros i.
  apply returns_or_panics_bind; [apply returns_or_panics_deref_dep|]. intros cDep _.
  apply returns_or_panics_forRange. intros j.
  apply returns_or_panics_bind; [apply returns_or_panics_slice_get|]. intros m1 _.
  apply returns_or_panics_bind; [apply returns_or_panics_slice_get|]. intros m2 _.
  apply returns_or_panics_bind; [apply returns_or_panics_mutexHaveEqualLock|].
  intros [] _; [|done].
  apply returns_or_panics_bind; [|by intros []].
  apply returns_or_panics_andThen; apply returns_or_panics_getRLock.
Qed.

Lemma returns_or_panics_isCycleChain σ stack dep routineIndex :
  returns_or_panics (isCycleChain σ stack dep routineIndex).
Proof.
  unfold isCycleChain. apply returns_or_panics_bind.
  { destruct (depStack.next stack); [apply returns_or_panics_deref_dep|done]. }
  intros bottom _. apply returns_or_panics_bind; [|done].
  apply returns_or_panics_forRange. intros i.
  apply returns_or_panics_bind; [apply returns_or_panics_slice_get|]. intros m _.
  apply returns_or_panics_bind; [apply returns_or_panics_mutexHaveEqualLock|].
  intros [] _; [|done].
  apply returns_or_panics_bind; [|by intros []].
  apply returns_or_panics_andThen; apply returns_or_panics_getRLock.
Qed.

Lemma returns_or_panics_holdingChanged lastHolding index r :
  returns_or_panics (holdingChanged lastHolding index r).
Proof.
  unfold holdingChanged. apply returns_or_panics_bind.
  { destruct (bool_decide _); [|done].
    apply returns_or_panics_bind; [apply returns_or_panics_slice_get|]. intros last _.
    apply returns_or_panics_bind; [apply returns_or_panics_slice_get|done]. }
  intros [] _; [done|]. destruct (bool_decide _); [|done].
  apply returns_or_panics_bind; [apply returns_or_panics_slice_get|done].
Qed.

Lemma returns_or_panics_periodicalDetection_guard g lastHolding :
  returns_or_panics (periodicalDetection_guard g lastHolding).
Proof.
  unfold periodicalDetection_guard. destruct (bool_decide _); [done|].
  apply returns_or_panics_bind.
  - apply returns_or_panics_foldM. intros [[lh sthNew] nr] [index r].
    unfold periodicalDetection_body. apply returns_or_panics_bind.
    { destruct (bool_decide _); [|done].
      apply returns_or_panics_bind; [apply returns_or_panics_slice_get|]. intros last _.
      apply returns_or_panics_bind; [apply returns_or_panics_slice_get|done]. }
    intros [] _.
    + apply returns_or_panics_bind; [apply returns_or_panics_slice_get|]. intros top _.
      apply returns_or_panics_bind; [apply returns_or_panics_slice_set|done].
    + apply returns_or_panics_bind.
      { destruct (bool_decide _); [|done].
        apply returns_or_panics_bind; [apply returns_or_panics_slice_get|done]. }
      intros [] _; [|done].
      apply returns_or_panics_bind; [apply returns_or_panics_slice_set|done].
  - intros [[lh sthNew] nr] _. by destruct (_ || _).
Qed.

(** A loop answers only what one of its rounds answers. *)
Lemma forEach_answer {I R} (Q : R → Prop) (body : I → result (option R)) xs v :
  (∀ x w, body x = Ok (Some w) → Q w) → forEach body xs = Ok (Some v) → Q v.
Proof.
  intros Hbody. induction xs as [|x xs IH]; simpl; [done|].
  destruct (body x) as [[w|]| | | |] eqn:Hx; try done.
  intros [= <-]. by eapply Hbody.
Qed.

(** [isChain] accepts no dependency that is on the path. *)
Lemma isChain_fresh σ stack dep routineIndex :
  isChain σ stack dep routineIndex = Ok true →
  Some (dependency.ptr dep)
    ∉ (λ c, dependency.ptr <$> stackElement.depEntry c) <$> depStack.chain stack.
Proof.
  unfold isChain. intros (found & _ & H)%bind_Ok_inv.
  destruct (negb _); [done|]. apply bind_Ok_inv in H as (bad & Hbad & [= Htrue]).
  intros (c & Hptr & [k Hk]%list_elem_of_lookup_1)%list_elem_of_fmap.
  destruct bad as [v|].
  - simpl in Htrue. subst v. enough (true = false) by done. revert Hbad.
    apply (forEach_answer (λ v, v = false)). clear. intros c w.
    destruct (dep_ptr_eqb _ _); [by intros [= <-]|].
    unfold forRange. apply (forEach_answer (λ v, v = false)). intros i w'.
    intros (cDep & _ & H)%bind_Ok_inv. revert H.
    apply (forEach_answer (λ v, v = false)). intros j w''.
    intros (m1 & _ & H)%bind_Ok_inv. apply bind_Ok_inv in H as (m2 & _ & H).
    apply bind_Ok_inv in H as (eq & _ & H). destruct eq; [|done].
    apply bind_Ok_inv in H as (bothRead & _ & H). destruct (negb bothRead); [|done].
    by injection H as <-.
  - apply forEach_inv in Hbad. specialize (Hbad k c Hk). simpl in Hbad.
    unfold dep_ptr_eqb in Hbad. rewrite bool_decide_eq_true_2 in Hbad; [done|].
    by rewrite <- Hptr.
Qed.

Lemma periodical_path_length g s :
  periodical_path g s →
  (length (depStack.chain (search.stack s)) ≤ length (curDep_ptrs g))%nat.
Proof.
  intros (_ & Hnodup & Hsub).
  replace (length (depStack.chain (search.stack s))) with (length (path_ptrs s))
    by (unfold path_ptrs; apply length_fmap).
  apply submseteq_length, NoDup_submseteq; [done|]. intros x. apply Hsub.
Qed.

Lemma curDep_ptrs_elem g i r :
  0 ≤ i < state.numberRoutines g → state.routines g !! Z.to_nat i = Some r →
  dependency.ptr <$> routine.curDep r ∈ curDep_ptrs g.
Proof.
  intros Hi Hr. unfold curDep_ptrs. apply list_elem_of_fmap. exists r. split; [done|].
  apply (list_elem_of_lookup_2 _ (Z.to_nat i)). rewrite lookup_take_lt by lia. done.
Qed.

Lemma path_ptrs_push st t out ex d i :
  path_ptrs (search.mk (push st (Some d) i) t out ex)
  = path_ptrs (search.mk st t out ex) ++ [Some (dependency.ptr d)].
Proof. unfold path_ptrs, push. simpl. by rewrite fmap_app. Qed.

Section dfsPeriodical_routine_body.
Variables (rec : search → result search) (g : state) (visiting : Z)
  (lastHolding : list mutexInt) (fuel : nat).
Hypothesis g_ok : state_ok g.
Hypothesis rec_ends : ∀ s,
  periodical_path g s →
  (length (curDep_ptrs g) < fuel + length (depStack.chain (search.stack s)))%nat →
  ends_with (λ s', periodical_path g s' ∧ search.stack s' = search.stack s)
    (periodical_stderr g) (rec s).

Lemma dfsPeriodical_routine_ends s i :
  visiting < i < state.numberRoutines g → 0 ≤ visiting →
  periodical_path g s →
  (length (curDep_ptrs g) < S fuel + length (depStack.chain (search.stack s)))%nat →
  ends_with (λ s', periodical_path g s' ∧ search.stack s' = search.stack s)
    (periodical_stderr g) (dfsPeriodical_routine rec g lastHolding s i).
Proof.
  intros Hi Hv Hs Hfuel. unfold dfsPeriodical_routine.
  eapply ends_with_bind; [apply (ends_with_returns (λ _, True)); [apply returns_or_panics_slice_get|done]|].
  intros r [_ Hr]%slice_get_inv _.
  eapply ends_with_bind.
  { apply (ends_with_returns (λ _, True)); [|done].
    destruct (routine.curDep r); [apply returns_or_panics_slice_get|done]. }
  intros [] Hskip _; [done|]. destruct (routine.curDep r) as [d0|] eqn:Hcur; [|done].
  simpl. eapply ends_with_bind;
    [apply (ends_with_returns (λ _, True)); [apply returns_or_panics_isChain|done]|].
  intros [] Hchain _; simpl; [|done].
  eapply ends_with_bind;
    [apply (ends_with_returns (λ _, True)); [apply returns_or_panics_isCycleChain|done]|].
  destruct Hs as (Hout & Hnodup & Hsub).
  intros [] Hcycle _.
  - eapply ends_with_bind.
    { apply (ends_with_returns (λ _, True)); [|done]. apply returns_or_panics_forEach.
      intros cl _. apply returns_or_panics_bind; [apply returns_or_panics_slice_get|].
      intros rc _. apply returns_or_panics_bind; [apply returns_or_panics_holdingChanged|].
      by intros [] _. }
    intros sthNew _ _. destruct (negb _).
    + destruct (FindPotentialDeadlocks_total
        (state.set_stderr g (state.stderr g ++ search.out s ++ [reportDeadlockPeriodical])))
        as [out ->]; [by apply state_ok_stderr|].
      simpl. split; [done|]. exists out. by rewrite Hout, <- app_assoc.
    + simpl. by rewrite pop_push.
  - eapply ends_with_bind;
      [apply (ends_with_returns (λ _, True)); [apply returns_or_panics_slice_set|done]|].
    intros t1 _ _.
    assert (Hs1 : periodical_path g
      (search.mk (push (search.stack s) (Some d0) (state.numberRoutines g)) t1
         (search.out s) (search.explored s))).
    { split; [done|]. rewrite path_ptrs_push. split.
      - apply NoDup_app. split_and!; [done| |apply NoDup_singleton].
        intros x Hx ->%list_elem_of_singleton. by apply isChain_fresh in Hchain.
      - intros x [Hx| ->%list_elem_of_singleton]%elem_of_app; [by apply Hsub|].
        pose proof (curDep_ptrs_elem g i r) as Hin. rewrite Hcur in Hin. apply Hin; [lia|done]. }
    eapply ends_with_bind.
    { apply rec_ends; [done|]. simpl. rewrite length_app. simpl. lia. }
    intros s5 _ [(Hout5 & Hnodup5 & Hsub5) Hst5]. simpl in Hst5.
    eapply ends_with_bind;
      [apply (ends_with_returns (λ _, True)); [apply returns_or_panics_slice_set|done]|].
    intros t2 _ _. simpl. rewrite Hst5, pop_push. split; [|done].
    split; [done|]. unfold path_ptrs. simpl. done.
Qed.
End dfsPeriodical_routine_body.

Lemma dfsPeriodical_ends g visiting lastHolding : ∀ fuel s,
  state_ok g → 0 ≤ visiting → periodical_path g s →
  (length (curDep_ptrs g) < fuel + length (depStack.chain (search.stack s)))%nat →
  ends_with (λ s', periodical_path g s' ∧ search.stack s' = search.stack s)
    (periodical_stderr g) (dfsPeriodical fuel g visiting lastHolding s).
Proof.
  induction fuel as [|fuel IH]; intros s Hg Hv Hs Hfuel.
  { apply periodical_path_length in Hs. lia. }
  simpl. apply foldM_ends; [done|].
  intros s1 i Hi%elem_of_seqZ [Hs1 Hst1].
  eapply ends_with_impl.
  - apply (dfsPeriodical_routine_ends _ g visiting lastHolding fuel); [done| |lia|done|done|].
    + intros s2 Hs2 Hf2. by apply IH.
    + by rewrite Hst1.
  - intros s2 _ [Hs2 Hst2]. split; [done|]. by rewrite Hst2.
Qed.

Lemma curDep_ptrs_length g :
  (length (curDep_ptrs g) ≤ Z.to_nat (state.numberRoutines g))%nat.
Proof. unfold curDep_ptrs. rewrite length_fmap, length_take. lia. Qed.

Lemma detectionPeriodical_ends g fuel lastHolding :
  state_ok g → state.numberRoutines g ≤ Z.of_nat fuel →
  ends_with (λ _, True) (periodical_stderr g) (detectionPeriodical fuel g lastHolding).
Proof.
  intros Hg Hfuel. unfold detectionPeriodical.
  eapply ends_with_bind;
    [apply (ends_with_returns (λ _, True)); [apply returns_or_panics_make|done]|].
  intros t _ _. eapply ends_with_bind; [|by intros []].
  apply (loopM_ends
    (λ s, periodical_path g s ∧ search.stack s = newDepStack) (λ _, True)).
  { split; [|done]. split; [done|]. split; [apply NoDup_nil_2|]. by intros x Hx%elem_of_nil. }
  { done. }
  intros s [index r] Hin [(Hout & Hnodup & Hsub) Hst]. case_bool_decide as Hnr; [done|].
  destruct (routine.curDep r) as [d0|] eqn:Hcur; [|done].
  apply list_elem_of_lookup_1 in Hin as [k Hk].
  apply lookup_zip_with_Some in Hk as (i' & r' & [= <- <-] & Hi' & Hr').
  apply lookup_seqZ in Hi' as [-> Hklen].
  eapply ends_with_bind;
    [apply (ends_with_returns (λ _, True)); [apply returns_or_panics_slice_set|done]|].
  intros t1 _ _. eapply ends_with_bind.
  - apply dfsPeriodical_ends; [done|lia| |].
    + split; [done|]. rewrite path_ptrs_push, Hst. simpl. split.
      * apply NoDup_singleton.
      * intros x ->%list_elem_of_singleton.
        pose proof (curDep_ptrs_elem g (0 + Z.of_nat k) r) as Hx. rewrite Hcur in Hx.
        apply Hx; [lia|]. by replace (Z.to_nat (0 + Z.of_nat k)) with k by lia.
    + simpl. rewrite Hst. simpl. pose proof (curDep_ptrs_length g). lia.
  - intros s5 _ [(Hout5 & _) Hst5]. simpl in *. rewrite Hst5, Hst.
    split; [|done]. split; [done|]. split; [apply NoDup_nil_2|].
    by intros x Hx%elem_of_nil.
Qed.

(** The periodical detection ends, in every state that a program reaches
    from its start by calls of the library that return: with a recursion
    budget of the number of routines in use, [periodicalDetection] returns,
    panics, or ends the program with status 2 after it has written its
    report, followed by the reports of the comprehensive detection, to
    standard error. The recursion of [dfsPeriodical] ends although the
    search marks no routine of the path: [isChain] accepts no dependency
    that is on the path, and a routine has one current dependency. *)
Theorem periodicalDetection_ends (opts : options) (numGoroutine : Z)
    (calls : list apiCall) (g : state) (fuel : nat) (lastHolding : list mutexInt) :
  opts_ok opts →
  foldM runCall (start opts numGoroutine) calls = Ok g →
  state.numberRoutines g ≤ Z.of_nat fuel →
  match periodicalDetection fuel g lastHolding with
  | Ok _ | Panic _ => True
  | Exit code e => code = 2 ∧ ∃ out, e = state.stderr g ++ reportDeadlockPeriodical :: out
  | Blocked | OutOfFuel => False
  end.
Proof.
  intros Hopts Hrun Hfuel.
  assert (Hg : state_ok g).
  { eapply runCalls_state_ok; [|done]. by apply state_ok_start. }
  change (ends_with (λ _, True) (periodical_stderr g)
            (periodicalDetection fuel g lastHolding)).
  unfold periodicalDetection. eapply ends_with_bind.
  { apply (ends_with_returns (λ _, True));
      [apply returns_or_panics_periodicalDetection_guard|done]. }
  intros [lh []] _ _; [|done].
  eapply ends_with_bind; [by apply detectionPeriodical_ends|done].
Qed.

Lemma periodicalDetection_ends_witness :
  foldM runCall (start exOpts 3) exStaleCalls = Ok exStaleState
  ∧ ∃ out, periodicalDetection 3 exStaleState (replicate 4 None)
           = Exit 2 (reportDeadlockPeriodical :: out).
Proof.
  assert (Hrun : foldM runCall (start exOpts 3) exStaleCalls = Ok exStaleState)
    by (vm_compute; reflexivity).
  split; [exact Hrun|].
  assert (Hopts : opts_ok exOpts) by (unfold opts_ok; simpl; lia).
  assert (Hfuel : state.numberRoutines exStaleState ≤ Z.of_nat 3) by (vm_compute; congruence).
  pose proof (periodicalDetection_ends exOpts 3 exStaleCalls exStaleState 3
                (replicate 4 None) Hopts Hrun Hfuel) as Hends.
  destruct (periodicalDetection 3 exStaleState (replicate 4 None)) as [lh|msg|code e| |]
    eqn:Hres; [by vm_compute in Hres..| |done|done].
  destruct Hends as [-> [out ->]]. by exists out.
Defined.

(** ** Double locking and the holds of a program *)

Lemma getRLock_setRLock o index v i :
  obj.getRLock (obj.setRLock o index v) i
  = if isRW o && bool_decide (i = index) then v else obj.getRLock o i.
Proof.
  destruct o as [m|m]; simpl; [done|]. unfold RWMutex.getRLock. simpl.
  destruct (decide (i = index)) as [->|Hne].
  - rewrite lookup_insert_eq, (bool_decide_eq_true_2 (index = index)) by done. simpl.
    by destruct v.
  - by rewrite lookup_insert_ne, (bool_decide_eq_false_2 (i = index)) by done.
Qed.

Lemma ensureRoutine_mapIndex g c g' index :
  state_ok g →
  ensureRoutine g c = Ok (g', index) →
  index = getRoutineIndex g' c
  ∧ state.initialized g' = state.initialized g
  ∧ (state.mapIndex g' = state.mapIndex g
     ∨ (state.mapIndex g !! caller.goid c = None
        ∧ state.mapIndex g' = <[caller.goid c := state.numberRoutines g]> (state.mapIndex g))).
Proof.
  intros Hok. unfold ensureRoutine. intros (g1 & Hnew & [= <- <-])%bind_Ok_inv.
  split; [done|].
  revert Hnew. case_bool_decide as Hidx; [|intros [= <-]; auto].
  unfold newRoutine. destruct (_ && _); [intros [= <-]; auto|].
  intros (hs & _ & H)%bind_Ok_inv. apply bind_Ok_inv in H as (deps & _ & H).
  case_bool_decide; [done|]. apply bind_Ok_inv in H as (rs & _ & [= <-]). simpl.
  split; [done|]. right. split; [|done]. unfold getRoutineIndex in Hidx.
  destruct (state.mapIndex g !! caller.goid c) as [i|] eqn:E; [|done].
  destruct Hok as (_ & _ & Hmap & _). apply Hmap in E. lia.
Qed.

Lemma lockInt_effect c l rLock g g' :
  state_ok g →
  options.activated (state.opts g) = true →
  options.periodicDetection (state.opts g) || options.comprehensiveDetection (state.opts g)
    = true →
  lockInt c (Some l) rLock g = Ok g' →
  ∃ o o' index,
    state.locks g !! l = Some o ∧ obj.getIn o = true
    ∧ state.mapIndex g' !! caller.goid c = Some index
    ∧ (state.mapIndex g' = state.mapIndex g
       ∨ (state.mapIndex g !! caller.goid c = None
          ∧ state.mapIndex g' = <[caller.goid c := state.numberRoutines g]> (state.mapIndex g)))
    ∧ state.locks g' = <[l := o']> (state.locks g)
    ∧ lock_recorded index rLock (bool_decide (1 < state.numGoroutine g)) o o'
    ∧ state.numGoroutine g' = state.numGoroutine g
    ∧ state.opts g' = state.opts g
    ∧ state.initialized g' = true
    ∧ (options.checkDoubleLocking (state.opts g) = true → obj.getNumberLocked o ≠ 0 →
       heldBy o index = 0 ∨ (rLock = true ∧ obj.getRLock o index = true)).
Proof.
  intros Hok Hact Han. unfold lockInt. rewrite Hact. cbn [negb].
  intros (o & Ho & H)%bind_Ok_inv. destruct (obj.getIn o) eqn:Hin; [|done]. cbn [negb] in H.
  pose proof Ho as Ho'. apply deref_Some_inv in Ho' as (l' & [= <-] & Hl).
  assert (Hinit : state.initialized g = true) by by eapply state_ok_initialized.
  apply defer_Ok_inv in H as (g1 & Hbody & Hdef). cbv beta in Hbody, Hdef.
  revert Hbody.
  assert (negb (options.periodicDetection (state.opts g)) &&
          negb (options.comprehensiveDetection (state.opts g)) = false) as ->.
  { by destruct (options.periodicDetection _), (options.comprehensiveDetection _). }
  intros Hbody.
  apply bind_Ok_inv in Hbody as ([g2 index] & Hens & H).
  pose proof (ensureRoutine_mapIndex _ _ _ _ Hok Hens) as (Hindex & Hinit2' & Hmap2).
  pose proof (ensureRoutine_frame _ _ _ _ Hens) as (Hl2 & Ho2 & _ & Hn2).
  assert (Hon : options.periodicDetection (state.opts g) = true
                ∨ options.comprehensiveDetection (state.opts g) = true) by by apply orb_prop.
  pose proof (ensureRoutine_registered g c g2 index Hok Hon Hens) as Hreg.
  apply ensureRoutine_state_ok in Hens as (H2 & Hinit2 & _ & _ & _); [|done..].
  apply bind_Ok_inv in H as (r0 & Hr0 & H).
  apply bind_Ok_inv in H as (o2 & Hderef2 & H).
  rewrite Hl2, Ho in Hderef2. injection Hderef2 as <-.
  apply bind_Ok_inv in H as (g3 & Hg3 & H).
  assert (g3 = g2) as ->.
  { revert Hg3. destruct (_ && _); [by apply checkDoubleLocking_Ok_inv|by intros [= <-]]. }
  assert (Hcheck : options.checkDoubleLocking (state.opts g) = true →
            obj.getNumberLocked o ≠ 0 →
            heldBy o index = 0 ∨ (rLock = true ∧ obj.getRLock o index = true)).
  { intros Hchk Hn. rewrite Hchk, bool_decide_eq_false_2 in Hg3 by done.
    cbn [andb negb] in Hg3.
    unfold checkDoubleLocking in Hg3. rewrite Hl2, Ho in Hg3. cbn [bind] in Hg3.
    revert Hg3. fold (heldBy o index). case_bool_decide as Hheld; [auto|].
    unfold andThen, getRLock. rewrite ?Hl2, Ho. cbn [bind]. destruct rLock; [|cbn [bind]].
    - destruct (obj.getRLock o index); [auto|]. cbn [bind].
      by intros (g5 & _ & ?)%bind_Ok_inv.
    - by intros (g5 & _ & ?)%bind_Ok_inv. }
  apply bind_Ok_inv in H as (g4 & Hg4 & H).
  pose proof Hg4 as Hg4'. unfold addIsLockedRoutineIndex in Hg4'.
  apply updObj_state_ok in Hg4' as (H4 & Hinit4 & _ & Hrs4 & Hn4 & _);
    [|done..].
  unfold addIsLockedRoutineIndex, updObj in Hg4. rewrite Hl2, Ho in Hg4. cbn [bind] in Hg4.
  injection Hg4 as <-. fold (heldBy o index) in *.
  set (o1 := obj.setIsLockedRoutineIndex o
               (<[index := int_add (heldBy o index) 1]> (obj.getIsLockedRoutineIndex o))) in *.
  assert (∃ o2, state.locks g1 = <[l := o2]> (state.locks g)
            ∧ state.mapIndex g1 = state.mapIndex g2
            ∧ state.numGoroutine g1 = state.numGoroutine g
            ∧ state.opts g1 = state.opts g
            ∧ state.initialized g1 = true
            ∧ lock_recorded index rLock (bool_decide (1 < state.numGoroutine g)) o
                (obj.setNumberLocked o2 (int_add (obj.getNumberLocked o2) 1)))
    as (o2 & Hl1 & Hm1 & Hn1 & Ho1 & Hi1 & Hrec).
  { revert H. cbn [state.numGoroutine state.set_locks]. rewrite Hn2.
    destruct (bool_decide (1 < state.numGoroutine g)) eqn:Hmulti.
    - intros H. apply bind_Ok_inv in H as (r & Hr & H).
      apply bind_Ok_inv in H as ([r' σ'] & Hupd & H).
      apply bind_Ok_inv in H as (rs & _ & [= <-]).
      apply slice_get_inv in Hr as [Hrange Hr]. simpl in Hr.
      assert (routine.index r = index) as Hri.
      { destruct H2 as (_ & _ & _ & _ & Hrs & _).
        destruct (Hrs index r) as (? & _); [done|done|done]. }
      apply updateLock_inv in Hupd as (σ1 & r1 & isNew & Hσ1 & _ & Hσ' & _).
      rewrite Hri in Hσ1. unfold setRLock in Hσ1. simpl in Hσ1.
      rewrite lookup_insert_eq in Hσ1. simpl in Hσ1. injection Hσ1 as <-.
      rewrite insert_insert_eq in Hσ'.
      assert (∃ ctx, σ' = <[l := obj.setContext (obj.setRLock o1 index rLock) ctx]>
                             (state.locks g)) as [ctx ->].
      { destruct Hσ' as [->|Hrec].
        - exists (obj.getContext (obj.setRLock o1 index rLock)). f_equal.
          subst o1. by destruct o.
        - unfold recordContext in Hrec. apply bind_Ok_inv in Hrec as (buf & _ & Hrec).
          unfold deref in Hrec. rewrite lookup_insert_eq in Hrec. simpl in Hrec.
          injection Hrec as <-.
          rewrite insert_insert_eq. by eexists. }
      eexists. split; [done|]. simpl. split_and!; try done.
      subst o1. unfold lock_recorded. split_and!; try by destruct o.
      intros i. destruct o as [m|m]; simpl; [done|].
      pose proof (getRLock_setRLock (RWMutexObj m) index rLock i) as Hfl. simpl in Hfl.
      exact Hfl.
    - intros [= <-]. exists o1. simpl. split_and!; try done.
      subst o1. unfold lock_recorded. split_and!; by destruct o. }
  apply bind_Ok_inv in Hdef as (g5 & [ps ->]%primitiveLock_inv & Hadd).
  unfold addNumberLocked, updObj in Hadd. simpl in Hadd.
  rewrite Hl1, lookup_insert_eq in Hadd. simpl in Hadd. injection Hadd as <-. simpl.
  rewrite insert_insert_eq.
  exists o, (obj.setNumberLocked o2 (int_add (obj.getNumberLocked o2) 1)), index.
  split_and!; try done.
  - rewrite Hm1. rewrite Hindex. unfold getRoutineIndex.
    destruct (state.mapIndex g2 !! caller.goid c) as [i|] eqn:E; [done|].
    rewrite Hindex in Hreg. unfold getRoutineIndex in Hreg. rewrite E in Hreg. lia.
  - by rewrite Hm1.
Qed.

Lemma unlockInt_effect c l g g' :
  state_ok g →
  options.periodicDetection (state.opts g) || options.comprehensiveDetection (state.opts g)
    = true →
  unlockInt c (Some l) g = Ok g' →
  ∃ o o' index,
    state.locks g !! l = Some o ∧ obj.getIn o = true
    ∧ state.mapIndex g !! caller.goid c = Some index
    ∧ state.mapIndex g' = state.mapIndex g
    ∧ state.locks g' = <[l := o']> (state.locks g)
    ∧ unlock_recorded index o o'
    ∧ state.numGoroutine g' = state.numGoroutine g
    ∧ state.opts g' = state.opts g
    ∧ state.initialized g' = true.
Proof.
  intros Hok Han. unfold unlockInt.
  intros (o & Ho & H)%bind_Ok_inv. destruct (obj.getIn o) eqn:Hin; [|done]. cbn [negb] in H.
  pose proof Ho as Ho'. apply deref_Some_inv in Ho' as (l' & [= <-] & Hl).
  assert (Hinit : state.initialized g = true) by by eapply state_ok_initialized.
  destruct (bool_decide (_ = 0)); [done|].
  apply defer_Ok_inv in H as (g1 & Hbody & Hdef). cbv beta in Hbody, Hdef.
  revert Hbody.
  assert (negb (options.periodicDetection (state.opts g)) &&
          negb (options.comprehensiveDetection (state.opts g)) = false) as ->.
  { by destruct (options.periodicDetection _), (options.comprehensiveDetection _). }
  intros Hbody.
  apply bind_Ok_inv in Hbody as (r & Hr & H). apply bind_Ok_inv in H as (r' & _ & H).
  apply bind_Ok_inv in H as (rs & _ & [= <-]).
  apply slice_get_inv in Hr as [Hrange _].
  assert (∃ index, state.mapIndex g !! caller.goid c = Some index
                   ∧ getRoutineIndex g c = index) as (index & Hmap & Hidx).
  { unfold getRoutineIndex in *. destruct (state.mapIndex g !! caller.goid c); [eauto|lia]. }
  apply bind_Ok_inv in Hdef as (g2 & Hg2 & Hg3).
  unfold addNumberLocked, updObj in Hg2. simpl in Hg2. rewrite Hl in Hg2. simpl in Hg2.
  injection Hg2 as <-.
  unfold addIsLockedRoutineIndex, updObj, getRoutineIndex in Hg3. simpl in Hg3.
  rewrite lookup_insert_eq, Hmap in Hg3. simpl in Hg3. injection Hg3 as <-. simpl.
  rewrite insert_insert_eq. eexists o, _, index. split_and!; try done.
  unfold unlock_recorded, heldBy. split_and!; by destruct o.
Qed.

(** The unlock methods: [unlockInt], then the platform lock. *)
Lemma unlock_effect c l g g'
    (k : state → bool * option loc * option loc → result state) :
  (∀ g1 glt g2, k g1 glt = Ok g2 → ∃ ps, g2 = state.set_prims g1 ps) →
  state_ok g →
  options.activated (state.opts g) = true →
  options.periodicDetection (state.opts g) || options.comprehensiveDetection (state.opts g)
    = true →
  (let* g := if options.activated (state.opts g) then unlockInt c (Some l) g else Ok g in
   let* glt := getLock (state.locks g) (Some l) in
   k g glt) = Ok g' →
  ∃ o o' index,
    state.locks g !! l = Some o ∧ obj.getIn o = true
    ∧ state.mapIndex g !! caller.goid c = Some index
    ∧ state.mapIndex g' = state.mapIndex g
    ∧ state.locks g' = <[l := o']> (state.locks g)
    ∧ unlock_recorded index o o'
    ∧ state.numGoroutine g' = state.numGoroutine g
    ∧ state.opts g' = state.opts g
    ∧ state.initialized g' = true.
Proof.
  intros Hk Hok Hact Han. rewrite Hact.
  intros (g1 & Hg1 & H)%bind_Ok_inv. apply bind_Ok_inv in H as (glt & _ & H).
  apply Hk in H as [ps ->]. simpl. by apply unlockInt_effect.
Qed.

(** ** Who holds which lock *)

Lemma same_hold_eq h h' : same_hold h h' = true → h = h'.
Proof.
  unfold same_hold. intros [[?%bool_decide_eq_true ?%bool_decide_eq_true]%andb_prop
    ?%eqb_prop]%andb_prop. destruct h, h'; simpl in *. congruence.
Qed.

Lemma count_range f hs : 0 ≤ count f hs ≤ Z.of_nat (length hs).
Proof. induction hs as [|h hs IH]; simpl; [lia|]. destruct (f h); lia. Qed.

Lemma count_ext f f' hs : (∀ h, h ∈ hs → f h = f' h) → count f hs = count f' hs.
Proof.
  induction hs as [|h hs IH]; intros Hf; simpl; [done|].
  rewrite (Hf h) by by left. rewrite IH; [done|]. intros x Hx. apply Hf. by right.
Qed.

Lemma count_zero f hs : (∀ h, h ∈ hs → f h = false) → count f hs = 0.
Proof.
  induction hs as [|h hs IH]; intros Hf; simpl; [done|].
  rewrite (Hf h) by by left. rewrite IH; [done|]. intros x Hx. apply Hf. by right.
Qed.

Lemma count_pos f hs : 0 < count f hs ↔ ∃ h, h ∈ hs ∧ f h = true.
Proof.
  induction hs as [|h hs IH]; simpl.
  - split; [lia|]. by intros (h & Hh%elem_of_nil & _).
  - pose proof (count_range f hs). destruct (f h) eqn:Hf.
    + split; [|lia]. intros _. exists h. split; [by left|done].
    + rewrite Z.add_0_l, IH. split.
      * intros (x & Hx & Hfx). exists x. split; [by right|done].
      * intros (x & [->|Hx]%elem_of_cons & Hfx); [congruence|eauto].
Qed.

Lemma release_inv h hs hs' :
  release h hs = Some hs' →
  h ∈ hs ∧ (∀ x, x ∈ hs' → x ∈ hs) ∧ length hs = S (length hs')
  ∧ ∀ f, count f hs = (if f h then 1 else 0) + count f hs'.
Proof.
  revert hs'. induction hs as [|h0 hs IH]; intros hs'; simpl; [done|].
  destruct (same_hold h0 h) eqn:Hsame.
  - apply same_hold_eq in Hsame as ->. intros [= <-]. split_and!; try done.
    + by left.
    + intros x Hx. by right.
  - destruct (release h hs) as [hs1|] eqn:Hrel; [|done]. simpl. intros [= <-].
    destruct (IH hs1 eq_refl) as (Hin & Hsub & Hlen & Hcount). split_and!.
    + by right.
    + intros x [->|Hx]%elem_of_cons; [by left|right; by apply Hsub].
    + simpl. by rewrite Hlen.
    + intros f. simpl. rewrite Hcount. lia.
Qed.

Lemma by_routine_ext g g' l index hs :
  (∀ h, h ∈ hs → state.mapIndex g' !! hold.holder h = state.mapIndex g !! hold.holder h) →
  count (by_routine g' l index) hs = count (by_routine g l index) hs.
Proof. intros Hmap. apply count_ext. intros h Hh. unfold by_routine. by rewrite Hmap. Qed.

(** The reader flag of the hold that an acquisition asks for is the flag
    that [lockInt] is called with, and a reader acquisition is on a
    rw-mutex. *)
Lemma acquisition_inv g a h :
  acquisition g a = Some h →
  ∃ c o rLock,
    runCall g a = lockInt c (Some (hold.lock h)) rLock g
    ∧ state.locks g !! hold.lock h = Some o
    ∧ hold.holder h = caller.goid c
    ∧ hold.reader h = rLock
    ∧ (rLock = true → isRW o = true).
Proof.
  destruct a as [c|c|c [l|]|c [l|]|c [l|]|op|]; simpl; try done;
    destruct (state.locks g !! l) as [[m|m]|] eqn:Hl; try done; intros [= <-]; simpl;
    eexists c, _, _; split_and!; try done.
Qed.

Lemma releasing_inv g a h :
  releasing g a = Some h →
  ∃ c (k : state → bool * option loc * option loc → result state),
    (∀ g1 glt g2, k g1 glt = Ok g2 → ∃ ps, g2 = state.set_prims g1 ps)
    ∧ runCall g a
      = (let* g := if options.activated (state.opts g)
                   then unlockInt c (Some (hold.lock h)) g else Ok g in
         let* glt := getLock (state.locks g) (Some (hold.lock h)) in
         k g glt)
    ∧ hold.holder h = caller.goid c.
Proof.
  destruct a as [c|c|c m|c m|c m|op|]; simpl; try done.
  destruct op as [c m|c [l|]|c m|c m|c [l|]|c [l|]]; simpl; try done;
    destruct (state.locks g !! l) as [[m|m]|] eqn:Hl; try done; intros [= <-]; simpl.
  - exists c, (λ g '(_, l, _), onPrim g l sync.Unlock). split_and!; try done.
    intros g1 [[d l1] t] g2. apply onPrim_inv.
  - exists c, (λ g '(_, _, t), onPrim g t sync.Unlock). split_and!; try done.
    intros g1 [[d l1] t] g2. apply onPrim_inv.
  - exists c, (λ g '(_, _, t), onPrim g t sync.RUnlock). split_and!; try done.
    intros g1 [[d l1] t] g2. apply onPrim_inv.
Qed.

Lemma count_cons f h hs : count f (h :: hs) = (if f h then 1 else 0) + count f hs.
Proof. done. Qed.

Lemma on_lock_true l h : hold.lock h = l → on_lock l h = true.
Proof. intros. by apply bool_decide_eq_true_2. Qed.

Lemma on_lock_false l h : hold.lock h ≠ l → on_lock l h = false.
Proof. intros. by apply bool_decide_eq_false_2. Qed.

Lemma by_routine_true g l index h :
  hold.lock h = l → state.mapIndex g !! hold.holder h = Some index →
  by_routine g l index h = true.
Proof. intros. by apply bool_decide_eq_true_2. Qed.

Lemma by_routine_false g l index h :
  hold.lock h ≠ l ∨ state.mapIndex g !! hold.holder h ≠ Some index →
  by_routine g l index h = false.
Proof. intros H. apply bool_decide_eq_false_2. intros [? ?]. by destruct H. Qed.

Section holds_recorded_step.
Variables (g : state) (hs : list hold).
Hypothesis g_ok : state_ok g.
Hypothesis g_made : locks_made g.
Hypothesis g_activated : options.activated (state.opts g) = true.
Hypothesis g_analysis :
  options.periodicDetection (state.opts g) || options.comprehensiveDetection (state.opts g)
  = true.
Hypothesis g_check : options.checkDoubleLocking (state.opts g) = true.
Hypothesis g_holds : holds_recorded g hs.
Hypothesis hs_few : Z.of_nat (length hs) < 2 ^ 63 - 1.

Lemma holds_recorded_acquire a h g' :
  acquisition g a = Some h → runCall g a = Ok g' → holds_recorded g' (h :: hs).
Proof.
  intros (c & o0 & rLock & -> & Hl0 & Hholder & Hreader & Hrw)%acquisition_inv Hrun.
  destruct h as [gid l rd]. simpl in *. subst gid rd.
  apply lockInt_effect in Hrun
    as (o & o' & index & Hl & Hin & Hidx & Hmap & Hlocks & Hrec & Hn & Hopts & Hinit & Hcheck);
    [|done..].
  rewrite Hl in Hl0. injection Hl0 as <-.
  destruct g_holds as (Hempty & Hreg & Hcounts).
  destruct Hrec as (_ & Hrw' & Hnum & Hcnt & Hflags).
  assert (Hold : ∀ x, x ∈ hs →
            state.mapIndex g' !! hold.holder x = state.mapIndex g !! hold.holder x).
  { intros x [_ [i Hi]]%Hreg. destruct Hmap as [->|[Hnone ->]]; [done|].
    rewrite lookup_insert_ne; [done|]. intros Heq. rewrite Heq in Hnone. congruence. }
  destruct (Hcounts l o Hl) as (Hnl & Hheld & Hfl).
  split_and!.
  - by rewrite Hinit.
  - intros x [->|Hx]%elem_of_cons; simpl.
    + split; [|by eexists]. rewrite Hlocks, lookup_insert_eq. by eexists.
    + destruct (Hreg x Hx) as [[ox Hox] [i Hi]]. split.
      * rewrite Hlocks. destruct (decide (hold.lock x = l)) as [->|Hne];
          [rewrite lookup_insert_eq|rewrite lookup_insert_ne by done]; by eexists.
      * rewrite Hold by done. by eexists.
  - intros l1 o1. rewrite Hlocks, Hn. destruct (decide (l1 = l)) as [->|Hne].
    + rewrite lookup_insert_eq. intros [= <-]. split_and!.
      * rewrite Hnum, Hnl, count_cons, on_lock_true by done.
        pose proof (count_range (on_lock l) hs). rewrite int_add_small; [lia|].
        unfold int_range. lia.
      * intros i. unfold heldBy. rewrite Hcnt, count_cons.
        rewrite (by_routine_ext g g') by done.
        pose proof (count_range (by_routine g l index) hs).
        destruct (decide (i = index)) as [->|Hi].
        -- rewrite lookup_insert_eq, by_routine_true by done. simpl.
           rewrite Hheld, int_add_small; [lia|]. unfold int_range. lia.
        -- rewrite lookup_insert_ne by done. fold (heldBy o i). rewrite Hheld.
           rewrite by_routine_false; [lia|]. right. simpl. rewrite Hidx. congruence.
      * destruct (bool_decide (1 < state.numGoroutine g)) eqn:Hmulti.
        -- intros x i [->|Hx]%elem_of_cons Hxl Hxi; simpl in *.
           ++ rewrite Hidx in Hxi. injection Hxi as <-. rewrite Hflags.
              rewrite bool_decide_eq_true_2 by done. destruct (isRW o) eqn:Eo; simpl; [done|].
              destruct rLock; [by specialize (Hrw eq_refl)|]. by destruct o.
           ++ rewrite Hold in Hxi by done. rewrite Hflags. simpl.
              destruct (isRW o && bool_decide (i = index)) eqn:E; [|by apply Hfl].
              apply andb_prop in E as [Eo ->%bool_decide_eq_true].
              assert (0 < count (on_lock l) hs) as Hpos.
              { apply count_pos. exists x. split; [done|]. by apply bool_decide_eq_true_2. }
              assert (0 < count (by_routine g l index) hs) as Hpos'.
              { apply count_pos. exists x. split; [done|]. by apply bool_decide_eq_true_2. }
              destruct Hcheck as [Hzero|[-> Hflag]]; [done|lia|rewrite Hheld in Hzero; lia|].
              rewrite <- (Hfl x index) by done. done.
        -- intros i. rewrite Hflags. simpl. apply Hfl.
    + rewrite lookup_insert_ne by done. intros Hl1.
      destruct (Hcounts l1 o1 Hl1) as (Hnl1 & Hheld1 & Hfl1). split_and!.
      * rewrite count_cons, on_lock_false by (simpl; congruence). lia.
      * intros i. rewrite count_cons, by_routine_false by (left; simpl; congruence).
        rewrite (by_routine_ext g g') by done. rewrite Hheld1. lia.
      * destruct (bool_decide (1 < state.numGoroutine g)); [|done].
        intros x i [->|Hx]%elem_of_cons Hxl Hxi; simpl in *; [done|].
        rewrite Hold in Hxi by done. by apply Hfl1.
Qed.

Lemma holds_recorded_release a h hs' g' :
  releasing g a = Some h → release h hs = Some hs' → runCall g a = Ok g' →
  holds_recorded g' hs'.
Proof.
  intros (c & k & Hk & -> & Hholder)%releasing_inv Hrel Hrun.
  destruct h as [gid l rd]. simpl in *. subst gid.
  apply unlock_effect in Hrun
    as (o & o' & index & Hl & Hin & Hidx & Hmap & Hlocks & Hrec & Hn & Hopts & Hinit);
    [|done..].
  destruct g_holds as (Hempty & Hreg & Hcounts).
  destruct Hrec as (_ & Hrw' & Hnum & Hcnt & Hflags).
  destruct (release_inv _ _ _ Hrel) as (Hin' & Hsub & Hlen & Hcount).
  destruct (Hcounts l o Hl) as (Hnl & Hheld & Hfl).
  assert (Hext : ∀ l1 i, count (by_routine g' l1 i) hs' = count (by_routine g l1 i) hs').
  { intros l1 i. apply by_routine_ext. intros x _. by rewrite Hmap. }
  split_and!.
  - by rewrite Hinit.
  - intros x Hx%Hsub. destruct (Hreg x Hx) as [[ox Hox] Hi]. rewrite Hmap. split; [|done].
    rewrite Hlocks. destruct (decide (hold.lock x = l)) as [->|Hne];
      [rewrite lookup_insert_eq|rewrite lookup_insert_ne by done]; by eexists.
  - intros l1 o1. rewrite Hlocks, Hn. destruct (decide (l1 = l)) as [->|Hne].
    + rewrite lookup_insert_eq. intros [= <-]. split_and!.
      * rewrite Hnum, Hnl, (Hcount (on_lock l)), on_lock_true by done.
        pose proof (count_range (on_lock l) hs'). rewrite int_add_small; [lia|].
        unfold int_range. lia.
      * intros i. unfold heldBy. rewrite Hcnt, Hext.
        pose proof (count_range (by_routine g l index) hs').
        destruct (decide (i = index)) as [->|Hi].
        -- rewrite lookup_insert_eq. simpl.
           rewrite Hheld, (Hcount (by_routine g l index)), by_routine_true by done.
           rewrite int_add_small; [lia|]. unfold int_range. lia.
        -- rewrite lookup_insert_ne by done. fold (heldBy o i).
           rewrite Hheld, (Hcount (by_routine g l i)).
           rewrite by_routine_false; [lia|]. right. simpl. rewrite Hidx. congruence.
      * destruct (bool_decide (1 < state.numGoroutine g)).
        -- intros x i Hx%Hsub Hxl Hxi. rewrite Hflags. rewrite Hmap in Hxi. by apply Hfl.
        -- intros i. rewrite Hflags. apply Hfl.
    + rewrite lookup_insert_ne by done. intros Hl1.
      destruct (Hcounts l1 o1 Hl1) as (Hnl1 & Hheld1 & Hfl1). split_and!.
      * rewrite Hnl1, (Hcount (on_lock l1)), on_lock_false by (simpl; congruence). lia.
      * intros i. rewrite Hext, Hheld1, (Hcount (by_routine g l1 i)).
        rewrite by_routine_false by (left; simpl; congruence). lia.
      * destruct (bool_decide (1 < state.numGoroutine g)); [|done].
        intros x i Hx%Hsub Hxl Hxi. rewrite Hmap in Hxi. by apply Hfl1.
Qed.

Lemma holds_recorded_FindPotentialDeadlocks g' :
  FindPotentialDeadlocks g = Ok g' → holds_recorded g' hs.
Proof. by intros [out ->]%FindPotentialDeadlocks_frame. Qed.

(** A wrapper as the constructors make it. *)
Lemma holds_recorded_new (g1 : state) (o : lockObj) :
  (if state.initialized g then g1 = g else initialize g = Ok g1) →
  obj.getNumberLocked o = 0 → obj.getIsLockedRoutineIndex o = ∅ →
  (∀ i, obj.getRLock o i = false) →
  holds_recorded
    (state.mk (state.opts g1) (state.initialized g1) (state.routines g1)
       (state.numberRoutines g1) (state.mapIndex g1)
       (<[Pos.succ (state.nextPtr g1) := o]> (state.locks g1))
       (<[state.nextPtr g1 := sync.zero]> (state.prims g1))
       (Pos.succ (Pos.succ (state.nextPtr g1))) (state.numGoroutine g1) (state.stderr g1))
    hs.
Proof.
  intros Hg1 Hnum Hcnt Hfl. destruct g_holds as (Hempty & Hreg & Hcounts).
  assert (Hfresh : state.locks g !! Pos.succ (state.nextPtr g) = None).
  { destruct (state.locks g !! Pos.succ (state.nextPtr g)) as [o1|] eqn:E; [|done].
    apply g_made in E as [_ ?]. lia. }
  assert (Hnone : ∀ f, (∀ x, f x = true → hold.lock x = Pos.succ (state.nextPtr g)) →
            count f hs = 0).
  { intros f Hf. apply count_zero. intros x Hx. destruct (f x) eqn:E; [|done].
    apply Hf in E. destruct (Hreg x Hx) as [[ox Hox] _]. apply g_made in Hox as [_ ?]. lia. }
  assert (Hnew : ∀ i, heldBy o i = 0).
  { intros i. unfold heldBy. by rewrite Hcnt, lookup_empty. }
  destruct (state.initialized g) eqn:Hinit.
  - subst g1. unfold holds_recorded. simpl. rewrite Hinit. split_and!; [done| |].
    + intros x Hx. destruct (Hreg x Hx) as [[ox Hox] Hi]. split; [|done].
      rewrite lookup_insert_ne; [by eexists|]. intros Heq. apply g_made in Hox as [_ ?]. lia.
    + intros l o1. destruct (decide (l = Pos.succ (state.nextPtr g))) as [->|Hne].
      * rewrite lookup_insert_eq. intros [= <-]. split_and!.
        -- rewrite Hnum. symmetry. apply Hnone. by intros x ?%bool_decide_eq_true.
        -- intros i. rewrite Hnew. symmetry. apply Hnone.
           by intros x [? _]%bool_decide_eq_true.
        -- match goal with |- context [bool_decide ?P] => destruct (bool_decide P) end;
             [|exact Hfl]. intros x i Hx Hxl.
           destruct (Hreg x Hx) as [[ox Hox] _]. apply g_made in Hox as [_ ?]. lia.
      * rewrite lookup_insert_ne by done. apply Hcounts.
  - specialize (Hempty eq_refl).
    assert (hs = []) as ->.
    { destruct hs as [|x hs']; [done|]. destruct (Hreg x) as [[ox Hox] _]; [by left|].
      by rewrite Hempty, lookup_empty in Hox. }
    unfold initialize in Hg1. apply bind_Ok_inv in Hg1 as (rs & _ & [= <-]).
    unfold holds_recorded. simpl. rewrite Hempty. split_and!; [done| |].
    + by intros x Hx%elem_of_nil.
    + intros l o1. rewrite lookup_insert_Some, lookup_empty.
      intros [[<- <-]|[_ [=]]]. split_and!; [done|exact Hnew|].
      match goal with |- context [bool_decide ?P] => destruct (bool_decide P) end;
        [|exact Hfl]. by intros x i Hx%elem_of_nil.
Qed.

Lemma holds_recorded_step a hs' g' :
  runCall g a = Ok g' → holds_step g hs a = Some hs' →
  holds_recorded g' hs' ∧ (length hs' ≤ S (length hs))%nat.
Proof.
  intros Hrun Hstep. destruct a as [c|c|c m|c m|c m|op|]; unfold holds_step in Hstep.
  - injection Hstep as <-. split; [|lia]. simpl in Hrun.
    apply bind_Ok_inv in Hrun as ([g2 m] & Hnew & [= <-]). unfold NewLock in Hnew.
    apply bind_Ok_inv in Hnew as (g1 & Hg1 & [= <- _]).
    apply holds_recorded_new; [|done..].
    revert Hg1. destruct (state.initialized g); [by intros [= <-]|done].
  - injection Hstep as <-. split; [|lia]. simpl in Hrun.
    apply bind_Ok_inv in Hrun as ([g2 m] & Hnew & [= <-]). unfold NewRWLock in Hnew.
    apply bind_Ok_inv in Hnew as (g1 & Hg1 & [= <- _]).
    apply holds_recorded_new; [|done..].
    revert Hg1. destruct (state.initialized g); [by intros [= <-]|done].
  - destruct (acquisition g (CallMutexLock c m)) as [h|] eqn:Ha; [|done].
    injection Hstep as <-. split; [|simpl; lia]. by eapply holds_recorded_acquire.
  - destruct (acquisition g (CallRWLock c m)) as [h|] eqn:Ha; [|done].
    injection Hstep as <-. split; [|simpl; lia]. by eapply holds_recorded_acquire.
  - destruct (acquisition g (CallRWRLock c m)) as [h|] eqn:Ha; [|done].
    injection Hstep as <-. split; [|simpl; lia]. by eapply holds_recorded_acquire.
  - destruct (releasing g (CallTry op)) as [h|] eqn:Hr; [|done].
    split; [by eapply holds_recorded_release|].
    apply release_inv in Hstep as (_ & _ & Hlen & _). lia.
  - injection Hstep as <-. split; [|lia]. by apply holds_recorded_FindPotentialDeadlocks.
Qed.
End holds_recorded_step.

Lemma holds_recorded_start opts n : holds_recorded (start opts n) [].
Proof.
  split_and!; [done|by intros h Hh%elem_of_nil|]. intros l o Hl. simpl in Hl.
  by rewrite lookup_empty in Hl.
Qed.

Lemma tracked_recorded calls : ∀ g0 hs0 g hs,
  state_ok g0 → locks_made g0 →
  options.activated (state.opts g0) = true →
  options.periodicDetection (state.opts g0) || options.comprehensiveDetection (state.opts g0)
    = true →
  options.checkDoubleLocking (state.opts g0) = true →
  holds_recorded g0 hs0 →
  Z.of_nat (length hs0 + length calls) < 2 ^ 63 - 1 →
  tracked g0 hs0 calls = Some (g, hs) →
  state_ok g ∧ locks_made g ∧ state.opts g = state.opts g0 ∧ holds_recorded g hs.
Proof.
  induction calls as [|a calls IH]; intros g0 hs0 g hs Hok Hmade Hact Han Hchk Hrec Hlen;
    simpl.
  { by intros [= <- <-]. }
  destruct (runCall g0 a) as [g1| | | |] eqn:Hrun; try done.
  destruct (holds_step g0 hs0 a) as [hs1|] eqn:Hstep; [|done]. intros Htr.
  simpl in Hlen.
  destruct (holds_recorded_step g0 hs0 Hok Hmade Hact Han Hchk Hrec ltac:(lia) a hs1 g1
              Hrun Hstep) as [Hrec1 Hlen1].
  pose proof (runCall_keeps_opts _ _ _ Hrun) as [[Hopts _] _].
  apply IH in Htr as (Hokg & Hmadeg & Hoptsg & Hrecg).
  - split_and!; try done. by rewrite Hoptsg.
  - by eapply runCall_state_ok.
  - by eapply runCall_locks_made.
  - by rewrite Hopts.
  - by rewrite Hopts.
  - by rewrite Hopts.
  - done.
  - lia.
Qed.

(** With an analysis enabled, [lockInt] ends the program only after it
    has the routine of the caller. *)
Lemma lockInt_Exit_registered c m rLock g code e :
  options.activated (state.opts g) = true →
  options.periodicDetection (state.opts g) || options.comprehensiveDetection (state.opts g)
    = true →
  lockInt c m rLock g = Exit code e → ∃ g1 index, ensureRoutine g c = Ok (g1, index).
Proof.
  intros Hact Han. unfold lockInt. rewrite Hact. cbn [negb].
  pose proof (returns_or_panics_deref (state.locks g) m) as Hderef.
  destruct (deref (state.locks g) m) as [o| | | |]; try done. cbn [bind].
  destruct (negb (obj.getIn o)); [done|]. rewrite defer_Exit_iff.
  assert (negb (options.periodicDetection (state.opts g)) &&
          negb (options.comprehensiveDetection (state.opts g)) = false) as ->.
  { by destruct (options.periodicDetection _), (options.comprehensiveDetection _). }
  pose proof (returns_or_panics_ensureRoutine g c) as Hens.
  destruct (ensureRoutine g c) as [[g1 index]| | | |]; try done; [by eauto|].
  intros [?|(g' & ? & _)]; done.
Qed.

(** The count that the wrapper keeps for the routine of the caller is
    positive exactly when the caller holds the lock. *)
Lemma heldBy_alreadyHolds g hs c l o g1 index :
  state_ok g → holds_recorded g hs →
  state.locks g !! l = Some o →
  ensureRoutine g c = Ok (g1, index) →
  0 ≤ index →
  (0 < heldBy o index ↔ ∃ x, x ∈ hs ∧ hold.holder x = caller.goid c ∧ hold.lock x = l)
  ∧ ∀ x, x ∈ hs → hold.holder x = caller.goid c → hold.lock x = l →
      state.mapIndex g !! hold.holder x = Some index.
Proof.
  intros Hok (_ & Hreg & Hcounts) Hl Hens Hindex.
  destruct (Hcounts l o Hl) as (_ & Hheld & _).
  destruct (ensureRoutine_mapIndex _ _ _ _ Hok Hens) as (Hidx & _ & Hmap).
  assert (Hmine : ∀ x, x ∈ hs → hold.holder x = caller.goid c →
            state.mapIndex g !! hold.holder x = Some index).
  { intros x Hx Hc. destruct (Hreg x Hx) as [_ [i Hi]]. rewrite Hi. f_equal.
    destruct Hmap as [Hsame|[Hnone _]]; [|rewrite Hc in Hi; congruence].
    rewrite Hidx. unfold getRoutineIndex. by rewrite Hsame, <- Hc, Hi. }
  split; [|by auto]. rewrite Hheld, count_pos. split.
  - intros (x & Hx & [Hxl Hxi]%bool_decide_eq_true). exists x. split_and!; [done| |done].
    destruct Hok as (_ & _ & Hrange & Hinj & _).
    destruct Hmap as [Hsame|[Hnone Hnew]].
    + apply (Hinj _ _ index); [done|]. rewrite <- Hsame.
      rewrite Hidx. unfold getRoutineIndex.
      destruct (state.mapIndex g1 !! caller.goid c) as [i|] eqn:E; [done|].
      rewrite Hidx in Hindex. unfold getRoutineIndex in Hindex. rewrite E in Hindex. lia.
    + apply Hrange in Hxi. rewrite Hidx in Hxi. unfold getRoutineIndex in Hxi.
      rewrite Hnew, lookup_insert_eq in Hxi. lia.
  - intros (x & Hx & Hc & Hxl). exists x. split; [done|].
    apply bool_decide_eq_true_2. split; [done|]. by apply Hmine.
Qed.

(** The exit of an acquisition in terms of the holds: [lockInt] ends the
    program only with the report of double locking, and exactly when the
    goroutine holds the lock already and not both the new acquisition is a
    reader's and the hold is on record as a reader's. *)
Lemma acquisition_exits (opts : options) (numGoroutine : Z)
    (calls : list apiCall) (g : state) (hs : list hold) (a : apiCall) (h : hold) :
  opts_ok opts →
  options.activated opts = true →
  options.checkDoubleLocking opts = true →
  options.periodicDetection opts || options.comprehensiveDetection opts = true →
  Z.of_nat (length calls) < 2 ^ 63 - 1 →
  tracked (start opts numGoroutine) [] calls = Some (g, hs) →
  acquisition g a = Some h →
  (∀ code e, runCall g a = Exit code e →
     exitsDoubleLocking (Some (hold.lock h)) (runCall g a))
  ∧ (exitsDoubleLocking (Some (hold.lock h)) (runCall g a) ↔
     ∃ x, x ∈ hs ∧ hold.holder x = hold.holder h ∧ hold.lock x = hold.lock h
          ∧ ¬ (hold.reader h = true ∧ recorded_reader g x = true)).
Proof.
  intros Hopts Hact Hchk Han Hlen Htr Ha.
  apply tracked_recorded in Htr as (Hok & Hmade & Ho & Hrec);
    [|by apply state_ok_start|by intros l o|done..|apply holds_recorded_start|simpl; lia].
  simpl in Ho. rewrite <- Ho in Hact, Hchk, Han.
  apply acquisition_inv in Ha as (c & o & rLock & -> & Hl & Hholder & Hreader & Hrw).
  destruct h as [gid l rd]. simpl in *. subst gid rd.
  destruct (Hmade l o Hl) as [(Hin & _) _].
  assert (Hderef : deref (state.locks g) (Some l) = Ok o) by (unfold deref; by rewrite Hl).
  destruct (ensureRoutine g c) as [[g1 index]|msg0|code0 e0| |] eqn:Hens; cycle 1.
  1-4: (assert (∀ code e, lockInt c (Some l) rLock g ≠ Exit code e) as Hno
         by (intros code e (g1 & index & ?)%lockInt_Exit_registered; [congruence|done..]);
       assert (¬ ∃ x, x ∈ hs ∧ hold.holder x = caller.goid c ∧ hold.lock x = l) as Hnot).
  1,3,5,7: (intros (x & Hx & Hc & Hxl);
            destruct Hrec as (_ & Hreg & _); destruct (Hreg x Hx) as [_ [i Hi]];
            unfold ensureRoutine, getRoutineIndex in Hens; rewrite <- Hc, Hi in Hens;
            destruct Hok as (_ & _ & Hrange & _); apply Hrange in Hi;
            by rewrite bool_decide_eq_false_2 in Hens by lia).
  1-4: (split;
        [intros code e He; by apply Hno in He
        |split; [intros (e & He & _); by apply Hno in He
                |intros (x & Hx & Hc & Hxl & _); destruct Hnot; by exists x]]).
  pose proof (ensureRoutine_registered g c g1 index Hok (orb_prop _ _ Han) Hens) as Hindex.
  pose proof Hens as Hens'.
  apply ensureRoutine_state_ok in Hens' as (Hok1 & _);
    [|done|by eapply state_ok_initialized].
  destruct (heldBy_alreadyHolds g hs c l o g1 index Hok Hrec Hl Hens ltac:(lia))
    as [Hheld Hmine].
  destruct Hrec as (_ & Hreg & Hcounts). destruct (Hcounts l o Hl) as (Hnl & Hcnt & Hfl).
  assert (Hcons : counters_consistent o index).
  { split.
    - rewrite Hcnt. apply count_range.
    - intros (x & Hx & _ & Hxl)%Hheld. rewrite Hnl.
      enough (0 < count (on_lock l) hs) by lia. apply count_pos. exists x.
      split; [done|by apply on_lock_true]. }
  assert (Hslice : is_Ok (slice_get (state.routines g1) index)).
  { destruct Hok1 as (_ & Hn & _). unfold slice_get. rewrite decide_True by lia.
    destruct (lookup_lt_is_Some_2 (state.routines g1) (Z.to_nat index)) as [r ->]; [lia|].
    by eexists. }
  destruct (lockInt_double_locking c (Some l) rLock g g1 o index Hact Han Hchk Hderef Hin
              Hens Hslice Hcons) as [Honly Hiff].
  assert (Hflag : ∀ x, x ∈ hs → hold.holder x = caller.goid c → hold.lock x = l →
            obj.getRLock o index = recorded_reader g x).
  { intros x Hx Hc Hxl. unfold recorded_reader.
    destruct (bool_decide (1 < state.numGoroutine g)); simpl; [|apply Hfl].
    apply Hfl; [done..|]. by apply Hmine. }
  split.
  - intros code e He. by destruct (Honly code e He) as [_ Hex].
  - rewrite Hiff.
    2:{ destruct (FindPotentialDeadlocks_total (reported g1 (Some l))) as [out ->];
          [by apply state_ok_stderr|by eexists]. }
    unfold doubleLocking. rewrite Hheld. split.
    + intros [(x & Hx & Hc & Hxl) Hnot]. exists x. split_and!; try done.
      by rewrite <- (Hflag x).
    + intros (x & Hx & Hc & Hxl & Hnot). split; [by exists x|]. by rewrite (Hflag x).
Qed.




